(* ===== verification/_CoqProject ===== *)
-Q . S2P
Prelude.v
CircuitBreaker.v
Config.v
TLSClient.v
GoFloat.v
Endpoint.v
LoadBalancer.v
Chain.v
BlockNumber.v
Health.v
FloatLaws.v
RateLimit.v
Sha256.v
Cache.v
Metrics.v
Proxy.v
Grpc.v
Pool.v
WebSocket.v
Watcher.v
Server.v
App.v
