(* ===== verification/Prelude.v ===== *)
(** * A verification development for multichain-rpc-proxy

    The program is a JSON-RPC proxy in Go.  A client sends a request for a chain
    over HTTP or gRPC; the proxy limits its rate, looks the answer up in a cache,
    and otherwise forwards the request to one of the chain's endpoints, chosen by
    weighted round robin among the healthy ones and guarded by a circuit breaker,
    retrying on another endpoint when one fails.  Health checks run beside this
    and mark endpoints that fail or lag behind.  This library models that code as
    executable Rocq functions and step relations, and proves what makes it
    correct, and where it is not, what goes wrong.

    ** Conventions

    Every definition has the name of the Go function or type it translates (a
    trailing underscore where Rocq reserves the name, [Set_], [Check_]).  A method
    that reads the clock takes what it read, as [now]; one that may panic returns
    [go A]; a pair [(value, error)] is a [result A].  An [int] or [int64] is a [Z]
    with its wrap-around written out ([wrap64], [add64]), an [int32] one with
    [wrap32]; a [float64] is an IEEE binary64 number of [SpecFloat]; a map is a
    [gmap], a Go pointer to a shared object a key of a [gmap] that is the store.
    Go's unspecified map order and the order in which goroutines deliver results
    are arguments, over which the theorems quantify.

    What is not the program's own code is an argument of the definitions that use
    it: [encoding/json] and YAML decoding, the outcome of an HTTP request, of a
    dial, a read or a write, the files and certificates, Fiber's path matcher and
    compression, the Redis client, [net.Listen] and the gRPC library, fsnotify.
    The only laws assumed of them are two, both in [App]: the path of [app.Use]
    with no path of its own matches every request, and the compression middleware hands on
    status, body, errors and panics of what it wraps ([App.transparent]).

    ** The files, in the order of their dependencies

    - [Prelude]: words, time, errors, panics; [run] and [execute], the runs of
      executable transition functions, with their invariant rules; [steps] and
      [reachable] for step relations; counting over intervals.
    - [CircuitBreaker], Module [CB]: [internal/chain/circuitbreaker.go].  The state
      is the struct; [Allow], [RecordSuccess], [RecordFailure] and the others are
      functions on it, [CB.exec] runs any interleaving of them.  The half-open
      state, which the code computes from the clock and never stores, is compared
      with an explicit three-state machine ([breaker_refines_spec]).
    - [Config], Module [Cfg]: the records and [Load] of [internal/config/config.go].
    - [TLSClient], Module [ClientTLS]: [internal/tls/client.go].
    - [GoFloat], Module [F64], and [FloatLaws]: [float64] arithmetic, and the laws
      of rounding that the rate limiters need.
    - [Endpoint], Module [EP]: [internal/chain/endpoint.go].  [Forward] is the two
      steps [ForwardBegin] and [ForwardEnd] with the request between them, so that
      [EP.life_step] can interleave the requests of many goroutines and the health
      checks on one endpoint.
    - [LoadBalancer], Module [LB]: [internal/chain/loadbalancer.go]; each pass over
      the endpoints sees its own snapshot of their atomic health flags.
    - [Chain], Module [Chain]: [internal/chain/chain.go].  [ForwardWithRetry] is a
      loop over attempts, each of which carries what other goroutines do to the
      store at every point where the code gives way, and the outcome of its wait.
    - [BlockNumber] and [Health]: [internal/chain/health.go], the parsing of block
      heights, a round of checks in any order of arrival, and the checking
      goroutine with [Start] and [Stop] as a step relation.
    - [RateLimit]: [internal/ratelimit/ratelimit.go], Modules [TokenBucket],
      [SlidingWindow] and [Multi] behind the class [Limiter] of the Go interface,
      and the limiter of [internal/proxy/middleware.go], Module [ProxyLimiter];
      Module [Guarantees] has the theorems.
    - [Sha256] and [Cache]: [internal/cache/cache.go], Modules [InMemory] and
      [Redis], with the hash that derives the keys.
    - [Metrics]: [internal/metrics/prometheus.go], as the list of updates that each
      [Record] function makes to the declared vectors.
    - [Proxy]: [internal/proxy/handler.go] and the four middlewares.  A handler
      maps the shared state (store, manager, cache, metric updates) and the rate
      limiter to their new values and a response, an error or a panic.
    - [Grpc]: [internal/grpc/rpc_service.go] and [health_service.go], on the state
      they share with the HTTP handlers.
    - [Pool]: [internal/websocket/pool.go], on a heap of connections that callers
      alias; [WebSocket], Module [WS]: [internal/websocket/handler.go], a session
      as two program counters that share [backendConn] without a lock, every
      access a step of its own.
    - [Watcher]: [internal/config/watcher.go], the debounce timer and overlapping
      reloads.
    - [Server], Module [GrpcServer]: [internal/grpc/server.go] and the
      interceptors.
    - [App]: [cmd/proxy/main.go].  [boot] builds everything from the
      configuration, [serve] is the registered application, [main_step] what the
      listeners and signals do to the running program, [shutdown] its end.

    ** What the theorems show

    - Balancing: any full round of [Next] gives every healthy endpoint exactly its
      weight, in any configuration ([LB.weighted_round_robin]); [Next] fails only
      when it must ([next_complete]).
    - Breakers: reachable states are well formed, the budget of half-open probes is
      kept, and enough successful probes close the breaker; the refinement above.
      An endpoint drives its breaker by [Allow] and one recorded outcome
      per request and nothing else ([EP.endpoint_drives_breaker]), and its counters
      add up under interleaving ([forward_accounting]).
    - Retries: no endpoint fails twice in a call, a call succeeds if any healthy
      endpoint answers, and it ends in one of four described ways
      ([retry_never_repeats], [retry_fails_over], [retry_error_forms]).  The loop
      is structural in the number of attempts, [maxRetries + 1].
    - Health: the verdicts of a round in closed form whatever the orders, the lag
      rule, and that no round begins after [Stop]; [App.shutdown_quiesces] lifts
      this to all chains of the program.
    - Limits: token counts stay within the bucket, rounding included; a burst is
      exactly that of an integer counter; a window is never exceeded, cleanup
      included; keys do not disturb each other; the proxy's limiter is the
      package's ([Guarantees]).
    - Caching: the cache answers a [Get] exactly from its history
      ([cache_refines_history]); the exact cache operations and metric updates of a
      request; what HTTP and gRPC make of a stored answer.
    - Sessions, pool and watcher: every message has one fate, answers keep their
      order, a steady session dials once and leaks nothing; the pool refines a
      specification of leases; reloads are debounced and form one history.
    - The program: an RPC request goes through recovery, CORS, compression and
      limiter in this order, every request is answered even if a handler panics,
      and a booted program runs what its configuration says.
    - Faults that the models show are theorems too: a session that leaks its
      backend or crashes the program, a starved pool, an overflowing height that is
      judged healthy, a window forgotten by the cleanup, and others.

    ** Bounds

    Numbers are 64-bit, as on the platforms the program is built for; floats are
    not fused (amd64); the clock is monotonic where a theorem says so.  Two
    functions have fuel: [BlockNumber.to_hex], 16 digits, which is enough for every
    [int64] (the round trip [parse_print_height] is proved for all of them), and
    the splitting of [Sha256] into blocks, as many steps as there are words; the
    roots that give its constants are computed to a fixed number of bits.  All
    other recursion is structural.  The sliding window theorems are for rates and
    windows below 2^52, where floats are exact.

    ** What is not modelled

    The code generated from the protobuf files, logging, the flags of [main], the
    pauses between reconnections of a session, and the HTTP library's own refusals
    (a body over the limit, a malformed request), which never reach the
    application.  The unlocked map of the in-memory cache is modelled one operation
    at a time: a concurrent access is undefined in Go. *)

From Stdlib Require Import ZArith Lia.
From stdpp Require Export base tactics list option strings gmap fin_maps.

#[global] Open Scope Z_scope.

(** ** Machine integers

    Go's [int] and [int64] are 64-bit two's complement words (the program is
    built for 64-bit platforms), [int32] appears in the protobuf messages.
    A word is a [Z] in range; the operations that can overflow wrap. *)
Definition int64_max : Z := 2 ^ 63 - 1.
Definition int64_min : Z := - 2 ^ 63.

Definition wrap64 (z : Z) : Z := (z + 2 ^ 63) mod 2 ^ 64 - 2 ^ 63.
Definition wrap32 (z : Z) : Z := (z + 2 ^ 31) mod 2 ^ 32 - 2 ^ 31.

Definition add64 (a b : Z) : Z := wrap64 (a + b).
Definition sub64 (a b : Z) : Z := wrap64 (a - b).

Definition in_int64 (z : Z) : Prop := int64_min <= z <= int64_max.

#[export] Instance in_int64_dec z : Decision (in_int64 z).
Proof. unfold in_int64. apply _. Defined.

(** ** Time

    A [time.Time] is the number of nanoseconds since Go's zero time (January
    1, year 1 UTC), so the zero value of a [time.Time] field is [0].  A
    [time.Duration] is an [int64] number of nanoseconds. *)
Abbreviation Time := Z (only parsing).
Abbreviation Duration := Z (only parsing).

Definition Nanosecond : Duration := 1.
Definition Microsecond : Duration := 1000.
Definition Millisecond : Duration := 1000000.
Definition Second : Duration := 1000000000.
Definition Minute : Duration := 60 * Second.

(** [Time.Sub] saturates to the extreme durations. *)
Definition Time_Sub (t u : Time) : Duration :=
  Z.max int64_min (Z.min int64_max (t - u)).

Definition Time_Add (t : Time) (d : Duration) : Time := t + d.
Definition Time_After (t u : Time) : bool := u <? t.

(** [Time.Truncate] rounds down to a multiple of [d] since the zero time. *)
Definition Time_Truncate (t : Time) (d : Duration) : Time :=
  if d <=? 0 then t else t - t mod d.

(** [time.Since(u)] read at the instant [now]. *)
Definition Since (now u : Time) : Duration := Time_Sub now u.

(** [Duration.Microseconds]: Go's integer division truncates toward zero. *)
Definition Duration_Microseconds (d : Duration) : Z := Z.quot d 1000.

(** ** Errors and panics *)

(** An [error] value: made by [errors.New] (or a string-based error type), or
    by [fmt.Errorf("...: %w", err)]. *)
Inductive error : Type :=
| ErrNew (msg : string)
| ErrWrap (prefix : string) (err : error).

#[export] Instance error_eq_dec : EqDecision error.
Proof. solve_decision. Defined.

Fixpoint Error (e : error) : string :=
  match e with
  | ErrNew msg => msg
  | ErrWrap prefix err => (prefix +:+ ": " +:+ Error err)%string
  end.

(** [errors.Is]: the error or one it wraps. *)
Fixpoint errors_Is (e target : error) : bool :=
  bool_decide (e = target) ||
  match e with
  | ErrNew _ => false
  | ErrWrap _ err => errors_Is err target
  end.

(** The [(value, error)] pairs of Go. *)
Inductive result (A : Type) : Type :=
| Ok (a : A)
| Err (e : error).
Arguments Ok {_} _.
Arguments Err {_} _.

#[export] Instance result_eq_dec `{EqDecision A} : EqDecision (result A).
Proof. solve_decision. Defined.

Definition is_ok {A} (r : result A) : bool :=
  match r with Ok _ => true | Err _ => false end.

(** A computation that may panic. *)
Inductive go (A : Type) : Type :=
| Ret (a : A)
| Panic (msg : string).
Arguments Ret {_} _.
Arguments Panic {_} _.

#[export] Instance go_ret : MRet go := @Ret.
#[export] Instance go_bind : MBind go := fun A B f m =>
  match m with
  | Ret a => f a
  | Panic msg => Panic msg
  end.

(** ** Lemma and tactic library *)

Create HintDb golib.
Create Rewrite HintDb golib.

Lemma wrap64_id z : in_int64 z -> wrap64 z = z.
Proof.
  unfold in_int64, int64_min, int64_max, wrap64. intros H.
  rewrite Z.mod_small; lia.
Qed.

Lemma wrap64_range z : in_int64 (wrap64 z).
Proof.
  unfold in_int64, int64_min, int64_max, wrap64.
  pose proof (Z.mod_pos_bound (z + 2 ^ 63) (2 ^ 64)). lia.
Qed.

Lemma wrap64_add_l a b : wrap64 (wrap64 a + b) = wrap64 (a + b).
Proof.
  unfold wrap64.
  replace ((a + 2 ^ 63) mod 2 ^ 64 - 2 ^ 63 + b + 2 ^ 63)
    with ((a + 2 ^ 63) mod 2 ^ 64 + b) by lia.
  rewrite Zplus_mod_idemp_l. do 2 f_equal. lia.
Qed.

Lemma wrap64_mul_l a b : wrap64 (wrap64 a * b) = wrap64 (a * b).
Proof.
  assert (exists k, wrap64 a = a - k * 2 ^ 64) as [k ->].
  { exists ((a + 2 ^ 63) / 2 ^ 64). unfold wrap64.
    pose proof (Z.div_mod (a + 2 ^ 63) (2 ^ 64)). lia. }
  unfold wrap64. f_equal.
  replace ((a - k * 2 ^ 64) * b + 2 ^ 63)
    with (a * b + 2 ^ 63 + (- (k * b)) * 2 ^ 64) by ring.
  apply Z_mod_plus_full.
Qed.

Lemma Since_in_range now u :
  in_int64 (now - u) -> Since now u = now - u.
Proof. unfold Since, Time_Sub, in_int64. lia. Qed.

(** A saturated difference exceeds a duration exactly when the true one does. *)
Lemma Since_gt now u d :
  in_int64 d -> d < int64_max -> (d < Since now u <-> d < now - u).
Proof. unfold Since, Time_Sub, in_int64, int64_max, int64_min. lia. Qed.

#[export] Hint Resolve wrap64_range : golib.
#[export] Hint Rewrite wrap64_id using done : golib.

(** Case analysis on every boolean integer test of the goal and context. *)
Ltac zify_bool :=
  repeat match goal with
  | H : (_ <? _) = true |- _ => apply Z.ltb_lt in H
  | H : (_ <? _) = false |- _ => apply Z.ltb_ge in H
  | H : (_ <=? _) = true |- _ => apply Z.leb_le in H
  | H : (_ <=? _) = false |- _ => apply Z.leb_gt in H
  | H : (_ =? _) = true |- _ => apply Z.eqb_eq in H
  | H : (_ =? _) = false |- _ => apply Z.eqb_neq in H
  end.

Ltac case_test :=
  match goal with
  | |- context [if ?b then _ else _] => destruct b eqn:?
  | H : context [if ?b then _ else _] |- _ => destruct b eqn:?
  end.

Ltac case_tests := repeat (case_test; simplify_eq/=); zify_bool.

(** ** Runs of an executable transition function *)
Section Runs.
Context {S O R : Type} (exec : S -> O -> S * R).

Fixpoint run (s : S) (ops : list O) : S * list R :=
  match ops with
  | [] => (s, [])
  | o :: ops' =>
      let '(s1, r) := exec s o in
      let '(s2, rs) := run s1 ops' in
      (s2, r :: rs)
  end.

Lemma run_app s ops1 ops2 :
  run s (ops1 ++ ops2) =
    let '(s1, rs1) := run s ops1 in
    let '(s2, rs2) := run s1 ops2 in (s2, rs1 ++ rs2).
Proof.
  revert s. induction ops1 as [|o ops1 IH]; intros s; simpl.
  - by destruct (run s ops2).
  - destruct (exec s o) as [s1 r]. rewrite IH.
    destruct (run s1 ops1) as [s2 rs]. by destruct (run s2 ops2).
Qed.

Lemma run_app_fst s ops1 ops2 : (run s (ops1 ++ ops2)).1 = (run (run s ops1).1 ops2).1.
Proof.
  rewrite run_app. destruct (run s ops1) as [s1 rs1]. simpl. by destruct (run s1 ops2).
Qed.

(** An invariant of every step is an invariant of every run. *)
Lemma run_invariant (I : S -> Prop) (P : O -> Prop) s ops :
  (forall s o, I s -> P o -> I (exec s o).1) ->
  Forall P ops -> I s -> I (run s ops).1.
Proof.
  intros Hstep Hops. revert s. induction Hops as [|o ops Ho _ IH]; intros s Hs; [done|].
  simpl. pose proof (Hstep s o Hs Ho) as H1.
  destruct (exec s o) as [s1 r]. specialize (IH s1 H1).
  by destruct (run s1 ops).
Qed.

Lemma run_length s ops : length (run s ops).2 = length ops.
Proof.
  revert s. induction ops as [|o ops IH]; intros s; [done|].
  simpl. destruct (exec s o) as [s1 r]. specialize (IH s1).
  destruct (run s1 ops). simpl in *. lia.
Qed.
End Runs.

(** Runs of an executable step that may be impossible. *)
Section Schedules.
Context {S A : Type} (step : S -> A -> option S).

Fixpoint execute (s : S) (sched : list A) : option S :=
  match sched with
  | [] => Some s
  | a :: sched' => s' ← step s a; execute s' sched'
  end.

Lemma execute_app s sched1 sched2 :
  execute s (sched1 ++ sched2) = (s1 ← execute s sched1; execute s1 sched2).
Proof.
  revert s. induction sched1 as [|a sched1 IH]; intros s; simpl; [done|].
  destruct (step s a); simpl; [apply IH|done].
Qed.

Lemma execute_cons s a s1 sched : step s a = Some s1 -> execute s (a :: sched) = execute s1 sched.
Proof. intros H. simpl. by rewrite H. Qed.

Lemma execute_invariant (I : S -> Prop) s sched s' :
  (forall s a s1, I s -> step s a = Some s1 -> I s1) -> execute s sched = Some s' -> I s -> I s'.
Proof.
  intros Hstep. revert s. induction sched as [|a sched IH]; intros s He HI; simpl in He; [by simplify_eq|].
  destruct (step s a) as [s1|] eqn:E; simpl in He; [|done]. eauto.
Qed.
End Schedules.

(** Reflexive transitive closure of a labelled step relation. *)
Section Traces.
Context {S L : Type} (step : S -> L -> S -> Prop).

Inductive steps : S -> list L -> S -> Prop :=
| steps_nil s : steps s [] s
| steps_cons s l s1 ls s2 : step s l s1 -> steps s1 ls s2 -> steps s (l :: ls) s2.

Definition reachable (init : S -> Prop) (s : S) : Prop :=
  exists s0 ls, init s0 /\ steps s0 ls s.

Lemma steps_invariant (I : S -> Prop) :
  (forall s l s', I s -> step s l s' -> I s') ->
  forall s ls s', steps s ls s' -> I s -> I s'.
Proof. intros HI s ls s'. induction 1; eauto. Qed.

Lemma reachable_invariant (init I : S -> Prop) :
  (forall s, init s -> I s) ->
  (forall s l s', I s -> step s l s' -> I s') ->
  forall s, reachable init s -> I s.
Proof.
  intros Hi Hs s (s0 & ls & H0 & Hls).
  eapply (steps_invariant I); eauto.
Qed.
End Traces.

(** ** Counting over an interval of the integers *)

(** How many of [a, a+1, ..., a+n-1] satisfy [P]. *)
Fixpoint cnt (P : Z -> bool) (a : Z) (n : nat) : Z :=
  match n with
  | O => 0
  | S n' => Z.b2z (P a) + cnt P (a + 1) n'
  end.

Lemma cnt_app P a n m : cnt P a (n + m) = cnt P a n + cnt P (a + Z.of_nat n) m.
Proof.
  revert a. induction n as [|n IH]; intros a; simpl; [by rewrite Z.add_0_r|].
  rewrite IH. replace (a + 1 + Z.of_nat n) with (a + Z.of_nat (S n)) by lia. lia.
Qed.

Lemma cnt_ext P Q a n :
  (forall z, a <= z < a + Z.of_nat n -> P z = Q z) -> cnt P a n = cnt Q a n.
Proof.
  revert a. induction n as [|n IH]; intros a H; simpl; [done|].
  rewrite H by lia. f_equal. apply IH. intros z Hz. apply H. lia.
Qed.

Lemma cnt_shift P d a n : cnt (fun z => P (z + d)) a n = cnt P (a + d) n.
Proof.
  revert a. induction n as [|n IH]; intros a; simpl; [done|].
  rewrite IH. by replace (a + 1 + d) with (a + d + 1) by lia.
Qed.

Lemma cnt_true P a n :
  (forall z, a <= z < a + Z.of_nat n -> P z = true) -> cnt P a n = Z.of_nat n.
Proof.
  revert a. induction n as [|n IH]; intros a H; simpl; [done|].
  rewrite H, IH by (intros; try apply H; lia). simpl. lia.
Qed.

Lemma cnt_false P a n :
  (forall z, a <= z < a + Z.of_nat n -> P z = false) -> cnt P a n = 0.
Proof.
  revert a. induction n as [|n IH]; intros a H; simpl; [done|].
  rewrite H, IH by (intros; try apply H; lia). done.
Qed.

(** A periodic predicate holds equally often over every full period. *)
Lemma cnt_period P n a :
  0 <= a -> (forall z, P (z + Z.of_nat n) = P z) -> cnt P a n = cnt P 0 n.
Proof.
  intros Ha HP. revert a Ha. apply natlike_ind; [done|].
  intros a Ha IH. rewrite <- IH.
  assert (cnt P a (S n) = cnt P a n + Z.b2z (P (a + Z.of_nat n))) as H.
  { replace (S n) with (n + 1)%nat by lia. rewrite cnt_app. simpl. lia. }
  simpl in H. rewrite HP in H. unfold Z.succ. lia.
Qed.
