(* ===== verification/CircuitBreaker.v ===== *)
(** * Circuit breaker: [internal/chain/circuitbreaker.go]

    State machine of one breaker, the clock readings of each operation being
    arguments.  Every method holds [cb.mu] from its first to its last line, so
    an interleaving of goroutines is a sequence of whole operations; it is
    modelled by [exec]/[run] below.  The abstract three-state machine the
    breaker implements and the simulation are at the end. *)
From Stdlib Require Import ZArith Lia.
From S2P Require Import Prelude.

Module CB.

Inductive State : Set := StateClosed | StateOpen | StateHalfOpen.

#[export] Instance State_eq_dec : EqDecision State.
Proof. solve_decision. Defined.

(** [State.String]; the [default] arm is for integers that name no state. *)
Definition String (s : State) : string :=
  match s with
  | StateClosed => "closed"
  | StateOpen => "open"
  | StateHalfOpen => "half-open"
  end.

Definition ErrCircuitOpen : error := ErrNew "circuit breaker is open".

Record CircuitBreakerConfig := mkConfig {
  FailureThreshold : Z;
  SuccessThreshold : Z;
  Timeout : Duration;
  HalfOpenMaxRequests : Z
}.

Definition DefaultCircuitBreakerConfig : CircuitBreakerConfig := {|
  FailureThreshold := 5;
  SuccessThreshold := 2;
  Timeout := 30 * Second;
  HalfOpenMaxRequests := 3
|}.

Record CircuitBreaker := mkCB {
  config : CircuitBreakerConfig;
  state : State;
  failures : Z;
  successes : Z;
  lastFailureTime : Time;
  halfOpenRequests : Z
}.

Definition NewCircuitBreaker (cfg : CircuitBreakerConfig) : CircuitBreaker :=
  mkCB cfg StateClosed 0 0 0 0.

(** [currentState]: the state an operation sees at the instant [now].  It
    assigns nothing, so the half-open state is never stored. *)
Definition currentState (now : Time) (cb : CircuitBreaker) : State :=
  match state cb with
  | StateOpen =>
      if Timeout (config cb) <? Since now (lastFailureTime cb)
      then StateHalfOpen else StateOpen
  | s => s
  end.

(** The exported method [State]. *)
Definition State_ (now : Time) (cb : CircuitBreaker) : State := currentState now cb.

Definition Allow (now : Time) (cb : CircuitBreaker) : CircuitBreaker * bool :=
  match currentState now cb with
  | StateClosed => (cb, true)
  | StateOpen => (cb, false)
  | StateHalfOpen =>
      if halfOpenRequests cb <? HalfOpenMaxRequests (config cb) then
        (mkCB (config cb) (state cb) (failures cb) (successes cb)
              (lastFailureTime cb) (add64 (halfOpenRequests cb) 1), true)
      else (cb, false)
  end.

(** [trip] opens the breaker; [failures] keeps its value. *)
Definition trip (now : Time) (cb : CircuitBreaker) : CircuitBreaker :=
  mkCB (config cb) StateOpen (failures cb) 0 now 0.

(** [reset] closes the breaker; [lastFailureTime] keeps its value. *)
Definition reset (cb : CircuitBreaker) : CircuitBreaker :=
  mkCB (config cb) StateClosed 0 0 (lastFailureTime cb) 0.

Definition RecordSuccess (now : Time) (cb : CircuitBreaker) : CircuitBreaker :=
  match currentState now cb with
  | StateClosed =>
      mkCB (config cb) (state cb) 0 (successes cb) (lastFailureTime cb) (halfOpenRequests cb)
  | StateHalfOpen =>
      let cb' := mkCB (config cb) (state cb) (failures cb) (add64 (successes cb) 1)
                      (lastFailureTime cb) (halfOpenRequests cb) in
      if SuccessThreshold (config cb) <=? successes cb' then reset cb' else cb'
  | StateOpen => cb
  end.

(** [RecordFailure] reads the clock twice: [now] in [currentState] and
    [now_trip] in [trip]. *)
Definition RecordFailure (now now_trip : Time) (cb : CircuitBreaker) : CircuitBreaker :=
  match currentState now cb with
  | StateClosed =>
      let cb' := mkCB (config cb) (state cb) (add64 (failures cb) 1) (successes cb)
                      (lastFailureTime cb) (halfOpenRequests cb) in
      if FailureThreshold (config cb) <=? failures cb' then trip now_trip cb' else cb'
  | StateHalfOpen => trip now_trip cb
  | StateOpen => cb
  end.

Definition Reset (cb : CircuitBreaker) : CircuitBreaker := reset cb.

Record CircuitBreakerStats := mkStats {
  StatsState : string;
  Failures : Z;
  Successes : Z;
  LastFailureTime : Time;
  HalfOpenRequests : Z
}.

Definition Stats (now : Time) (cb : CircuitBreaker) : CircuitBreakerStats :=
  mkStats (String (currentState now cb)) (failures cb) (successes cb)
          (lastFailureTime cb) (halfOpenRequests cb).

(** [Execute]: the guarded function [fn] is a state transformer on the world
    [W] returning an error or [nil]; [between] is what other goroutines do to
    the breaker while [fn] runs, outside [cb.mu]. *)
Definition Execute {W : Type} (t_allow t_rec t_trip : Time)
    (fn : W -> W * option error) (between : CircuitBreaker -> CircuitBreaker)
    (cb : CircuitBreaker) (w : W) : CircuitBreaker * W * option error :=
  let '(cb1, ok) := Allow t_allow cb in
  if ok then
    let '(w', err) := fn w in
    let cb2 := between cb1 in
    match err with
    | Some e => (RecordFailure t_rec t_trip cb2, w', Some e)
    | None => (RecordSuccess t_rec cb2, w', None)
    end
  else (cb1, w, Some ErrCircuitOpen).

(** ** Sequences of operations, from any goroutines *)

Inductive op : Type :=
| OpAllow (now : Time)
| OpSuccess (now : Time)
| OpFailure (now now_trip : Time)
| OpReset.

Definition exec (cb : CircuitBreaker) (o : op) : CircuitBreaker * option bool :=
  match o with
  | OpAllow now => let '(cb', b) := Allow now cb in (cb', Some b)
  | OpSuccess now => (RecordSuccess now cb, None)
  | OpFailure now now' => (RecordFailure now now' cb, None)
  | OpReset => (Reset cb, None)
  end.

(** The requests a run admitted. *)
Definition admitted (rs : list (option bool)) : Z :=
  Z.of_nat (length (filter (fun r => r = Some true) rs)).

(** ** Invariant *)

Definition config_ok (c : CircuitBreakerConfig) : Prop :=
  in_int64 (FailureThreshold c) /\ in_int64 (SuccessThreshold c) /\
  in_int64 (HalfOpenMaxRequests c) /\ 0 <= Timeout c < int64_max.

(** What every reachable breaker satisfies: the half-open state is virtual;
    while closed the failure counter is below its threshold and the probe
    counters are zero; while open the probes admitted since the last trip and
    the successes recorded are within their limits. *)
Definition wf (cb : CircuitBreaker) : Prop :=
  config_ok (config cb) /\ 0 <= failures cb <= int64_max /\
  match state cb with
  | StateClosed =>
      halfOpenRequests cb = 0 /\ successes cb = 0 /\
      (failures cb = 0 \/ failures cb < FailureThreshold (config cb))
  | StateOpen =>
      0 <= halfOpenRequests cb <= Z.max 0 (HalfOpenMaxRequests (config cb)) /\
      0 <= successes cb /\
      (successes cb = 0 \/ successes cb < SuccessThreshold (config cb))
  | StateHalfOpen => False
  end.

Lemma add64_1 a b : in_int64 b -> 0 <= a -> a = 0 \/ a < b -> add64 a 1 = a + 1.
Proof.
  intros Hb Ha H. unfold add64. apply wrap64_id.
  unfold in_int64, int64_min, int64_max in *. lia.
Qed.

Lemma currentState_open now cb :
  state cb = StateOpen -> config_ok (config cb) ->
  currentState now cb =
    if Timeout (config cb) <? now - lastFailureTime cb then StateHalfOpen else StateOpen.
Proof.
  intros Hs (_ & _ & _ & Ht). unfold currentState. rewrite Hs.
  unfold Since, Time_Sub, int64_min, int64_max in *.
  destruct (Z.ltb_spec (Timeout (config cb)) (now - lastFailureTime cb));
    destruct (Z.ltb_spec (Timeout (config cb))
      (Z.max (-2 ^ 63) (Z.min (2 ^ 63 - 1) (now - lastFailureTime cb)))); first [done|lia].
Qed.

(** The stored state and the time decide what an operation sees. *)
Lemma currentState_cases now cb :
  wf cb ->
  (state cb = StateClosed /\ currentState now cb = StateClosed) \/
  (state cb = StateOpen /\ currentState now cb = StateOpen /\
     now - lastFailureTime cb <= Timeout (config cb)) \/
  (state cb = StateOpen /\ currentState now cb = StateHalfOpen /\
     Timeout (config cb) < now - lastFailureTime cb).
Proof.
  intros (Hc & _ & Hs). destruct (state cb) eqn:E; [| |done].
  - left. unfold currentState. by rewrite E.
  - right. rewrite (currentState_open now cb E Hc).
    destruct (Z.ltb_spec (Timeout (config cb)) (now - lastFailureTime cb)); auto.
Qed.

(** Unfolds one operation of a well-formed breaker into its cases. *)
Ltac cb_cases now cb Hwf :=
  destruct (currentState_cases now cb Hwf)
    as [(?Hs & ?Hcur)|[(?Hs & ?Hcur & ?Ht)|(?Hs & ?Hcur & ?Ht)]].

Ltac cb_wf :=
  unfold wf, config_ok in *; simpl in *;
  repeat match goal with H : state _ = _ |- _ => rewrite ?H in *; clear H end;
  unfold in_int64, int64_min, int64_max in *; simpl in *;
  repeat match goal with |- _ /\ _ => split end; try lia.

Lemma wf_new cfg : config_ok cfg -> wf (NewCircuitBreaker cfg).
Proof. intros H. unfold NewCircuitBreaker. cb_wf; unfold config_ok in H; cb_wf. Qed.

Lemma wf_trip t cb : wf cb -> wf (trip t cb).
Proof. intros (Hc & Hf & _). unfold trip. cb_wf. Qed.

Lemma wf_reset cb : wf cb -> wf (reset cb).
Proof. intros (Hc & Hf & _). unfold reset. cb_wf. Qed.

#[export] Hint Resolve wf_new wf_trip wf_reset : golib.

(** The counters of a well-formed breaker do not overflow. *)
Lemma probe_incr cb :
  wf cb -> halfOpenRequests cb < HalfOpenMaxRequests (config cb) ->
  add64 (halfOpenRequests cb) 1 = halfOpenRequests cb + 1.
Proof.
  intros Hwf H. apply add64_1 with (HalfOpenMaxRequests (config cb));
    unfold wf in Hwf; destruct (state cb); cb_wf.
Qed.

Lemma success_incr cb : wf cb -> add64 (successes cb) 1 = successes cb + 1.
Proof.
  intros Hwf. apply add64_1 with (SuccessThreshold (config cb));
    unfold wf in Hwf; destruct (state cb); cb_wf.
Qed.

Lemma failure_incr cb :
  wf cb -> state cb = StateClosed -> add64 (failures cb) 1 = failures cb + 1.
Proof.
  intros Hwf H. apply add64_1 with (FailureThreshold (config cb));
    unfold wf in Hwf; rewrite H in Hwf; cb_wf.
Qed.

Lemma wf_Allow now cb : wf cb -> wf (Allow now cb).1.
Proof.
  intros Hwf. unfold Allow. cb_cases now cb Hwf; rewrite Hcur; [done|done|].
  destruct (Z.ltb_spec (halfOpenRequests cb) (HalfOpenMaxRequests (config cb))); [|done].
  rewrite probe_incr by done. cb_wf.
Qed.

Lemma wf_RecordSuccess now cb : wf cb -> wf (RecordSuccess now cb).
Proof.
  intros Hwf. unfold RecordSuccess. cb_cases now cb Hwf; rewrite Hcur; [cb_wf|done|].
  cbn [successes]. rewrite success_incr by done.
  destruct (Z.leb_spec (SuccessThreshold (config cb)) (successes cb + 1)); cb_wf.
Qed.

Lemma wf_RecordFailure now now' cb : wf cb -> wf (RecordFailure now now' cb).
Proof.
  intros Hwf. unfold RecordFailure. cb_cases now cb Hwf; rewrite Hcur;
    [|done|by apply wf_trip].
  cbn [failures]. rewrite failure_incr by done.
  destruct (Z.leb_spec (FailureThreshold (config cb)) (failures cb + 1)); cb_wf.
Qed.

#[export] Hint Resolve wf_Allow wf_RecordSuccess wf_RecordFailure : golib.

Lemma wf_exec cb o : wf cb -> wf (exec cb o).1.
Proof.
  intros Hwf. destruct o as [now|now|now now'|]; simpl; eauto with golib.
  pose proof (wf_Allow now cb Hwf). by destruct (Allow now cb).
Qed.

Lemma exec_config cb o : config (exec cb o).1 = config cb.
Proof.
  destruct o; simpl; unfold Allow, RecordSuccess, RecordFailure, Reset, reset, trip;
    repeat case_match; simplify_eq/=; done.
Qed.

(** ** Interleavings under a clock that never goes back *)

(** [o] reads the clock between [t] and [t']. *)
Definition op_during (t : Time) (o : op) (t' : Time) : Prop :=
  match o with
  | OpAllow now | OpSuccess now => t <= now /\ t' = now
  | OpFailure now now' => t <= now /\ now <= now' /\ t' = now'
  | OpReset => t' = t
  end.

Inductive step : Time * CircuitBreaker -> op * option bool -> Time * CircuitBreaker -> Prop :=
| step_op t cb o t' :
    op_during t o t' ->
    step (t, cb) (o, (exec cb o).2) (t', (exec cb o).1).

Definition init (cfg : CircuitBreakerConfig) (s : Time * CircuitBreaker) : Prop :=
  s.2 = NewCircuitBreaker cfg.

(** The breaker's invariant, with the clock: an open breaker was tripped in
    the past. *)
Definition inv (cfg : CircuitBreakerConfig) (s : Time * CircuitBreaker) : Prop :=
  config s.2 = cfg /\ wf s.2 /\
  (state s.2 = StateOpen -> lastFailureTime s.2 <= s.1).

Lemma exec_lastFailureTime t cb o t' :
  op_during t o t' ->
  (state cb = StateOpen -> lastFailureTime cb <= t) ->
  state (exec cb o).1 = StateOpen -> lastFailureTime (exec cb o).1 <= t'.
Proof.
  destruct o as [now|now|now now'|]; simpl;
    unfold Allow, RecordSuccess, RecordFailure, Reset, reset, trip in *;
    intros Ht H; repeat case_match; simplify_eq/=; intros ?; lia || (specialize (H ltac:(done)); lia).
Qed.

Lemma inv_step cfg s l s' : inv cfg s -> step s l s' -> inv cfg s'.
Proof.
  intros (Hc & Hwf & Hl) Hs. inversion Hs as [t cb o t' Ho]; subst. simpl in *.
  split_and!; simpl; [by rewrite exec_config|by apply wf_exec|].
  by apply (exec_lastFailureTime t).
Qed.

(** ** The abstract breaker

    The three-state machine of the circuit breaker pattern.  It differs from
    the code in that the half-open state exists: it is entered by a silent
    step once the timeout has passed. *)
Inductive spec_state : Type :=
| SClosed (fails : Z)
| SOpen (since : Time)
| SHalfOpen (probes succs : Z).

Inductive spec_step (c : CircuitBreakerConfig) :
    Time * spec_state -> option (op * option bool) -> Time * spec_state -> Prop :=
| spec_timeout t since now :
    t <= now -> Timeout c < now - since ->
    spec_step c (t, SOpen since) None (now, SHalfOpen 0 0)
| spec_closed_allow t now n :
    t <= now ->
    spec_step c (t, SClosed n) (Some (OpAllow now, Some true)) (now, SClosed n)
| spec_closed_success t now n :
    t <= now ->
    spec_step c (t, SClosed n) (Some (OpSuccess now, None)) (now, SClosed 0)
| spec_closed_failure t now now' n :
    t <= now -> now <= now' -> n + 1 < FailureThreshold c ->
    spec_step c (t, SClosed n) (Some (OpFailure now now', None)) (now', SClosed (n + 1))
| spec_closed_trip t now now' n :
    t <= now -> now <= now' -> FailureThreshold c <= n + 1 ->
    spec_step c (t, SClosed n) (Some (OpFailure now now', None)) (now', SOpen now')
| spec_open_reject t now since :
    t <= now -> now - since <= Timeout c ->
    spec_step c (t, SOpen since) (Some (OpAllow now, Some false)) (now, SOpen since)
| spec_open_success t now since :
    t <= now -> now - since <= Timeout c ->
    spec_step c (t, SOpen since) (Some (OpSuccess now, None)) (now, SOpen since)
| spec_open_failure t now now' since :
    t <= now -> now <= now' -> now - since <= Timeout c ->
    spec_step c (t, SOpen since) (Some (OpFailure now now', None)) (now', SOpen since)
| spec_half_probe t now p s :
    t <= now -> p < HalfOpenMaxRequests c ->
    spec_step c (t, SHalfOpen p s) (Some (OpAllow now, Some true)) (now, SHalfOpen (p + 1) s)
| spec_half_reject t now p s :
    t <= now -> HalfOpenMaxRequests c <= p ->
    spec_step c (t, SHalfOpen p s) (Some (OpAllow now, Some false)) (now, SHalfOpen p s)
| spec_half_success t now p s :
    t <= now -> s + 1 < SuccessThreshold c ->
    spec_step c (t, SHalfOpen p s) (Some (OpSuccess now, None)) (now, SHalfOpen p (s + 1))
| spec_half_close t now p s :
    t <= now -> SuccessThreshold c <= s + 1 ->
    spec_step c (t, SHalfOpen p s) (Some (OpSuccess now, None)) (now, SClosed 0)
| spec_half_failure t now now' p s :
    t <= now -> now <= now' ->
    spec_step c (t, SHalfOpen p s) (Some (OpFailure now now', None)) (now', SOpen now')
| spec_reset t a :
    spec_step c (t, a) (Some (OpReset, None)) (t, SClosed 0).

(** Traces of visible labels, silent steps in between. *)
Inductive spec_trace (c : CircuitBreakerConfig) :
    Time * spec_state -> list (op * option bool) -> Time * spec_state -> Prop :=
| spec_trace_nil a : spec_trace c a [] a
| spec_trace_silent a a1 ls a2 :
    spec_step c a None a1 -> spec_trace c a1 ls a2 -> spec_trace c a ls a2
| spec_trace_cons a l a1 ls a2 :
    spec_step c a (Some l) a1 -> spec_trace c a1 ls a2 -> spec_trace c a (l :: ls) a2.

(** The states of the code and of the specification that correspond. *)
Definition related (t : Time) (cb : CircuitBreaker) (a : spec_state) : Prop :=
  match state cb, a with
  | StateClosed, SClosed n => n = failures cb
  | StateOpen, SOpen since =>
      since = lastFailureTime cb /\ halfOpenRequests cb = 0 /\ successes cb = 0
  | StateOpen, SHalfOpen p s =>
      p = halfOpenRequests cb /\ s = successes cb /\
      Timeout (config cb) < t - lastFailureTime cb
  | _, _ => False
  end.

Lemma trace_visible c a l a' : spec_step c a (Some l) a' -> spec_trace c a [l] a'.
Proof. intros H. econstructor; [exact H|constructor]. Qed.

Lemma trace_timeout c t since now l a' :
  t <= now -> Timeout c < now - since ->
  spec_step c (now, SHalfOpen 0 0) (Some l) a' ->
  spec_trace c (t, SOpen since) [l] a'.
Proof.
  intros Ht Hto H. eapply spec_trace_silent; [by apply (spec_timeout c t since now)|].
  by apply trace_visible.
Qed.

Lemma spec_trace_app c a ls1 a1 ls2 a2 :
  spec_trace c a ls1 a1 -> spec_trace c a1 ls2 a2 -> spec_trace c a (ls1 ++ ls2) a2.
Proof. induction 1; intros H2; simpl; eauto using spec_trace. Qed.

Create HintDb cb.
#[local] Hint Constructors spec_step : cb.
#[local] Hint Extern 1 (_ <= _) => lia : cb.
#[local] Hint Extern 1 (_ < _) => lia : cb.

(** One operation of the code is one visible step of the specification,
    preceded by the silent timeout step when the timeout has just passed. *)
Lemma sim_step t cb o t' a :
  wf cb -> op_during t o t' -> related t cb a ->
  exists a', spec_trace (config cb) (t, a) [(o, (exec cb o).2)] (t', a') /\
             related t' (exec cb o).1 a'.
Proof.
  intros Hwf Ho Hr.
  destruct o as [now|now|now now'|]; simpl in Ho; [| | |subst t'].
  4: { exists (SClosed 0). split; [apply trace_visible; eauto with cb|done]. }
  all: cb_cases now cb Hwf; unfold related in Hr; rewrite Hs in Hr;
    destruct a as [n|since|p s]; try done;
    unfold exec, Allow, RecordSuccess, RecordFailure; rewrite Hcur; destruct_and?; subst; simpl;
    rewrite ?success_incr, ?failure_incr by done;
    repeat match goal with
    | |- context [?x <? ?y] => destruct (Z.ltb_spec x y)
    | |- context [?x <=? ?y] => destruct (Z.leb_spec x y)
    end; simpl; rewrite ?probe_incr by done.
  all: try (exfalso; lia).
  all: eexists; (split; [
      first [ apply trace_visible; solve [eauto 6 with cb]
            | eapply (trace_timeout _ _ _ now); [lia|lia|solve [eauto 6 with cb]] ]
    | unfold related; simpl; rewrite ?Hs; try done; try lia]).
Qed.

Lemma sim_trace t cb ls t' cb' a :
  wf cb -> steps step (t, cb) ls (t', cb') -> related t cb a ->
  exists a', spec_trace (config cb) (t, a) ls (t', a') /\ related t' cb' a'.
Proof.
  intros Hwf Hs. remember (t, cb) as s eqn:E. remember (t', cb') as s' eqn:E'.
  revert t cb a t' cb' Hwf E E'. induction Hs as [s|s l s1 ls s2 H1 H2 IH];
    intros t cb a t' cb' Hwf -> E' Hr.
  - simplify_eq. exists a. eauto using spec_trace.
  - inversion H1 as [t0 cb0 o t1 Ho]; subst.
    destruct (sim_step _ _ _ _ _ Hwf Ho Hr) as (a1 & Ha1 & Hr1).
    destruct (IH _ _ a1 _ _ (wf_exec _ _ Hwf) eq_refl eq_refl Hr1) as (a2 & Ha2 & Hr2).
    exists a2. split; [|done]. rewrite exec_config in Ha2.
    eapply (spec_trace_app _ _ [_]); eauto.
Qed.

(** ** Runs of probes *)

(** An operation that neither fails nor resets. *)
Definition probe (o : op) : Prop :=
  match o with OpAllow _ | OpSuccess _ => True | _ => False end.

Lemma admitted_cons r rs :
  admitted (r :: rs) = (if decide (r = Some true) then 1 else 0) + admitted rs.
Proof.
  unfold admitted. rewrite filter_cons. case_decide; simpl; lia.
Qed.

(** While the breaker stays open, each admitted request uses up one probe. *)
Lemma probe_step cb o :
  wf cb -> probe o -> state (exec cb o).1 = StateOpen ->
  state cb = StateOpen /\
  halfOpenRequests (exec cb o).1 =
    halfOpenRequests cb + (if decide ((exec cb o).2 = Some true) then 1 else 0).
Proof.
  intros Hwf Ho. destruct o as [now|now|now now'|]; [| |done|done]; simpl;
    unfold Allow, RecordSuccess; cb_cases now cb Hwf; rewrite Hcur; simpl;
    try congruence; try (intros; split; [done|lia]).
  - destruct (Z.ltb_spec (halfOpenRequests cb) (HalfOpenMaxRequests (config cb))); simpl;
      rewrite ?probe_incr by done; intros; split; try done; lia.
  - case_match; simpl; [done|]. intros; split; [done|lia].
Qed.

Lemma run_wf cb ops : wf cb -> wf (run exec cb ops).1.
Proof.
  apply (run_invariant exec wf (fun _ => True)); auto using wf_exec.
  by apply Forall_true.
Qed.

Lemma run_config cb ops : config (run exec cb ops).1 = config cb.
Proof.
  apply (run_invariant exec (fun c => config c = config cb) (fun _ => True)); auto.
  - intros c o Hc _. by rewrite exec_config.
  - by apply Forall_true.
Qed.

Lemma probe_run cb ops :
  wf cb -> Forall probe ops -> state (run exec cb ops).1 = StateOpen ->
  state cb = StateOpen /\
  admitted (run exec cb ops).2 =
    halfOpenRequests (run exec cb ops).1 - halfOpenRequests cb.
Proof.
  intros Hwf Hops. revert cb Hwf.
  induction Hops as [|o ops Ho _ IH]; intros cb Hwf Hopen; simpl in *.
  - unfold admitted. simpl. split; [done|lia].
  - pose proof (wf_exec cb o Hwf) as Hwf1. pose proof (probe_step cb o Hwf Ho) as Hp.
    destruct (exec cb o) as [cb1 r]; simpl in *. specialize (IH cb1 Hwf1).
    destruct (run exec cb1 ops) as [cb2 rs]; simpl in *.
    rewrite admitted_cons. destruct (IH Hopen) as [Hs1 He].
    destruct (Hp Hs1) as [Hs Hr]. split; [done|lia].
Qed.

(** A burst of failures, each a pair of clock readings. *)
Definition failure_burst (fs : list (Time * Time)) : list op :=
  (fun p => OpFailure p.1 p.2) <$> fs.

Lemma burst_open fs cb :
  wf cb -> state cb = StateOpen -> state (run exec cb (failure_burst fs)).1 = StateOpen.
Proof.
  revert cb. induction fs as [|[now now'] fs IH]; intros cb Hwf Hs; simpl; [done|].
  specialize (IH (RecordFailure now now' cb) (wf_RecordFailure _ _ _ Hwf)).
  destruct (run exec _ (failure_burst fs)) as [cb2 rs]; simpl in *. apply IH.
  unfold RecordFailure. cb_cases now cb Hwf; rewrite Hcur; simpl; congruence.
Qed.

Lemma burst_closed fs cb :
  wf cb -> state cb = StateClosed -> 0 < FailureThreshold (config cb) ->
  state (run exec cb (failure_burst fs)).1 = StateClosed <->
  failures cb + Z.of_nat (length fs) < FailureThreshold (config cb).
Proof.
  revert cb. induction fs as [|[now now'] fs IH]; intros cb Hwf Hs Hthr; simpl.
  - destruct Hwf as (_ & _ & Hw). rewrite Hs in Hw. split; [lia|done].
  - pose proof (wf_RecordFailure now now' cb Hwf) as Hwf'.
    destruct (run exec (RecordFailure now now' cb) (failure_burst fs)) as [cb2 rs] eqn:E.
    simpl. change cb2 with (cb2, rs).1. rewrite <- E. clear E cb2 rs.
    revert Hwf'. unfold RecordFailure. cb_cases now cb Hwf; try congruence.
    rewrite Hcur. simpl. rewrite failure_incr by done. intros Hwf'.
    destruct (Z.leb_spec (FailureThreshold (config cb)) (failures cb + 1)).
    + rewrite burst_open by done. split; [done|lia].
    + rewrite IH by done. simpl. lia.
Qed.

Lemma open_ignores cb o :
  wf cb -> state cb = StateOpen -> o <> OpReset ->
  match o with
  | OpAllow now | OpSuccess now | OpFailure now _ =>
      now - lastFailureTime cb <= Timeout (config cb)
  | OpReset => True
  end ->
  (exec cb o).1 = cb /\ (exec cb o).2 <> Some true.
Proof.
  intros Hwf Hs Ho Ht. destruct o as [now|now|now now'|]; simpl; [| | |done];
    unfold Allow, RecordSuccess, RecordFailure;
    cb_cases now cb Hwf; rewrite ?Hcur; simpl; try congruence; try lia; by split.
Qed.

(** A probe that is admitted and succeeds, at the given clock readings. *)
Definition good_probe (p : Time * Time) : list op := [OpAllow p.1; OpSuccess p.2].

Lemma good_probe_run cb p :
  wf cb -> state cb = StateOpen ->
  Timeout (config cb) < p.1 - lastFailureTime cb ->
  Timeout (config cb) < p.2 - lastFailureTime cb ->
  halfOpenRequests cb < HalfOpenMaxRequests (config cb) ->
  run exec cb (good_probe p) =
    (if SuccessThreshold (config cb) <=? successes cb + 1 then reset cb
     else mkCB (config cb) StateOpen (failures cb) (successes cb + 1)
               (lastFailureTime cb) (halfOpenRequests cb + 1),
     [Some true; None]).
Proof.
  destruct p as [now now']. simpl. intros Hwf Hs H1 H2 Hmax.
  pose proof (wf_Allow now cb Hwf) as Hwf1. revert Hwf1.
  unfold Allow. cb_cases now cb Hwf; try congruence; try lia. rewrite Hcur.
  rewrite (proj2 (Z.ltb_lt _ _) Hmax). rewrite probe_incr by done. simpl. intros Hwf1.
  unfold RecordSuccess. rewrite currentState_open by (simpl; auto; apply Hwf).
  simpl. rewrite (proj2 (Z.ltb_lt _ _) H2).
  pose proof (success_incr cb Hwf) as ->.
  case_match; simpl; [done|]. by rewrite Hs.
Qed.

Lemma probes_open cb ps :
  wf cb -> state cb = StateOpen -> halfOpenRequests cb = successes cb ->
  successes cb + Z.of_nat (length ps) <= HalfOpenMaxRequests (config cb) ->
  successes cb + Z.of_nat (length ps) < SuccessThreshold (config cb) ->
  Forall (fun p => Timeout (config cb) < p.1 - lastFailureTime cb /\
                   Timeout (config cb) < p.2 - lastFailureTime cb) ps ->
  run exec cb (ps ≫= good_probe) =
    (mkCB (config cb) StateOpen (failures cb) (successes cb + Z.of_nat (length ps))
          (lastFailureTime cb) (successes cb + Z.of_nat (length ps)),
     ps ≫= fun _ => [Some true; None]).
Proof.
  intros Hwf Hs Heq Hmax Hthr Hps. revert cb Hwf Hs Heq Hmax Hthr Hps.
  induction ps as [|p ps IH]; intros cb Hwf Hs Heq Hmax Hthr Hps.
  - destruct cb; simpl in *; subst. do 2 f_equal; lia.
  - apply Forall_cons in Hps as [[H1 H2] Hps]. simpl length in *.
    pose proof (good_probe_run cb p Hwf Hs H1 H2 ltac:(lia)) as Hrun.
    rewrite (proj2 (Z.leb_gt _ _)) in Hrun by lia.
    pose proof (run_wf cb (good_probe p) Hwf) as Hwf'. rewrite Hrun in Hwf'.
    simpl in Hwf'. rewrite bind_cons, run_app, Hrun, (IH _ Hwf'); simpl; auto; try lia.
    do 2 f_equal; lia.
Qed.

Lemma admitted_app rs1 rs2 : admitted (rs1 ++ rs2) = admitted rs1 + admitted rs2.
Proof. unfold admitted. rewrite filter_app, length_app. lia. Qed.

Lemma admitted_probes {A} (ps : list A) :
  admitted (ps ≫= fun _ => [Some true; None]) = Z.of_nat (length ps).
Proof.
  induction ps as [|p ps IH]; [done|]. rewrite bind_cons, admitted_app, IH.
  simpl length. unfold admitted at 1. simpl. lia.
Qed.

(** ** Properties *)

(** C30.  Every breaker reached from [NewCircuitBreaker] by any interleaving
    of operations of any goroutines keeps its configuration, never stores the
    half-open state, has a failure counter below its threshold and no probe
    counted while it is closed, at most [HalfOpenMaxRequests] probes counted
    while it is open, and a last failure in the past. *)
Theorem breaker_invariant cfg s :
  config_ok cfg -> reachable step (init cfg) s -> inv cfg s.
Proof.
  intros Hc. apply reachable_invariant; [|by intros; eapply inv_step].
  intros [t cb] Hi. unfold init in Hi. simpl in Hi. subst.
  split_and!; simpl; eauto with golib. discriminate.
Qed.

(** C2.  The breaker of the code, whose half-open state is computed from the
    clock and never stored, refines the three-state circuit breaker: every
    interleaving of operations on a new breaker gives the same operations and
    the same answers of [Allow] as a run of the abstract machine. *)
Theorem breaker_refines_spec cfg t0 ls t cb :
  config_ok cfg -> steps step (t0, NewCircuitBreaker cfg) ls (t, cb) ->
  exists a, spec_trace cfg (t0, SClosed 0) ls (t, a) /\ related t cb a.
Proof.
  intros Hc Hs. change cfg with (config (NewCircuitBreaker cfg)).
  eapply sim_trace; eauto with golib. done.
Qed.

(** C14.  Between a trip and the next trip or closing, an open breaker admits
    at most [HalfOpenMaxRequests] requests in all, however many goroutines
    call [Allow] and [RecordSuccess] and at whatever instants. *)
Theorem half_open_budget cb ops :
  wf cb -> Forall probe ops -> state (run exec cb ops).1 = StateOpen ->
  admitted (run exec cb ops).2 =
    halfOpenRequests (run exec cb ops).1 - halfOpenRequests cb /\
  admitted (run exec cb ops).2 <= Z.max 0 (HalfOpenMaxRequests (config cb)).
Proof.
  intros Hwf Hops Hopen.
  destruct (probe_run cb ops Hwf Hops Hopen) as [Hs Heq].
  split; [done|]. rewrite Heq.
  pose proof (run_wf cb ops Hwf) as Hwf'. pose proof (run_config cb ops) as Hcfg.
  destruct Hwf as (_ & _ & Hw), Hwf' as (_ & _ & Hw').
  rewrite Hs in Hw. rewrite Hopen, Hcfg in Hw'. lia.
Qed.

(** A closed breaker whose last recorded outcome is a success opens
    exactly at the [FailureThreshold]-th failure in a row: fewer failures
    leave it closed, and that many open it. *)
Theorem opens_at_threshold cb now fs :
  wf cb -> state cb = StateClosed -> 0 < FailureThreshold (config cb) ->
  state (run exec cb (OpSuccess now :: failure_burst fs)).1 =
    if Z.of_nat (length fs) <? FailureThreshold (config cb) then StateClosed else StateOpen.
Proof.
  intros Hwf Hs Hthr. simpl.
  destruct (run exec (RecordSuccess now cb) (failure_burst fs)) as [cb2 rs] eqn:E.
  simpl. change cb2 with (cb2, rs).1. rewrite <- E. clear E cb2 rs.
  pose proof (wf_RecordSuccess now cb Hwf) as Hwf'. revert Hwf'.
  unfold RecordSuccess. cb_cases now cb Hwf; try congruence. rewrite Hcur, Hs.
  intros Hwf'. pose proof (burst_closed fs _ Hwf' eq_refl Hthr) as Hb. simpl in Hb.
  pose proof (run_wf _ (failure_burst fs) Hwf') as (_ & _ & Hw).
  destruct (Z.ltb_spec (Z.of_nat (length fs)) (FailureThreshold (config cb))); [tauto|].
  destruct (state (run exec _ (failure_burst fs)).1); [|done|done].
  exfalso. assert (0 + Z.of_nat (length fs) < FailureThreshold (config cb)) by tauto. lia.
Qed.

(** Fail fast: until [Timeout] has passed since the last trip, an open
    breaker admits nothing and records nothing, whatever is called on it
    except [Reset]. *)
Theorem open_fails_fast cb ops :
  wf cb -> state cb = StateOpen ->
  Forall (fun o => match o with
                   | OpAllow now | OpSuccess now | OpFailure now _ =>
                       now - lastFailureTime cb <= Timeout (config cb)
                   | OpReset => False
                   end) ops ->
  (run exec cb ops).1 = cb /\ admitted (run exec cb ops).2 = 0.
Proof.
  intros Hwf Hs. induction 1 as [|o ops Ho _ [IH1 IH2]]; simpl; [done|].
  destruct (open_ignores cb o Hwf Hs) as [He Hr]; [by intros ->|by destruct o|].
  destruct (exec cb o) as [cb1 r]; simpl in *. subst cb1.
  destruct (run exec cb ops) as [cb2 rs]; simpl in *.
  rewrite admitted_cons, IH2. by case_decide.
Qed.

(** C29.  Recovery: once [Timeout] has passed after a trip, as many successful
    probes in a row as [SuccessThreshold] are all admitted and close the
    breaker with its failure counter cleared, provided the configuration lets
    that many probes through ([SuccessThreshold <= HalfOpenMaxRequests]). *)
Theorem recovers_after_probes cb ps :
  wf cb -> state cb = StateOpen -> halfOpenRequests cb = 0 -> successes cb = 0 ->
  0 < SuccessThreshold (config cb) <= HalfOpenMaxRequests (config cb) ->
  Forall (fun p => Timeout (config cb) < p.1 - lastFailureTime cb /\
                   Timeout (config cb) < p.2 - lastFailureTime cb) ps ->
  Z.of_nat (length ps) = SuccessThreshold (config cb) ->
  (run exec cb (ps ≫= good_probe)).1 = reset cb /\
  admitted (run exec cb (ps ≫= good_probe)).2 = SuccessThreshold (config cb).
Proof.
  intros Hwf Hs Hh Hz Hthr Hps Hlen.
  destruct ps as [|p ps _] using rev_ind; [simpl in *; lia|].
  rewrite length_app in Hlen. simpl in Hlen.
  apply Forall_app in Hps as [Hps Hp]. apply Forall_singleton in Hp as [H1 H2].
  pose proof (probes_open cb ps Hwf Hs ltac:(congruence) ltac:(lia) ltac:(lia) Hps) as Hrun.
  pose proof (run_wf cb (ps ≫= good_probe) Hwf) as Hwf'. rewrite Hrun in Hwf'.
  simpl in Hwf'. rewrite bind_app, bind_singleton, run_app, Hrun, good_probe_run; simpl; auto; [|lia].
  rewrite (proj2 (Z.leb_le _ _)) by lia. split; [done|].
  rewrite admitted_app, admitted_probes. unfold admitted at 1. simpl. lia.
Qed.

(** Starvation: a configuration with [HalfOpenMaxRequests] below
    [SuccessThreshold] never recovers by itself.  The probes are counted per
    trip and not given back, so once the allowed probes have all succeeded the
    breaker is still open and [Allow] answers [false] at every later instant:
    only [Reset], which nothing in the program calls, closes it. *)
Theorem half_open_starves cb ps now :
  wf cb -> state cb = StateOpen -> halfOpenRequests cb = 0 -> successes cb = 0 ->
  0 <= HalfOpenMaxRequests (config cb) < SuccessThreshold (config cb) ->
  Forall (fun p => Timeout (config cb) < p.1 - lastFailureTime cb /\
                   Timeout (config cb) < p.2 - lastFailureTime cb) ps ->
  Z.of_nat (length ps) = HalfOpenMaxRequests (config cb) ->
  let cb' := (run exec cb (ps ≫= good_probe)).1 in
  admitted (run exec cb (ps ≫= good_probe)).2 = HalfOpenMaxRequests (config cb) /\
  state cb' = StateOpen /\ Allow now cb' = (cb', false).
Proof.
  intros Hwf Hs Hh Hz Hthr Hps Hlen.
  rewrite probes_open by (auto; try congruence; lia). simpl.
  rewrite admitted_probes. split; [done|]. split; [done|].
  unfold Allow, currentState. simpl.
  destruct (Timeout (config cb) <? Since now (lastFailureTime cb)); [|done].
  by rewrite (proj2 (Z.ltb_ge _ _)) by lia.
Qed.

(** ** Witnesses *)

Definition tripped (c : CircuitBreakerConfig) (t : Time) : CircuitBreaker :=
  trip t (mkCB c StateClosed (FailureThreshold c) 0 0 0).

Definition one_probe : CircuitBreakerConfig := {|
  FailureThreshold := 5; SuccessThreshold := 2;
  Timeout := 30 * Second; HalfOpenMaxRequests := 1
|}.

Lemma breaker_invariant_witness :
  inv DefaultCircuitBreakerConfig
    (5, RecordFailure 5 5 (NewCircuitBreaker DefaultCircuitBreakerConfig)).
Proof.
  apply breaker_invariant; [vm_compute; intuition discriminate|].
  exists (0, NewCircuitBreaker DefaultCircuitBreakerConfig), [(OpFailure 5 5, None)].
  split; [done|]. eapply steps_cons; [|apply steps_nil].
  apply (step_op 0 _ (OpFailure 5 5) 5). split_and!; [discriminate|discriminate|done].
Defined.

Lemma breaker_refines_spec_witness :
  exists a, spec_trace DefaultCircuitBreakerConfig (0, SClosed 0)
              [(OpFailure 5 5, None); (OpAllow 6, Some true)] (6, a) /\
    related 6 (RecordFailure 5 5 (NewCircuitBreaker DefaultCircuitBreakerConfig)) a.
Proof.
  apply breaker_refines_spec; [vm_compute; intuition discriminate|].
  eapply steps_cons; [apply (step_op 0 _ (OpFailure 5 5) 5)|];
    [split_and!; [discriminate|discriminate|done]|].
  eapply steps_cons; [|apply steps_nil].
  apply (step_op 5 (RecordFailure 5 5 (NewCircuitBreaker DefaultCircuitBreakerConfig))
           (OpAllow 6) 6).
  split_and!; [discriminate|done].
Defined.

Ltac wf_tripped := vm_compute; intuition discriminate.

Lemma half_open_budget_witness :
  admitted (run exec (tripped DefaultCircuitBreakerConfig 0)
    (OpAllow <$> replicate 10 (31 * Second))).2 <= 3.
Proof.
  apply (half_open_budget (tripped DefaultCircuitBreakerConfig 0));
    [wf_tripped|repeat constructor|reflexivity].
Defined.

Lemma opens_at_threshold_witness :
  state (run exec (NewCircuitBreaker DefaultCircuitBreakerConfig)
    (OpSuccess 1 :: failure_burst (replicate 5 (2, 2)))).1 = StateOpen.
Proof.
  apply (opens_at_threshold (NewCircuitBreaker DefaultCircuitBreakerConfig));
    [wf_tripped|reflexivity|reflexivity].
Defined.

Lemma open_fails_fast_witness :
  admitted (run exec (tripped DefaultCircuitBreakerConfig 0)
    [OpAllow 1; OpSuccess 2; OpFailure 3 3; OpAllow (30 * Second)]).2 = 0.
Proof.
  apply (open_fails_fast (tripped DefaultCircuitBreakerConfig 0));
    [wf_tripped|reflexivity|repeat constructor; discriminate].
Defined.

Lemma recovers_after_probes_witness :
  (run exec (tripped DefaultCircuitBreakerConfig 0)
    (replicate 2 (31 * Second, 31 * Second) ≫= good_probe)).1 =
  reset (tripped DefaultCircuitBreakerConfig 0).
Proof.
  apply (recovers_after_probes (tripped DefaultCircuitBreakerConfig 0));
    [wf_tripped|reflexivity|reflexivity|reflexivity|wf_tripped| |reflexivity].
  repeat constructor.
Defined.

Lemma half_open_starves_witness :
  Allow (10 ^ 18) (run exec (tripped one_probe 0) ([(31 * Second, 32 * Second)] ≫= good_probe)).1 =
  ((run exec (tripped one_probe 0) ([(31 * Second, 32 * Second)] ≫= good_probe)).1, false).
Proof.
  apply (half_open_starves (tripped one_probe 0));
    [wf_tripped|reflexivity|reflexivity|reflexivity|wf_tripped| |reflexivity].
  repeat constructor.
Defined.

End CB.
