(* ===== verification/Config.v ===== *)
(** * Configuration: [internal/config/config.go]

    The configuration records with the source's field names, and [Load] after
    [os.ReadFile] and [yaml.Unmarshal], whose results are its arguments: what
    [Load] itself does is to fill in the defaults.  A value of the [Chains]
    map is a pointer, [nil] ([None]) for a chain with an empty YAML body. *)
From Stdlib Require Import ZArith Lia.
From S2P Require Import Prelude.

Module Cfg.

Record ClientTLSConfig := mkClientTLS {
  ctls_Enabled : bool;
  InsecureSkipVerify : bool;
  CAFile : string;
  ctls_CertFile : string;
  ctls_KeyFile : string
}.

Record TLSConfig := mkTLS {
  tls_Enabled : bool;
  CertFile : string;
  KeyFile : string;
  ClientTLS : ClientTLSConfig
}.

Record GRPCConfig := mkGRPC {
  grpc_Enabled : bool;
  grpc_Port : Z;
  grpc_TLS : TLSConfig
}.

Record ServerConfig := mkServer {
  Port : Z;
  ReadTimeout : Duration;
  WriteTimeout : Duration;
  TLS : TLSConfig
}.

Record RedisConfig := mkRedis {
  Addr : string;
  Password : string;
  DB : Z
}.

Record MetricsConfig := mkMetrics {
  metrics_Enabled : bool;
  metrics_Port : Z
}.

Record RateLimitConfig := mkRateLimit {
  rl_Enabled : bool;
  RequestsPerSecond : Z;
  Burst : Z;
  Strategy : string;
  PerIP : bool
}.

Record CacheConfig := mkCache {
  cache_Enabled : bool;
  TTL : Duration;
  CacheableMethods : list string
}.

Record HTTPPoolConfig := mkHTTPPool {
  MaxIdleConns : Z;
  MaxIdleConnsPerHost : Z;
  MaxConnsPerHost : Z;
  IdleConnTimeout : Duration
}.

Record EndpointConfig := mkEndpoint {
  URL : string;
  Weight : Z
}.

Record HealthCheckConfig := mkHealthCheck {
  Interval : Duration;
  hc_Timeout : Duration;
  MaxBlockLag : Z
}.

Record CircuitBreakerConfig := mkCircuitBreaker {
  cb_Enabled : bool;
  FailureThreshold : Z;
  SuccessThreshold : Z;
  cb_Timeout : Duration;
  HalfOpenMaxRequests : Z
}.

Record ChainConfig := mkChain {
  ChainID : Z;
  Endpoints : list EndpointConfig;
  HealthCheck : HealthCheckConfig;
  CircuitBreaker : CircuitBreakerConfig;
  HTTPPool : HTTPPoolConfig;
  chain_RateLimit : option RateLimitConfig
}.

Record Config := mkConfig {
  Server : ServerConfig;
  GRPC : GRPCConfig;
  Redis : RedisConfig;
  Metrics : MetricsConfig;
  RateLimit : RateLimitConfig;
  Cache : CacheConfig;
  Chains : gmap string (option ChainConfig)
}.

(** [if x == 0 { x = d }]. *)
Definition default0 (x d : Z) : Z := if x =? 0 then d else x.

(** The loop over [cfg.Chains]: the defaults of one chain's HTTP pool. *)
Definition chain_defaults (c : ChainConfig) : ChainConfig :=
  let p := HTTPPool c in
  mkChain (ChainID c) (Endpoints c) (HealthCheck c) (CircuitBreaker c)
    (mkHTTPPool (default0 (MaxIdleConns p) 100)
                (default0 (MaxIdleConnsPerHost p) 100)
                (MaxConnsPerHost p)
                (default0 (IdleConnTimeout p) (90 * Second)))
    (chain_RateLimit c).

Definition server_defaults (s : ServerConfig) : ServerConfig :=
  mkServer (default0 (Port s) 8080) (default0 (ReadTimeout s) (30 * Second))
           (default0 (WriteTimeout s) (30 * Second)) (TLS s).

(** [Load] after the decoding.  A [nil] chain is dereferenced by the loop over
    the chains: a run-time panic. *)
Definition apply_defaults (cfg : Config) : go Config :=
  if decide (map_Forall (fun _ c => is_Some c) (Chains cfg)) then
    Ret (mkConfig
      (server_defaults (Server cfg))
      (mkGRPC (grpc_Enabled (GRPC cfg)) (default0 (grpc_Port (GRPC cfg)) 9000) (grpc_TLS (GRPC cfg)))
      (Redis cfg)
      (mkMetrics (metrics_Enabled (Metrics cfg)) (default0 (metrics_Port (Metrics cfg)) 9090))
      (RateLimit cfg)
      (mkCache (cache_Enabled (Cache cfg)) (default0 (TTL (Cache cfg)) (60 * Second))
               (CacheableMethods (Cache cfg)))
      (fmap (M:=gmap string) (fmap (M:=option) chain_defaults) (Chains cfg)))
  else Panic "runtime error: invalid memory address or nil pointer dereference".

(** [Load]: [file] is what [os.ReadFile(path)] returns and [unmarshal] is
    [yaml.Unmarshal] into a zero [Config]. *)
Definition Load (unmarshal : string -> result Config) (file : result string) :
    go (result Config) :=
  match file with
  | Err e => Ret (Err e)
  | Ok data =>
      match unmarshal data with
      | Err e => Ret (Err e)
      | Ok cfg => cfg' ← apply_defaults cfg; Ret (Ok cfg')
      end
  end.

(** [CacheConfig.IsCacheableMethod]. *)
Fixpoint is_cacheable_method (ms : list string) (method : string) : bool :=
  match ms with
  | [] => false
  | m :: ms' => if decide (m = method) then true else is_cacheable_method ms' method
  end.

Definition IsCacheableMethod (c : CacheConfig) (method : string) : bool :=
  is_cacheable_method (CacheableMethods c) method.

(** ** Lemmas *)

Lemma default0_idem x d : default0 (default0 x d) d = default0 x d.
Proof.
  unfold default0. destruct (Z.eqb_spec x 0) as [->|Hx]; [by destruct (d =? 0)|].
  by rewrite (proj2 (Z.eqb_neq x 0) Hx).
Qed.

(** A field of the file and the field of the loaded configuration: zero stands
    for "missing" and becomes the default [d], anything else is kept. *)
Definition defaulted (d x y : Z) : Prop := (x = 0 /\ y = d) \/ (x <> 0 /\ y = x).

Lemma default0_defaulted d x : defaulted d x (default0 x d).
Proof. unfold defaulted, default0. destruct (Z.eqb_spec x 0); auto. Qed.

#[local] Hint Resolve default0_defaulted : golib.

Lemma chain_defaults_idem c : chain_defaults (chain_defaults c) = chain_defaults c.
Proof. unfold chain_defaults; simpl. by rewrite !default0_idem. Qed.

Lemma is_cacheable_method_spec ms m : is_cacheable_method ms m = true <-> m ∈ ms.
Proof.
  induction ms as [|m' ms IH]; simpl; [split; [done|by intros ?%not_elem_of_nil]|].
  rewrite elem_of_cons. case_decide as Hd; [by subst; tauto|].
  rewrite IH. split; [auto|]. by intros [->|?].
Qed.

(** What loading makes of a chain of the file. *)
Definition completes_chain (c c' : ChainConfig) : Prop :=
  ChainID c' = ChainID c /\ Endpoints c' = Endpoints c /\ HealthCheck c' = HealthCheck c /\
  CircuitBreaker c' = CircuitBreaker c /\ chain_RateLimit c' = chain_RateLimit c /\
  defaulted 100 (MaxIdleConns (HTTPPool c)) (MaxIdleConns (HTTPPool c')) /\
  defaulted 100 (MaxIdleConnsPerHost (HTTPPool c)) (MaxIdleConnsPerHost (HTTPPool c')) /\
  MaxConnsPerHost (HTTPPool c') = MaxConnsPerHost (HTTPPool c) /\
  defaulted (90 * Second) (IdleConnTimeout (HTTPPool c)) (IdleConnTimeout (HTTPPool c')).

(** What loading makes of the file: every field of the configuration. *)
Definition completes (raw cfg : Config) : Prop :=
  (defaulted 8080 (Port (Server raw)) (Port (Server cfg)) /\
   defaulted (30 * Second) (ReadTimeout (Server raw)) (ReadTimeout (Server cfg)) /\
   defaulted (30 * Second) (WriteTimeout (Server raw)) (WriteTimeout (Server cfg)) /\
   TLS (Server cfg) = TLS (Server raw)) /\
  (grpc_Enabled (GRPC cfg) = grpc_Enabled (GRPC raw) /\
   defaulted 9000 (grpc_Port (GRPC raw)) (grpc_Port (GRPC cfg)) /\
   grpc_TLS (GRPC cfg) = grpc_TLS (GRPC raw)) /\
  Redis cfg = Redis raw /\
  (metrics_Enabled (Metrics cfg) = metrics_Enabled (Metrics raw) /\
   defaulted 9090 (metrics_Port (Metrics raw)) (metrics_Port (Metrics cfg))) /\
  RateLimit cfg = RateLimit raw /\
  (cache_Enabled (Cache cfg) = cache_Enabled (Cache raw) /\
   defaulted (60 * Second) (TTL (Cache raw)) (TTL (Cache cfg)) /\
   CacheableMethods (Cache cfg) = CacheableMethods (Cache raw)) /\
  dom (Chains cfg) = dom (Chains raw) /\
  (forall name oc, Chains raw !! name = Some oc ->
     exists c c', oc = Some c /\ Chains cfg !! name = Some (Some c') /\ completes_chain c c').

Lemma apply_defaults_inv cfg cfg' :
  apply_defaults cfg = Ret cfg' ->
  map_Forall (fun _ c => is_Some c) (Chains cfg) /\
  Chains cfg' = fmap (M:=gmap string) (fmap (M:=option) chain_defaults) (Chains cfg).
Proof. unfold apply_defaults. case_decide; [|done]. intros [= <-]. done. Qed.

Lemma apply_defaults_completes cfg cfg' : apply_defaults cfg = Ret cfg' -> completes cfg cfg'.
Proof.
  intros H. unfold apply_defaults in H. case_decide as Hall; [|done]. simplify_eq/=.
  unfold completes; simpl. split_and!; auto with golib; [by rewrite dom_fmap_L|].
  intros name oc Hl. destruct (Hall name oc Hl) as [c ->]. exists c, (chain_defaults c).
  rewrite lookup_fmap, Hl. unfold completes_chain, chain_defaults. simpl. split_and!; auto with golib.
Qed.

Lemma apply_defaults_idem cfg cfg' :
  apply_defaults cfg = Ret cfg' -> apply_defaults cfg' = Ret cfg'.
Proof.
  intros H. destruct (apply_defaults_inv _ _ H) as [Hall Hch].
  unfold apply_defaults in *. case_decide as Hd; [|done]. injection H as <-. simpl in *.
  rewrite decide_True; [|].
  - unfold server_defaults. simpl. rewrite !default0_idem. do 2 f_equal.
    apply map_eq. intros name. rewrite !lookup_fmap.
    destruct (Chains cfg !! name) as [[c|]|]; simpl; [|done|done].
    by rewrite chain_defaults_idem.
  - intros name oc. rewrite lookup_fmap. intros [oc0 [Hl ->]]%fmap_Some.
    destruct (Hall name oc0 Hl) as [c ->]. done.
Qed.

(** ** Properties *)


(** [Load] has three outcomes and no other: the read or decoding error,
    the filled configuration, or, when some chain of the file has an empty
    body (a [nil] pointer in the map), a run-time panic instead of an error. *)
Theorem load_outcomes unmarshal file :
  match file, Load unmarshal file with
  | Err e, Ret (Err e') => e' = e
  | Ok data, Ret (Err e') => unmarshal data = Err e'
  | Ok data, Ret (Ok _) =>
      exists raw, unmarshal data = Ok raw /\ forall name, Chains raw !! name <> Some None
  | Ok data, Panic _ =>
      exists raw name, unmarshal data = Ok raw /\ Chains raw !! name = Some None
  | _, _ => False
  end.
Proof.
  destruct file as [data|e]; simpl; [|done].
  destruct (unmarshal data) as [raw|e]; simpl; [|done].
  unfold apply_defaults. case_decide as Hd; simpl.
  - exists raw. split; [done|]. intros name Hn. by destruct (Hd name None Hn).
  - apply map_not_Forall in Hd as (name & c & Hl & Hc); [|apply _].
    exists raw, name. split; [done|]. destruct c; [|done]. by destruct Hc.
Qed.

(** ** Witnesses *)

Definition empty_tls : TLSConfig := mkTLS false "" "" (mkClientTLS false false "" "" "").

Definition sample_chain : ChainConfig :=
  mkChain 1 [mkEndpoint "https://eth.llamarpc.com" 10; mkEndpoint "https://rpc.ankr.com/eth" 5]
    (mkHealthCheck (10 * Second) (5 * Second) 10)
    (mkCircuitBreaker true 5 2 (30 * Second) 3) (mkHTTPPool 0 50 0 0) None.

Definition sample : Config :=
  mkConfig (mkServer 0 0 (15 * Second) empty_tls) (mkGRPC false 0 empty_tls)
    (mkRedis "localhost:6379" "" 0) (mkMetrics true 9090)
    (mkRateLimit true 100 200 "" true) (mkCache true 0 ["eth_chainId"; "net_version"])
    {[ "ethereum" := Some sample_chain ]}.

Definition sample_filled : Config :=
  match apply_defaults sample with Ret c => c | Panic _ => sample end.


End Cfg.
