(* ===== verification/TLSClient.v ===== *)
(** * TLS towards the backends: [internal/tls/client.go]

    Files and [crypto/tls] are outside the program: what their functions return
    are arguments.  A [*tls.Config] is not changed after it has been built, so
    the transports that share the pointer are given the value. *)
From Stdlib Require Import ZArith Lia.
From S2P Require Import Prelude Config.

Module ClientTLS.

(** The fields of a [tls.Config] that the code sets; pools and certificates are
    named by the library. *)
Record tls_config := mkTLSConfig {
  InsecureSkipVerify : bool;
  MinVersion : Z;
  RootCAs : option nat;
  Certificates : list nat
}.

Definition VersionTLS12 : Z := 771.

Section Files.
Context (ReadFile : string -> result string).
Context (AppendCertsFromPEM : string -> option nat).
Context (LoadX509KeyPair : string -> string -> result nat).

(** The CA file of [NewClientTLSConfig]. *)
Definition load_ca (cfg : Cfg.ClientTLSConfig) (c : tls_config) : result tls_config :=
  if decide (Cfg.CAFile cfg = "")%string then Ok c
  else match ReadFile (Cfg.CAFile cfg) with
  | Err err => Err (ErrWrap ("failed to read CA file " +:+ Cfg.CAFile cfg) err)
  | Ok caCert =>
      match AppendCertsFromPEM caCert with
      | None => Err (ErrNew ("failed to parse CA certificate from " +:+ Cfg.CAFile cfg))
      | Some pool => Ok (mkTLSConfig (InsecureSkipVerify c) (MinVersion c) (Some pool) (Certificates c))
      end
  end.

(** Its client certificate. *)
Definition load_cert (cfg : Cfg.ClientTLSConfig) (c : tls_config) : result tls_config :=
  if decide (Cfg.ctls_CertFile cfg <> "" /\ Cfg.ctls_KeyFile cfg <> "")%string then
    match LoadX509KeyPair (Cfg.ctls_CertFile cfg) (Cfg.ctls_KeyFile cfg) with
    | Err err => Err (ErrWrap "failed to load client certificate" err)
    | Ok cert => Ok (mkTLSConfig (InsecureSkipVerify c) (MinVersion c) (RootCAs c) [cert])
    end
  else Ok c.

Definition NewClientTLSConfig (cfg : Cfg.ClientTLSConfig) : result (option tls_config) :=
  if Cfg.ctls_Enabled cfg then
    match load_ca cfg (mkTLSConfig (Cfg.InsecureSkipVerify cfg) VersionTLS12 None []) with
    | Err err => Err err
    | Ok c => match load_cert cfg c with Err err => Err err | Ok c' => Ok (Some c') end
    end
  else Ok None.
End Files.

(** What a configuration asks for, and what it got. *)
Lemma load_ca_ok rf ap cfg c c' :
  load_ca rf ap cfg c = Ok c' ->
  InsecureSkipVerify c' = InsecureSkipVerify c /\ MinVersion c' = MinVersion c /\
  Certificates c' = Certificates c /\
  (Cfg.CAFile cfg <> ""%string -> is_Some (RootCAs c')) /\
  (Cfg.CAFile cfg = ""%string -> RootCAs c' = RootCAs c).
Proof. unfold load_ca. intros H. repeat case_match; simplify_eq/=; split_and!; done || intros; by eauto || done. Qed.

Lemma load_cert_ok lp cfg c c' :
  load_cert lp cfg c = Ok c' ->
  InsecureSkipVerify c' = InsecureSkipVerify c /\ MinVersion c' = MinVersion c /\
  RootCAs c' = RootCAs c /\
  (Cfg.ctls_CertFile cfg <> ""%string /\ Cfg.ctls_KeyFile cfg <> ""%string ->
     exists cert, lp (Cfg.ctls_CertFile cfg) (Cfg.ctls_KeyFile cfg) = Ok cert /\ Certificates c' = [cert]).
Proof. unfold load_cert. intros H. repeat case_match; simplify_eq/=; split_and!; by eauto. Qed.

(** A client TLS configuration is complete or not given out: TLS 1.2 is the
    least version, certificates are checked unless the configuration says
    otherwise, a configured CA file has been read and parsed into the pool of
    roots, and a configured key pair is the client certificate. *)
Theorem tls_config_complete rf ap lp cfg c :
  NewClientTLSConfig rf ap lp cfg = Ok (Some c) ->
  Cfg.ctls_Enabled cfg = true /\ MinVersion c = VersionTLS12 /\
  InsecureSkipVerify c = Cfg.InsecureSkipVerify cfg /\
  (RootCAs c = None <-> Cfg.CAFile cfg = ""%string) /\
  (Cfg.ctls_CertFile cfg <> ""%string /\ Cfg.ctls_KeyFile cfg <> ""%string ->
     exists cert, lp (Cfg.ctls_CertFile cfg) (Cfg.ctls_KeyFile cfg) = Ok cert /\ Certificates c = [cert]).
Proof.
  unfold NewClientTLSConfig. destruct (Cfg.ctls_Enabled cfg); [|done].
  destruct (load_ca _ _ _ _) as [c1|] eqn:E1; [|done].
  destruct (load_cert _ _ _) as [c2|] eqn:E2; [|done]. intros [= <-].
  apply load_ca_ok in E1 as (H1 & H2 & H3 & H4 & H5). apply load_cert_ok in E2 as (H6 & H7 & H8 & H9).
  rewrite H7, H2, H6, H1, H8. split_and!; [done..| |done].
  destruct (decide (Cfg.CAFile cfg = ""%string)) as [E|E].
  - rewrite (H5 E). done.
  - destruct (H4 E) as [? ->]. naive_solver.
Qed.

Definition sample_cfg : Cfg.ClientTLSConfig := Cfg.mkClientTLS true false "ca.pem" "c.pem" "k.pem".

Lemma tls_config_complete_witness :
  exists c, NewClientTLSConfig (fun _ => Ok "pem"%string) (fun _ => Some 1%nat) (fun _ _ => Ok 2%nat) sample_cfg = Ok (Some c) /\
    MinVersion c = 771.
Proof.
  exists (mkTLSConfig false 771 (Some 1%nat) [2%nat]). split; [reflexivity|].
  exact (proj1 (proj2 (tls_config_complete (fun _ => Ok "pem"%string) (fun _ => Some 1%nat)
    (fun _ _ => Ok 2%nat) sample_cfg (mkTLSConfig false 771 (Some 1%nat) [2%nat]) eq_refl))).
Defined.

End ClientTLS.
