(* ===== verification/GoFloat.v ===== *)
(** * Go's [float64] and JSON values

    A [float64] is an IEEE 754 binary64 number in the Standard Library's
    executable specification ([SpecFloat], precision 53, exponents below
    1024); the arithmetic of the rate limiters and the latency figures is
    computed with it, rounding included. *)
From Stdlib Require Import ZArith Lia SpecFloat.
From S2P Require Import Prelude.

Module F64.

Definition prec : Z := 53.
Definition emax : Z := 1024.

Definition t : Type := spec_float.

(** [float64(z)] of an integer: rounded to nearest, ties to even. *)
Definition of_int (z : Z) : t := binary_normalize prec emax z 0 false.

Definition add : t -> t -> t := SFadd prec emax.
Definition sub : t -> t -> t := SFsub prec emax.
Definition mul : t -> t -> t := SFmul prec emax.
Definition div : t -> t -> t := SFdiv prec emax.

(** Go's [x < y], [x <= y]; [x > y] is [ltb y x]. All are false on NaN. *)
Definition ltb : t -> t -> bool := SFltb.
Definition leb : t -> t -> bool := SFleb.

(** [Duration.Seconds]: whole seconds plus the fraction, as Go computes it. *)
Definition Seconds (d : Duration) : t :=
  add (of_int (Z.quot d Second)) (div (of_int (Z.rem d Second)) (of_int 1000000000)).

End F64.

(** A JSON value, or a Go [interface{}] value that encodes to one. *)
Inductive json : Type :=
| JNull
| JBool (b : bool)
| JInt (z : Z)
| JFloat (x : F64.t)
| JString (s : string)
| JArray (l : list json)
| JObject (fields : list (string * json)).
