(* ===== verification/Endpoint.v ===== *)
(** * Endpoints: [internal/chain/endpoint.go]

    An endpoint is a shared object: the chain, its load balancer and its
    health checker hold pointers to it.  The [Store] maps the pointers to the
    endpoints' fields.  The HTTP client is outside the program: what a request
    comes to is an [http_result] argument.  The encoding/json functions are
    arguments too. *)
From Stdlib Require Import ZArith Lia.
From stdpp Require Import pretty.
From S2P Require Import Prelude GoFloat Config TLSClient CircuitBreaker.

Module EP.

(** The [http.Client] with its [http.Transport]; the TLS configuration is the
    pointer that is set when it is not [nil]. *)
Record HTTPClient := mkClient {
  ClientTimeout : Duration;
  Transport : Cfg.HTTPPoolConfig;
  TLSClientConfig : option ClientTLS.tls_config
}.

Record Endpoint := mkEndpoint {
  URL : string;
  Weight : Z;
  healthy : bool;
  blockHeight : Z;
  latency : Z;
  totalReqs : Z;
  failedReqs : Z;
  lastError : option error;
  lastChecked : Time;
  client : HTTPClient;
  circuitBreaker : option CB.CircuitBreaker
}.

Record EndpointOptions := mkOptions {
  opt_URL : string;
  opt_Weight : Z;
  opt_Timeout : Duration;
  opt_TLSConfig : option ClientTLS.tls_config;
  opt_PoolConfig : Cfg.HTTPPoolConfig
}.

Definition NewEndpointWithOptions (opts : EndpointOptions) : Endpoint :=
  mkEndpoint (opt_URL opts) (opt_Weight opts) true 0 0 0 0 None 0
    (mkClient (opt_Timeout opts) (opt_PoolConfig opts) (opt_TLSConfig opts)) None.

Definition NewEndpoint (url : string) (weight : Z) (timeout : Duration) : Endpoint :=
  NewEndpointWithOptions
    (mkOptions url weight timeout None (Cfg.mkHTTPPool 100 100 0 (90 * Second))).

(** ** Field updates *)

Definition with_healthy (b : bool) (e : Endpoint) : Endpoint :=
  mkEndpoint (URL e) (Weight e) b (blockHeight e) (latency e) (totalReqs e) (failedReqs e)
             (lastError e) (lastChecked e) (client e) (circuitBreaker e).
Definition with_blockHeight (h : Z) (e : Endpoint) : Endpoint :=
  mkEndpoint (URL e) (Weight e) (healthy e) h (latency e) (totalReqs e) (failedReqs e)
             (lastError e) (lastChecked e) (client e) (circuitBreaker e).
Definition with_latency (us : Z) (e : Endpoint) : Endpoint :=
  mkEndpoint (URL e) (Weight e) (healthy e) (blockHeight e) us (totalReqs e) (failedReqs e)
             (lastError e) (lastChecked e) (client e) (circuitBreaker e).
Definition incr_total (e : Endpoint) : Endpoint :=
  mkEndpoint (URL e) (Weight e) (healthy e) (blockHeight e) (latency e)
             (add64 (totalReqs e) 1) (failedReqs e)
             (lastError e) (lastChecked e) (client e) (circuitBreaker e).
Definition incr_failed (e : Endpoint) : Endpoint :=
  mkEndpoint (URL e) (Weight e) (healthy e) (blockHeight e) (latency e)
             (totalReqs e) (add64 (failedReqs e) 1)
             (lastError e) (lastChecked e) (client e) (circuitBreaker e).
Definition with_lastError (err : error) (e : Endpoint) : Endpoint :=
  mkEndpoint (URL e) (Weight e) (healthy e) (blockHeight e) (latency e)
             (totalReqs e) (failedReqs e)
             (Some err) (lastChecked e) (client e) (circuitBreaker e).
Definition with_circuitBreaker (cb : option CB.CircuitBreaker) (e : Endpoint) : Endpoint :=
  mkEndpoint (URL e) (Weight e) (healthy e) (blockHeight e) (latency e)
             (totalReqs e) (failedReqs e)
             (lastError e) (lastChecked e) (client e) cb.

Definition NewEndpointWithCircuitBreaker (url : string) (weight : Z) (timeout : Duration)
    (cbConfig : CB.CircuitBreakerConfig) : Endpoint :=
  with_circuitBreaker (Some (CB.NewCircuitBreaker cbConfig)) (NewEndpoint url weight timeout).

(** ** Accessors *)

Definition CircuitBreakerState (now : Time) (e : Endpoint) : string :=
  match circuitBreaker e with
  | None => ""
  | Some cb => CB.String (CB.State_ now cb)
  end.

Definition CircuitBreakerStats (now : Time) (e : Endpoint) : option CB.CircuitBreakerStats :=
  CB.Stats now <$> circuitBreaker e.

Definition IsHealthy (e : Endpoint) : bool := healthy e.
Definition SetHealthy (b : bool) (e : Endpoint) : Endpoint := with_healthy b e.
Definition BlockHeight (e : Endpoint) : Z := blockHeight e.
Definition SetBlockHeight (h : Z) (e : Endpoint) : Endpoint := with_blockHeight h e.
Definition Latency (e : Endpoint) : F64.t :=
  F64.div (F64.of_int (latency e)) (F64.of_int 1000).

Record EndpointStats := mkStats {
  StatsURL : string;
  Healthy : bool;
  StatsBlockHeight : Z;
  LatencyMs : F64.t;
  TotalReqs : Z;
  FailedReqs : Z;
  LastError : option error;
  LastChecked : Time
}.

Definition Stats (e : Endpoint) : EndpointStats :=
  mkStats (URL e) (healthy e) (blockHeight e)
          (F64.div (F64.of_int (latency e)) (F64.of_int 1000))
          (totalReqs e) (failedReqs e) (lastError e) (lastChecked e).

(** ** JSON-RPC messages *)

Record RPCRequest := mkRPCRequest {
  req_JSONRPC : string;
  Method : string;
  Params : list json;
  req_ID : json
}.

Record RPCError := mkRPCError {
  Code : Z;
  Message : string;
  Data : string
}.

Record RPCResponse := mkRPCResponse {
  JSONRPC : string;
  Result : string;
  RError : option RPCError;
  ID : json
}.

(** ** Requests *)

(** What becomes of an HTTP request: [http.NewRequestWithContext] fails;
    [client.Do] fails after a time; the body of an answer with this status
    cannot be read; or the answer arrives whole. *)
Inductive http_result : Type :=
| NewRequestFailed (err : error)
| DoFailed (err : error) (took : Duration)
| ReadFailed (status : Z) (err : error) (took : Duration)
| Responded (status : Z) (body : string) (took : Duration).

Definition StatusOK : Z := 200.

(** [recordCircuitBreakerSuccess], [recordCircuitBreakerFailure]. *)
Definition recordCircuitBreakerSuccess (now : Time) (e : Endpoint) : Endpoint :=
  match circuitBreaker e with
  | None => e
  | Some cb => with_circuitBreaker (Some (CB.RecordSuccess now cb)) e
  end.

Definition recordCircuitBreakerFailure (now now_trip : Time) (e : Endpoint) : Endpoint :=
  match circuitBreaker e with
  | None => e
  | Some cb => with_circuitBreaker (Some (CB.RecordFailure now now_trip cb)) e
  end.

(** [Forward] up to the request: the circuit breaker is asked, and an admitted
    request is counted. *)
Definition ForwardBegin (now : Time) (e : Endpoint) : Endpoint * option error :=
  match circuitBreaker e with
  | None => (incr_total e, None)
  | Some cb =>
      let '(cb', ok) := CB.Allow now cb in
      let e' := with_circuitBreaker (Some cb') e in
      if ok then (incr_total e', None) else (e', Some CB.ErrCircuitOpen)
  end.

(** [Forward] from the request's outcome [r] on; the circuit breaker reads the
    clock at [now] and, when it trips, at [now_trip]. *)
Definition ForwardEnd (now now_trip : Time) (r : http_result) (e : Endpoint) :
    Endpoint * result string :=
  match r with
  | NewRequestFailed err =>
      (recordCircuitBreakerFailure now now_trip (incr_failed e),
       Err (ErrWrap "failed to create request" err))
  | DoFailed err took =>
      (recordCircuitBreakerFailure now now_trip
         (with_lastError err (incr_failed (with_latency (Duration_Microseconds took) e))),
       Err (ErrWrap "request failed" err))
  | ReadFailed _ err took =>
      (recordCircuitBreakerFailure now now_trip
         (incr_failed (with_latency (Duration_Microseconds took) e)),
       Err (ErrWrap "failed to read response" err))
  | Responded status body took =>
      let e1 := with_latency (Duration_Microseconds took) e in
      if decide (status <> StatusOK)
      then (recordCircuitBreakerSuccess now (incr_failed e1), Ok body)
      else (recordCircuitBreakerSuccess now e1, Ok body)
  end.

(** The clock readings of one call of [Forward]. *)
Record clocks := mkClocks {
  t_allow : Time;
  t_record : Time;
  t_trip : Time
}.

(** [Forward] with no other goroutine touching the endpoint in between. *)
Definition Forward (c : clocks) (r : http_result) (e : Endpoint) : Endpoint * result string :=
  let '(e1, refused) := ForwardBegin (t_allow c) e in
  match refused with
  | Some err => (e1, Err err)
  | None => ForwardEnd (t_record c) (t_trip c) r e1
  end.

(** [Call], the health checker's request.  It never asks the circuit breaker.
    A bad status is an error before the body is read. *)
Definition Call (marshal : RPCRequest -> result string)
    (unmarshal : string -> result RPCResponse)
    (req : RPCRequest) (r : http_result) (e : Endpoint) : Endpoint * result RPCResponse :=
  let e0 := incr_total e in
  match marshal req with
  | Err err => (incr_failed e0, Err (ErrWrap "failed to marshal request" err))
  | Ok _ =>
      match r with
      | NewRequestFailed err =>
          (incr_failed e0, Err (ErrWrap "failed to create request" err))
      | DoFailed err took =>
          (with_lastError err (incr_failed (with_latency (Duration_Microseconds took) e0)),
           Err (ErrWrap "request failed" err))
      | ReadFailed status err took =>
          let e1 := incr_failed (with_latency (Duration_Microseconds took) e0) in
          if decide (status <> StatusOK) then
            let err' := ErrNew ("unexpected status code: " +:+ pretty status) in
            (with_lastError err' e1, Err err')
          else (e1, Err (ErrWrap "failed to read response" err))
      | Responded status body took =>
          let e1 := with_latency (Duration_Microseconds took) e0 in
          if decide (status <> StatusOK) then
            let err' := ErrNew ("unexpected status code: " +:+ pretty status) in
            (with_lastError err' (incr_failed e1), Err err')
          else
            match unmarshal body with
            | Err err => (incr_failed e1, Err (ErrWrap "failed to unmarshal response" err))
            | Ok resp => (e1, Ok resp)
            end
      end
  end.

(** ** The life of an endpoint under concurrent requests *)

(** What a goroutine does to an endpoint in one go.  A [Forward] is two
    events, before and after its HTTP request, so that those of concurrent
    calls interleave. *)
Inductive event : Type :=
| EBegin (now : Time)
| EEnd (now now_trip : Time) (r : http_result)
| ECall (marshal : RPCRequest -> result string) (unmarshal : string -> result RPCResponse)
        (req : RPCRequest) (r : http_result)
| ESetHealthy (b : bool)
| ESetBlockHeight (h : Z).

(** An endpoint with a history: the requests counted so far, those of them
    that failed, those that succeeded, and those still running. *)
Record life := mkLife {
  ep : Endpoint;
  begun : Z;
  failed : Z;
  succeeded : Z;
  running : Z
}.

(** An answered [Forward] counts as a failure when its status is not 200. *)
Definition request_failed (r : http_result) : bool :=
  match r with
  | Responded status _ _ => negb (status =? StatusOK)
  | _ => true
  end.

Inductive life_step : life -> event -> life -> Prop :=
| life_refused l now e' err :
    ForwardBegin now (ep l) = (e', Some err) ->
    life_step l (EBegin now) (mkLife e' (begun l) (failed l) (succeeded l) (running l))
| life_begin l now e' :
    ForwardBegin now (ep l) = (e', None) ->
    life_step l (EBegin now) (mkLife e' (begun l + 1) (failed l) (succeeded l) (running l + 1))
| life_end l now now' r :
    0 < running l ->
    life_step l (EEnd now now' r)
      (mkLife (ForwardEnd now now' r (ep l)).1 (begun l)
              (failed l + Z.b2z (request_failed r))
              (succeeded l + Z.b2z (negb (request_failed r))) (running l - 1))
| life_call l marshal unmarshal req r e' res :
    Call marshal unmarshal req r (ep l) = (e', res) ->
    life_step l (ECall marshal unmarshal req r)
      (mkLife e' (begun l + 1) (failed l + Z.b2z (negb (is_ok res)))
              (succeeded l + Z.b2z (is_ok res)) (running l))
| life_healthy l b :
    life_step l (ESetHealthy b)
      (mkLife (SetHealthy b (ep l)) (begun l) (failed l) (succeeded l) (running l))
| life_height l h :
    life_step l (ESetBlockHeight h)
      (mkLife (SetBlockHeight h (ep l)) (begun l) (failed l) (succeeded l) (running l)).

(** ** Lemmas *)

(** The breaker of an endpoint, when it has one, is well formed. *)
Definition breaker_wf (e : Endpoint) : Prop :=
  forall cb, circuitBreaker e = Some cb -> CB.wf cb.

Lemma record_counters (f : CB.CircuitBreaker -> CB.CircuitBreaker) e :
  let e' := match circuitBreaker e with
            | None => e
            | Some cb => with_circuitBreaker (Some (f cb)) e
            end in
  totalReqs e' = totalReqs e /\ failedReqs e' = failedReqs e /\
  healthy e' = healthy e /\ URL e' = URL e /\ Weight e' = Weight e.
Proof. by destruct (circuitBreaker e). Qed.

Lemma Allow_refused now cb cb' : CB.Allow now cb = (cb', false) -> cb' = cb.
Proof. unfold CB.Allow. repeat case_match; congruence. Qed.

Lemma ForwardBegin_counters now e :
  totalReqs (ForwardBegin now e).1 =
    (if ForwardBegin now e is (_, None) then add64 (totalReqs e) 1 else totalReqs e) /\
  failedReqs (ForwardBegin now e).1 = failedReqs e.
Proof.
  unfold ForwardBegin. destruct (circuitBreaker e) as [cb|]; [|done].
  by destruct (CB.Allow now cb) as [cb' []].
Qed.

Lemma ForwardEnd_counters now now' r e :
  totalReqs (ForwardEnd now now' r e).1 = totalReqs e /\
  failedReqs (ForwardEnd now now' r e).1 =
    (if request_failed r then add64 (failedReqs e) 1 else failedReqs e).
Proof.
  destruct r as [err|err took|status err took|status body took]; simpl;
    unfold recordCircuitBreakerFailure, recordCircuitBreakerSuccess;
    [by destruct (circuitBreaker _)..|].
  destruct (Z.eqb_spec status StatusOK) as [->|Hs]; simpl.
  - by destruct (circuitBreaker _).
  - rewrite decide_True by done. by destruct (circuitBreaker _).
Qed.

Lemma Call_counters marshal unmarshal req r e :
  totalReqs (Call marshal unmarshal req r e).1 = add64 (totalReqs e) 1 /\
  failedReqs (Call marshal unmarshal req r e).1 =
    (if is_ok (Call marshal unmarshal req r e).2 then failedReqs e
     else add64 (failedReqs e) 1).
Proof.
  unfold Call. destruct (marshal req); [|done].
  destruct r as [err|err took|status err took|status body took]; try done;
    destruct (decide (status <> StatusOK)); try done.
  by destruct (unmarshal body).
Qed.

(** Requests leave the flag and the identity of an endpoint alone. *)
Lemma ForwardBegin_healthy now e : healthy (ForwardBegin now e).1 = healthy e.
Proof.
  unfold ForwardBegin. destruct (circuitBreaker e) as [cb|]; [|done].
  by destruct (CB.Allow now cb) as [cb' []].
Qed.

Lemma ForwardEnd_healthy now now' r e : healthy (ForwardEnd now now' r e).1 = healthy e.
Proof.
  destruct r as [err|err took|status err took|status body took]; simpl;
    try case_decide; simpl;
    unfold recordCircuitBreakerFailure, recordCircuitBreakerSuccess; simpl;
    by destruct (circuitBreaker e).
Qed.

(** The books of a life balance, up to the wrap-around of the counters. *)
Definition balanced (l : life) : Prop :=
  totalReqs (ep l) = wrap64 (begun l) /\ failedReqs (ep l) = wrap64 (failed l) /\
  begun l = failed l + succeeded l + running l /\
  0 <= failed l /\ 0 <= succeeded l /\ 0 <= running l.

Lemma incr_wrap64 z : add64 (wrap64 z) 1 = wrap64 (z + 1).
Proof. apply wrap64_add_l. Qed.

Lemma balanced_step l ev l' : balanced l -> life_step l ev l' -> balanced l'.
Proof.
  intros (Ht & Hf & Hb & Hf0 & Hs0 & Hr0) Hstep.
  inversion Hstep as [? now e' err Hr|? now e' Hr|? now now' r Hrun|? m u req r e' res Hr|? b|? h];
    subst; unfold balanced; simpl; rewrite <- ?incr_wrap64.
  - pose proof (ForwardBegin_counters now (ep l)) as [H1 H2]. rewrite Hr in H1, H2.
    simpl in *. rewrite H1, H2. split_and!; done || lia.
  - pose proof (ForwardBegin_counters now (ep l)) as [H1 H2]. rewrite Hr in H1, H2.
    simpl in *. rewrite H1, H2, Ht. split_and!; done || lia.
  - pose proof (ForwardEnd_counters now now' r (ep l)) as [-> ->].
    rewrite Ht, Hf. destruct (request_failed r); simpl;
      rewrite ?incr_wrap64, ?Z.add_0_r; split_and!; done || lia.
  - pose proof (Call_counters m u req r (ep l)) as [H1 H2]. rewrite Hr in H1, H2.
    simpl in *. rewrite H1, H2, Ht, Hf. destruct (is_ok res); simpl;
      rewrite ?incr_wrap64, ?Z.add_0_r; split_and!; done || lia.
  - split_and!; done || lia.
  - split_and!; done || lia.
Qed.

(** The circuit breaker's operations that an event performs. *)
Definition breaker_ops (ev : event) : list CB.op :=
  match ev with
  | EBegin now => [CB.OpAllow now]
  | EEnd now now' r =>
      match r with
      | Responded _ _ _ => [CB.OpSuccess now]
      | _ => [CB.OpFailure now now']
      end
  | _ => []
  end.

Lemma Call_breaker marshal unmarshal req r e :
  circuitBreaker (Call marshal unmarshal req r e).1 = circuitBreaker e.
Proof.
  unfold Call. destruct (marshal req); [|done].
  destruct r; try done; destruct (decide (status <> StatusOK)); try done.
  by destruct (unmarshal body).
Qed.

Lemma ForwardBegin_breaker now e :
  circuitBreaker (ForwardBegin now e).1 = (fun cb => (CB.Allow now cb).1) <$> circuitBreaker e.
Proof.
  unfold ForwardBegin. destruct (circuitBreaker e) as [cb|] eqn:E; simpl; [|done].
  by destruct (CB.Allow now cb) as [cb' []].
Qed.

Lemma ForwardEnd_breaker now now' r e :
  circuitBreaker (ForwardEnd now now' r e).1 =
    (fun cb => (run CB.exec cb (breaker_ops (EEnd now now' r))).1) <$> circuitBreaker e.
Proof.
  destruct r as [err|err took|status err took|status body took]; simpl;
    unfold recordCircuitBreakerFailure, recordCircuitBreakerSuccess;
    try (destruct (decide (status <> StatusOK))); simpl;
    destruct (circuitBreaker e) eqn:E; simpl; rewrite ?E; done.
Qed.

Lemma life_breaker_step l ev l' :
  life_step l ev l' ->
  circuitBreaker (ep l') = (fun cb => (run CB.exec cb (breaker_ops ev)).1) <$> circuitBreaker (ep l).
Proof.
  intros Hstep.
  inversion Hstep as [? now e' err Hr|? now e' Hr|? now now' r Hrun|? m u req r e' res Hr|? b|? h];
    subst; simpl.
  - pose proof (ForwardBegin_breaker now (ep l)) as H. rewrite Hr in H. simpl in H. rewrite H.
    apply option_fmap_ext. intros cb. by destruct (CB.Allow now cb).
  - pose proof (ForwardBegin_breaker now (ep l)) as H. rewrite Hr in H. simpl in H. rewrite H.
    apply option_fmap_ext. intros cb. by destruct (CB.Allow now cb).
  - apply ForwardEnd_breaker.
  - pose proof (Call_breaker m u req r (ep l)) as H. rewrite Hr in H. simpl in H. rewrite H.
    by destruct (circuitBreaker (ep l)).
  - by destruct (circuitBreaker (ep l)).
  - by destruct (circuitBreaker (ep l)).
Qed.

(** ** Properties *)

(** The endpoint's circuit breaker refuses a request at [now]. *)
Definition refuses (now : Time) (e : Endpoint) : bool :=
  match circuitBreaker e with
  | None => false
  | Some cb => negb (CB.Allow now cb).2
  end.

(** What an admitted [Forward] returns. *)
Definition forward_answer (r : http_result) : result string :=
  match r with
  | NewRequestFailed err => Err (ErrWrap "failed to create request" err)
  | DoFailed err _ => Err (ErrWrap "request failed" err)
  | ReadFailed _ err _ => Err (ErrWrap "failed to read response" err)
  | Responded _ body _ => Ok body
  end.

(** [Forward] on every branch.  A refused request changes nothing and
    returns [ErrCircuitOpen].  An admitted one is counted once in
    [totalReqs], and in [failedReqs] unless its answer has status 200; an
    answer with any status is returned as a success, and only transport
    errors are errors.  [Forward] itself never changes the health flag, the
    block height, the address or the weight. *)
Theorem forward_outcome c r e :
  let '(e', res) := Forward c r e in
  (healthy e' = healthy e /\ blockHeight e' = blockHeight e /\
   URL e' = URL e /\ Weight e' = Weight e) /\
  if refuses (t_allow c) e
  then e' = e /\ res = Err CB.ErrCircuitOpen
  else res = forward_answer r /\ totalReqs e' = add64 (totalReqs e) 1 /\
       failedReqs e' = (if request_failed r then add64 (failedReqs e) 1 else failedReqs e).
Proof.
  unfold Forward, refuses, ForwardBegin.
  destruct (circuitBreaker e) as [cb|] eqn:E.
  - destruct (CB.Allow (t_allow c) cb) as [cb' []] eqn:Ea; simpl.
    + pose proof (ForwardEnd_counters (t_record c) (t_trip c) r
        (incr_total (with_circuitBreaker (Some cb') e))) as [Ht Hf].
      destruct (ForwardEnd _ _ r _) as [e' res] eqn:Ee. simpl in *. rewrite Ht, Hf.
      destruct r; simpl in Ee; try case_decide; simplify_eq/=; done.
    + apply Allow_refused in Ea as ->. by destruct e; simpl in *; subst.
  - pose proof (ForwardEnd_counters (t_record c) (t_trip c) r (incr_total e)) as [Ht Hf].
    destruct (ForwardEnd _ _ r _) as [e' res] eqn:Ee. simpl in *. rewrite Ht, Hf.
    destruct r; simpl in Ee; unfold recordCircuitBreakerSuccess, recordCircuitBreakerFailure in Ee;
      simpl in Ee; rewrite ?E in Ee; try case_decide; simplify_eq/=; done.
Qed.

(** C12.  However the requests, health checks and flag updates of concurrent
    goroutines interleave on an endpoint, its two counters are the numbers of
    requests begun and failed (modulo the word size), every request is
    running, failed or succeeded, and, below 2^63 requests, the failures never
    exceed the requests. *)
Theorem forward_accounting e ls l :
  totalReqs e = 0 -> failedReqs e = 0 ->
  steps life_step (mkLife e 0 0 0 0) ls l ->
  balanced l /\
  (begun l <= int64_max ->
     0 <= failedReqs (ep l) <= totalReqs (ep l) /\
     totalReqs (ep l) - failedReqs (ep l) = succeeded l + running l).
Proof.
  intros Ht Hf Hs.
  assert (balanced l) as Hb.
  { eapply (steps_invariant life_step balanced); eauto using balanced_step.
    unfold balanced; simpl. rewrite Ht, Hf. split_and!; done. }
  split; [done|]. destruct Hb as (-> & -> & Hb & ? & ? & ?). intros Hmax.
  rewrite !wrap64_id by (unfold in_int64, int64_max, int64_min in *; lia). lia.
Qed.

(** C13.  The endpoint drives its circuit breaker only through [Allow] before a
    request and one recorded outcome after it, and never resets it; an HTTP
    error status counts as a success for the breaker, and the health checker's
    calls leave it alone. *)
Theorem endpoint_drives_breaker l ls l' :
  steps life_step l ls l' ->
  circuitBreaker (ep l') =
    (fun cb => (run CB.exec cb (ls ≫= breaker_ops)).1) <$> circuitBreaker (ep l) /\
  CB.OpReset ∉ (ls ≫= breaker_ops).
Proof.
  intros Hs. split.
  - induction Hs as [l|l ev l1 ls l2 H1 _ IH]; [by destruct (circuitBreaker (ep l))|].
    rewrite IH, (life_breaker_step _ _ _ H1), <- option_fmap_compose.
    apply option_fmap_ext. intros cb. simpl. rewrite run_app.
    destruct (run CB.exec cb (breaker_ops ev)) as [cb1 rs1]. simpl.
    by destruct (run CB.exec cb1 _).
  - clear Hs. intros (ev & Hin & _)%list_elem_of_bind.
    destruct ev as [now|now now' []|m u req r|b|h]; simpl in Hin;
      repeat (apply elem_of_cons in Hin as [Hin|Hin]; [discriminate|]);
      by apply not_elem_of_nil in Hin.
Qed.

(** ** Witnesses *)

Definition sample : Endpoint :=
  NewEndpointWithCircuitBreaker "https://eth.llamarpc.com" 10 (5 * Second)
    CB.DefaultCircuitBreakerConfig.

Definition server_error : http_result := Responded 500 "oops" (3 * Millisecond).

Definition after_two : life :=
  mkLife (ForwardEnd 7 7 server_error (ForwardBegin 6 (ForwardBegin 5 sample).1).1).1
         2 1 0 1.

Lemma sample_steps :
  steps life_step (mkLife sample 0 0 0 0) [EBegin 5; EBegin 6; EEnd 7 7 server_error] after_two.
Proof.
  eapply steps_cons; [by apply life_begin|]. eapply steps_cons; [by apply life_begin|].
  eapply steps_cons; [by apply life_end|]. apply steps_nil.
Qed.

Lemma forward_accounting_witness :
  0 <= failedReqs (ep after_two) <= totalReqs (ep after_two).
Proof.
  apply (forward_accounting sample [EBegin 5; EBegin 6; EEnd 7 7 server_error]);
    [reflexivity|reflexivity|apply sample_steps|discriminate].
Defined.

Lemma endpoint_drives_breaker_witness :
  circuitBreaker (ep after_two) =
    Some (run CB.exec (CB.NewCircuitBreaker CB.DefaultCircuitBreakerConfig)
            [CB.OpAllow 5; CB.OpAllow 6; CB.OpSuccess 7]).1.
Proof.
  apply (endpoint_drives_breaker _ _ _ sample_steps).
Defined.

End EP.
