(* ===== verification/LoadBalancer.v ===== *)
(** * Weighted round robin: [internal/chain/loadbalancer.go]

    [Next] reads the endpoints' atomic health flags up to three times, one
    pass over the endpoints each, while the flags may be changed by other
    goroutines (the lock [lb.mu] does not guard them).  Each pass therefore
    has a snapshot of its own, [h1 h2 h3], indexed by position; a sequential
    call is the case of three equal snapshots. *)
From Stdlib Require Import ZArith Lia.
From stdpp Require Import list_numbers.
From S2P Require Import Prelude GoFloat Config CircuitBreaker Endpoint.

(** Endpoints are shared through pointers. *)
Abbreviation loc := nat (only parsing).
Abbreviation Store := (gmap nat EP.Endpoint) (only parsing).

Module LB.

Definition ErrNoHealthyEndpoints : error := ErrNew "no healthy endpoints available".

Record LoadBalancer := mkLB {
  endpoints : list loc;
  weights : list Z;
  current : Z
}.

(** [NewLoadBalancer] copies the weights out of the endpoints; [weight_of] is
    the dereferenced [ep.Weight]. *)
Definition NewLoadBalancer (weight_of : loc -> Z) (eps : list loc) : LoadBalancer :=
  mkLB eps (weight_of <$> eps) 0.

Definition health := nat -> bool.

(** The first loop of [Next]: the total weight of the healthy endpoints. *)
Fixpoint total_weight (h : health) (i : nat) (total : Z) (ws : list Z) : Z :=
  match ws with
  | [] => total
  | w :: ws' => total_weight h (S i) (if h i then add64 total w else total) ws'
  end.

(** The second loop: the first healthy endpoint whose cumulative weight passes
    [selected]. *)
Fixpoint select (h : health) (i : nat) (cumulative selected : Z) (ws : list Z) : option nat :=
  match ws with
  | [] => None
  | w :: ws' =>
      if h i then
        let cumulative' := add64 cumulative w in
        if selected <? cumulative' then Some i
        else select h (S i) cumulative' selected ws'
      else select h (S i) cumulative selected ws'
  end.

(** The third loop: any healthy endpoint. *)
Fixpoint first_healthy (h : health) (i n : nat) : option nat :=
  match n with
  | O => None
  | S n' => if h i then Some i else first_healthy h (S i) n'
  end.

(** The atomic [current.Add(1)]. *)
Definition bump (lb : LoadBalancer) : LoadBalancer :=
  mkLB (endpoints lb) (weights lb) (add64 (current lb) 1).

Definition at_position (lb : LoadBalancer) (o : option nat) : option loc :=
  i ← o; endpoints lb !! i.

(** The position that a value [idx] of the counter selects. *)
Definition pick (h2 h3 : health) (total idx : Z) (ws : list Z) : option nat :=
  match select h2 0 0 (Z.rem idx total) ws with
  | Some i => Some i
  | None => first_healthy h3 0 (length ws)
  end.

Definition Next (h1 h2 h3 : health) (lb : LoadBalancer) : LoadBalancer * result loc :=
  if decide (endpoints lb = []) then (lb, Err ErrNoHealthyEndpoints)
  else
    let total := total_weight h1 0 0 (weights lb) in
    if total =? 0 then (lb, Err ErrNoHealthyEndpoints)
    else
      let lb' := bump lb in
      match at_position lb (pick h2 h3 total (current lb') (weights lb)) with
      | Some l => (lb', Ok l)
      | None => (lb', Err ErrNoHealthyEndpoints)
      end.

(** [NextWithFallback]: when [Next] fails, plain round robin over all the
    endpoints, healthy or not.  A negative remainder, possible once the counter
    has wrapped, is an index out of range. *)
Definition NextWithFallback (h1 h2 h3 : health) (lb : LoadBalancer) :
    LoadBalancer * go (result loc) :=
  match Next h1 h2 h3 lb with
  | (lb1, Ok l) => (lb1, Ret (Ok l))
  | (lb1, Err _) =>
      if decide (endpoints lb1 = []) then (lb1, Ret (Err ErrNoHealthyEndpoints))
      else
        let lb2 := bump lb1 in
        let idx := Z.rem (current lb2) (Z.of_nat (length (endpoints lb2))) in
        if idx <? 0 then (lb2, Panic "index out of range")
        else match endpoints lb2 !! Z.to_nat idx with
             | Some l => (lb2, Ret (Ok l))
             | None => (lb2, Panic "index out of range")
             end
  end.

Fixpoint count_healthy (h : health) (i n : nat) : Z :=
  match n with
  | O => 0
  | S n' => (if h i then 1 else 0) + count_healthy h (S i) n'
  end.

Definition HealthyCount (h : health) (lb : LoadBalancer) : Z :=
  count_healthy h 0 (length (endpoints lb)).

Definition AllEndpoints (lb : LoadBalancer) : list loc := endpoints lb.

(** The snapshot that a store gives, when nobody writes to it. *)
Definition snapshot (st : Store) (eps : list loc) : health := fun i =>
  match eps !! i with
  | Some l => match st !! l with Some e => EP.IsHealthy e | None => false end
  | None => false
  end.

(** ** Invariant and ideal definitions *)

(** A well-formed balancer: as many weights as endpoints, no weight negative,
    and a total that fits the word (the weights come from the configuration). *)
Definition wf (lb : LoadBalancer) : Prop :=
  length (weights lb) = length (endpoints lb) /\
  Forall (fun w => 0 <= w) (weights lb) /\
  foldr Z.add 0 (weights lb) <= int64_max.

(** The weight of the healthy endpoints in unbounded arithmetic. *)
Fixpoint healthy_weight (h : health) (i : nat) (ws : list Z) : Z :=
  match ws with
  | [] => 0
  | w :: ws' => (if h i then w else 0) + healthy_weight h (S i) ws'
  end.

Lemma healthy_weight_bounds h i ws :
  Forall (fun w => 0 <= w) ws -> 0 <= healthy_weight h i ws <= foldr Z.add 0 ws.
Proof.
  intros H. revert i. induction H as [|w ws Hw _ IH]; intros i; simpl; [lia|].
  specialize (IH (S i)). destruct (h i); lia.
Qed.

Lemma weights_nonneg ws : Forall (fun w => 0 <= w) ws -> 0 <= foldr Z.add 0 ws.
Proof. induction 1; simpl; lia. Qed.

Lemma total_weight_ideal h i total ws :
  Forall (fun w => 0 <= w) ws -> 0 <= total -> total + foldr Z.add 0 ws <= int64_max ->
  total_weight h i total ws = total + healthy_weight h i ws.
Proof.
  intros H. revert i total.
  induction H as [|w ws Hw Hws IH]; intros i total Ht Hmax; simpl in *; [lia|].
  pose proof (weights_nonneg ws Hws).
  destruct (h i); [|rewrite IH; lia].
  assert (add64 total w = total + w) as ->.
  { unfold add64. apply wrap64_id. unfold in_int64, int64_min, int64_max in *. lia. }
  rewrite IH; lia.
Qed.

(** The selection loop in unbounded arithmetic, on what is left of [selected]. *)
Fixpoint select_ideal (h : health) (i : nat) (s : Z) (ws : list Z) : option nat :=
  match ws with
  | [] => None
  | w :: ws' =>
      if h i then if s <? w then Some i else select_ideal h (S i) (s - w) ws'
      else select_ideal h (S i) s ws'
  end.

Lemma select_is_ideal h i c s ws :
  Forall (fun w => 0 <= w) ws -> 0 <= c -> c + foldr Z.add 0 ws <= int64_max ->
  select h i c s ws = select_ideal h i (s - c) ws.
Proof.
  intros H. revert i c. induction H as [|w ws Hw Hws IH]; intros i c Hc Hmax; simpl in *; [done|].
  destruct (h i); [|apply IH; lia].
  pose proof (weights_nonneg ws Hws).
  assert (add64 c w = c + w) as ->.
  { unfold add64. apply wrap64_id. unfold in_int64, int64_min, int64_max in *. lia. }
  rewrite IH by lia. replace (s - (c + w)) with (s - c - w) by lia.
  destruct (Z.ltb_spec s (c + w)), (Z.ltb_spec (s - c) w); done || lia.
Qed.

(** A selected value within the healthy weight finds an endpoint, in the part
    of the range that belongs to it. *)
Lemma select_ideal_some h i s ws :
  Forall (fun w => 0 <= w) ws -> 0 <= s < healthy_weight h i ws ->
  exists j, select_ideal h i s ws = Some j.
Proof.
  intros H. revert i s. induction H as [|w ws Hw _ IH]; intros i s Hs; simpl in *; [lia|].
  destruct (h i); [|apply IH; lia].
  destruct (Z.ltb_spec s w); [by exists i|]. apply IH. lia.
Qed.

Lemma select_spec h i c s ws j :
  select h i c s ws = Some j ->
  h j = true /\ (i <= j < i + length ws)%nat.
Proof.
  revert i c. induction ws as [|w ws IH]; intros i c; simpl; [done|].
  destruct (h i) eqn:E.
  - case_match; [intros [= <-]; split; [done|lia]|]. intros [? ?]%IH. split; [done|lia].
  - intros [? ?]%IH. split; [done|lia].
Qed.

Lemma select_ideal_ge h i s ws j : select_ideal h i s ws = Some j -> (i <= j)%nat.
Proof.
  revert i s. induction ws as [|w ws IH]; intros i s; simpl; [done|].
  destruct (h i); [case_match; [intros [= <-]; lia|]|]; intros ?%IH; lia.
Qed.

Lemma first_healthy_spec h i n j :
  first_healthy h i n = Some j -> h j = true /\ (i <= j < i + n)%nat.
Proof.
  revert i. induction n as [|n IH]; intros i; simpl; [done|].
  destruct (h i) eqn:E; [intros [= <-]; split; [done|lia]|].
  intros [? ?]%IH. split; [done|lia].
Qed.

Lemma count_healthy_bounds h i n : 0 <= count_healthy h i n <= Z.of_nat n.
Proof.
  revert i. induction n as [|n IH]; intros i; simpl; [lia|].
  specialize (IH (S i)). destruct (h i); lia.
Qed.

(** ** Lemmas on whole calls *)

Lemma add64_bump c : 0 <= c < int64_max -> add64 c 1 = c + 1.
Proof.
  intros H. unfold add64. apply wrap64_id. unfold in_int64, int64_min, int64_max in *. lia.
Qed.

(** A sequential call of [Next] while some healthy endpoint has weight. *)
Lemma Next_serves h lb :
  wf lb -> 0 <= current lb < int64_max -> 0 < healthy_weight h 0 (weights lb) ->
  exists j l,
    select_ideal h 0 ((current lb + 1) mod healthy_weight h 0 (weights lb)) (weights lb) = Some j /\
    endpoints lb !! j = Some l /\ h j = true /\
    Next h h h lb = (mkLB (endpoints lb) (weights lb) (current lb + 1), Ok l).
Proof.
  intros (Hlen & Hpos & Hmax) Hc HW.
  assert (total_weight h 0 0 (weights lb) = healthy_weight h 0 (weights lb)) as Ht
    by (apply total_weight_ideal; auto; lia).
  set (W := healthy_weight h 0 (weights lb)) in *.
  pose proof (Z.mod_pos_bound (current lb + 1) W HW) as Hmod.
  destruct (select_ideal_some h 0 ((current lb + 1) mod W) (weights lb) Hpos Hmod) as [j Hj].
  assert (select h 0 0 ((current lb + 1) mod W) (weights lb) = Some j) as Hsel.
  { rewrite select_is_ideal by (auto; lia). by rewrite Z.sub_0_r. }
  destruct (select_spec _ _ _ _ _ _ Hsel) as [Hh Hlt].
  destruct (lookup_lt_is_Some_2 (endpoints lb) j) as [l Hl]; [lia|].
  exists j, l. split_and!; auto.
  unfold Next. rewrite decide_False by (intros E; rewrite E in Hl; done).
  rewrite Ht, (proj2 (Z.eqb_neq W 0)) by lia.
  unfold bump. rewrite add64_bump by done. simpl.
  unfold pick. rewrite Z.rem_mod_nonneg, Hsel by lia. simpl. by rewrite Hl.
Qed.

Lemma Next_refuses h lb :
  wf lb -> healthy_weight h 0 (weights lb) = 0 -> Next h h h lb = (lb, Err ErrNoHealthyEndpoints).
Proof.
  intros (Hlen & Hpos & Hmax) HW. unfold Next. case_decide; [done|].
  rewrite total_weight_ideal by (auto; lia). by rewrite HW.
Qed.

(** How the values of one round are shared out. *)
Lemma select_ideal_share h i ws j w :
  Forall (fun w => 0 <= w) ws -> ws !! j = Some w ->
  cnt (fun s => bool_decide (select_ideal h i s ws = Some (i + j)%nat)) 0
      (Z.to_nat (healthy_weight h i ws)) = if h (i + j)%nat then w else 0.
Proof.
  intros H. revert i j. induction H as [|w0 ws Hw Hws IH]; intros i j Hj; [done|].
  pose proof (healthy_weight_bounds h (S i) ws Hws) as [HW _]. simpl.
  set (W := healthy_weight h (S i) ws) in *.
  destruct (h i) eqn:Ei.
  - rewrite Z2Nat.inj_add, cnt_app, Z.add_0_l, Z2Nat.id by lia.
    match goal with |- cnt ?P _ _ + cnt _ _ _ = _ =>
      assert (cnt P 0 (Z.to_nat w0) = if decide (j = 0%nat) then w0 else 0) as ->;
      [|assert (cnt P w0 (Z.to_nat W) =
          cnt (fun s => bool_decide (select_ideal h (S i) s ws = Some (i + j)%nat)) 0 (Z.to_nat W)) as ->]
    end.
    + rewrite (cnt_ext _ (fun _ => bool_decide (Some i = Some (i + j)%nat))) by
        (intros z Hz; simpl; by rewrite (proj2 (Z.ltb_lt z w0)) by lia).
      case_decide; subst.
      * rewrite cnt_true; [lia|]. intros z _. apply bool_decide_eq_true_2. f_equal. lia.
      * apply cnt_false. intros z _. apply bool_decide_eq_false_2. intros [=]. lia.
    + etransitivity; [symmetry; apply (cnt_shift _ w0 0)|]. apply cnt_ext.
      intros z Hz. simpl. rewrite (proj2 (Z.ltb_ge (z + w0) w0)) by lia. by rewrite Z.add_simpl_r.
    + destruct j as [|j]; simpl in Hj.
      * simplify_eq. rewrite Nat.add_0_r, Ei. rewrite cnt_false; [simpl; lia|].
        intros z _. apply bool_decide_eq_false_2. intros Hs%select_ideal_ge. lia.
      * replace (i + S j)%nat with (S i + j)%nat by lia. rewrite IH by done. simpl. lia.
  - destruct j as [|j]; simpl in Hj.
    + simplify_eq. rewrite Nat.add_0_r, Ei. apply cnt_false.
      intros z _. apply bool_decide_eq_false_2. intros Hs.
      pose proof (select_ideal_ge _ _ _ _ _ Hs). lia.
    + replace (i + S j)%nat with (S i + j)%nat by lia. by apply IH.
Qed.

(** Fewer healthy endpoints count less. *)
Lemma count_healthy_mono h h' i n :
  (forall k, h' k = true -> h k = true) -> count_healthy h' i n <= count_healthy h i n.
Proof.
  intros H. revert i. induction n as [|n IH]; intros i; simpl; [lia|].
  specialize (IH (S i)). specialize (H i). destruct (h' i); [rewrite H by done; lia|].
  destruct (h i); lia.
Qed.

Lemma count_healthy_drop h h' i n j :
  (forall k, h' k = true -> h k = true) -> h j = true -> h' j = false ->
  (i <= j < i + n)%nat -> count_healthy h' i n < count_healthy h i n.
Proof.
  intros H Hj Hj'. revert i. induction n as [|n IH]; intros i Hi; simpl; [lia|].
  destruct (decide (i = j)) as [->|].
  - rewrite Hj, Hj'. pose proof (count_healthy_mono h h' (S j) n H). lia.
  - specialize (IH (S i) ltac:(lia)). specialize (H i).
    destruct (h' i); [rewrite H by done; lia|]. destruct (h i); lia.
Qed.

Lemma count_healthy_pos h i n j :
  h j = true -> (i <= j < i + n)%nat -> 0 < count_healthy h i n.
Proof.
  intros Hj. revert i. induction n as [|n IH]; intros i Hi; simpl; [lia|].
  pose proof (count_healthy_bounds h (S i) n).
  destruct (decide (i = j)) as [->|]; [rewrite Hj; lia|].
  specialize (IH (S i) ltac:(lia)). destruct (h i); lia.
Qed.

Lemma healthy_weight_pos h i ws j w :
  Forall (fun w => 0 <= w) ws -> ws !! j = Some w -> 0 < w -> h (i + j)%nat = true ->
  0 < healthy_weight h i ws.
Proof.
  intros H. revert i j. induction H as [|w0 ws Hw0 Hws IH]; intros i j Hj Hw Hh; simpl; [done|].
  pose proof (healthy_weight_bounds h (S i) ws Hws).
  destruct j as [|j]; simpl in Hj.
  - simplify_eq. rewrite Nat.add_0_r in Hh. rewrite Hh. lia.
  - replace (i + S j)%nat with (S i + j)%nat in Hh by lia.
    specialize (IH (S i) j Hj Hw Hh). destruct (h i); lia.
Qed.

Lemma Next_keeps h1 h2 h3 lb :
  endpoints (Next h1 h2 h3 lb).1 = endpoints lb /\ weights (Next h1 h2 h3 lb).1 = weights lb.
Proof. unfold Next. repeat case_match; done. Qed.

Lemma Next_err h1 h2 h3 lb lb' e :
  Next h1 h2 h3 lb = (lb', Err e) -> e = ErrNoHealthyEndpoints.
Proof. unfold Next. repeat case_match; congruence. Qed.

Lemma next_saw h1 h2 h3 lb lb' l :
  Next h1 h2 h3 lb = (lb', Ok l) ->
  exists j, endpoints lb !! j = Some l /\ (h2 j = true \/ h3 j = true).
Proof.
  unfold Next. case_decide; [done|]. case_match; [done|].
  unfold at_position, pick. destruct (select _ _ _ _ _) as [j|] eqn:Es; simpl.
  - destruct (endpoints lb !! j) eqn:El; intros [= <- <-].
    exists j. split; [done|]. left. by apply select_spec in Es as [? _].
  - destruct (first_healthy _ _ _) as [j|] eqn:Ef; simpl; [|done].
    destruct (endpoints lb !! j) eqn:El; intros [= <- <-].
    exists j. split; [done|]. right. by apply first_healthy_spec in Ef as [? _].
Qed.

(** A run of sequential calls of [Next] under constant health flags. *)
Definition next_n (h : health) (n : nat) (lb : LoadBalancer) : LoadBalancer * list (result loc) :=
  run (fun lb _ => Next h h h lb) lb (replicate n ()).

Lemma next_n_count h n lb j l :
  wf lb -> NoDup (endpoints lb) -> endpoints lb !! j = Some l ->
  0 <= current lb -> current lb + Z.of_nat n <= int64_max ->
  0 < healthy_weight h 0 (weights lb) ->
  Z.of_nat (length (filter (fun r => r = Ok l) (next_n h n lb).2)) =
    cnt (fun k => bool_decide (select_ideal h 0 (k mod healthy_weight h 0 (weights lb))
                                 (weights lb) = Some j)) (current lb + 1) n.
Proof.
  intros Hwf Hnd Hl. revert lb Hwf Hnd Hl.
  induction n as [|n IH]; intros lb Hwf Hnd Hl Hc Hmax HW; [done|].
  destruct (Next_serves h lb Hwf ltac:(lia) HW) as (j' & l' & Hsel & Hl' & _ & Hnext).
  unfold next_n in *. simpl. rewrite Hnext.
  specialize (IH (mkLB (endpoints lb) (weights lb) (current lb + 1)) Hwf Hnd Hl
                 ltac:(simpl; lia) ltac:(simpl; lia) HW). simpl in IH.
  destruct (run _ _ (replicate n ())) as [lb2 rs]. simpl in *.
  rewrite filter_cons, Hsel, <- IH.
  case_decide as Hd; case_bool_decide as Hj; simpl; try lia; exfalso.
  - injection Hd as ->. apply Hj. f_equal. by eapply NoDup_lookup.
  - injection Hj as ->. apply Hd. congruence.
Qed.

(** ** Properties *)

(** C1.  Weighted round robin is exactly fair: while the health flags do not
    change, any round of as many consecutive calls of [Next] as the healthy
    endpoints weigh together, wherever the counter stands, selects each healthy
    endpoint exactly as often as its weight says, and an unhealthy one
    never. *)
Theorem weighted_round_robin h lb j l w :
  wf lb -> NoDup (endpoints lb) ->
  endpoints lb !! j = Some l -> weights lb !! j = Some w ->
  0 < healthy_weight h 0 (weights lb) -> 0 <= current lb ->
  current lb + healthy_weight h 0 (weights lb) <= int64_max ->
  Z.of_nat (length (filter (fun r => r = Ok l)
    (next_n h (Z.to_nat (healthy_weight h 0 (weights lb))) lb).2)) = if h j then w else 0.
Proof.
  intros Hwf Hnd Hl Hw HW Hc Hmax.
  rewrite (next_n_count h _ lb j l) by (auto; lia).
  rewrite cnt_period; [|lia|intros z; rewrite Z2Nat.id by lia].
  2: { replace (z + healthy_weight h 0 (weights lb))
         with (z + 1 * healthy_weight h 0 (weights lb)) by lia.
       by rewrite Z_mod_plus_full. }
  pose proof (select_ideal_share h 0 (weights lb) j w (proj1 (proj2 Hwf)) Hw) as Hs.
  simpl in Hs. rewrite <- Hs.
  apply cnt_ext. intros z Hz. rewrite Z.mod_small by lia. done.
Qed.

(** Whatever other goroutines do to the health flags during a call,
    [Next] only returns an endpoint of the balancer that the call itself saw
    healthy in the pass that chose it; the counter advances by one. *)
Theorem next_saw_healthy h1 h2 h3 lb lb' l :
  Next h1 h2 h3 lb = (lb', Ok l) ->
  lb' = bump lb /\
  exists j, endpoints lb !! j = Some l /\ (h2 j = true \/ h3 j = true).
Proof.
  intros Hn. split; [|by apply next_saw in Hn].
  unfold Next in Hn. repeat case_match; simplify_eq/=; done.
Qed.

(** C31.  A sequential [Next] succeeds exactly when some healthy endpoint has a
    positive weight; then it advances the counter by one and returns a healthy
    endpoint.  Otherwise it returns [ErrNoHealthyEndpoints] and changes
    nothing. *)
Theorem next_complete h lb :
  wf lb -> 0 <= current lb < int64_max ->
  if decide (0 < healthy_weight h 0 (weights lb))
  then exists j l, endpoints lb !! j = Some l /\ h j = true /\
         Next h h h lb = (mkLB (endpoints lb) (weights lb) (current lb + 1), Ok l)
  else Next h h h lb = (lb, Err ErrNoHealthyEndpoints).
Proof.
  intros Hwf Hc. case_decide.
  - destruct (Next_serves h lb) as (j & l & _ & ? & ? & ?); eauto.
  - apply Next_refuses; [done|]. destruct Hwf as (_ & Hp & _).
    pose proof (healthy_weight_bounds h 0 (weights lb) Hp). lia.
Qed.

(** [NextWithFallback] always finds an endpoint of a non-empty balancer,
    healthy or not, as long as the counter has not wrapped; it only fails on an
    empty one. *)
Theorem fallback_total h1 h2 h3 lb :
  0 <= current lb -> current lb + 2 <= int64_max ->
  match (NextWithFallback h1 h2 h3 lb).2 with
  | Ret (Ok l) => l ∈ endpoints lb
  | Ret (Err e) => e = ErrNoHealthyEndpoints /\ endpoints lb = []
  | Panic _ => False
  end.
Proof.
  intros Hc Hmax. unfold NextWithFallback.
  destruct (Next h1 h2 h3 lb) as [lb1 r] eqn:En.
  assert (endpoints lb1 = endpoints lb /\ 0 <= current lb1 < int64_max) as [He Hc1].
  { unfold Next, bump in En. repeat case_match; simplify_eq/=;
      rewrite ?add64_bump by lia; split; done || lia. }
  destruct r as [l|e].
  - apply next_saw in En as (j & Hj & _). by eapply list_elem_of_lookup_2.
  - case_decide as Hd; simpl; [by rewrite <- He|].
    rewrite add64_bump by lia.
    assert (0 < Z.of_nat (length (endpoints lb1))) by (destruct (endpoints lb1); simpl; [done|lia]).
    rewrite Z.rem_mod_nonneg by lia.
    pose proof (Z.mod_pos_bound (current lb1 + 1) (Z.of_nat (length (endpoints lb1)))).
    rewrite (proj2 (Z.ltb_ge _ _)) by lia.
    destruct (lookup_lt_is_Some_2 (endpoints lb1)
      (Z.to_nat ((current lb1 + 1) mod Z.of_nat (length (endpoints lb1))))) as [l Hl]; [lia|].
    rewrite Hl. simpl. rewrite <- He. by eapply list_elem_of_lookup_2.
Qed.

(** ** Witnesses *)

(** The balancer of the documentation: weights 10, 5 and 5. *)
Definition sample : LoadBalancer := mkLB [7; 8; 9]%nat [10; 5; 5] 0.

Definition all_up : health := fun _ => true.
Definition second_down : health := fun i => negb (Nat.eqb i 1).

Lemma sample_wf : wf sample.
Proof. vm_compute. repeat (split || constructor); discriminate. Qed.

Lemma weighted_round_robin_witness :
  Z.of_nat (length (filter (fun r => r = Ok 7%nat) (next_n second_down 15 sample).2)) = 10.
Proof.
  apply (weighted_round_robin second_down sample 0 7 10);
    [apply sample_wf|apply (bool_decide_eq_true_1 _); reflexivity|reflexivity|reflexivity
    |reflexivity|discriminate|discriminate].
Defined.

Lemma next_saw_healthy_witness :
  exists j, endpoints sample !! j = Some 9%nat /\ (second_down j = true \/ all_up j = true).
Proof.
  apply (next_saw_healthy all_up second_down all_up (mkLB [7; 8; 9]%nat [10; 5; 5] 12)
           (mkLB [7; 8; 9]%nat [10; 5; 5] 13)).
  reflexivity.
Defined.

Lemma next_complete_witness :
  Next all_up all_up all_up sample = (mkLB [7; 8; 9]%nat [10; 5; 5] 1, Ok 7%nat).
Proof.
  destruct (next_complete all_up sample sample_wf) as (j & l & _ & _ & H);
    [vm_compute; split; [discriminate|reflexivity]|].
  rewrite H. vm_compute in H. injection H as <-. reflexivity.
Defined.

Lemma fallback_total_witness : 
  match (NextWithFallback (fun _ => false) all_up all_up sample).2 with
  | Ret (Ok l) => l ∈ endpoints sample
  | Ret (Err e) => e = ErrNoHealthyEndpoints /\ endpoints sample = []
  | Panic _ => False
  end.
Proof. apply fallback_total; discriminate. Defined.

(** The first round on the documented weights: nine calls, not ten, go to the
    first endpoint before the second is chosen, because the counter is
    incremented before it is used; the tenth follows the third endpoint. *)
Example documented_round :
  (next_n all_up 20 sample).2 =
    Ok <$> (replicate 9 7 ++ replicate 5 8 ++ replicate 5 9 ++ [7])%nat.
Proof. reflexivity. Qed.

End LB.
