(* ===== verification/Chain.v ===== *)
(** * Chains and their manager: [internal/chain/chain.go]

    A chain's endpoints are pointers into the [Store]; the load balancer and
    the health checker of the chain hold the same pointers.  [ForwardWithRetry]
    is written with the steps of other goroutines between its own: each
    attempt carries the store changes they make at every point where the code
    gives way, and the outcome of its HTTP request. *)
From Stdlib Require Import ZArith Lia.
From S2P Require Import Prelude GoFloat Config TLSClient CircuitBreaker Endpoint LoadBalancer.

Module Chain.

(** A pointer of the program always points to an endpoint: [st !!! l]. *)
#[global] Instance endpoint_inhabited : Inhabited EP.Endpoint :=
  populate (EP.NewEndpoint "" 0 0).

(** A write through the pointer [l]. *)
Definition modify (l : loc) (f : EP.Endpoint -> EP.Endpoint) (st : Store) : Store :=
  <[l := f (st !!! l)]> st.

(** The health checker's configuration; its loop is in [Health]. *)
Record HealthChecker := mkHealthChecker {
  cfg : Cfg.HealthCheckConfig;
  maxBlockLag : Z
}.

Definition NewHealthChecker (c : Cfg.HealthCheckConfig) : HealthChecker :=
  mkHealthChecker c (Cfg.MaxBlockLag c).

Record Chain := mkChain {
  Name : string;
  ChainID : Z;
  endpoints : list loc;
  loadBalancer : LB.LoadBalancer;
  healthChecker : HealthChecker;
  highestBlock : Z
}.

Record ChainOptions := mkOptions {
  opt_Name : string;
  opt_Config : Cfg.ChainConfig;
  opt_TLSConfig : option ClientTLS.tls_config
}.

(** ** Construction *)

(** The defaults of a chain's circuit breakers. *)
Definition breaker_config (c : Cfg.CircuitBreakerConfig) : CB.CircuitBreakerConfig :=
  CB.mkConfig
    (Cfg.default0 (Cfg.FailureThreshold c) 5)
    (Cfg.default0 (Cfg.SuccessThreshold c) 2)
    (Cfg.default0 (Cfg.cb_Timeout c) (30 * Second))
    (Cfg.default0 (Cfg.HalfOpenMaxRequests c) 3).

(** The body of the loop over [cfg.Endpoints]. *)
Definition new_endpoint (opts : ChainOptions) (epCfg : Cfg.EndpointConfig) : EP.Endpoint :=
  let c := opt_Config opts in
  let e := EP.NewEndpointWithOptions
             (EP.mkOptions (Cfg.URL epCfg) (Cfg.Weight epCfg)
                           (Cfg.hc_Timeout (Cfg.HealthCheck c)) (opt_TLSConfig opts)
                           (Cfg.HTTPPool c)) in
  if Cfg.cb_Enabled (Cfg.CircuitBreaker c)
  then EP.with_circuitBreaker
         (Some (CB.NewCircuitBreaker (breaker_config (Cfg.CircuitBreaker c)))) e
  else e.

(** Allocation: every endpoint gets a pointer that is not in use. *)
Fixpoint alloc (es : list EP.Endpoint) (st : Store) : Store * list loc :=
  match es with
  | [] => (st, [])
  | e :: es' =>
      let l := fresh (dom st) in
      let '(st', ls) := alloc es' (<[l := e]> st) in
      (st', l :: ls)
  end.

Definition NewChainWithOptions (opts : ChainOptions) (st : Store) : Store * Chain :=
  let c := opt_Config opts in
  let '(st', ls) := alloc (new_endpoint opts <$> Cfg.Endpoints c) st in
  (st', mkChain (opt_Name opts) (Cfg.ChainID c) ls
          (LB.NewLoadBalancer (fun l => EP.Weight (st' !!! l)) ls)
          (NewHealthChecker (Cfg.HealthCheck c)) 0).

Definition NewChain (name : string) (c : Cfg.ChainConfig) (st : Store) : Store * Chain :=
  NewChainWithOptions (mkOptions name c None) st.

(** ** Requests *)

Definition with_loadBalancer (lb : LB.LoadBalancer) (c : Chain) : Chain :=
  mkChain (Name c) (ChainID c) (endpoints c) lb (healthChecker c) (highestBlock c).

(** What one goroutine sees and shares: the endpoints and the chain. *)
Definition World : Type := Store * Chain.

(** One attempt: the steps of the other goroutines before it ([before]),
    between the passes of [Next] ([pass2], [pass3]), while its HTTP request
    runs ([during]) and before its endpoint is marked ([after]); the outcome of
    a request to each endpoint; the clock; and what ends the wait after it,
    [Some err] for a context that is done first. *)
Record attempt := mkAttempt {
  before : World -> World;
  pass2 : Store -> Store;
  pass3 : Store -> Store;
  during : Store -> Store;
  after : Store -> Store;
  outcome : loc -> EP.http_result;
  clock : EP.clocks;
  ctx_done : option error
}.

(** [c.loadBalancer.Next()]. *)
Definition next_endpoint (a : attempt) (w : World) : World * result loc :=
  let '(st1, c) := w in
  let st2 := pass2 a st1 in
  let st3 := pass3 a st2 in
  let eps := LB.endpoints (loadBalancer c) in
  let '(lb, r) := LB.Next (LB.snapshot st1 eps) (LB.snapshot st2 eps) (LB.snapshot st3 eps)
                          (loadBalancer c) in
  ((st3, with_loadBalancer lb c), r).

(** [ep.Forward(ctx, body)] through the pointer [l]. *)
Definition forward_endpoint (a : attempt) (l : loc) (w : World) : World * result string :=
  let '(st, c) := w in
  let '(e1, refused) := EP.ForwardBegin (EP.t_allow (clock a)) (st !!! l) in
  let st1 := <[l := e1]> st in
  match refused with
  | Some err => ((st1, c), Err err)
  | None =>
      let st2 := during a st1 in
      let '(e2, r) := EP.ForwardEnd (EP.t_record (clock a)) (EP.t_trip (clock a))
                                    (outcome a l) (st2 !!! l) in
      ((<[l := e2]> st2, c), r)
  end.

(** [Chain.Forward]: one attempt. *)
Definition Forward (a : attempt) (w : World) : World * result string :=
  let '(w1, r) := next_endpoint a (before a w) in
  match r with
  | Err err => (w1, Err (ErrWrap ("chain " +:+ Name w.2) err))
  | Ok l => forward_endpoint a l w1
  end.

(** A line of the log: attempt [n] on the endpoint failed with an error. *)
Definition log_entry : Type := nat * loc * error.

(** The loop of [ForwardWithRetry], [n] attempts to go, the [i]-th first. *)
Fixpoint retry (n i : nat) (atts : nat -> attempt) (lastErr : option error) (w : World) :
    World * result string * list log_entry :=
  match n with
  | O =>
      (w, Err match lastErr with
              | Some err => ErrWrap "all retries failed" err
              | None => ErrNew "all retries failed: %!w(<nil>)"
              end, [])
  | S n' =>
      let a := atts i in
      let '(w1, r) := next_endpoint a (before a w) in
      match r with
      | Err err => (w1, Err (ErrWrap ("chain " +:+ Name w.2) err), [])
      | Ok l =>
          let '(w2, resp) := forward_endpoint a l w1 in
          match resp with
          | Ok body => (w2, Ok body, [])
          | Err err =>
              let '(st3, c3) := w2 in
              let w3 := (modify l (EP.SetHealthy false) (after a st3), c3) in
              let entry := (S i, l, err) in
              match n', ctx_done a with
              | S _, Some cerr => (w3, Err cerr, [entry])
              | _, _ =>
                  let '(w4, res, log) := retry n' (S i) atts (Some err) w3 in
                  (w4, res, entry :: log)
              end
          end
      end
  end.

Definition ForwardWithRetry (maxRetries : Z) (atts : nat -> attempt) (w : World) :
    World * result string * list log_entry :=
  retry (Z.to_nat (maxRetries + 1)) 0 atts None w.

(** ** Statistics *)

Definition UpdateHighestBlock (height : Z) (c : Chain) : Chain :=
  mkChain (Name c) (ChainID c) (endpoints c) (loadBalancer c) (healthChecker c) height.
Definition HighestBlock (c : Chain) : Z := highestBlock c.

Definition HealthyEndpoints (st : Store) (c : Chain) : Z :=
  LB.HealthyCount (LB.snapshot st (LB.endpoints (loadBalancer c))) (loadBalancer c).
Definition TotalEndpoints (c : Chain) : Z := Z.of_nat (length (endpoints c)).

Record ChainStats := mkStats {
  StatsName : string;
  StatsChainID : Z;
  StatsHighestBlock : Z;
  StatsHealthyEndpoints : Z;
  StatsTotalEndpoints : Z;
  StatsEndpoints : list EP.EndpointStats
}.

Definition Stats (st : Store) (c : Chain) : ChainStats :=
  mkStats (Name c) (ChainID c) (highestBlock c) (HealthyEndpoints st c)
          (Z.of_nat (length (endpoints c))) ((fun l => EP.Stats (st !!! l)) <$> endpoints c).

(** ** The manager *)

Record Manager := mkManager { chains : gmap string Chain }.

(** [NewManagerWithOptions] visits the configuration map in some [order]. *)
Fixpoint new_chains (cfgs : list (string * Cfg.ChainConfig)) (tls : option ClientTLS.tls_config)
    (m : gmap string Chain) (st : Store) : Store * gmap string Chain :=
  match cfgs with
  | [] => (st, m)
  | (name, c) :: cfgs' =>
      let '(st', ch) := NewChainWithOptions (mkOptions name c tls) st in
      new_chains cfgs' tls (<[name := ch]> m) st'
  end.

Definition NewManagerWithOptions (cfgs : list (string * Cfg.ChainConfig)) (tls : option ClientTLS.tls_config)
    (st : Store) : Store * Manager :=
  let '(st', m) := new_chains cfgs tls ∅ st in (st', mkManager m).

Definition NewManager (cfgs : list (string * Cfg.ChainConfig)) (st : Store) : Store * Manager :=
  NewManagerWithOptions cfgs None st.

Definition GetChain (m : Manager) (name : string) : option Chain := chains m !! name.

(** [GetChainByID] scans the map in an [order] that Go does not fix. *)
Fixpoint chain_by_id (m : gmap string Chain) (order : list string) (id : Z) : option Chain :=
  match order with
  | [] => None
  | name :: order' =>
      match m !! name with
      | Some c => if ChainID c =? id then Some c else chain_by_id m order' id
      | None => chain_by_id m order' id
      end
  end.

Definition GetChainByID (m : Manager) (order : list string) (id : Z) : option Chain :=
  chain_by_id (chains m) order id.

(** The orders in which Go may visit the manager's map. *)
Definition map_order (m : Manager) (order : list string) : Prop :=
  order ≡ₚ (map_to_list (chains m)).*1.

Definition ListChains (order : list string) : list string := order.

Definition AllStats (st : Store) (m : Manager) : gmap string ChainStats :=
  fmap (M:=gmap string) (Stats st) (chains m).

(** ** Lemmas *)

Lemma modify_lookup l f st k :
  modify l f st !!! k = if decide (l = k) then f (st !!! l) else st !!! k.
Proof. unfold modify. by rewrite lookup_total_insert. Qed.

(** The health flag behind a pointer. *)
Definition up (st : Store) (l : loc) : bool := EP.healthy (st !!! l).

(** From [st] to [st'] no endpoint became healthy. *)
Definition only_lowers (st st' : Store) : Prop := forall l, up st' l = true -> up st l = true.

#[export] Instance only_lowers_preorder : PreOrder only_lowers.
Proof. split; [by intros st l|]. intros st1 st2 st3 H1 H2 l ?. by apply H1, H2. Qed.

Lemma snapshot_up st eps i :
  LB.snapshot st eps i = true -> exists l, eps !! i = Some l /\ up st l = true.
Proof.
  unfold LB.snapshot. destruct (eps !! i) as [l|]; [|done].
  destruct (st !! l) as [e|] eqn:E; [|done]. intros H. exists l. split; [done|].
  unfold up. by rewrite (lookup_total_correct _ _ _ E).
Qed.

Lemma modify_lowers l st : only_lowers st (modify l (EP.SetHealthy false) st).
Proof. intros k. unfold up. rewrite modify_lookup. by case_decide. Qed.

Lemma write_same_up l e st k :
  EP.healthy e = up st l -> up (<[l := e]> st) k = up st k.
Proof.
  intros H. unfold up in *. rewrite lookup_total_insert. by case_decide; subst.
Qed.

Lemma lowers_down st st' l : only_lowers st st' -> up st l = false -> up st' l = false.
Proof. intros H Hl. destruct (up st' l) eqn:E; [|done]. apply H in E. congruence. Qed.

(** Other goroutines may do anything during an attempt except mark an endpoint
    healthy again or change the chain's name or the balancer's endpoints. *)
Definition tame (a : attempt) : Prop :=
  (forall w, only_lowers w.1 (before a w).1 /\ Name (before a w).2 = Name w.2 /\
     LB.endpoints (loadBalancer (before a w).2) = LB.endpoints (loadBalancer w.2)) /\
  (forall st, only_lowers st (pass2 a st)) /\ (forall st, only_lowers st (pass3 a st)) /\
  (forall st, only_lowers st (during a st)) /\ (forall st, only_lowers st (after a st)).

Lemma next_endpoint_step a w w' r :
  tame a -> next_endpoint a (before a w) = (w', r) ->
  only_lowers w.1 w'.1 /\
  LB.endpoints (loadBalancer w'.2) = LB.endpoints (loadBalancer w.2) /\
  Name w'.2 = Name w.2 /\
  (forall err, r = Err err -> err = LB.ErrNoHealthyEndpoints) /\
  (forall l, r = Ok l -> up w.1 l = true /\ l ∈ LB.endpoints (loadBalancer w.2)).
Proof.
  intros (Hb & H2 & H3 & _) Hn. unfold next_endpoint in Hn.
  destruct (Hb w) as (Hlow & Hname & Heps). destruct (before a w) as [st1 c]. simpl in *.
  set (eps := LB.endpoints (loadBalancer c)) in *.
  pose proof (LB.Next_keeps (LB.snapshot st1 eps) (LB.snapshot (pass2 a st1) eps)
    (LB.snapshot (pass3 a (pass2 a st1)) eps) (loadBalancer c)) as [Hk _].
  destruct (LB.Next _ _ _ _) as [lb r'] eqn:En. simpl in *. simplify_eq/=.
  assert (only_lowers w.1 (pass2 a st1)) as Hl2 by (etransitivity; eauto).
  assert (only_lowers w.1 (pass3 a (pass2 a st1))) as Hl3 by (etransitivity; eauto).
  split_and!; [done|congruence|done| |].
  { intros err ->. by apply LB.Next_err in En. }
  intros l ->. apply LB.next_saw in En as (j & Hj & Hh).
  split; [|rewrite <- Heps; by eapply list_elem_of_lookup_2].
  destruct Hh as [Hh|Hh]; apply snapshot_up in Hh as (l' & Hl' & Hup);
    rewrite Hj in Hl'; simplify_eq; auto.
Qed.

Lemma forward_endpoint_lowers a l w w' r :
  tame a -> forward_endpoint a l w = (w', r) -> only_lowers w.1 w'.1 /\ w'.2 = w.2.
Proof.
  intros (_ & _ & _ & Hd & _). destruct w as [st c]. unfold forward_endpoint.
  pose proof (EP.ForwardBegin_healthy (EP.t_allow (clock a)) (st !!! l)) as Hb.
  destruct (EP.ForwardBegin _ _) as [e1 [err|]]; simpl in Hb.
  - intros [= <- <-]. split; [|done]. intros k. simpl. by rewrite write_same_up.
  - set (st2 := during a (<[l:=e1]> st)).
    pose proof (EP.ForwardEnd_healthy (EP.t_record (clock a)) (EP.t_trip (clock a))
      (outcome a l) (st2 !!! l)) as He.
    destruct (EP.ForwardEnd _ _ _ _) as [e2 r2]. simpl in He. intros [= <- <-].
    split; [|done]. intros k. simpl. rewrite write_same_up by done.
    intros Hk%Hd. by rewrite write_same_up in Hk.
Qed.

(** The endpoints of a log, in the order they were tried. *)
Definition tried (log : list log_entry) : list loc := (fun e => e.1.2) <$> log.

(** What one run of the loop with [n] attempts to go guarantees, the endpoints
    of [T] being down before it: the log never goes back to an endpoint. *)
Definition never_back (n : nat) (w w' : World) (T : gset nat) (log : list log_entry) : Prop :=
  NoDup (tried log) /\ (length log <= n)%nat /\
  Forall (fun l => (l ∉ T) /\ l ∈ LB.endpoints (loadBalancer w.2) /\ up w.1 l = true) (tried log) /\
  (forall l, l ∈ T \/ l ∈ tried log -> up w'.1 l = false).

Definition all_down (T : gset nat) (st : Store) : Prop := forall l, l ∈ T -> up st l = false.

Lemma never_back_stop n w w' T :
  only_lowers w.1 w'.1 -> all_down T w.1 -> never_back n w w' T [].
Proof.
  intros Hl HT. split_and!; [constructor|simpl; lia|constructor|].
  intros l [?|[]%not_elem_of_nil]; eauto using lowers_down.
Qed.

Lemma never_back_cons n w w3 w' T l entry log :
  only_lowers w.1 w3.1 -> LB.endpoints (loadBalancer w3.2) = LB.endpoints (loadBalancer w.2) ->
  entry.1.2 = l -> up w.1 l = true -> l ∈ LB.endpoints (loadBalancer w.2) -> l ∉ T ->
  never_back n w3 w' ({[l]} ∪ T) log -> never_back (S n) w w' T (entry :: log).
Proof.
  intros Hl He <- Hup Hin HlT (Hnd & Hlen & Hall & Hend).
  split_and!; simpl.
  - constructor; [|done]. intros Hl'. rewrite Forall_forall in Hall.
    destruct (Hall _ Hl') as [Hn _]. set_solver.
  - lia.
  - constructor; [done|]. eapply Forall_impl; [exact Hall|]. intros k (Hk1 & Hk2 & Hk3).
    rewrite He in Hk2. split_and!; [set_solver|done|by apply Hl].
  - intros k [Hk|[->|Hk]%elem_of_cons]; apply Hend; set_solver.
Qed.

(** What follows a failed attempt: the loop goes on, or the context is done. *)
Lemma retry_goes_on n i atts err w3 entry x :
  match n, ctx_done (atts i) with
  | S _, Some cerr => (w3, Err cerr, [entry])
  | _, _ =>
      let '(w4, res, log) := retry n (S i) atts (Some err) w3 in (w4, res, entry :: log)
  end = x ->
  exists w4 res log, x = (w4, res, entry :: log) /\
    (retry n (S i) atts (Some err) w3 = (w4, res, log) \/
     (w4 = w3 /\ log = [] /\ is_Some (ctx_done (atts i)))).
Proof.
  intros <-. destruct n as [|n].
  - destruct (retry 0 (S i) atts (Some err) w3) as [[w4 res] log]. eauto 10.
  - destruct (ctx_done (atts i)); [eauto 10|].
    destruct (retry (S n) (S i) atts (Some err) w3) as [[w4 res] log]. eauto 10.
Qed.

Lemma retry_never_back n i atts lastErr w w' res log (T : gset nat) :
  (forall k, tame (atts k)) ->
  retry n i atts lastErr w = (w', res, log) -> all_down T w.1 -> never_back n w w' T log.
Proof.
  intros Ht. revert i lastErr w T w' res log.
  induction n as [|n IH]; intros i lastErr w T w' res log Hr HT; simpl in Hr.
  { simplify_eq. by apply never_back_stop. }
  destruct (next_endpoint _ _) as [w1 r] eqn:En.
  destruct (next_endpoint_step _ _ _ _ (Ht i) En) as (Hl1 & He1 & Hname & Hnoerr & Hok).
  destruct r as [l|err]; [|simplify_eq; by apply never_back_stop].
  destruct (Hok l eq_refl) as [Hup Hin].
  destruct (forward_endpoint _ _ _) as [w2 resp] eqn:Ef.
  destruct (forward_endpoint_lowers _ _ _ _ _ (Ht i) Ef) as [Hl2 He2].
  assert (only_lowers w.1 w2.1) as Hl by (etransitivity; eauto).
  destruct resp as [body|err]; [simplify_eq; by apply never_back_stop|].
  destruct w2 as [st3 c3]. simpl in *. subst c3.
  set (w3 := (modify l (EP.SetHealthy false) (after (atts i) st3), w1.2)) in *.
  assert (only_lowers w.1 w3.1) as Hl3.
  { etransitivity; [exact Hl|]. etransitivity; [apply (Ht i)|apply modify_lowers]. }
  assert (up w3.1 l = false) as Hdown.
  { unfold w3, up. simpl. rewrite modify_lookup. by rewrite decide_True. }
  apply retry_goes_on in Hr as (w4 & res4 & log4 & Heq & Hcase). simplify_eq.
  eapply (never_back_cons n w w3 w4 T l); try done; [intros H; apply HT in H; congruence|].
  assert (all_down ({[l]} ∪ T) w3.1) as HT3.
  { intros k [->%elem_of_singleton|Hk]%elem_of_union; eauto using lowers_down. }
  destruct Hcase as [Hrec|(-> & -> & _)]; [by eapply IH|by apply never_back_stop].
Qed.

(** ** The loop on its own *)

(** Nobody else does anything, and the context is not done. *)
Definition quiet (a : attempt) : Prop :=
  (forall w, before a w = w) /\ (forall st, pass2 a st = st) /\ (forall st, pass3 a st = st) /\
  (forall st, during a st = st) /\ (forall st, after a st = st) /\ ctx_done a = None.

Lemma quiet_forward a l st c :
  quiet a ->
  exists e, forward_endpoint a l (st, c) =
    ((<[l := e]> st, c), (EP.Forward (clock a) (outcome a l) (st !!! l)).2) /\
    EP.healthy e = up st l.
Proof.
  intros (_ & _ & _ & Hd & _). unfold forward_endpoint, EP.Forward.
  pose proof (EP.ForwardBegin_healthy (EP.t_allow (clock a)) (st !!! l)) as Hb.
  destruct (EP.ForwardBegin _ _) as [e1 [err|]]; simpl in *; [by exists e1|].
  rewrite Hd, lookup_total_insert_eq.
  pose proof (EP.ForwardEnd_healthy (EP.t_record (clock a)) (EP.t_trip (clock a))
    (outcome a l) e1) as He.
  destruct (EP.ForwardEnd _ _ _ _) as [e2 r2]; simpl in *. exists e2.
  rewrite insert_insert_eq. split; [done|unfold up; congruence].
Qed.

(** The health flags of a chain's endpoints, by position. *)
Definition flags (w : World) : LB.health :=
  LB.snapshot w.1 (LB.endpoints (loadBalancer w.2)).

Lemma quiet_next a w :
  quiet a -> LB.wf (loadBalancer w.2) -> 0 <= LB.current (loadBalancer w.2) < int64_max ->
  0 < LB.healthy_weight (flags w) 0 (LB.weights (loadBalancer w.2)) ->
  exists j l, LB.endpoints (loadBalancer w.2) !! j = Some l /\ flags w j = true /\
    next_endpoint a (before a w) =
      ((w.1, with_loadBalancer (LB.mkLB (LB.endpoints (loadBalancer w.2))
          (LB.weights (loadBalancer w.2)) (LB.current (loadBalancer w.2) + 1)) w.2), Ok l).
Proof.
  intros (Hb & H2 & H3 & _) Hwf Hc HW. rewrite Hb. destruct w as [st c]. simpl in *.
  unfold next_endpoint. rewrite H3, H2.
  destruct (LB.Next_serves (flags (st, c)) (loadBalancer c) Hwf Hc HW)
    as (j & l & _ & Hl & Hh & Hn).
  exists j, l. unfold flags in *. simpl in *. by rewrite Hn.
Qed.

(** Marking the endpoint behind [l] changes the flags at its positions only. *)
Lemma flags_mark st c c' l e k :
  LB.endpoints (loadBalancer c') = LB.endpoints (loadBalancer c) ->
  flags (modify l (EP.SetHealthy false) (<[l := e]> st), c') k =
    if decide (LB.endpoints (loadBalancer c) !! k = Some l) then false else flags (st, c) k.
Proof.
  intros He. unfold flags, LB.snapshot, modify. simpl. rewrite He.
  destruct (LB.endpoints (loadBalancer c) !! k) as [l'|] eqn:E; [|by rewrite decide_False].
  destruct (decide (l' = l)) as [->|Hne].
  - rewrite decide_True by done. by rewrite lookup_insert_eq.
  - rewrite decide_False by congruence. by rewrite !lookup_insert_ne.
Qed.

(** The loop, alone, finds an endpoint that answers as long as it has at least
    as many attempts to go as there are healthy endpoints. *)
Lemma retry_finds n i atts lastErr w w' res log g lg wg :
  (forall k, quiet (atts k)) -> LB.wf (loadBalancer w.2) ->
  NoDup (LB.endpoints (loadBalancer w.2)) ->
  0 <= LB.current (loadBalancer w.2) ->
  LB.current (loadBalancer w.2) + Z.of_nat n <= int64_max ->
  LB.endpoints (loadBalancer w.2) !! g = Some lg ->
  LB.weights (loadBalancer w.2) !! g = Some wg -> 0 < wg -> flags w g = true ->
  (forall k, is_ok (EP.Forward (clock (atts k)) (outcome (atts k) lg) (w.1 !!! lg)).2 = true) ->
  HealthyEndpoints w.1 w.2 <= Z.of_nat n ->
  retry n i atts lastErr w = (w', res, log) -> is_ok res = true.
Proof.
  intros Hq. revert i lastErr w w' res log.
  induction n as [|n IH]; intros i lastErr w w' res log Hwf Hnd Hc Hmax Hlg Hwg Hpos Hup Hans Hcnt.
  { exfalso. apply lookup_lt_Some in Hlg.
    assert (0 < HealthyEndpoints w.1 w.2); [|lia].
    apply (LB.count_healthy_pos _ _ _ g); [done|lia]. }
  assert (0 < LB.healthy_weight (flags w) 0 (LB.weights (loadBalancer w.2))) as HW.
  { eapply LB.healthy_weight_pos; eauto. apply Hwf. }
  destruct (quiet_next (atts i) w (Hq i) Hwf ltac:(lia) HW) as (j & l & Hl & Hj & Hn).
  destruct w as [st c]. simpl in *. rewrite Hn.
  set (c1 := with_loadBalancer _ c).
  destruct (quiet_forward (atts i) l st c1 (Hq i)) as (e & Hf & He). rewrite Hf.
  destruct (EP.Forward (clock (atts i)) (outcome (atts i) l) (st !!! l)).2 as [body|err] eqn:Er;
    [intros; by simplify_eq|].
  assert (l <> lg) as Hne.
  { intros ->. specialize (Hans i). rewrite Er in Hans. done. }
  destruct (Hq i) as (_ & _ & _ & _ & Ha & Hctx). rewrite Ha.
  set (st3 := modify l (EP.SetHealthy false) (<[l:=e]> st)).
  intros Hr. apply retry_goes_on in Hr as (w4 & res4 & log4 & Heq & Hcase). simplify_eq.
  assert (forall k, flags (st3, c1) k = true -> flags (st, c) k = true) as Hmono.
  { intros k. unfold st3. rewrite (flags_mark st c) by done. by case_decide. }
  assert (HealthyEndpoints st3 c1 < HealthyEndpoints st c) as Hdrop.
  { apply (LB.count_healthy_drop _ _ _ _ j); [exact Hmono|done| |].
    - change (flags (st3, c1) j = false). unfold st3. rewrite (flags_mark st c) by done.
      by rewrite decide_True.
    - apply lookup_lt_Some in Hl. simpl. lia. }
  destruct Hcase as [Hrec|(_ & _ & Hd)]; [|rewrite Hctx in Hd; by destruct Hd].
  apply (IH _ _ (st3, c1) _ _ _) in Hrec; auto; simpl; try lia.
  - unfold st3. rewrite (flags_mark st c) by done. rewrite decide_False; [done|].
    intros H. rewrite Hlg in H. congruence.
  - intros k. unfold st3. rewrite modify_lookup, decide_False by done.
    rewrite lookup_total_insert_ne by done. apply Hans.
Qed.

(** *** How the loop ends *)
Section Endings.
Context (atts : nat -> attempt).

(** The attempts from the [i]-th on that failed, with their lines of the log,
    and the world each leaves: the endpoint it was given is marked unhealthy. *)
Inductive failed : nat -> World -> list log_entry -> World -> Prop :=
| failed_nil i w : failed i w [] w
| failed_cons i w w1 l st3 c3 err log w' :
    next_endpoint (atts i) (before (atts i) w) = (w1, Ok l) ->
    forward_endpoint (atts i) l w1 = ((st3, c3), Err err) ->
    failed (S i) (modify l (EP.SetHealthy false) (after (atts i) st3), c3) log w' ->
    failed i w ((S i, l, err) :: log) w'.

(** The waits after [m] attempts from the [i]-th on all ended with the timer. *)
Definition waited (i m : nat) : Prop := forall j, (i <= j < i + m)%nat -> ctx_done (atts j) = None.

(** What ends a loop with [n] attempts to go when those of [log] have failed. *)
Definition ending (n i : nat) (lastErr : option error) (log : list log_entry) (w1 w' : World)
    (res : result string) : Prop :=
  let k := length log in
  match res with
  | Ok body =>
      (k < n)%nat /\ waited i k /\
      exists w2 l, next_endpoint (atts (i + k)) (before (atts (i + k)) w1) = (w2, Ok l) /\
        forward_endpoint (atts (i + k)) l w2 = (w', Ok body)
  | Err e =>
      ((k < n)%nat /\ waited i k /\
       next_endpoint (atts (i + k)) (before (atts (i + k)) w1) = (w', Err LB.ErrNoHealthyEndpoints) /\
       e = ErrWrap ("chain " +:+ Name w1.2) LB.ErrNoHealthyEndpoints) \/
      ((0 < k < n)%nat /\ waited i (k - 1) /\ ctx_done (atts (i + k - 1)) = Some e /\ w' = w1) \/
      (k = n /\ waited i (k - 1) /\ w' = w1 /\
       e = match from_option (fun entry => Some entry.2) lastErr (last log) with
           | Some err => ErrWrap "all retries failed" err
           | None => ErrNew "all retries failed: %!w(<nil>)"
           end)
  end.

Lemma waited_cons i m : ctx_done (atts i) = None -> waited (S i) m -> waited i (S m).
Proof. intros H0 H j Hj. destruct (decide (j = i)) as [->|]; [done|]. apply H. lia. Qed.

Lemma ending_cons n i lastErr entry log w1 w' res :
  (n = O \/ ctx_done (atts i) = None) ->
  ending n (S i) (Some entry.2) log w1 w' res -> ending (S n) i lastErr (entry :: log) w1 w' res.
Proof.
  intros Hw He. unfold ending in *. cbn [length]. rewrite Nat.add_succ_r. cbn [plus] in He.
  assert (forall m, (m < n)%nat -> waited (S i) m -> waited i (S m)) as Hwait.
  { intros m Hm. apply waited_cons. destruct Hw; [lia|done]. }
  destruct res as [body|e]; [destruct He as (? & ? & ?); split_and!; [lia|by apply Hwait|done]|].
  destruct He as [(? & ? & ? & ?)|[(? & H1 & ? & ?)|(Hk & H1 & -> & ->)]].
  - left. split_and!; [lia|by apply Hwait|done..].
  - right; left. split_and!; [lia|lia| |done|done].
    replace (S (length log) - 1)%nat with (S (length log - 1)) by lia. apply Hwait; [lia|done].
  - right; right. split_and!; [lia| |done|].
    + rewrite Nat.sub_succ, Nat.sub_0_r. destruct log as [|entry' log]; [intros j; simpl; lia|].
      simpl in *. rewrite Nat.sub_0_r in H1. apply Hwait; [lia|done].
    + rewrite last_cons. by destruct (last log).
Qed.

Lemma next_endpoint_err a w w' err : next_endpoint a w = (w', Err err) -> err = LB.ErrNoHealthyEndpoints.
Proof.
  unfold next_endpoint. destruct w as [st c]. destruct (LB.Next _ _ _ _) as [lb r] eqn:En.
  intros [= _ ->]. by apply LB.Next_err in En.
Qed.

Lemma retry_ends n i lastErr w w' res log :
  retry n i atts lastErr w = (w', res, log) ->
  exists w1, failed i w log w1 /\ ending n i lastErr log w1 w' res.
Proof.
  revert i lastErr w log. induction n as [|n IH]; intros i lastErr w log Hr; simpl in Hr.
  { simplify_eq. exists w'. split; [constructor|]. right; right. split_and!; [done|intros j; simpl; lia|done|].
    by destruct lastErr. }
  destruct (next_endpoint _ _) as [w1 [l|err]] eqn:En.
  2: { simplify_eq. exists w. split; [constructor|]. pose proof (next_endpoint_err _ _ _ _ En) as ->.
       left. rewrite Nat.add_0_r. split_and!; [simpl; lia|intros j; simpl; lia|done..]. }
  destruct (forward_endpoint _ _ _) as [[st3 c3] [body|err]] eqn:Ef.
  { simplify_eq. exists w. split; [constructor|]. unfold ending. rewrite Nat.add_0_r.
    split_and!; [simpl; lia|intros j; simpl; lia|]. by exists w1, l. }
  set (w3 := (modify l (EP.SetHealthy false) (after (atts i) st3), c3)) in *.
  assert (forall log' w4, failed (S i) w3 log' w4 -> failed i w ((S i, l, err) :: log') w4) as Hcons
    by (intros; by econstructor).
  assert (forall log', (n = O \/ ctx_done (atts i) = None) -> retry n (S i) atts (Some err) w3 = (w', res, log') ->
    exists w4, failed i w ((S i, l, err) :: log') w4 /\
      ending (S n) i lastErr ((S i, l, err) :: log') w4 w' res) as Hrec.
  { intros log' Hw H. apply IH in H as (w4 & Hf & He). exists w4. split; [by apply Hcons|].
    by apply ending_cons. }
  destruct n as [|n]; [|destruct (ctx_done (atts i)) as [cerr|] eqn:Ec].
  - destruct (retry 0 _ _ _ _) as [[w4 res4] log4]. simplify_eq. apply Hrec; auto.
  - simplify_eq. eexists. split; [apply Hcons; constructor|]. right; left. simpl. rewrite Nat.add_sub.
    split_and!; [lia|lia|intros j; lia|done|done].
  - destruct (retry (S n) _ _ _ _) as [[w4 res4] log4]. simplify_eq. apply Hrec; auto.
Qed.
End Endings.

(** ** Construction *)

Lemma alloc_spec es st st' ls :
  alloc es st = (st', ls) ->
  length ls = length es /\ NoDup ls /\ (forall l, l ∈ ls -> st !! l = None) /\
  (forall i l, ls !! i = Some l -> st' !! l = es !! i) /\
  (forall l, l ∉ ls -> st' !! l = st !! l).
Proof.
  revert st ls. induction es as [|e es IH]; intros st ls Ha; simpl in Ha.
  { simplify_eq. split_and!; [done|constructor|by intros l ?%not_elem_of_nil| |done].
    intros i l. by rewrite lookup_nil. }
  set (l0 := fresh (dom st)) in *.
  assert (st !! l0 = None) as Hf by (apply not_elem_of_dom, is_fresh).
  destruct (alloc es (<[l0 := e]> st)) as [st1 ls1] eqn:E. simplify_eq.
  destruct (IH _ _ E) as (Hlen & Hnd & Hfresh & Hat & Hrest).
  assert (l0 ∉ ls1) as Hl0.
  { intros H. specialize (Hfresh _ H). by rewrite lookup_insert_eq in Hfresh. }
  split_and!; [simpl; by rewrite Hlen|by constructor| | |].
  - intros l [->|Hl]%elem_of_cons; [done|]. specialize (Hfresh l Hl).
    by apply lookup_insert_None in Hfresh as [? _].
  - intros [|i] l Hi; simpl in *; [|by apply Hat].
    simplify_eq. rewrite Hrest by done. by rewrite lookup_insert_eq.
  - intros l [Hne Hl]%not_elem_of_cons. rewrite Hrest by done. by rewrite lookup_insert_ne.
Qed.

(** The chain that a configuration describes, in the store [st']; [st] is the
    store before it was built. *)
Definition built (opts : ChainOptions) (st st' : Store) (ch : Chain) : Prop :=
  let eps := Cfg.Endpoints (opt_Config opts) in
  Name ch = opt_Name opts /\ ChainID ch = Cfg.ChainID (opt_Config opts) /\
  NoDup (endpoints ch) /\ length (endpoints ch) = length eps /\
  LB.endpoints (loadBalancer ch) = endpoints ch /\
  LB.weights (loadBalancer ch) = Cfg.Weight <$> eps /\
  (forall i l, endpoints ch !! i = Some l -> st' !! l = new_endpoint opts <$> eps !! i) /\
  (forall l, l ∈ endpoints ch -> st !! l = None) /\
  (forall l, l ∉ endpoints ch -> st' !! l = st !! l).

Lemma new_endpoint_weight opts c : EP.Weight (new_endpoint opts c) = Cfg.Weight c.
Proof. unfold new_endpoint. by destruct (Cfg.cb_Enabled _). Qed.

Lemma new_endpoint_healthy opts c : EP.healthy (new_endpoint opts c) = true.
Proof. unfold new_endpoint. by destruct (Cfg.cb_Enabled _). Qed.

Lemma built_NewChain opts st st' ch : NewChainWithOptions opts st = (st', ch) -> built opts st st' ch.
Proof.
  unfold NewChainWithOptions. destruct (alloc _ _) as [st1 ls] eqn:E. intros [= <- <-].
  destruct (alloc_spec _ _ _ _ E) as (Hlen & Hnd & Hfresh & Hat & Hrest).
  rewrite length_fmap in Hlen. unfold built; simpl. split_and!; auto.
  - apply list_eq. intros i. rewrite !list_lookup_fmap.
    destruct (ls !! i) as [l|] eqn:El; simpl.
    + specialize (Hat i l El). rewrite list_lookup_fmap in Hat.
      apply lookup_lt_Some in El. destruct (lookup_lt_is_Some_2 (Cfg.Endpoints (opt_Config opts)) i)
        as [c Hc]; [lia|]. rewrite Hc in *. simpl in *.
      by rewrite (lookup_total_correct _ _ _ Hat), new_endpoint_weight.
    + apply lookup_ge_None in El. symmetry. rewrite fmap_None. apply lookup_ge_None. lia.
  - intros i l Hi. rewrite (Hat i l Hi). by rewrite list_lookup_fmap.
Qed.

Lemma built_flags opts st st' ch i :
  built opts st st' ch -> (i < length (endpoints ch))%nat -> flags (st', ch) i = true.
Proof.
  intros (_ & _ & _ & Hlen & He & _ & Hat & _) Hi.
  destruct (lookup_lt_is_Some_2 (endpoints ch) i Hi) as [l Hl].
  destruct (lookup_lt_is_Some_2 (Cfg.Endpoints (opt_Config opts)) i) as [c Hc]; [lia|].
  unfold flags, LB.snapshot. simpl. rewrite He, Hl, (Hat i l Hl), Hc. simpl.
  apply new_endpoint_healthy.
Qed.

Lemma count_all_healthy h i n :
  (forall k, (i <= k < i + n)%nat -> h k = true) -> LB.count_healthy h i n = Z.of_nat n.
Proof.
  revert i. induction n as [|n IH]; intros i H; simpl; [done|].
  rewrite H by lia. rewrite IH; [lia|]. intros k Hk. apply H. lia.
Qed.

(** The chains of a manager under construction share no endpoint. *)
Definition separate (m : gmap string Chain) (st : Store) : Prop :=
  (forall name c, m !! name = Some c -> Name c = name /\ forall l, l ∈ endpoints c -> is_Some (st !! l)) /\
  (forall n1 n2 c1 c2, m !! n1 = Some c1 -> m !! n2 = Some c2 -> n1 <> n2 ->
     endpoints c1 ## endpoints c2).

Lemma separate_insert m st name cfg tls st' ch :
  separate m st -> NewChainWithOptions (mkOptions name cfg tls) st = (st', ch) ->
  separate (<[name := ch]> m) st'.
Proof.
  intros [Hin Hdis] Hn. apply built_NewChain in Hn as (Hname & _ & _ & Hlen & _ & _ & Hat & Hfresh & Hrest).
  assert (forall n c, m !! n = Some c -> forall l, l ∈ endpoints c -> l ∉ endpoints ch) as Hsep.
  { intros n c Hc l Hl Hl'. apply Hfresh in Hl'. destruct (proj2 (Hin n c Hc) l Hl). congruence. }
  split.
  - intros n c [[<- <-]|[Hne Hc]]%lookup_insert_Some.
    + split; [done|]. intros l [i Hi]%list_elem_of_lookup. rewrite (Hat i l Hi).
      apply fmap_is_Some, lookup_lt_is_Some. apply lookup_lt_Some in Hi. simpl in *. lia.
    + destruct (Hin n c Hc) as [Hnm Hall]. split; [done|]. intros l Hl.
      rewrite Hrest by (by eapply Hsep). by apply Hall.
  - intros n1 n2 c1 c2 [[<- <-]|[Hne1 H1]]%lookup_insert_Some
      [[<- <-]|[Hne2 H2]]%lookup_insert_Some Hne l Hl1 Hl2; try done.
    + by apply (Hsep n2 c2 H2 l).
    + by apply (Hsep n1 c1 H1 l).
    + by apply (Hdis n1 n2 c1 c2 H1 H2 Hne l).
Qed.

Lemma separate_new_chains cfgs tls m st st' m' :
  new_chains cfgs tls m st = (st', m') -> separate m st ->
  separate m' st' /\ dom m' = dom m ∪ list_to_set cfgs.*1.
Proof.
  revert m st. induction cfgs as [|[name c] cfgs IH]; intros m st Hn Hs; simpl in *.
  { simplify_eq. split; [done|]. by rewrite (right_id_L ∅ (∪)). }
  destruct (NewChainWithOptions _ _) as [st1 ch] eqn:E.
  destruct (IH _ _ Hn) as [Hs' Hd]; [by eapply separate_insert|].
  split; [done|]. rewrite Hd, dom_insert_L. set_solver.
Qed.

(** The chain is what its configuration says, in the store [st]. *)
Definition as_configured (name : string) (cfg : Cfg.ChainConfig) (tls : option ClientTLS.tls_config) (st : Store)
    (ch : Chain) : Prop :=
  Name ch = name /\ ChainID ch = Cfg.ChainID cfg /\ highestBlock ch = 0 /\
  NoDup (endpoints ch) /\ length (endpoints ch) = length (Cfg.Endpoints cfg) /\
  loadBalancer ch = LB.mkLB (endpoints ch) (Cfg.Weight <$> Cfg.Endpoints cfg) 0 /\
  healthChecker ch = NewHealthChecker (Cfg.HealthCheck cfg) /\
  forall i l, endpoints ch !! i = Some l ->
    st !! l = new_endpoint (mkOptions name cfg tls) <$> Cfg.Endpoints cfg !! i.

Lemma NewChain_configured name cfg tls st st' ch :
  NewChainWithOptions (mkOptions name cfg tls) st = (st', ch) -> as_configured name cfg tls st' ch.
Proof.
  intros Hn. pose proof (built_NewChain _ _ _ _ Hn) as (Hname & Hid & Hnd & Hlen & Hlb & Hw & Hat & _).
  unfold NewChainWithOptions in Hn. destruct (alloc _ _). simplify_eq. simpl in *. split_and!; try done.
  unfold LB.NewLoadBalancer in *. simpl in *. by rewrite Hw.
Qed.

(** Building one more chain leaves those built before as they are. *)
Lemma NewChain_keeps name cfg tls st st' ch n c t s :
  NewChainWithOptions (mkOptions name cfg tls) st = (st', ch) ->
  as_configured n c t st s -> as_configured n c t st' s.
Proof.
  intros Hn%built_NewChain (Hname & Hid & Hhb & Hnd & Hlen & Hlb & Hh & Hat). destruct Hn as (_ & _ & _ & _ & _ & _ & _ & Hfresh & Hrest).
  split_and!; [done..|]. intros i l Hi. rewrite <- (Hat i l Hi). apply Hrest. intros Hl%Hfresh.
  rewrite (Hat i l Hi) in Hl. apply fmap_None, lookup_ge_None in Hl. apply lookup_lt_Some in Hi. lia.
Qed.

Lemma new_chains_configured cfgs tls m st st' m' :
  new_chains cfgs tls m st = (st', m') -> NoDup cfgs.*1 ->
  (forall name c, (name, c) ∈ cfgs -> exists ch, m' !! name = Some ch /\ as_configured name c tls st' ch) /\
  (forall name c t ch, name ∉ cfgs.*1 -> m !! name = Some ch -> as_configured name c t st ch ->
     m' !! name = Some ch /\ as_configured name c t st' ch).
Proof.
  revert m st. induction cfgs as [|[n0 c0] cfgs IH]; intros m st Hn Hnd; simpl in *.
  { simplify_eq. split; [by intros ?? ?%not_elem_of_nil|done]. }
  apply NoDup_cons in Hnd as [Hn0 Hnd].
  destruct (NewChainWithOptions _ _) as [st1 ch0] eqn:E. destruct (IH _ _ Hn Hnd) as [Hnew Hold]. split.
  - intros name c [Heq|Hin]%elem_of_cons; [|by apply Hnew]. simplify_eq. exists ch0.
    apply Hold; [done|by rewrite lookup_insert_eq|]. by eapply NewChain_configured.
  - intros name c t ch Hnm Hm Hc. apply not_elem_of_cons in Hnm as [Hne Hnm].
    apply Hold; [done|by rewrite lookup_insert_ne|]. by eapply NewChain_keeps.
Qed.

Lemma chain_by_id_some m order id c :
  chain_by_id m order id = Some c ->
  exists name, m !! name = Some c /\ ChainID c = id.
Proof.
  induction order as [|n order IH]; simpl; [done|].
  destruct (m !! n) as [c'|] eqn:E; [|done].
  destruct (Z.eqb_spec (ChainID c') id); [|done]. intros [= <-]. by exists n.
Qed.

Lemma chain_by_id_none m order id name c :
  chain_by_id m order id = None -> name ∈ order -> m !! name = Some c -> ChainID c <> id.
Proof.
  induction order as [|n order IH]; simpl; [by intros _ ?%not_elem_of_nil|].
  intros H [->|Hin]%elem_of_cons Hc.
  - rewrite Hc in H. by destruct (Z.eqb_spec (ChainID c) id).
  - destruct (m !! n) as [c'|]; [|by apply IH].
    destruct (ChainID c' =? id); [done|]. by apply IH.
Qed.

Lemma map_order_elem m order name c :
  map_order m order -> chains m !! name = Some c -> name ∈ order.
Proof.
  intros Hp Hc. rewrite Hp. apply list_elem_of_fmap. exists (name, c).
  split; [done|]. by apply elem_of_map_to_list.
Qed.

(** ** Properties *)

(** C8.  While nobody else marks an endpoint healthy again, whatever else
    other goroutines do between its steps, no endpoint fails twice in one
    [ForwardWithRetry]: at most [maxRetries + 1] attempts fail, each on another
    endpoint of the balancer, which was healthy when the call started and is
    marked unhealthy when it ends. *)
Theorem retry_never_repeats maxRetries atts w w' res log :
  (forall k, tame (atts k)) ->
  ForwardWithRetry maxRetries atts w = (w', res, log) ->
  NoDup (tried log) /\ Z.of_nat (length log) <= Z.max 0 (maxRetries + 1) /\
  Forall (fun l => l ∈ LB.endpoints (loadBalancer w.2) /\ up w.1 l = true) (tried log) /\
  (forall l, l ∈ tried log -> up w'.1 l = false).
Proof.
  intros Ht Hr.
  destruct (retry_never_back _ _ _ _ _ _ _ _ ∅ Ht Hr) as (Hnd & Hlen & Hall & Hend).
  { by intros l ?%not_elem_of_empty. }
  split_and!; [done|lia| |auto].
  eapply Forall_impl; [exact Hall|]. by intros l (_ & ? & ?).
Qed.

(** C7.  Failover succeeds: alone, and with no more healthy endpoints than
    attempts, [ForwardWithRetry] returns an answer as soon as some healthy
    endpoint with a positive weight answers, however the others fail. *)
Theorem retry_fails_over maxRetries atts w w' res log g lg wg :
  (forall k, quiet (atts k)) -> LB.wf (loadBalancer w.2) ->
  NoDup (LB.endpoints (loadBalancer w.2)) ->
  0 <= LB.current (loadBalancer w.2) -> 0 <= maxRetries ->
  LB.current (loadBalancer w.2) + maxRetries + 1 <= int64_max ->
  LB.endpoints (loadBalancer w.2) !! g = Some lg ->
  LB.weights (loadBalancer w.2) !! g = Some wg -> 0 < wg -> flags w g = true ->
  (forall k, is_ok (EP.Forward (clock (atts k)) (outcome (atts k) lg) (w.1 !!! lg)).2 = true) ->
  HealthyEndpoints w.1 w.2 <= maxRetries + 1 ->
  ForwardWithRetry maxRetries atts w = (w', res, log) ->
  is_ok res = true.
Proof.
  intros Hq Hwf Hnd Hc H0 Hmax Hlg Hwg Hpos Hup Hans Hcnt Hr.
  apply (retry_finds _ _ _ _ _ _ _ _ g lg wg Hq) in Hr; auto; lia.
Qed.

(** C39.  How [ForwardWithRetry] ends.  Its log lists the attempts that failed,
    each of which left its endpoint marked unhealthy.  With [k] of them, the
    call ends in one of four ways, which exclude each other: attempt number [k],
    counted from zero and still allowed, got an endpoint that answered, and its body is returned; attempt number [k] found no
    healthy endpoint, and that error is returned with the chain's name; the
    context was done in the wait after the last failed attempt, which was not
    the last one allowed, and the context's error is returned; or all
    [maxRetries + 1] attempts failed and the returned error wraps that of the last
    (or nothing, when a negative [maxRetries] allows no attempt).  Every wait
    before that had ended with the timer. *)
Theorem retry_error_forms maxRetries atts w w' res log :
  ForwardWithRetry maxRetries atts w = (w', res, log) ->
  let k := length log in
  let n := Z.to_nat (maxRetries + 1) in
  exists w1, failed atts 0 w log w1 /\
  match res with
  | Ok body =>
      (k < n)%nat /\ waited atts 0 k /\
      exists w2 l, next_endpoint (atts k) (before (atts k) w1) = (w2, Ok l) /\
        forward_endpoint (atts k) l w2 = (w', Ok body)
  | Err e =>
      ((k < n)%nat /\ waited atts 0 k /\
       next_endpoint (atts k) (before (atts k) w1) = (w', Err LB.ErrNoHealthyEndpoints) /\
       e = ErrWrap ("chain " +:+ Name w1.2) LB.ErrNoHealthyEndpoints) \/
      ((0 < k < n)%nat /\ waited atts 0 (k - 1) /\ ctx_done (atts (k - 1)%nat) = Some e /\ w' = w1) \/
      (k = n /\ waited atts 0 (k - 1) /\ w' = w1 /\
       e = match last log with
           | Some entry => ErrWrap "all retries failed" entry.2
           | None => ErrNew "all retries failed: %!w(<nil>)"
           end)
  end.
Proof.
  intros Hr. apply retry_ends in Hr as (w1 & Hf & He). exists w1. split; [done|].
  unfold ending in He. simpl in He. destruct res; [done|].
  destruct He as [He|[He|(? & ? & ? & ->)]]; [by left|by right; left|].
  right; right. split_and!; try done. by destruct (last log).
Qed.

(** A new chain has one fresh endpoint per entry of its configuration, in
    order, with the entry's address and weight; all are healthy, the breaker
    is the configured one (with defaults for zero fields) exactly when enabled,
    and the balancer is well formed when the configured weights are
    non-negative and sum up within the word. *)
Theorem new_chain_built opts st st' ch :
  NewChainWithOptions opts st = (st', ch) ->
  Forall (fun w => 0 <= w) (Cfg.Weight <$> Cfg.Endpoints (opt_Config opts)) ->
  foldr Z.add 0 (Cfg.Weight <$> Cfg.Endpoints (opt_Config opts)) <= int64_max ->
  built opts st st' ch /\ LB.wf (loadBalancer ch) /\
  HealthyEndpoints st' ch = TotalEndpoints ch.
Proof.
  intros Hn Hpos Hmax. apply built_NewChain in Hn as Hb. split; [done|].
  pose proof Hb as (_ & _ & _ & Hlen & He & Hw & _). split.
  - unfold LB.wf. rewrite Hw, He, length_fmap. split_and!; congruence || done.
  - unfold HealthyEndpoints, TotalEndpoints, LB.HealthyCount. rewrite He.
    apply count_all_healthy. intros k Hk.
    pose proof (built_flags _ _ _ _ k Hb ltac:(lia)) as Hf. unfold flags in Hf.
    simpl in Hf. by rewrite He in Hf.
Qed.

(** A new manager has exactly the configured chains, whatever the order in
    which the configuration map is visited: each is found under its own name,
    and no two of them share an endpoint. *)
Theorem manager_isolates cfgs tls st st' m :
  NewManagerWithOptions cfgs tls st = (st', m) ->
  (forall name, is_Some (GetChain m name) <-> name ∈ cfgs.*1) /\
  (forall name c, GetChain m name = Some c -> Name c = name) /\
  (forall n1 n2 c1 c2, GetChain m n1 = Some c1 -> GetChain m n2 = Some c2 -> n1 <> n2 ->
     endpoints c1 ## endpoints c2).
Proof.
  unfold NewManagerWithOptions. destruct (new_chains _ _ _ _) as [st1 m1] eqn:E.
  intros [= <- <-]. apply separate_new_chains in E as [[Hin Hdis] Hdom].
  - unfold GetChain. simpl. split_and!; [|intros name c Hc; by apply (Hin name c)|done].
    intros name. rewrite <- elem_of_dom, Hdom, dom_empty, (left_id_L ∅ (∪)).
    apply elem_of_list_to_set.
  - split; [intros n c|intros n1 n2 c1 c2]; by rewrite lookup_empty.
Qed.

(** [GetChainByID] finds a chain exactly when some chain has the
    identifier, and when identifiers are unique the order in which Go happens
    to visit the map does not matter. *)
Theorem chain_by_id_order_irrelevant m order id :
  map_order m order ->
  (GetChainByID m order id = None <->
     forall name c, GetChain m name = Some c -> ChainID c <> id) /\
  (forall order', map_order m order' ->
     (forall n1 n2 c1 c2, GetChain m n1 = Some c1 -> GetChain m n2 = Some c2 ->
        ChainID c1 = ChainID c2 -> n1 = n2) ->
     GetChainByID m order' id = GetChainByID m order id).
Proof.
  assert (forall o o', map_order m o -> map_order m o' -> forall c,
    GetChainByID m o id = Some c -> exists n c', GetChain m n = Some c /\
      GetChainByID m o' id = Some c' /\ exists n', GetChain m n' = Some c' /\ ChainID c' = ChainID c)
    as Hfind.
  { intros o o' _ Ho' c Hc. apply chain_by_id_some in Hc as (n & Hn & Hid).
    destruct (GetChainByID m o' id) as [c'|] eqn:E.
    - exists n, c'. split_and!; [done|done|]. apply chain_by_id_some in E as (n' & ? & ?).
      exists n'. split; [done|congruence].
    - exfalso. eapply chain_by_id_none in E; [by apply E| |exact Hn].
      by eapply map_order_elem. }
  intros Ho. split.
  - split; [|intros H].
    + intros H name c Hc. eapply chain_by_id_none; [exact H| |exact Hc]. by eapply map_order_elem.
    + destruct (GetChainByID m order id) as [c|] eqn:E; [|done].
      apply chain_by_id_some in E as (n & Hn & Hid). by destruct (H n c Hn).
  - intros order' Ho' Huniq. destruct (GetChainByID m order id) as [c|] eqn:E.
    + destruct (Hfind _ _ Ho Ho' _ E) as (n & c' & Hn & -> & n' & Hn' & Hid).
      assert (n' = n) as -> by eauto. congruence.
    + destruct (GetChainByID m order' id) as [c|] eqn:E'; [|done].
      destruct (Hfind _ _ Ho' Ho _ E') as (n & c' & _ & H & _). congruence.
Qed.

(** ** Witnesses *)

Definition sample_config : Cfg.ChainConfig :=
  Cfg.mkChain 1
    [Cfg.mkEndpoint "https://eth.llamarpc.com" 10;
     Cfg.mkEndpoint "https://rpc.ankr.com/eth" 5;
     Cfg.mkEndpoint "https://ethereum.publicnode.com" 5]
    (Cfg.mkHealthCheck (30 * Second) (5 * Second) 3)
    (Cfg.mkCircuitBreaker true 0 0 0 0)
    (Cfg.mkHTTPPool 100 10 0 (90 * Second)) None.

Definition sample_world : World := NewChain "ethereum" sample_config ∅.

(** Every request fails but those to the third endpoint. *)
Definition sample_attempt : attempt :=
  mkAttempt id id id id id
    (fun l => if decide (LB.endpoints (loadBalancer sample_world.2) !! 2%nat = Some l)
              then EP.Responded 200 "{}" Millisecond
              else EP.DoFailed (ErrNew "connection refused") Millisecond)
    (EP.mkClocks 1 2 2) None.

Lemma sample_quiet : quiet sample_attempt.
Proof. by split_and!. Qed.

Lemma sample_tame : tame sample_attempt.
Proof. by split_and!; simpl. Qed.

Lemma retry_never_repeats_witness :
  NoDup (tried (ForwardWithRetry 2 (fun _ => sample_attempt) sample_world).2) /\
  length (tried (ForwardWithRetry 2 (fun _ => sample_attempt) sample_world).2) = 2%nat.
Proof.
  split; [|vm_compute; reflexivity].
  destruct (ForwardWithRetry 2 (fun _ => sample_attempt) sample_world) as [[w' res] log] eqn:E.
  apply (retry_never_repeats 2 (fun _ => sample_attempt) sample_world w' res log); [|exact E].
  intros _. exact sample_tame.
Defined.

Lemma retry_fails_over_witness :
  is_ok (ForwardWithRetry 2 (fun _ => sample_attempt) sample_world).1.2 = true.
Proof.
  destruct (ForwardWithRetry 2 (fun _ => sample_attempt) sample_world) as [[w' res] log] eqn:E.
  destruct (LB.endpoints (loadBalancer sample_world.2) !! 2%nat) as [l|] eqn:El;
    [|vm_compute in El; discriminate].
  apply (retry_fails_over 2 (fun _ => sample_attempt) sample_world w' res log 2 l 5).
  - intros _. exact sample_quiet.
  - vm_compute. repeat (split || constructor); discriminate.
  - apply (bool_decide_eq_true_1 _). vm_compute. reflexivity.
  - vm_compute. discriminate.
  - discriminate.
  - vm_compute. discriminate.
  - exact El.
  - vm_compute. reflexivity.
  - reflexivity.
  - vm_compute. reflexivity.
  - intros _. vm_compute in El. injection El as <-. vm_compute. reflexivity.
  - vm_compute. discriminate.
  - exact E.
Defined.

(** With two attempts only, all of them on endpoints that fail. *)
(** Two attempts, both answered by nobody. *)
Definition refusing : attempt :=
  mkAttempt id id id id id (fun _ => EP.DoFailed (ErrNew "connection refused") Millisecond)
    (EP.mkClocks 1 2 2) None.

Lemma retry_error_forms_witness :
  exists w' log, ForwardWithRetry 1 (fun _ => refusing) sample_world = (w', Err (ErrWrap "all retries failed"
      (ErrWrap "request failed" (ErrNew "connection refused"))), log) /\
    exists w1, failed (fun _ => refusing) 0 sample_world log w1 /\ w' = w1.
Proof.
  destruct (ForwardWithRetry 1 (fun _ => refusing) sample_world) as [[w' res] log] eqn:E.
  assert (length log = 2%nat /\ res = Err (ErrWrap "all retries failed"
    (ErrWrap "request failed" (ErrNew "connection refused")))) as [Hlen Hres]
    by (vm_compute in E; injection E as _ <- <-; split; reflexivity).
  subst res. exists w', log. split; [reflexivity|].
  destruct (retry_error_forms 1 (fun _ => refusing) sample_world w' _ log E) as (w1 & Hf & He).
  exists w1. split; [exact Hf|].
  destruct He as [(Hk & _)|[(Hk & _)|(_ & _ & Hw & _)]]; [exfalso; rewrite Hlen in Hk; simpl in Hk; lia..|exact Hw].
Defined.

Lemma new_chain_built_witness : LB.wf (loadBalancer sample_world.2).
Proof.
  destruct sample_world as [st ch] eqn:E.
  apply (new_chain_built (mkOptions "ethereum" sample_config None) ∅ st ch);
    [exact E|repeat constructor; discriminate|discriminate].
Defined.

Definition sample_configs : list (string * Cfg.ChainConfig) :=
  [("ethereum", sample_config); ("polygon", sample_config)]%string.

Lemma manager_isolates_witness :
  is_Some (GetChain (NewManager sample_configs ∅).2 "polygon").
Proof.
  destruct (NewManager sample_configs ∅) as [st m] eqn:E.
  apply (manager_isolates sample_configs None ∅ st m E). simpl. set_solver.
Defined.

Lemma chain_by_id_order_irrelevant_witness :
  GetChainByID (NewManager sample_configs ∅).2
    (map_to_list (chains (NewManager sample_configs ∅).2)).*1 7 = None.
Proof.
  apply (chain_by_id_order_irrelevant (NewManager sample_configs ∅).2
    (map_to_list (chains (NewManager sample_configs ∅).2)).*1 7); [apply Permutation_refl|].
  intros name c Hc.
  destruct (decide (name = "ethereum"%string)) as [->|H1];
    [vm_compute in Hc; injection Hc as <-; discriminate|].
  destruct (decide (name = "polygon"%string)) as [->|H2];
    [vm_compute in Hc; injection Hc as <-; discriminate|].
  unfold GetChain, NewManager, NewManagerWithOptions in Hc. simpl in Hc.
  by rewrite !lookup_insert_ne, lookup_empty in Hc by congruence.
Defined.

End Chain.
