(* ===== verification/BlockNumber.v ===== *)
(** * Block numbers: [parseBlockNumber] of [internal/chain/health.go]

    The function gets the raw JSON of a result.  It strips quotes and a [0x]
    prefix, decodes what is left as hexadecimal bytes and folds them into an
    [int64]; only when that fails is the raw text read as a decimal number.
    [strings.Trim], [strings.TrimPrefix], [hex.DecodeString] and
    [strconv.ParseInt] are Go's; strings are lists of bytes inside. *)
From Stdlib Require Import ZArith Lia Ascii.
From S2P Require Import Prelude.

Module BlockNumber.

Definition bytes := list ascii.

Definition code (c : ascii) : Z := Z.of_N (N_of_ascii c).
Definition quote : ascii := "034"%char.

(** ** The standard library's part *)

Fixpoint trim_left (c : ascii) (s : bytes) : bytes :=
  match s with
  | [] => []
  | x :: s' => if ascii_dec x c then trim_left c s' else s
  end.

(** [strings.Trim] with a cut set of one byte. *)
Definition Trim (c : ascii) (s : bytes) : bytes :=
  reverse (trim_left c (reverse (trim_left c s))).

(** [strings.TrimPrefix(s, "0x")]. *)
Definition TrimPrefix0x (s : bytes) : bytes :=
  match s with
  | x :: y :: s' => if ascii_dec x "0" then if ascii_dec y "x" then s' else s else s
  | _ => s
  end.

Definition hex_digit (c : ascii) : option Z :=
  let n := code c in
  if (48 <=? n) && (n <=? 57) then Some (n - 48)
  else if (97 <=? n) && (n <=? 102) then Some (n - 87)
  else if (65 <=? n) && (n <=? 70) then Some (n - 55)
  else None.

(** [hex.DecodeString]: [None] for its error. *)
Fixpoint DecodeString (s : bytes) : option (list Z) :=
  match s with
  | [] => Some []
  | x :: y :: s' =>
      a ← hex_digit x; b ← hex_digit y; bs ← DecodeString s';
      Some (16 * a + b :: bs)
  | [_] => None
  end.

Definition dec_digit (c : ascii) : option Z :=
  let n := code c in if (48 <=? n) && (n <=? 57) then Some (n - 48) else None.

(** The digits of [strconv.ParseInt(s, 10, 64)], most significant first. *)
Fixpoint dec_value (acc : Z) (s : bytes) : option Z :=
  match s with
  | [] => Some acc
  | c :: s' => d ← dec_digit c; dec_value (10 * acc + d) s'
  end.

Definition ErrSyntax : error := ErrNew "invalid syntax".
Definition ErrRange : error := ErrNew "value out of range".

Definition parse_digits (negative : bool) (s : bytes) : result Z :=
  match s with
  | [] => Err ErrSyntax
  | _ =>
      match dec_value 0 s with
      | None => Err ErrSyntax
      | Some n =>
          let z := if negative then - n else n in
          if decide (in_int64 z) then Ok z else Err ErrRange
      end
  end.

(** The error's text, which is only logged, is left at its kind. *)
Definition ParseInt (s : bytes) : result Z :=
  match s with
  | c :: s' =>
      if ascii_dec c "+" then parse_digits false s'
      else if ascii_dec c "-" then parse_digits true s'
      else parse_digits false s
  | [] => Err ErrSyntax
  end.

(** ** The program's part *)

(** [height<<8 | int64(b)]. *)
Definition push_byte (height b : Z) : Z := Z.lor (wrap64 (Z.shiftl height 8)) b.

Definition parse_bytes (raw : bytes) : result Z :=
  let hexStr := TrimPrefix0x (Trim quote raw) in
  if decide (hexStr = []) then Ok 0
  else
    let padded := if Nat.odd (length hexStr) then "0"%char :: hexStr else hexStr in
    match DecodeString padded with
    | None => ParseInt raw
    | Some bs => Ok (fold_left push_byte bs 0)
    end.

Definition parseBlockNumber (raw : string) : result Z :=
  parse_bytes (String.list_ascii_of_string raw).

(** ** What the digits mean *)

(** The value of hexadecimal digits of either case. *)
Fixpoint hex_value (acc : Z) (s : bytes) : option Z :=
  match s with
  | [] => Some acc
  | c :: s' => d ← hex_digit c; hex_value (16 * acc + d) s'
  end.

(** A digit of [fmt.Sprintf("%x")], as the nodes write them. *)
Definition to_digit (d : Z) : ascii :=
  ascii_of_N (Z.to_N (if d <? 10 then d + 48 else d + 87)).

Fixpoint to_hex_fuel (fuel : nat) (n : Z) (acc : bytes) : bytes :=
  match fuel with
  | O => acc
  | S fuel' =>
      let acc' := to_digit (n mod 16) :: acc in
      if n <? 16 then acc' else to_hex_fuel fuel' (n / 16) acc'
  end.

(** Sixteen digits are enough for a 64-bit word. *)
Definition to_hex (n : Z) : bytes := to_hex_fuel 16 n [].

(** The JSON text of a quantity: quotes around [0x] and the digits. *)
Definition quantity (s : bytes) : string :=
  String.string_of_list_ascii (quote :: "0"%char :: "x"%char :: s ++ [quote]).

(** ** Lemmas *)

Lemma hex_digit_range c d : hex_digit c = Some d -> 0 <= d < 16.
Proof. unfold hex_digit. intros. case_tests; lia. Qed.

Lemma dec_digit_hex c d : dec_digit c = Some d -> hex_digit c = Some d.
Proof. unfold dec_digit, hex_digit. by case_match. Qed.

Lemma digit_not_quote c : is_Some (hex_digit c) -> c <> quote.
Proof. intros [d Hd] ->. discriminate. Qed.

Lemma digit_not_x c : is_Some (hex_digit c) -> c <> "x"%char.
Proof. intros [d Hd] ->. discriminate. Qed.

Definition all_hex (s : bytes) : Prop := Forall (fun c => is_Some (hex_digit c)) s.

Lemma trim_left_id c s : head s <> Some c -> trim_left c s = s.
Proof. destruct s as [|x s]; simpl; [done|]. intros H. destruct (ascii_dec x c); [congruence|done]. Qed.

Lemma hex_value_all_hex acc s : is_Some (hex_value acc s) <-> all_hex s.
Proof.
  unfold all_hex. revert acc. induction s as [|c s IH]; intros acc; simpl.
  { split; [constructor|by eexists]. }
  rewrite Forall_cons. destruct (hex_digit c) as [d|] eqn:E; simpl.
  - rewrite IH. split; [|tauto]. intros H. split; [by eexists|done].
  - split; [intros [? [=]]|intros [[? [=]] _]].
Qed.

Lemma hex_value_app acc s t : hex_value acc (s ++ t) = v ← hex_value acc s; hex_value v t.
Proof.
  revert acc. induction s as [|c s IH]; intros acc; simpl; [done|].
  destruct (hex_digit c); simpl; [apply IH|done].
Qed.

(** Quotes around digits are what [Trim] removes. *)
Lemma Trim_quoted s :
  head s <> Some quote -> last s <> Some quote -> s <> [] ->
  Trim quote (quote :: s ++ [quote]) = s.
Proof.
  intros Hh Hl Hne. unfold Trim. simpl.
  rewrite (trim_left_id quote (s ++ [quote])) by (by destruct s).
  rewrite reverse_app. simpl. rewrite trim_left_id by (by rewrite head_reverse).
  apply reverse_involutive.
Qed.

Lemma Trim_unquoted s : quote ∉ s -> Trim quote s = s.
Proof.
  intros H. unfold Trim. rewrite (trim_left_id quote s).
  - rewrite trim_left_id; [apply reverse_involutive|].
    rewrite head_reverse. intros Hl. apply H. rewrite last_lookup in Hl. by eapply list_elem_of_lookup_2.
  - intros Hh. apply H. rewrite head_lookup in Hh. by eapply list_elem_of_lookup_2.
Qed.

Lemma TrimPrefix_digits s : all_hex s -> TrimPrefix0x s = s.
Proof.
  intros H. destruct s as [|x [|y s]]; try done. simpl.
  destruct (ascii_dec x "0"); [|done]. destruct (ascii_dec y "x") as [->|]; [|done].
  inversion_clear H as [|? ? _ H']. inversion_clear H' as [|? ? [d Hd] _]. discriminate.
Qed.

Lemma push_byte_value a b : 0 <= b < 256 -> push_byte (wrap64 a) b = wrap64 (256 * a + b).
Proof.
  intros Hb. unfold push_byte. rewrite Z.shiftl_mul_pow2 by lia.
  rewrite wrap64_mul_l. replace (a * 2 ^ 8) with (256 * a) by lia.
  assert (exists k, wrap64 (256 * a) = 256 * k) as [k Hk].
  { unfold wrap64. exists (a - 2 ^ 56 * ((256 * a + 2 ^ 63) / 2 ^ 64)).
    pose proof (Z.div_mod (256 * a + 2 ^ 63) (2 ^ 64)). lia. }
  rewrite <- wrap64_add_l, Hk. pose proof (wrap64_range (256 * a)) as Hr. rewrite Hk in Hr.
  rewrite wrap64_id by (unfold in_int64, int64_min, int64_max in *; lia).
  symmetry. apply Z.add_nocarry_lor. apply Z.bits_inj'. intros n Hn.
  rewrite Z.land_spec, Z.bits_0. replace (256 * k) with (k * 2 ^ 8) by lia.
  destruct (decide (n < 8)).
  - by rewrite Z.mul_pow2_bits_low by lia.
  - rewrite <- (Z.mod_small b (2 ^ 8)), Z.mod_pow2_bits_high by lia. apply andb_false_r.
Qed.

(** Decoding an even number of digits and folding the bytes is reading the
    digits, modulo the word. *)
Lemma decode_value n s acc v :
  length s = (2 * n)%nat -> hex_value acc s = Some v ->
  exists bs, DecodeString s = Some bs /\ fold_left push_byte bs (wrap64 acc) = wrap64 v.
Proof.
  revert s acc. induction n as [|n IH]; intros s acc Hlen Hv.
  { destruct s; [|discriminate]. simpl in *. simplify_eq. by exists []. }
  destruct s as [|x [|y s]]; simpl in Hlen; [lia..|]. simpl in *.
  destruct (hex_digit x) as [a|] eqn:Ea; simpl in Hv; [|done].
  destruct (hex_digit y) as [b|] eqn:Eb; simpl in Hv; [|done].
  apply hex_digit_range in Ea as ?. apply hex_digit_range in Eb as ?.
  destruct (IH s (16 * (16 * acc + a) + b)) as (bs & Hbs & Hf); [lia|done|].
  exists (16 * a + b :: bs). simpl. rewrite Hbs. split; [done|].
  rewrite push_byte_value by lia. rewrite <- Hf. do 2 f_equal. lia.
Qed.

(** Digits without quotes and prefix are read as hexadecimal. *)
Lemma parse_stripped raw s v :
  TrimPrefix0x (Trim quote raw) = s -> hex_value 0 s = Some v ->
  parse_bytes raw = Ok (wrap64 v).
Proof.
  intros Hs Hv. unfold parse_bytes. rewrite Hs.
  case_decide as Hne; [subst; rewrite Hne in Hv; by simplify_eq/=|].
  assert (exists n s', (if Nat.odd (length s) then "0"%char :: s else s) = s' /\
    length s' = (2 * n)%nat /\ hex_value 0 s' = Some v) as (n & s' & -> & Hlen & Hv').
  { destruct (Nat.odd (length s)) eqn:Eo.
    - apply Nat.odd_spec in Eo as [m Hm]. exists (S m), ("0"%char :: s). simpl.
      split_and!; [done|lia|done].
    - assert (Nat.Even (length s)) as [m Hm].
      { apply Nat.even_spec. unfold Nat.odd in Eo. by apply negb_false_iff. }
      by exists m, s. }
  destruct (decode_value n s' 0 v Hlen Hv') as (bs & -> & Hf). by rewrite <- Hf.
Qed.

Lemma to_digit_hex d : 0 <= d < 16 -> hex_digit (to_digit d) = Some d.
Proof.
  intros H. assert (d ∈ seqZ 0 16) as Hin by (apply elem_of_seqZ; lia). revert d Hin H.
  assert (Forall (fun d => hex_digit (to_digit d) = Some d) (seqZ 0 16)) as Hall
    by (repeat constructor).
  rewrite Forall_forall in Hall. auto.
Qed.

Lemma to_hex_fuel_value fuel n acc :
  0 <= n < 16 ^ Z.of_nat fuel -> hex_value 0 (to_hex_fuel fuel n acc) = hex_value n acc.
Proof.
  revert n acc. induction fuel as [|fuel IH]; intros n acc Hn.
  { simpl in *. by replace n with 0 by lia. }
  rewrite Nat2Z.inj_succ, Z.pow_succ_r in Hn by lia. cbn -[Z.mul Z.add].
  pose proof (Z.mod_pos_bound n 16). destruct (Z.ltb_spec n 16).
  - cbn -[Z.mul Z.add]. rewrite Z.mod_small, to_digit_hex by lia. cbn -[Z.mul Z.add]. f_equal; lia.
  - rewrite IH.
    + cbn -[Z.mul Z.add]. rewrite to_digit_hex by lia. cbn -[Z.mul Z.add].
      pose proof (Z.div_mod n 16). f_equal; lia.
    + split; [apply Z.div_pos; lia|]. apply Z.div_lt_upper_bound; lia.
Qed.

Lemma decode_all_hex n s bs :
  length s = n -> DecodeString s = Some bs -> all_hex s.
Proof.
  revert s bs. induction (lt_wf n) as [n _ IH]. intros s bs Hn Hd.
  destruct s as [|x [|y s]]; simpl in *; [constructor|done|].
  destruct (hex_digit x) eqn:Ex; simpl in *; [|done].
  destruct (hex_digit y) eqn:Ey; simpl in *; [|done].
  destruct (DecodeString s) eqn:Es; simpl in *; [|done].
  unfold all_hex. rewrite !Forall_cons, Ex, Ey. split_and!; [by eexists..|].
  eapply (IH (length s)); [lia|done|done].
Qed.

Lemma dec_value_digits acc s n :
  dec_value acc s = Some n -> Forall (fun c => is_Some (dec_digit c)) s.
Proof.
  revert acc. induction s as [|c s IH]; intros acc; simpl; [constructor|].
  destruct (dec_digit c) eqn:E; simpl; [|done]. intros H%IH. constructor; [by eexists|done].
Qed.

Lemma decimal_all_hex s : Forall (fun c => is_Some (dec_digit c)) s -> all_hex s.
Proof.
  intros H. eapply Forall_impl; [exact H|]. intros c [d Hd].
  exists d. by apply dec_digit_hex.
Qed.

Lemma all_hex_unquoted s : all_hex s -> TrimPrefix0x (Trim quote s) = s.
Proof.
  intros H. rewrite Trim_unquoted; [by apply TrimPrefix_digits|].
  intros Hq. unfold all_hex in H. rewrite Forall_forall in H.
  by apply (digit_not_quote quote (H _ Hq)).
Qed.

(** Reading decimal digits as hexadecimal gives too much. *)
Lemma dec_below_hex s a b n v :
  0 <= a <= b -> dec_value a s = Some n -> hex_value b s = Some v ->
  n <= v /\ (a < b -> n < v).
Proof.
  revert a b. induction s as [|c s IH]; intros a b Hab Hn Hv; cbn -[Z.mul Z.add] in *.
  { simplify_eq. lia. }
  destruct (dec_digit c) as [d|] eqn:Ed; [|done].
  rewrite (dec_digit_hex _ _ Ed) in Hv. simpl in Hn, Hv.
  apply dec_digit_hex, hex_digit_range in Ed.
  destruct (IH (10 * a + d) (16 * b + d) ltac:(lia) Hn Hv). lia.
Qed.

Lemma dec_digit_range c d : dec_digit c = Some d -> 0 <= d < 10.
Proof. unfold dec_digit. intros. case_tests; lia. Qed.

Lemma dec_apart_hex s a n v :
  0 <= a < 10 -> dec_value a s = Some n -> hex_value a s = Some v -> 10 <= n -> n < v.
Proof.
  revert a. induction s as [|c s IH]; intros a Ha Hn Hv; cbn -[Z.mul Z.add] in *.
  { simplify_eq. lia. }
  destruct (dec_digit c) as [d|] eqn:Ed; [|done].
  rewrite (dec_digit_hex _ _ Ed) in Hv. simpl in Hn, Hv. apply dec_digit_range in Ed.
  destruct (decide (a = 0)) as [->|].
  - apply (IH d); [lia|..]; rewrite <- ?Hn, <- ?Hv; f_equal; lia.
  - intros _. eapply dec_below_hex; [|exact Hn|exact Hv|]; lia.
Qed.

(** The JSON string of a quantity. *)
Lemma parse_quoted s v :
  hex_value 0 s = Some v -> parseBlockNumber (quantity s) = Ok (wrap64 v).
Proof.
  intros Hv. assert (all_hex s) as Hs by (apply (hex_value_all_hex 0); by eexists).
  unfold parseBlockNumber, quantity. rewrite String.list_ascii_of_string_of_list_ascii.
  apply (parse_stripped _ s); [|done].
  change (quote :: "0"%char :: "x"%char :: s ++ [quote])
    with (quote :: ("0"%char :: "x"%char :: s) ++ [quote]).
  rewrite Trim_quoted; [done|done| |done].
  rewrite !last_cons. destruct (last s) as [c|] eqn:El; [|done].
  intros [= ->]. rewrite last_lookup in El. apply (digit_not_quote quote); [|done].
  unfold all_hex in Hs. rewrite Forall_forall in Hs. apply Hs. by eapply list_elem_of_lookup_2.
Qed.

(** Whatever is parsed fits the word. *)
Lemma parse_in_range s z : parse_bytes s = Ok z -> in_int64 z.
Proof.
  unfold parse_bytes. set (h := TrimPrefix0x (Trim quote s)).
  case_decide; [intros [= <-]; done|].
  set (h' := if Nat.odd (length h) then "0"%char :: h else h).
  destruct (DecodeString h') as [bs|] eqn:Ed.
  - intros [= <-]. pose proof Ed as Hall. apply (decode_all_hex _ _ _ eq_refl) in Hall.
    assert (exists n, length h' = (2 * n)%nat) as [n Hn].
    { unfold h'. destruct (Nat.odd (length h)) eqn:Eo.
      - apply Nat.odd_spec in Eo as [m Hm]. exists (S m). simpl. lia.
      - apply negb_false_iff, Nat.even_spec in Eo as [m Hm]. by exists m. }
    apply (hex_value_all_hex 0) in Hall as [v Hv].
    destruct (decode_value n h' 0 v Hn Hv) as (bs' & Hbs & Hf).
    rewrite Ed in Hbs. injection Hbs as <-. change (wrap64 0) with 0 in Hf. rewrite Hf.
    apply wrap64_range.
  - unfold ParseInt, parse_digits. intros. repeat case_match; simplify_eq; done.
Qed.

(** ** Properties *)

(** The JSON string of a hexadecimal quantity, whatever the case of its
    digits and their number, leading zeros included, is read as its value
    modulo the word: a quantity of 2^63 or more comes out wrong, and negative
    when its 64th bit is set. *)
Theorem parse_quantity s v :
  hex_value 0 s = Some v ->
  parseBlockNumber (quantity s) = Ok (wrap64 v) /\
  (2 ^ 63 <= v < 2 ^ 64 -> wrap64 v < 0).
Proof.
  intros Hv. split; [by apply parse_quoted|]. intros H. unfold wrap64.
  replace (v + 2 ^ 63) with (v - 2 ^ 63 + 1 * 2 ^ 64) by lia.
  rewrite Z_mod_plus_full, Z.mod_small by lia. lia.
Qed.

(** C17.  Block heights survive the trip: what a node prints for a height is
    read back as that height, for every height that fits an [int64]. *)
Theorem parse_print_height n :
  0 <= n <= int64_max -> parseBlockNumber (quantity (to_hex n)) = Ok n.
Proof.
  intros Hn. rewrite <- (wrap64_id n) at 2 by (unfold in_int64, int64_min, int64_max in *; lia).
  apply parse_quoted. unfold to_hex. rewrite to_hex_fuel_value; [done|].
  unfold int64_max in Hn. change (Z.of_nat 16) with 16. lia.
Qed.

(** A height given as a JSON number is misread: its decimal digits are
    taken for hexadecimal ones, so any number from 10 on comes out too large
    (before wrapping), and the decimal fallback is only ever reached by a text
    that starts with a sign. *)
Theorem decimal_read_as_hex s :
  (forall n, dec_value 0 s = Some n ->
     exists v, parse_bytes s = Ok (wrap64 v) /\ n <= v /\ (10 <= n -> n < v)) /\
  (forall z, hex_value 0 (TrimPrefix0x (Trim quote s)) = None -> parse_bytes s = Ok z ->
     head s = Some "+"%char \/ head s = Some "-"%char).
Proof.
  split.
  - intros n Hn. pose proof (decimal_all_hex s (dec_value_digits _ _ _ Hn)) as Hs.
    destruct (proj2 (hex_value_all_hex 0 s) Hs) as [v Hv]. exists v. split_and!.
    + apply (parse_stripped _ s); [by apply all_hex_unquoted|done].
    + by eapply (dec_below_hex s 0 0).
    + by apply (dec_apart_hex s 0).
  - intros z Hnone. unfold parse_bytes.
    set (h := TrimPrefix0x (Trim quote s)) in *.
    case_decide as Hh; [rewrite Hh in Hnone; discriminate|].
    set (h' := if Nat.odd (length h) then "0"%char :: h else h).
    destruct (DecodeString h') as [bs|] eqn:Ed.
    { exfalso. apply (decode_all_hex _ _ _ eq_refl) in Ed.
      assert (all_hex h) as Hall by (unfold h' in Ed; destruct (Nat.odd _); [by inversion Ed|done]).
      apply (hex_value_all_hex 0) in Hall as [v Hv]. congruence. }
    unfold ParseInt. destruct s as [|c s']; [done|].
    destruct (ascii_dec c "+") as [->|]; [auto|].
    destruct (ascii_dec c "-") as [->|]; [auto|].
    unfold parse_digits. destruct (dec_value 0 (c :: s')) as [m|] eqn:En; [|done]. intros _.
    exfalso. apply dec_value_digits, decimal_all_hex in En.
    subst h. rewrite (all_hex_unquoted _ En) in Hnone.
    apply (hex_value_all_hex 0) in En as [v Hv]. congruence.
Qed.

(** ** Witnesses *)

Lemma parse_quantity_witness :
  parseBlockNumber (quantity (String.list_ascii_of_string "01A4fF")) = Ok 107775.
Proof. apply (parse_quantity (String.list_ascii_of_string "01A4fF") 107775). reflexivity. Defined.

Lemma parse_print_height_witness :
  parseBlockNumber (quantity (to_hex 19000000)) = Ok 19000000.
Proof. apply (parse_print_height 19000000). split; discriminate. Defined.

Lemma decimal_read_as_hex_witness :
  (exists v, parse_bytes (String.list_ascii_of_string "100") = Ok (wrap64 v) /\ 100 < v) /\
  head (String.list_ascii_of_string "-5") = Some "-"%char.
Proof.
  split.
  - destruct (decimal_read_as_hex (String.list_ascii_of_string "100")) as [H _].
    destruct (H 100 eq_refl) as (v & Hp & _ & Hv). exists v. split; [exact Hp|].
    apply Hv. discriminate.
  - destruct (decimal_read_as_hex (String.list_ascii_of_string "-5")) as [_ H].
    destruct (H (-5) eq_refl eq_refl) as [[=]|E]. exact E.
Defined.

End BlockNumber.
