(* ===== verification/Health.v ===== *)
(** * Health checks: [internal/chain/health.go]

    A round of checks asks every endpoint of the chain for its block height,
    each in a goroutine of its own; the results come back through a channel in
    some [arrival] order and the verdicts are given in the order in which Go
    visits the map of heights, [visit].  The round is modelled alone; what other
    goroutines do to an endpoint in between is the subject of [EP.life_step],
    whose events include the ones a round is made of. *)
From Stdlib Require Import ZArith Lia.
From S2P Require Import Prelude GoFloat Config CircuitBreaker Endpoint LoadBalancer Chain BlockNumber.

Module Health.

(** ** One endpoint *)
Section Check.
Context (marshal : EP.RPCRequest -> result string).
Context (unmarshal : string -> result EP.RPCResponse).

Definition request : EP.RPCRequest := EP.mkRPCRequest "2.0" "eth_blockNumber" [] (JInt 1).

(** The height an answer reports; its log lines are left out. *)
Definition reported (res : result EP.RPCResponse) : Z * bool :=
  match res with
  | Err _ => (0, false)
  | Ok resp =>
      match EP.RError resp with
      | Some _ => (0, false)
      | None =>
          match BlockNumber.parseBlockNumber (EP.Result resp) with
          | Err _ => (0, false)
          | Ok height => (height, true)
          end
      end
  end.

Definition checkEndpoint (r : EP.http_result) (e : EP.Endpoint) : EP.Endpoint * (Z * bool) :=
  let '(e', res) := EP.Call marshal unmarshal request r e in (e', reported res).

(** ** A round *)

(** The goroutines, in the order in which they send their results. *)
Fixpoint gather (outcome : loc -> EP.http_result) (arrival : list loc) (st : Store) :
    Store * list (loc * Z) :=
  match arrival with
  | [] => (st, [])
  | l :: arrival' =>
      let '(e', (height, _)) := checkEndpoint (outcome l) (st !!! l) in
      let '(st', rs) := gather outcome arrival' (<[l := e']> st) in
      (st', (l, height) :: rs)
  end.

(** The loop over the channel: the map of heights and their maximum. *)
Fixpoint collect (rs : list (loc * Z)) (heights : gmap nat Z) (maxHeight : Z) : gmap nat Z * Z :=
  match rs with
  | [] => (heights, maxHeight)
  | (l, h) :: rs' =>
      collect rs' (<[l := h]> heights) (if maxHeight <? h then h else maxHeight)
  end.

(** The body of the loop over the heights. *)
Definition verdict (maxHeight maxBlockLag height : Z) (e : EP.Endpoint) : EP.Endpoint :=
  if height =? 0 then EP.SetHealthy false e
  else
    let lag := sub64 maxHeight height in
    EP.SetBlockHeight height (EP.SetHealthy (negb (maxBlockLag <? lag)) e).

Fixpoint judge (heights : gmap nat Z) (maxHeight maxBlockLag : Z) (visit : list loc)
    (st : Store) : Store :=
  match visit with
  | [] => st
  | l :: visit' =>
      judge heights maxHeight maxBlockLag visit'
        match heights !! l with
        | Some height => Chain.modify l (verdict maxHeight maxBlockLag height) st
        | None => st
        end
  end.

Definition checkAll (outcome : loc -> EP.http_result) (arrival visit : list loc)
    (w : Chain.World) : Chain.World :=
  let '(st, c) := w in
  let '(st1, rs) := gather outcome arrival st in
  let '(heights, maxHeight) := collect rs ∅ 0 in
  (judge heights maxHeight (Chain.maxBlockLag (Chain.healthChecker c)) visit st1,
   Chain.UpdateHighestBlock maxHeight c).

(** ** What a round does, without its orders *)

Definition checked (outcome : loc -> EP.http_result) (st : Store) (l : loc) : EP.Endpoint :=
  (checkEndpoint (outcome l) (st !!! l)).1.

Definition height_of (outcome : loc -> EP.http_result) (st : Store) (l : loc) : Z :=
  (checkEndpoint (outcome l) (st !!! l)).2.1.

(** The highest block any endpoint reported, at least 0. *)
Definition highest (outcome : loc -> EP.http_result) (st : Store) (eps : list loc) : Z :=
  foldr Z.max 0 (height_of outcome st <$> eps).

(** ** Lemmas *)

Lemma gather_spec outcome arrival st st' rs :
  NoDup arrival -> gather outcome arrival st = (st', rs) ->
  rs = (fun l => (l, height_of outcome st l)) <$> arrival /\
  (forall l, st' !! l = if decide (l ∈ arrival) then Some (checked outcome st l) else st !! l).
Proof.
  intros Hnd. revert st st' rs.
  induction Hnd as [|l arrival Hl Hnd IH]; intros st st' rs Hg; simpl in Hg.
  { simplify_eq. split; [done|]. intros l. by rewrite decide_False by apply not_elem_of_nil. }
  destruct (checkEndpoint (outcome l) (st !!! l)) as [e' [height ok]] eqn:Ec.
  destruct (gather _ _ _) as [st1 rs1] eqn:Eg. simplify_eq.
  destruct (IH _ _ _ Eg) as [-> Hst].
  assert (forall k, k ∈ arrival -> (<[l:=e']> st : Store) !!! k = st !!! k) as Hsame.
  { intros k Hk. rewrite lookup_total_insert_ne; [done|]. by intros ->. }
  split.
  - simpl. unfold height_of at 2. rewrite Ec. simpl. f_equal.
    apply list_fmap_ext. intros i k Hk. apply list_elem_of_lookup_2 in Hk.
    unfold height_of. by rewrite Hsame.
  - intros k. rewrite Hst. destruct (decide (k ∈ arrival)) as [Hk|Hk].
    + rewrite decide_True by (by apply elem_of_cons; right). unfold checked. by rewrite Hsame.
    + destruct (decide (k = l)) as [->|Hne].
      * rewrite decide_True by apply list_elem_of_here. rewrite lookup_insert_eq.
        unfold checked. by rewrite Ec.
      * rewrite decide_False by (by intros [?|?]%elem_of_cons). by rewrite lookup_insert_ne.
Qed.

Lemma collect_spec (f : loc -> Z) ls heights m :
  collect ((fun l => (l, f l)) <$> ls) heights m =
    (foldl (fun hs l => <[l := f l]> hs) heights ls, foldl Z.max m (f <$> ls)).
Proof.
  revert heights m. induction ls as [|l ls IH]; intros heights m; simpl; [done|].
  rewrite IH. do 2 f_equal. destruct (Z.ltb_spec m (f l)); lia.
Qed.

Lemma foldl_heights (f : loc -> Z) ls heights l :
  foldl (fun hs l => <[l := f l]> hs) heights ls !! l =
    if decide (l ∈ ls) then Some (f l) else (heights : gmap nat Z) !! l.
Proof.
  revert heights. induction ls as [|k ls IH]; intros heights; simpl; [done|].
  rewrite IH. destruct (decide (l ∈ ls)) as [Hl|Hl].
  - by rewrite decide_True by (by apply elem_of_cons; right).
  - destruct (decide (l = k)) as [->|Hne].
    + rewrite decide_True by apply list_elem_of_here. by rewrite lookup_insert_eq.
    + rewrite decide_False by (by intros [?|?]%elem_of_cons). by rewrite lookup_insert_ne.
Qed.

Lemma foldl_max_foldr m hs : foldl Z.max m hs = Z.max m (foldr Z.max 0 hs) \/ m < 0.
Proof.
  revert m. induction hs as [|h hs IH]; intros m; simpl; [lia|].
  destruct (IH (Z.max m h)); lia.
Qed.

Lemma foldr_max_perm hs hs' : hs ≡ₚ hs' -> foldr Z.max 0 hs = foldr Z.max 0 hs'.
Proof. induction 1; simpl; lia. Qed.

Lemma foldr_max_ge hs h : h ∈ hs -> h <= foldr Z.max 0 hs.
Proof. induction 1; simpl; lia. Qed.

Lemma foldr_max_nonneg hs : 0 <= foldr Z.max 0 hs.
Proof. induction hs; simpl; lia. Qed.

Lemma foldr_max_in hs : foldr Z.max 0 hs = 0 \/ foldr Z.max 0 hs ∈ hs.
Proof.
  induction hs as [|h hs IH]; simpl; [by left|].
  destruct (Z.max_spec h (foldr Z.max 0 hs)) as [[_ ->]|[_ ->]].
  - destruct IH as [->|IH]; [by left|right; by apply elem_of_cons; right].
  - right. apply list_elem_of_here.
Qed.

Lemma judge_spec heights m lag visit st l :
  NoDup visit ->
  judge heights m lag visit st !! l =
    if decide (l ∈ visit) then
      match heights !! l with
      | Some h => Some (verdict m lag h (st !!! l))
      | None => st !! l
      end
    else st !! l.
Proof.
  intros Hnd. revert st. induction Hnd as [|k visit Hk Hnd IH]; intros st; simpl; [done|].
  rewrite IH. destruct (decide (l = k)) as [->|Hne].
  - rewrite decide_False by done. rewrite decide_True by apply list_elem_of_here.
    destruct (heights !! k); [|done]. unfold Chain.modify. by rewrite lookup_insert_eq.
  - assert (forall o : option Z, match o with
        | Some h => Chain.modify k (verdict m lag h) st | None => st end !! l = st !! l) as Hsame.
    { intros [h|]; [|done]. unfold Chain.modify. by rewrite lookup_insert_ne. }
    rewrite !lookup_total_alt, !Hsame. destruct (decide (l ∈ visit)) as [Hl|Hl].
    + by rewrite decide_True by (by apply elem_of_cons; right).
    + by rewrite decide_False by (by intros [?|?]%elem_of_cons).
Qed.

(** A round in any order. *)
Lemma checkAll_ideal outcome arrival visit st c st' c' :
  NoDup (Chain.endpoints c) -> arrival ≡ₚ Chain.endpoints c -> visit ≡ₚ Chain.endpoints c ->
  checkAll outcome arrival visit (st, c) = (st', c') ->
  c' = Chain.UpdateHighestBlock (highest outcome st (Chain.endpoints c)) c /\
  (forall l, st' !! l =
     if decide (l ∈ Chain.endpoints c) then
       Some (verdict (highest outcome st (Chain.endpoints c))
               (Chain.maxBlockLag (Chain.healthChecker c)) (height_of outcome st l)
               (checked outcome st l))
     else st !! l).
Proof.
  intros Hnd Ha Hv. unfold checkAll.
  destruct (gather outcome arrival st) as [st1 rs] eqn:Eg.
  assert (NoDup arrival) as Hnda by (by rewrite Ha).
  destruct (gather_spec _ _ _ _ _ Hnda Eg) as [-> Hst1]. rewrite collect_spec.
  assert (foldl Z.max 0 (height_of outcome st <$> arrival) =
    highest outcome st (Chain.endpoints c)) as ->.
  { destruct (foldl_max_foldr 0 (height_of outcome st <$> arrival)) as [->|]; [|lia].
    unfold highest. rewrite (foldr_max_perm _ (height_of outcome st <$> Chain.endpoints c))
      by (by rewrite Ha).
    pose proof (foldr_max_nonneg (height_of outcome st <$> Chain.endpoints c)). lia. }
  intros [= <- <-]. split; [done|]. intros l.
  rewrite judge_spec by (by rewrite Hv). rewrite foldl_heights.
  destruct (decide (l ∈ Chain.endpoints c)) as [Hl|Hl].
  - rewrite decide_True by (by rewrite Hv). rewrite decide_True by (by rewrite Ha).
    rewrite lookup_total_alt, Hst1, decide_True by (by rewrite Ha). done.
  - rewrite decide_False by (by rewrite Hv). by rewrite Hst1, decide_False by (by rewrite Ha).
Qed.

Lemma verdict_healthy m lag h e :
  EP.healthy (verdict m lag h e) = negb (h =? 0) && negb (lag <? sub64 m h).
Proof. unfold verdict. by destruct (h =? 0). Qed.

Lemma highest_ge outcome st eps l : l ∈ eps -> height_of outcome st l <= highest outcome st eps.
Proof. intros Hl. apply foldr_max_ge, list_elem_of_fmap. by exists l. Qed.

End Check.

(** ** The checking loop *)

(** A health checker as [Start], [Stop] and [run] see it: the goroutines that
    have been started and have not begun their first round, those in the
    [select] loop, the wait group, and the rounds made so far.  A panic in a
    goroutine ends the program. *)
Record Loop := mkLoop {
  interval : Duration;
  cancelled : bool;
  crashed : bool;
  starting : Z;
  looping : Z;
  wg : Z;
  rounds : Z
}.

Inductive event : Type :=
| EvStart          (** [Start] *)
| EvFirstRound     (** [run]: the first [checkAll], then [time.NewTicker] *)
| EvTick           (** [run]: the ticker's case of the select *)
| EvExit           (** [run]: the context's case of the select *)
| EvCancel         (** [Stop]: [h.cancel()] *)
| EvStopped.       (** [Stop]: [h.wg.Wait()] returns *)

#[export] Instance event_eq_dec : EqDecision event.
Proof. solve_decision. Defined.

Definition new_loop (c : Cfg.HealthCheckConfig) : Loop :=
  mkLoop (Cfg.Interval c) false false 0 0 0 0.

(** [None] when the event cannot happen.  Both cases of the select may be
    ready at once, and Go then picks either. *)
Definition next (s : Loop) (e : event) : option Loop :=
  let '(mkLoop i ca cr st lo w ro) := s in
  if cr then None
  else match e with
  | EvStart => Some (mkLoop i ca false (st + 1) lo (w + 1) ro)
  | EvFirstRound =>
      if 0 <? st then
        if 0 <? i then Some (mkLoop i ca false (st - 1) (lo + 1) w (ro + 1))
        else Some (mkLoop i ca true (st - 1) lo w (ro + 1))
      else None
  | EvTick => if 0 <? lo then Some (mkLoop i ca false st lo w (ro + 1)) else None
  | EvExit => if (0 <? lo) && ca then Some (mkLoop i ca false st (lo - 1) (w - 1) ro) else None
  | EvCancel => Some (mkLoop i true false st lo w ro)
  | EvStopped => if ca && (w =? 0) then Some s else None
  end.

Definition loop_step (s : Loop) (e : event) (s' : Loop) : Prop := next s e = Some s'.

(** The wait group counts the goroutines that are alive. *)
Definition loop_inv (s : Loop) : Prop :=
  0 <= starting s /\ 0 <= looping s /\ (crashed s = false -> wg s = starting s + looping s).

Lemma loop_inv_step s e s' : loop_inv s -> loop_step s e s' -> loop_inv s'.
Proof.
  intros (H1 & H2 & H3) Hs. unfold loop_step, next in Hs. destruct s as [i ca cr st lo w ro].
  simpl in *. destruct cr; [done|]. specialize (H3 eq_refl).
  destruct e; simplify_eq/=; case_tests; unfold loop_inv; simpl; split_and!; intros; lia || done.
Qed.

Lemma quiet_step s e s' :
  loop_inv s -> crashed s = false -> wg s = 0 -> e <> EvStart -> loop_step s e s' ->
  crashed s' = false /\ wg s' = 0 /\ rounds s' = rounds s.
Proof.
  intros (H1 & H2 & H3) Hc Hw He Hs. specialize (H3 Hc).
  unfold loop_step, next in Hs. destruct s as [i ca cr st lo w ro]. simpl in *. subst.
  destruct e; simplify_eq/=; case_tests; simpl; try done; try lia.
Qed.

(** Once the wait group is empty, no goroutine of the checker comes back. *)
Lemma quiet_steps s es s' :
  steps loop_step s es s' -> loop_inv s -> crashed s = false -> wg s = 0 -> EvStart ∉ es ->
  crashed s' = false /\ wg s' = 0.
Proof.
  induction 1 as [s|s e s1 es s2 H1 H2 IH]; intros Hi Hc Hw Hno; [done|].
  apply not_elem_of_cons in Hno as [He Hno].
  destruct (quiet_step _ _ _ Hi Hc Hw (not_eq_sym He) H1) as (Hc1 & Hw1 & _).
  eauto using loop_inv_step.
Qed.

Lemma stopped_inv s s1 : loop_step s EvStopped s1 -> s1 = s /\ crashed s = false /\ wg s = 0.
Proof.
  intros H. unfold loop_step, next in H. destruct s as [i ca cr st lo w ro]. simpl.
  destruct cr; [done|]. destruct ca; [|done]. destruct (Z.eqb_spec w 0); by simplify_eq/=.
Qed.

(** After a [Stop] that has returned, without a later [Start]. *)
Lemma stopped_steps s es s' :
  steps loop_step s es s' -> loop_inv s -> EvStart ∉ es -> EvStopped ∈ es ->
  crashed s' = false /\ wg s' = 0.
Proof.
  induction 1 as [s|s e s1 es s2 H1 H2 IH]; intros Hi Hno Hin; [by apply elem_of_nil in Hin|].
  apply not_elem_of_cons in Hno as [He Hno]. apply elem_of_cons in Hin as [<-|Hin].
  - apply stopped_inv in H1 as (-> & Hc & Hw). by eapply quiet_steps.
  - eauto using loop_inv_step.
Qed.

(** ** Properties *)
Section Properties.
Context (marshal : EP.RPCRequest -> result string).
Context (unmarshal : string -> result EP.RPCResponse).
Abbreviation highest := (highest marshal unmarshal).
Abbreviation height_of := (height_of marshal unmarshal).
Abbreviation checked := (checked marshal unmarshal).
Abbreviation checkAll := (checkAll marshal unmarshal).

Lemma height_in_range outcome st l : in_int64 (height_of outcome st l).
Proof.
  unfold Health.height_of, checkEndpoint. destruct (EP.Call _ _ _ _ _) as [e' res]. simpl.
  unfold reported. destruct res as [resp|]; [|done].
  destruct (EP.RError resp); [done|].
  destruct (BlockNumber.parseBlockNumber (EP.Result resp)) eqn:E; [|done].
  by eapply BlockNumber.parse_in_range.
Qed.

Lemma highest_range outcome st eps : 0 <= highest outcome st eps <= int64_max.
Proof.
  unfold Health.highest. split; [apply foldr_max_nonneg|].
  destruct (foldr_max_in (height_of outcome st <$> eps)) as [->|Hin]; [done|].
  apply list_elem_of_fmap in Hin as (l & -> & _). apply height_in_range.
Qed.

(** C4.  A round of health checks does the same whatever the order in which
    the answers arrive and the order in which Go visits the map of heights: the
    chain's highest block is the maximum of the reported heights, every endpoint
    of the chain gets the verdict on its own height against that maximum, and
    no other endpoint changes. *)
Theorem check_round_verdicts outcome arrival visit st c st' c' :
  NoDup (Chain.endpoints c) -> arrival ≡ₚ Chain.endpoints c -> visit ≡ₚ Chain.endpoints c ->
  checkAll outcome arrival visit (st, c) = (st', c') ->
  c' = Chain.UpdateHighestBlock (highest outcome st (Chain.endpoints c)) c /\
  (forall l, st' !! l =
     if decide (l ∈ Chain.endpoints c) then
       Some (verdict (highest outcome st (Chain.endpoints c))
               (Chain.maxBlockLag (Chain.healthChecker c)) (height_of outcome st l)
               (checked outcome st l))
     else st !! l).
Proof. apply checkAll_ideal. Qed.

(** C11.  Honest heights are judged by their lag: when no endpoint reports a
    negative height, an endpoint is healthy after a round exactly when it
    reported a positive height at most [MaxBlockLag] behind the highest; so an
    endpoint that reports block 0 is unhealthy, and when any endpoint reported
    a positive height and the lag allowed is not negative, some endpoint at the
    highest block stays healthy. *)
Theorem lag_decides_health outcome arrival visit st c st' c' :
  NoDup (Chain.endpoints c) -> arrival ≡ₚ Chain.endpoints c -> visit ≡ₚ Chain.endpoints c ->
  (forall l, l ∈ Chain.endpoints c -> 0 <= height_of outcome st l) ->
  checkAll outcome arrival visit (st, c) = (st', c') ->
  (forall l, l ∈ Chain.endpoints c ->
     Chain.up st' l = true <->
     0 < height_of outcome st l /\
     Chain.highestBlock c' - height_of outcome st l <= Chain.maxBlockLag (Chain.healthChecker c)) /\
  (0 < Chain.highestBlock c' -> 0 <= Chain.maxBlockLag (Chain.healthChecker c) ->
     exists l, l ∈ Chain.endpoints c /\ Chain.up st' l = true /\
       EP.blockHeight (st' !!! l) = Chain.highestBlock c').
Proof.
  intros Hnd Ha Hv Hpos Hc.
  destruct (checkAll_ideal _ _ _ _ _ _ _ _ _ Hnd Ha Hv Hc) as [-> Hst]. simpl.
  set (top := highest outcome st (Chain.endpoints c)) in *.
  pose proof (highest_range outcome st (Chain.endpoints c)) as Hr. fold top in Hr.
  assert (forall l, l ∈ Chain.endpoints c ->
    Chain.up st' l = true <-> 0 < height_of outcome st l /\
      top - height_of outcome st l <= Chain.maxBlockLag (Chain.healthChecker c)) as Hup.
  { intros l Hl. specialize (Hpos l Hl).
    pose proof (highest_ge marshal unmarshal outcome st _ l Hl) as Hge. fold top in Hge.
    unfold Chain.up. rewrite lookup_total_alt, Hst, decide_True by done. simpl.
    rewrite verdict_healthy. unfold sub64.
    rewrite wrap64_id by (unfold in_int64, int64_min, int64_max in *; lia).
    rewrite andb_true_iff, !negb_true_iff, Z.eqb_neq, Z.ltb_ge. lia. }
  split; [done|]. intros Htop Hlag.
  destruct (foldr_max_in (height_of outcome st <$> Chain.endpoints c)) as [H0|Hin];
    [exfalso; unfold top, Health.highest in Htop; lia|].
  apply list_elem_of_fmap in Hin as (l & Hl & Hin). fold (highest outcome st (Chain.endpoints c)) in Hl.
  change (foldr Z.max 0 _) with top in Hl. exists l. split_and!; [done|apply Hup; [done|lia]|].
  rewrite lookup_total_alt, Hst, decide_True by done. simpl. unfold verdict.
  rewrite (proj2 (Z.eqb_neq _ _)) by lia. simpl. lia.
Qed.

(** C40.  A height with the top bit set defeats the check: when an endpoint's
    reported height is so negative that its lag does not fit the word, the lag
    wraps around, and the endpoint is judged healthy whatever lag is
    allowed. *)
Theorem overflowing_height_healthy outcome arrival visit st c st' c' l :
  NoDup (Chain.endpoints c) -> arrival ≡ₚ Chain.endpoints c -> visit ≡ₚ Chain.endpoints c ->
  checkAll outcome arrival visit (st, c) = (st', c') ->
  l ∈ Chain.endpoints c -> 0 <= Chain.maxBlockLag (Chain.healthChecker c) ->
  int64_max < Chain.highestBlock c' - height_of outcome st l ->
  Chain.up st' l = true /\ EP.blockHeight (st' !!! l) = height_of outcome st l /\
  height_of outcome st l < 0.
Proof.
  intros Hnd Ha Hv Hc Hl Hlag Hover.
  destruct (checkAll_ideal _ _ _ _ _ _ _ _ _ Hnd Ha Hv Hc) as [-> Hst]. simpl in Hover.
  pose proof (highest_range outcome st (Chain.endpoints c)) as Hr.
  pose proof (height_in_range outcome st l) as Hh.
  unfold in_int64, int64_min, int64_max in *.
  unfold Chain.up. rewrite lookup_total_alt, Hst, decide_True by done. simpl.
  rewrite verdict_healthy. unfold verdict, sub64, wrap64.
  set (top := highest outcome st (Chain.endpoints c)) in *.
  set (h := height_of outcome st l) in *.
  rewrite (proj2 (Z.eqb_neq h 0)) by lia. split_and!; [|done|lia]. simpl.
  replace (top - h + 2 ^ 63) with (top - h - 2 ^ 63 + 1 * 2 ^ 64) by lia.
  rewrite Z_mod_plus_full, Z.mod_small by lia. apply negb_true_iff, Z.ltb_ge. lia.
Qed.
End Properties.

(** The interval decides: a health checker whose configured interval is
    not positive (it has no default) takes the whole program down after its
    first round of checks, and one with a positive interval never does. *)
Theorem interval_crash c ls s :
  steps loop_step (new_loop c) ls s ->
  crashed s = true <-> Cfg.Interval c <= 0 /\ EvFirstRound ∈ ls.
Proof.
  intros Hs. assert (forall s0, steps loop_step s0 ls s ->
    crashed s = true <-> crashed s0 = true \/ (interval s0 <= 0 /\ EvFirstRound ∈ ls)) as H.
  { clear Hs. induction 1 as [s0|s0 e s1 ls s2 H1 _ IH].
    { rewrite elem_of_nil. tauto. }
    rewrite IH, elem_of_cons. unfold loop_step, next in H1.
    destruct s0 as [i ca cr st lo w ro], cr; [done|].
    destruct e; simplify_eq/=; case_tests; simpl; intuition (congruence || lia). }
  rewrite (H _ Hs). simpl. intuition congruence.
Qed.

(** C32.  [Stop] stops: once it has returned, and unless [Start] is called
    again, no further round of checks begins. *)
Theorem stop_quiesces c ls s s1 ls' s' :
  steps loop_step (new_loop c) ls s -> loop_step s EvStopped s1 ->
  steps loop_step s1 ls' s' -> EvStart ∉ ls' ->
  rounds s' = rounds s /\ (EvFirstRound ∉ ls') /\ (EvTick ∉ ls').
Proof.
  intros Hs Hstop Hs' Hno.
  assert (loop_inv s) as Hi.
  { eapply (steps_invariant loop_step loop_inv); eauto using loop_inv_step.
    by unfold loop_inv. }
  apply stopped_inv in Hstop as (-> & Hc & Hw). clear Hs. induction Hs' as [s|s e s1 ls' s2 H1 H2 IH].
  { split_and!; [done|apply not_elem_of_nil..]. }
  apply not_elem_of_cons in Hno as [He Hno].
  destruct (quiet_step _ _ _ Hi Hc Hw (not_eq_sym He) H1) as (Hc1 & Hw1 & Hr1).
  destruct IH as (Hr2 & Hf & Ht); eauto using loop_inv_step.
  assert (e <> EvFirstRound /\ e <> EvTick) as [? ?].
  { destruct Hi as (Ha & Hb & Hd). specialize (Hd Hc).
    unfold loop_step, next in H1. destruct s as [i ca cr st lo w ro]. simpl in *. subst.
    split; intros ->; case_tests; lia. }
  rewrite !not_elem_of_cons. split_and!; congruence || done.
Qed.

(** ** Witnesses *)

Definition sample_marshal (_ : EP.RPCRequest) : result string := Ok "{}"%string.

(** Bodies that are the result itself. *)
Definition sample_unmarshal (body : string) : result EP.RPCResponse :=
  Ok (EP.mkRPCResponse "2.0" body None (JInt 1)).

Definition sample_store : Store :=
  {[0%nat := EP.NewEndpoint "https://eth.llamarpc.com" 10 (5 * Second);
    1%nat := EP.NewEndpoint "https://rpc.ankr.com/eth" 5 (5 * Second)]}.

Definition sample_chain : Chain.Chain :=
  Chain.mkChain "ethereum" 1 [0; 1]%nat (LB.mkLB [0; 1]%nat [10; 5] 0)
    (Chain.NewHealthChecker (Cfg.mkHealthCheck (10 * Second) (5 * Second) 10)) 0.

(** The second endpoint reports the digits [ds]. *)
Definition sample_outcome (ds : string) (l : loc) : EP.http_result :=
  EP.Responded 200 (BlockNumber.quantity (String.list_ascii_of_string
    (if decide (l = 0%nat) then "1312d00" else ds))) Millisecond.

Definition sample_round (ds : string) : Chain.World :=
  checkAll sample_marshal sample_unmarshal (sample_outcome ds) [1; 0]%nat [0; 1]%nat
    (sample_store, sample_chain).

Lemma sample_arrival : [1; 0]%nat ≡ₚ Chain.endpoints sample_chain.
Proof. apply Permutation_swap. Qed.

Lemma sample_nodup : NoDup (Chain.endpoints sample_chain).
Proof. apply (bool_decide_eq_true_1 _). reflexivity. Qed.

Lemma check_round_verdicts_witness :
  Chain.highestBlock (sample_round "1312cf0").2 =
    highest sample_marshal sample_unmarshal (sample_outcome "1312cf0") sample_store [0; 1]%nat.
Proof.
  destruct (sample_round "1312cf0") as [st' c'] eqn:E.
  destruct (check_round_verdicts sample_marshal sample_unmarshal (sample_outcome "1312cf0")
    [1; 0]%nat [0; 1]%nat sample_store sample_chain st' c'
    sample_nodup sample_arrival (Permutation_refl _) E) as [-> _]. reflexivity.
Defined.

(** Sixteen blocks behind, with a lag of ten allowed. *)
Lemma lag_decides_health_witness :
  Chain.up (sample_round "1312cf0").1 0%nat = true /\
  Chain.up (sample_round "1312cf0").1 1%nat = false.
Proof.
  destruct (sample_round "1312cf0") as [st' c'] eqn:E.
  destruct (lag_decides_health sample_marshal sample_unmarshal (sample_outcome "1312cf0")
    [1; 0]%nat [0; 1]%nat sample_store sample_chain st' c'
    sample_nodup sample_arrival (Permutation_refl _)) as [H _]; [|exact E|].
  - by intros l [->|[->|[]%not_elem_of_nil]%elem_of_cons]%elem_of_cons; vm_compute.
  - assert (Chain.highestBlock c' = 20000000) as Hc
      by (change c' with (st', c').2; rewrite <- E; vm_compute; reflexivity).
    split.
    + apply H; [by left|]. rewrite Hc. vm_compute. split; [reflexivity|discriminate].
    + apply not_true_is_false. intros Hup. apply H in Hup; [|right; by left].
      rewrite Hc in Hup. vm_compute in Hup. destruct Hup as [_ Hup]. by apply Hup.
Defined.

Lemma overflowing_height_healthy_witness :
  Chain.up (sample_round "8000000000000000").1 1%nat = true.
Proof.
  destruct (sample_round "8000000000000000") as [st' c'] eqn:E.
  apply (overflowing_height_healthy sample_marshal sample_unmarshal
    (sample_outcome "8000000000000000") [1; 0]%nat [0; 1]%nat sample_store sample_chain st' c');
    [exact sample_nodup|exact sample_arrival|apply Permutation_refl|exact E|right; by left
    |discriminate|].
  change c' with (st', c').2. rewrite <- E. vm_compute. reflexivity.
Defined.

Definition no_interval : Cfg.HealthCheckConfig := Cfg.mkHealthCheck 0 (5 * Second) 10.

Lemma interval_crash_witness :
  crashed (mkLoop 0 false true 0 0 1 1) = true.
Proof.
  apply (interval_crash no_interval [EvStart; EvFirstRound]); [|split; [discriminate|set_solver]].
  eapply steps_cons; [reflexivity|]. eapply steps_cons; [reflexivity|]. apply steps_nil.
Defined.

Lemma stop_quiesces_witness :
  rounds (mkLoop 10 true false 0 0 0 2) = 2.
Proof.
  apply (stop_quiesces (Cfg.mkHealthCheck 10 5 10)
    [EvStart; EvFirstRound; EvCancel; EvTick; EvExit] (mkLoop 10 true false 0 0 0 2)
    (mkLoop 10 true false 0 0 0 2) [EvCancel]);
    [|reflexivity|eapply steps_cons; [reflexivity|apply steps_nil]|set_solver].
  do 5 (eapply steps_cons; [reflexivity|]). apply steps_nil.
Defined.

End Health.
