(* ===== verification/FloatLaws.v ===== *)
(** * Laws of [float64] arithmetic on non-negative numbers

    The rate limiters compute with non-negative [float64]s.  Their proofs need
    no error analysis, only that rounding never crosses a representable number:
    when the exact result of an operation is at most (at least) some
    representable number, then so is the rounded one.  [Rounds X D r] says this
    of the exact result [X / D] and the rounded [r]; the laws below give it for
    every operation of the [SpecFloat] arithmetic.  Values are integers, in
    units of 2^-3000, small enough for all intermediate results. *)
From Stdlib Require Import ZArith Lia SpecFloat.
From S2P Require Import Prelude GoFloat.

Module FloatLaws.

#[local] Abbreviation prec := 53.
#[local] Abbreviation emax := 1024.
#[local] Abbreviation emin := (-1074).
#[local] Abbreviation fexp := (SpecFloat.fexp 53 1024).

(** The value of the last place of a mantissa with exponent [e]. *)
Definition U (e : Z) : Z := 2 ^ (e + 3000).

Lemma U_pos e : -3000 <= e -> 0 < U e.
Proof. intros H. unfold U. apply Z.pow_pos_nonneg; lia. Qed.

Lemma U_add e k : -3000 <= e -> 0 <= k -> U (e + k) = 2 ^ k * U e.
Proof. intros He Hk. unfold U. rewrite <- Z.pow_add_r by lia. f_equal. lia. Qed.

Lemma U_mono e e' : -3000 <= e <= e' -> U e' = 2 ^ (e' - e) * U e.
Proof. intros H. rewrite <- U_add by lia. f_equal. lia. Qed.

#[global] Opaque U.

(** ** Values *)

(** The numbers in play: zero and the finite positive numbers in canonical
    form. *)
Definition good (x : F64.t) : Prop :=
  match x with
  | S754_zero _ => True
  | S754_finite false m e => bounded prec emax m e = true
  | _ => False
  end.

Definition val (x : F64.t) : Z :=
  match x with
  | S754_finite false m e => Zpos m * U e
  | _ => 0
  end.

Definition infinite (x : F64.t) : Prop := x = S754_infinity false.

(** The values that a [float64] can have. *)
Definition repr (Y : Z) : Prop :=
  exists m e, Y = m * U e /\ 0 <= m < 2 ^ 53 /\ emin <= e <= 971.

Definition Rounds (X D : Z) (r : F64.t) : Prop :=
  (good r \/ infinite r) /\
  (forall Y, repr Y -> X <= Y * D -> good r /\ val r <= Y) /\
  (forall Y, repr Y -> Y * D <= X -> good r -> Y <= val r).

Lemma fexp_unfold e : fexp e = Z.max (e - 53) emin.
Proof. done. Qed.

Lemma digits_pos p : 2 ^ (Zpos (digits2_pos p) - 1) <= Zpos p < 2 ^ Zpos (digits2_pos p).
Proof.
  induction p as [p IH|p IH|]; cbn [digits2_pos]; [..|done];
    rewrite Pos2Z.inj_succ, Z.sub_1_r, Z.pred_succ, Z.pow_succ_r by lia;
    replace (Zpos (digits2_pos p)) with (1 + (Zpos (digits2_pos p) - 1)) in * by lia;
    rewrite Z.add_simpl_l in IH; rewrite Z.pow_add_r in * by lia; lia.
Qed.

Lemma digits_below m k : 0 <= m < 2 ^ k -> Zdigits2 m <= k \/ m = 0.
Proof.
  intros H. destruct m as [|p|p]; [by right| |lia]. left. simpl.
  pose proof (digits_pos p). destruct (Z.le_gt_cases (Zpos (digits2_pos p)) k); [done|].
  assert (2 ^ k <= 2 ^ (Zpos (digits2_pos p) - 1)) by (apply Z.pow_le_mono_r; lia). lia.
Qed.

Lemma digits_eq p k : 0 < k -> 2 ^ (k - 1) <= Zpos p < 2 ^ k -> Zpos (digits2_pos p) = k.
Proof.
  intros Hk H. pose proof (digits_pos p) as Hd.
  destruct (Z.lt_trichotomy (Zpos (digits2_pos p)) k) as [Hlt|[->|Hlt]]; [|done|].
  - assert (2 ^ Zpos (digits2_pos p) <= 2 ^ (k - 1)) by (apply Z.pow_le_mono_r; lia). lia.
  - assert (2 ^ k <= 2 ^ (Zpos (digits2_pos p) - 1)) by (apply Z.pow_le_mono_r; lia). lia.
Qed.

Lemma digits_nonneg m : 0 <= Zdigits2 m.
Proof. by destruct m. Qed.

(** A canonical mantissa has 53 digits, or fewer at the least exponent. *)
Lemma bounded_spec m e :
  bounded prec emax m e = true ->
  Zpos m < 2 ^ 53 /\ emin <= e <= 971 /\ (emin < e -> 2 ^ 52 <= Zpos m).
Proof.
  unfold bounded, canonical_mantissa. rewrite andb_true_iff, Z.eqb_eq, Z.leb_le, fexp_unfold.
  intros [Hc He]. pose proof (digits_pos m) as [Hd1 Hd2]. split_and!; try lia.
  - eapply Z.lt_le_trans; [exact Hd2|]. apply Z.pow_le_mono_r; lia.
  - intros H. etransitivity; [|exact Hd1]. apply Z.pow_le_mono_r; lia.
Qed.

Lemma bounded_intro m e :
  Zpos m < 2 ^ 53 -> emin <= e <= 971 -> (emin < e -> 2 ^ 52 <= Zpos m) ->
  bounded prec emax m e = true.
Proof.
  intros Hm He Hn. unfold bounded, canonical_mantissa.
  rewrite andb_true_iff, Z.eqb_eq, Z.leb_le, fexp_unfold. split; [|lia].
  destruct (digits_below (Zpos m) 53) as [Hd|?]; [lia| |done]. simpl in Hd.
  destruct (Z.eq_dec e emin); [lia|].
  rewrite (digits_eq m 53) by (change (2 ^ (53 - 1)) with (2 ^ 52); lia). lia.
Qed.

Lemma good_repr x : good x -> repr (val x).
Proof.
  destruct x as [s|s| |[] m e]; simpl; try done.
  - intros _. exists 0, 0. lia.
  - intros (? & ? & _)%bounded_spec. exists (Zpos m), e. split_and!; lia.
Qed.

Lemma val_nonneg x : good x -> 0 <= val x.
Proof.
  destruct x as [s|s| |[] m e]; simpl; try done. intros (? & ? & _)%bounded_spec.
  pose proof (U_pos e ltac:(lia)). lia.
Qed.

Lemma repr_int z : 0 <= z < 2 ^ 53 -> repr (z * U 0).
Proof. intros H. by exists z, 0. Qed.

(** ** Rounding *)

(** A shift record [mrs] at exponent [e] encloses the exact value [X / D]: it
    lies in the interval of the mantissa, at its lower end exactly when no bit
    was lost. *)
Definition encloses (X D : Z) (mrs : shr_record) (e : Z) : Prop :=
  0 <= shr_m mrs /\ shr_m mrs * (U e * D) <= X < (shr_m mrs + 1) * (U e * D) /\
  (if shr_r mrs || shr_s mrs then shr_m mrs * (U e * D) < X else X = shr_m mrs * (U e * D)).

Lemma shr_1_encloses X D mrs e :
  0 < D -> -3000 <= e -> encloses X D mrs e ->
  encloses X D (shr_1 mrs) (e + 1) /\ shr_m (shr_1 mrs) = shr_m mrs / 2.
Proof.
  intros HD He (H0 & HX & Hex). unfold encloses.
  rewrite U_add by lia. change (2 ^ 1) with 2. pose proof (U_pos e He) as HU.
  assert (0 < U e * D) as HV by lia.
  replace (2 * U e * D) with (2 * (U e * D)) by ring. set (V := U e * D) in *.
  destruct mrs as [m r s]. simpl in *.
  destruct m as [|[p|p|]|p]; simpl in *; [| | | |lia]; split;
    try done; try (apply (Z.div_unique _ 2 _ 1); lia); try (apply (Z.div_unique _ 2 _ 0); lia);
    split_and!; try lia; destruct (r || s); lia.
Qed.

Lemma iter_shr_encloses X D n mrs e :
  0 < D -> -3000 <= e -> encloses X D mrs e ->
  encloses X D (SpecFloat.iter_pos shr_1 n mrs) (e + Zpos n) /\
  shr_m (SpecFloat.iter_pos shr_1 n mrs) = shr_m mrs / 2 ^ Zpos n.
Proof.
  intros HD. revert mrs e. induction n as [n IH|n IH|]; intros mrs e He Henc; simpl.
  - destruct (shr_1_encloses X D mrs e HD He Henc) as [H1 M1].
    destruct (IH (shr_1 mrs) (e + 1)) as [H2 M2]; [lia|done|].
    destruct (IH _ (e + 1 + Zpos n) ltac:(lia) H2) as [H3 M3].
    replace (e + Z.pos n~1) with (e + 1 + Zpos n + Zpos n) by lia. split; [done|].
    rewrite M3, M2, M1, !Z.div_div by (lia || apply Z.pow_pos_nonneg; lia).
    replace (Z.pos n~1) with (1 + Zpos n + Zpos n) by lia.
    rewrite !Z.pow_add_r by lia. f_equal. ring.
  - destruct (IH mrs e He Henc) as [H2 M2].
    destruct (IH _ (e + Zpos n) ltac:(lia) H2) as [H3 M3].
    replace (e + Z.pos n~0) with (e + Zpos n + Zpos n) by lia. split; [done|].
    rewrite M3, M2, !Z.div_div by (lia || apply Z.pow_pos_nonneg; lia).
    replace (Z.pos n~0) with (Zpos n + Zpos n) by lia. by rewrite Z.pow_add_r by lia.
  - by apply shr_1_encloses.
Qed.

Lemma shr_fexp_encloses X D m e l :
  0 < D -> 0 <= m -> -3000 <= e -> e <= fexp (Zdigits2 m + e) ->
  encloses X D (shr_record_of_loc m l) e ->
  exists mrs, shr_fexp prec emax m e l = (mrs, fexp (Zdigits2 m + e)) /\
    encloses X D mrs (fexp (Zdigits2 m + e)) /\
    shr_m mrs < 2 ^ 53 /\ (emin < fexp (Zdigits2 m + e) -> 2 ^ 52 <= shr_m mrs).
Proof.
  intros HD Hm He HF Henc. unfold shr_fexp, shr. set (F := fexp (Zdigits2 m + e)) in *.
  assert (shr_m (shr_record_of_loc m l) = m) as Hsm by (destruct l as [|[]]; done).
  assert (exists mrs, encloses X D mrs F /\ shr_m mrs = m / 2 ^ (F - e) /\
    match F - e with
    | Zpos p => (SpecFloat.iter_pos shr_1 p (shr_record_of_loc m l), e + (F - e))
    | _ => (shr_record_of_loc m l, e)
    end = (mrs, F)) as (mrs & Hmrs & Hdiv & ->).
  { destruct (F - e) as [|p|p] eqn:Ek; [| |lia].
    - exists (shr_record_of_loc m l). replace F with e by lia.
      split_and!; [done| |done]. rewrite Hsm. change (2 ^ 0) with 1. by rewrite Z.div_1_r.
    - destruct (iter_shr_encloses X D p _ _ HD He Henc) as [H1 M1].
      replace (e + Zpos p) with F in * by lia. rewrite Hsm in M1. by eexists. }
  exists mrs. split_and!; [done|done|rewrite Hdiv..].
  - assert (m < 2 ^ 53 * 2 ^ (F - e)).
    { rewrite <- Z.pow_add_r by lia. subst F. rewrite fexp_unfold in *.
      destruct m as [|p|]; [|simpl in *|lia].
      - apply Z.pow_pos_nonneg; simpl in *; lia.
      - eapply Z.lt_le_trans; [apply digits_pos|]. apply Z.pow_le_mono_r; lia. }
    apply Z.div_lt_upper_bound; [apply Z.pow_pos_nonneg; lia|lia].
  - intros Hnorm. apply Z.div_le_lower_bound; [apply Z.pow_pos_nonneg; lia|].
    rewrite Z.mul_comm, <- Z.pow_add_r by lia. subst F. rewrite fexp_unfold in *.
    destruct m as [|p|]; [simpl in *; lia|simpl in *|lia].
    etransitivity; [|apply digits_pos]. apply Z.pow_le_mono_r; lia.
Qed.

Lemma grid_step my m k u :
  my < 2 ^ 53 -> 2 ^ 52 <= m -> 1 <= k -> 0 < u -> my * u < m * (2 ^ 1 * k * u).
Proof.
  intros Hmy Hm Hk Hu. apply Z.lt_le_trans with (2 * m * u); [apply Z.mul_lt_mono_pos_r; lia|].
  replace (m * (2 ^ 1 * k * u)) with (2 * m * u * k) by ring.
  rewrite <- (Z.mul_1_r (2 * m * u)) at 1. apply Z.mul_le_mono_nonneg_l; lia.
Qed.

(** Between the interval's ends and a representable number nothing fits. *)
Lemma repr_grid m e Y :
  -3000 <= e -> 0 <= m -> (emin < e -> 2 ^ 52 <= m) -> emin <= e -> repr Y ->
  (m * U e < Y -> (m + 1) * U e <= Y) /\ (Y < (m + 1) * U e -> Y <= m * U e).
Proof.
  intros He Hm Hn Hemin (my & ey & -> & Hmy & Hey).
  destruct (Z.le_gt_cases e ey) as [Hle|Hgt].
  - rewrite (U_mono e ey) by lia. rewrite Z.mul_assoc.
    pose proof (U_pos e He). set (k := my * 2 ^ (ey - e)).
    split; intros HY; apply Z.mul_lt_mono_pos_r in HY; try done;
      apply Z.mul_le_mono_nonneg_r; lia.
  - assert (my * U ey < m * U e); [|pose proof (U_pos e He); lia].
    rewrite (U_mono ey e) by lia. replace (e - ey) with (1 + (e - ey - 1)) by lia.
    rewrite Z.pow_add_r by lia. pose proof (U_pos ey ltac:(lia)).
    assert (1 <= 2 ^ (e - ey - 1)) by (apply (Z.pow_le_mono_r 2 0); lia).
    apply grid_step; lia.
Qed.

Lemma round_nearest_cases mrs :
  let m := round_nearest_even (shr_m mrs) (loc_of_shr_record mrs) in
  m = shr_m mrs \/ (m = shr_m mrs + 1 /\ shr_r mrs || shr_s mrs = true).
Proof.
  destruct mrs as [m [] []]; simpl; auto. destruct (Z.even m); auto.
Qed.

(** The second normalisation only ever halves a power of two. *)
Lemma renormalise m F :
  0 <= m <= 2 ^ 53 -> emin <= F -> (emin < F -> 2 ^ 52 <= m) ->
  exists m' F', shr_fexp prec emax m F loc_Exact = (Build_shr_record m' false false, F') /\
    m' * U F' = m * U F /\ 0 <= m' < 2 ^ 53 /\ F <= F' /\ (emin < F' -> 2 ^ 52 <= m').
Proof.
  intros Hm HF Hn. unfold shr_fexp, shr. rewrite fexp_unfold.
  destruct (Z.eq_dec m (2 ^ 53)) as [->|Hne].
  - change (Zdigits2 (2 ^ 53)) with 54. replace (Z.max (54 + F - 53) emin - F) with 1 by lia.
    exists (2 ^ 52), (F + 1). rewrite U_add by lia. split_and!; try lia. done.
  - exists m, F. split_and!; try done; try lia.
    destruct (digits_below m 53) as [Hd| ->]; [lia| |].
    + destruct (Z.max (Zdigits2 m + F - 53) emin - F) as [|p|p] eqn:E; try done. lia.
    + destruct (Z.max (Zdigits2 0 + F - 53) emin - F) as [|p|p] eqn:E; try done. simpl in E. lia.
Qed.

Lemma repr_below_infinity m F Y :
  972 <= F -> 2 ^ 52 <= m -> repr Y -> Y < m * U F.
Proof.
  intros HF Hm (my & ey & -> & Hmy & Hey).
  rewrite (U_mono ey F) by lia. replace (F - ey) with (1 + (F - ey - 1)) by lia.
  rewrite Z.pow_add_r by lia. pose proof (U_pos ey ltac:(lia)).
  assert (1 <= 2 ^ (F - ey - 1)) by (apply (Z.pow_le_mono_r 2 0); lia).
  apply grid_step; lia.
Qed.

Lemma round_aux_rounds X D m e l :
  0 < D -> 0 <= m -> -3000 <= e -> e <= fexp (Zdigits2 m + e) ->
  encloses X D (shr_record_of_loc m l) e ->
  Rounds X D (binary_round_aux prec emax false m e l).
Proof.
  intros HD Hm He HF Henc. unfold binary_round_aux.
  destruct (shr_fexp_encloses X D m e l HD Hm He HF Henc)
    as (mrs & -> & (H0 & HX & Hex) & Hlt & Hn).
  set (F := fexp (Zdigits2 m + e)) in *.
  assert (emin <= F) as HFmin by (subst F; rewrite fexp_unfold; lia).
  pose proof (round_nearest_cases mrs) as Hr. simpl in Hr.
  set (m1 := round_nearest_even _ _) in *. set (m0 := shr_m mrs) in *.
  destruct (renormalise m1 F) as (m2 & F2 & -> & Hval & Hm2 & HF2 & Hn2);
    [lia|done|intros H; specialize (Hn H); lia|]. simpl.
  pose proof (U_pos F ltac:(lia)) as HU.
  assert (forall Y, repr Y -> X <= Y * D -> m2 * U F2 <= Y) as Hup.
  { intros Y HY HXY. rewrite Hval.
    destruct (repr_grid m0 F Y ltac:(lia) H0 Hn HFmin HY) as [Hg _].
    assert (m0 * U F <= Y) by nia.
    destruct Hr as [->|[-> Hrs]]; [done|]. apply Hg.
    rewrite Hrs in Hex. nia. }
  assert (forall Y, repr Y -> Y * D <= X -> Y <= m2 * U F2) as Hdn.
  { intros Y HY HXY. rewrite Hval.
    destruct (repr_grid m0 F Y ltac:(lia) H0 Hn HFmin HY) as [_ Hg].
    assert (Y <= m0 * U F) by (apply Hg; nia).
    destruct Hr as [->|[-> _]]; lia. }
  destruct m2 as [|p|p]; [| |lia].
  { split_and!; [by left|..]; intros Y HY HXY; [by apply Hup in HXY|]. intros _.
    by apply Hdn in HXY. }
  destruct (Z.leb_spec F2 (1024 - 53)) as [Hle|Hgt].
  - assert (good (S754_finite false p F2)) as Hg by (apply bounded_intro; lia || done).
    split_and!; [by left|..]; intros Y HY HXY; [by auto|]. intros _. by apply Hdn.
  - split_and!; [by right|..]; intros Y HY HXY; [exfalso|done].
    apply Hup in HXY; [|done].
    pose proof (repr_below_infinity (Zpos p) F2 Y ltac:(lia) ltac:(lia) HY). lia.
Qed.

Lemma encloses_exact m e X D :
  0 <= m -> -3000 <= e -> 0 < D -> X = m * (U e * D) ->
  encloses X D (shr_record_of_loc m loc_Exact) e.
Proof.
  intros Hm He HD ->. pose proof (U_pos e He).
  assert (0 < U e * D) by lia. unfold encloses. simpl. split_and!; lia.
Qed.

Lemma iter_xO m d : Zpos (Pos.iter xO m d) = 2 ^ Zpos d * Zpos m.
Proof.
  induction d as [|d IH] using Pos.peano_ind; [done|].
  rewrite Pos.iter_succ, Pos2Z.inj_succ, Z.pow_succ_r by lia. lia.
Qed.

Lemma shl_align_spec m e e' :
  -3000 <= e' -> -3000 <= e ->
  let '(m2, e2) := shl_align m e e' in
  Zpos m2 * U e2 = Zpos m * U e /\ e2 = Z.min e e' /\
  Zpos (digits2_pos m2) + e2 = Zpos (digits2_pos m) + e.
Proof.
  intros He' He. unfold shl_align. destruct (e' - e) as [|d|d] eqn:E.
  - split_and!; done || lia.
  - split_and!; done || lia.
  - rewrite iter_xO. split_and!; [|lia|].
    + rewrite (U_mono e' e) by lia. replace (e - e') with (Zpos d) by lia. ring.
    + rewrite (digits_eq _ (Zpos (digits2_pos m) + Zpos d)); [lia|lia|].
      rewrite iter_xO. replace (Zpos (digits2_pos m) + Zpos d - 1)
        with (Zpos d + (Zpos (digits2_pos m) - 1)) by lia.
      pose proof (digits_pos m). rewrite !Z.pow_add_r by lia.
      rewrite (Z.mul_comm (2 ^ Zpos (digits2_pos m))).
      split; [apply Z.mul_le_mono_nonneg_l|apply Z.mul_lt_mono_pos_l];
        lia || (apply Z.pow_pos_nonneg; lia) || (apply Z.pow_nonneg; lia).
Qed.

Lemma binary_round_rounds m e :
  -3000 <= e -> Rounds (Zpos m * U e) 1 (binary_round prec emax false m e).
Proof.
  intros He. unfold binary_round.
  pose proof (shl_align_spec m e (fexp (Zpos (digits2_pos m) + e))) as H.
  destruct (shl_align _ _ _) as [m2 e2]. rewrite fexp_unfold in H.
  destruct H as (Hv & He2 & Hd); [lia..|].
  apply round_aux_rounds; [lia|lia|lia| |apply encloses_exact; lia].
  rewrite fexp_unfold. simpl. lia.
Qed.

Lemma binary_normalize_rounds z e :
  0 <= z -> -3000 <= e -> Rounds (z * U e) 1 (binary_normalize prec emax z e false).
Proof.
  intros Hz He. destruct z as [|p|p]; [|by apply binary_round_rounds|lia]. simpl.
  split_and!; [by left|..]; intros Y HY HXY; [|simpl; lia]. split; [done|]. simpl. lia.
Qed.

(** A representable result is exact. *)
Lemma rounds_exact x : good x -> Rounds (val x) 1 x.
Proof. intros H. split_and!; [by left|..]; intros Y HY HXY; [split; [done|lia]|lia]. Qed.

Lemma rounds_value X r : Rounds X 1 r -> repr X -> good r /\ val r = X.
Proof.
  intros (_ & Hup & Hdn) HX. destruct (Hup X HX) as [Hg Hle]; [lia|].
  specialize (Hdn X HX ltac:(lia) Hg). split; [done|lia].
Qed.

Lemma rounds_value_div X D V r :
  0 < D -> Rounds X D r -> repr V -> X = V * D -> good r /\ val r = V.
Proof.
  intros HD (_ & Hup & Hdn) HV ->. destruct (Hup V HV) as [Hg Hle]; [done|].
  specialize (Hdn V HV ltac:(done) Hg). split; [done|lia].
Qed.

(** ** The operations *)

Lemma of_int_rounds z : 0 <= z -> Rounds (z * U 0) 1 (F64.of_int z).
Proof. intros Hz. by apply binary_normalize_rounds. Qed.

(** Integers of at most 53 bits are exact. *)
Lemma of_int_exact z : 0 <= z < 2 ^ 53 -> good (F64.of_int z) /\ val (F64.of_int z) = z * U 0.
Proof. intros Hz. apply rounds_value; [apply of_int_rounds; lia|by apply repr_int]. Qed.

(** Any [int64] is finite. *)
Lemma of_int_good z : 0 <= z <= int64_max -> good (F64.of_int z).
Proof.
  intros Hz. unfold int64_max in Hz. pose proof (U_pos 0 ltac:(lia)).
  destruct (of_int_rounds z) as (_ & Hup & _); [lia|].
  apply (Hup (1 * U 63)); [exists 1, 63; lia|]. rewrite (U_mono 0 63) by lia.
  replace (1 * (2 ^ (63 - 0) * U 0) * 1) with (2 ^ 63 * U 0) by lia.
  apply Z.mul_le_mono_nonneg_r; lia.
Qed.

Lemma align_val m e ez :
  -3000 <= ez <= e -> Zpos (fst (shl_align m e ez)) * U ez = Zpos m * U e.
Proof.
  intros H. pose proof (shl_align_spec m e ez ltac:(lia) ltac:(lia)) as Ha.
  destruct (shl_align m e ez) as [m2 e2]. destruct Ha as (<- & -> & _). simpl.
  by replace (Z.min e ez) with ez by lia.
Qed.

Lemma add_rounds x y : good x -> good y -> Rounds (val x + val y) 1 (F64.add x y).
Proof.
  intros Hx Hy. destruct x as [sx|sx| |[] mx ex], y as [sy|sy| |[] my ey]; try done.
  - simpl. destruct sx, sy; by apply rounds_exact.
  - by apply rounds_exact.
  - cbn -[Z.mul]. rewrite Z.add_0_r. by apply rounds_exact.
  - apply bounded_spec in Hx as (_ & Hex & _). apply bounded_spec in Hy as (_ & Hey & _).
    cbn -[Z.mul Z.add Z.min]. set (ez := Z.min ex ey).
    rewrite <- (align_val mx ex ez), <- (align_val my ey ez), <- Z.mul_add_distr_r by lia.
    apply binary_normalize_rounds; lia.
Qed.

Lemma sub_rounds x y :
  good x -> good y -> val y <= val x -> Rounds (val x - val y) 1 (F64.sub x y).
Proof.
  intros Hx Hy Hle. destruct x as [sx|sx| |[] mx ex], y as [sy|sy| |[] my ey]; try done.
  - simpl. destruct sx, sy; by apply rounds_exact.
  - apply bounded_spec in Hy as (_ & Hey & _). simpl in Hle.
    pose proof (U_pos ey ltac:(lia)). lia.
  - cbn -[Z.mul]. rewrite Z.sub_0_r. by apply rounds_exact.
  - apply bounded_spec in Hx as (_ & Hex & _). apply bounded_spec in Hy as (_ & Hey & _).
    cbn -[Z.mul Z.sub Z.min] in *. set (ez := Z.min ex ey).
    rewrite <- (align_val mx ex ez), <- (align_val my ey ez) in * by lia.
    rewrite <- Z.mul_sub_distr_r. apply binary_normalize_rounds; [|lia].
    pose proof (U_pos ez ltac:(lia)). nia.
Qed.

Lemma U_mul e1 e2 e3 e4 :
  -3000 <= e1 -> -3000 <= e2 -> -3000 <= e3 -> -3000 <= e4 -> e1 + e2 = e3 + e4 ->
  U e1 * U e2 = U e3 * U e4.
Proof.
  intros H1 H2 H3 H4 He.
  assert (forall a b, -3000 <= a -> -3000 <= b -> U a * U b = 2 ^ (a + b + 6000) * (U (-3000) * U (-3000)))
    as H.
  { intros a b Ha Hb. rewrite (U_mono (-3000) a), (U_mono (-3000) b) by lia.
    replace (a + b + 6000) with ((a - -3000) + (b - -3000)) by lia.
    rewrite Z.pow_add_r by lia. ring. }
  rewrite (H e1 e2), (H e3 e4) by lia. by rewrite He.
Qed.

Lemma bounded_digits m e :
  bounded prec emax m e = true -> e = Z.max (Zpos (digits2_pos m) + e - 53) emin.
Proof.
  unfold bounded, canonical_mantissa. rewrite andb_true_iff, Z.eqb_eq, fexp_unfold. lia.
Qed.

Lemma digits_mul p q :
  Zpos (digits2_pos p) + Zpos (digits2_pos q) - 1 <= Zpos (digits2_pos (p * q)).
Proof.
  pose proof (digits_pos p) as [Hp _]. pose proof (digits_pos q) as [Hq _].
  pose proof (digits_pos (p * q)) as [_ Hpq].
  destruct (Z.le_gt_cases (Zpos (digits2_pos p) + Zpos (digits2_pos q) - 1)
    (Zpos (digits2_pos (p * q)))) as [|Hgt]; [done|].
  assert (2 ^ Zpos (digits2_pos (p * q)) <=
    2 ^ (Zpos (digits2_pos p) - 1) * 2 ^ (Zpos (digits2_pos q) - 1)).
  { rewrite <- Z.pow_add_r by lia. apply Z.pow_le_mono_r; lia. }
  assert (2 ^ (Zpos (digits2_pos p) - 1) * 2 ^ (Zpos (digits2_pos q) - 1) <= Zpos p * Zpos q).
  { apply Z.mul_le_mono_nonneg; try done; apply Z.pow_nonneg; lia. }
  lia.
Qed.

Lemma mul_rounds x y : good x -> good y -> Rounds (val x * val y) (U 0) (F64.mul x y).
Proof.
  pose proof (U_pos 0 ltac:(lia)) as HU0.
  assert (forall s, Rounds 0 (U 0) (S754_zero s)) as Hzero.
  { intros s. split_and!; [by left|..]; intros Y HY HXY; [split; [done|]|intros _]; simpl; nia. }
  intros Hx Hy. destruct x as [sx|sx| |[] mx ex], y as [sy|sy| |[] my ey]; try done;
    rewrite ?Z.mul_0_r; try apply Hzero.
  pose proof (bounded_digits _ _ Hx) as Hdx. pose proof (bounded_digits _ _ Hy) as Hdy.
  apply bounded_spec in Hx as (_ & Hex & _). apply bounded_spec in Hy as (_ & Hey & _).
  pose proof (digits_mul mx my). cbn -[Z.mul Z.add].
  apply round_aux_rounds; [done|lia|lia| |apply encloses_exact; [lia|lia|done|]].
  - rewrite fexp_unfold. cbn [Zdigits2]. lia.
  - rewrite <- (U_mul ex ey) by lia. lia.
Qed.

Lemma new_location_exact n k :
  0 <= k < n ->
  match new_location n k with loc_Exact => k = 0 | loc_Inexact _ => 0 < k end.
Proof.
  intros H. unfold new_location, new_location_even, new_location_odd.
  destruct (Z.even n), (Z.eqb_spec k 0); simpl; try done; try lia.
Qed.

(** A quotient has at least as many digits as the difference says. *)
Lemma digits_quotient a b s :
  0 <= s ->
  Zpos (digits2_pos a) + s - Zpos (digits2_pos b) <= Zdigits2 (Zpos a * 2 ^ s / Zpos b).
Proof.
  intros Hs. pose proof (digits_pos a) as [Ha _]. pose proof (digits_pos b) as [_ Hb].
  set (da := Zpos (digits2_pos a)) in *. set (db := Zpos (digits2_pos b)) in *.
  set (q := Zpos a * 2 ^ s / Zpos b).
  destruct (Z.le_gt_cases (da + s - db) 0) as [|Hpos]; [pose proof (digits_nonneg q); lia|].
  assert (2 ^ (da + s - db - 1) <= q) as Hq.
  { apply Z.div_le_lower_bound; [lia|].
    transitivity (2 ^ db * 2 ^ (da + s - db - 1)).
    - apply Z.mul_le_mono_nonneg_r; [apply Z.pow_nonneg; lia|lia].
    - rewrite <- Z.pow_add_r by lia. replace (db + (da + s - db - 1)) with (da - 1 + s) by lia.
      rewrite Z.pow_add_r by lia. apply Z.mul_le_mono_nonneg_r; [apply Z.pow_nonneg; lia|done]. }
  assert (0 < 2 ^ (da + s - db - 1)) by (apply Z.pow_pos_nonneg; lia).
  destruct q as [|p|p]; [lia| |lia]. simpl. pose proof (digits_pos p) as [_ Hp].
  destruct (Z.le_gt_cases (da + s - db) (Zpos (digits2_pos p))) as [|Hgt]; [done|].
  assert (2 ^ Zpos (digits2_pos p) <= 2 ^ (da + s - db - 1)) by (apply Z.pow_le_mono_r; lia). lia.
Qed.

Lemma div_rounds x y :
  good x -> good y -> 0 < val y -> Rounds (val x * U 0) (val y) (F64.div x y).
Proof.
  pose proof (U_pos 0 ltac:(lia)) as HU0. intros Hx Hy Hpos.
  destruct y as [sy|sy| |[] my ey]; try done.
  destruct x as [sx|sx| |[] mx ex]; try done.
  { split_and!; [by left|..]; intros Y HY HXY; [split; [done|]|intros _]; simpl in *; nia. }
  pose proof (bounded_spec _ _ Hx) as (_ & Hex & _). pose proof (bounded_spec _ _ Hy) as (_ & Hey & _).
  unfold F64.div, SFdiv, SFdiv_core_binary. cbn [Zdigits2 xorb val].
  set (k := Zpos (digits2_pos mx) + ex - (Zpos (digits2_pos my) + ey)).
  set (e' := Z.min (SpecFloat.fexp F64.prec F64.emax k) (ex - ey)).
  assert (-2200 <= e' /\ -2200 <= e' + ey /\ e' <= ex - ey) as (He' & He2 & Hs).
  { subst e'. change (SpecFloat.fexp F64.prec F64.emax k) with (fexp k).
    rewrite fexp_unfold. lia. }
  assert (match ex - ey - e' with
          | Zpos _ => Z.shiftl (Zpos mx) (ex - ey - e') | Z0 => Zpos mx | Zneg _ => 0
          end = Zpos mx * 2 ^ (ex - ey - e')) as ->.
  { destruct (ex - ey - e') eqn:E; [by rewrite Z.mul_1_r|by rewrite Z.shiftl_mul_pow2|lia]. }
  assert (exists s, s = ex - ey - e' /\ 0 <= s) as (s & Hse & Hs0) by (eexists; split; [done|lia]).
  rewrite <- Hse.
  pose proof (Z_div_mod (Zpos mx * 2 ^ s) (Zpos my) ltac:(lia)) as Hdm.
  assert ((Z.div_eucl (Zpos mx * 2 ^ s) (Zpos my)).1 = Zpos mx * 2 ^ s / Zpos my) as Hq by done.
  destruct (Z.div_eucl _ _) as [q r]. simpl in Hq. destruct Hdm as [Hdm Hr].
  assert (0 < Zpos mx * 2 ^ s) by (apply Z.mul_pos_pos; [lia|apply Z.pow_pos_nonneg; lia]).
  assert (0 <= q) as Hq0 by (rewrite Hq; apply Z.div_pos; lia).
  pose proof (U_pos ey ltac:(lia)) as HUy. pose proof (U_pos e' ltac:(lia)) as HU'.
  apply round_aux_rounds; [lia|done|lia| |].
  - pose proof (digits_quotient mx my s ltac:(lia)) as Hd. rewrite <- Hq in Hd.
    change (fexp (Zdigits2 q + e')) with (Z.max (Zdigits2 q + e' - 53) emin).
    assert (e' <= Z.max (k - 53) emin) by (subst e'; apply Z.le_min_l). lia.
  - assert (Zpos mx * U ex * U 0 = (Zpos my * q + r) * (U e' * U ey)) as ->.
    { rewrite <- Hdm, <- Z.mul_assoc. replace ex with (e' + ey + s) at 1 by lia.
      rewrite U_add, (U_mul e' ey (e' + ey) 0) by lia. ring. }
    replace (U e' * (Zpos my * U ey)) with (Zpos my * (U e' * U ey)) by ring.
    set (W := U e' * U ey). assert (0 < W) by (by apply Z.mul_pos_pos).
    pose proof (new_location_exact (Zpos my) r Hr) as Hl.
    unfold encloses. destruct (new_location _ r) as [|[]]; simpl; split_and!; nia.
Qed.

(** Comparisons compare values. *)
Lemma compare_val x y : good x -> good y -> SFcompare x y = Some (val x ?= val y).
Proof.
  intros Hx Hy.
  destruct x as [sx|sx| |[] mx ex], y as [sy|sy| |[] my ey]; try done; cbn [SFcompare val].
  - apply bounded_spec in Hy as (_ & ? & _). pose proof (U_pos ey ltac:(lia)).
    f_equal. symmetry. apply Z.compare_lt_iff. lia.
  - apply bounded_spec in Hx as (_ & ? & _). pose proof (U_pos ex ltac:(lia)).
    f_equal. symmetry. apply Z.compare_gt_iff. lia.
  - pose proof (bounded_spec _ _ Hx) as (Hmx & Hex & Hnx).
    pose proof (bounded_spec _ _ Hy) as (Hmy & Hey & Hny).
    assert (forall m e m' e', Zpos m < 2 ^ 53 -> emin <= e < e' -> 2 ^ 52 <= Zpos m' ->
      Zpos m * U e < Zpos m' * U e') as Hlt.
    { intros m e m' e' Hm He Hm'. rewrite (U_mono e e') by lia.
      replace (e' - e) with (1 + (e' - e - 1)) by lia. rewrite Z.pow_add_r by lia.
      apply grid_step; [lia|lia| |apply U_pos; lia]. apply (Z.pow_le_mono_r 2 0); lia. }
    f_equal. symmetry. destruct (Z.compare_spec ex ey) as [->|He|He].
    + rewrite <- (Zmult_compare_compat_r (Zpos mx) (Zpos my) (U ey)); [done|].
      apply Z.lt_gt, U_pos. lia.
    + apply Z.compare_lt_iff, Hlt; lia.
    + apply Z.compare_gt_iff, Hlt; lia.
Qed.

Lemma leb_val x y : good x -> good y -> F64.leb x y = (val x <=? val y).
Proof.
  intros Hx Hy. unfold F64.leb, SFleb, Z.leb. rewrite compare_val by done.
  by destruct (val x ?= val y).
Qed.

Lemma ltb_val x y : good x -> good y -> F64.ltb x y = (val x <? val y).
Proof.
  intros Hx Hy. unfold F64.ltb, SFltb, Z.ltb. rewrite compare_val by done.
  by destruct (val x ?= val y).
Qed.

Lemma add_infinite_l x y : infinite x -> good y -> infinite (F64.add x y).
Proof. by intros ->; destruct y as [|[]| |[]]. Qed.

Lemma add_infinite x y : good x -> infinite y -> infinite (F64.add x y).
Proof. by intros Hx ->; destruct x as [|[]| |[]]. Qed.

Lemma ltb_infinite x y : good x -> infinite y -> F64.ltb x y = true.
Proof. by intros Hx ->; destruct x as [|[]| |[]]. Qed.

Lemma leb_infinite x y : infinite x -> good y -> F64.leb x y = false.
Proof. by intros ->; destruct y as [|[]| |[]]. Qed.

End FloatLaws.
