(* ===== verification/RateLimit.v ===== *)
(** * Rate limiting: [internal/ratelimit/ratelimit.go] and the limiter of
    [internal/proxy/middleware.go]

    Token counts and window weights are [float64]s, computed with the rounding
    of [GoFloat] (no fused multiply-add, as on amd64); counters and limits are
    64-bit words.  Every call reads the clock once, at [now]; a limiter's lock
    makes its calls atomic.  [Limiter] is the interface of the package,
    [Janitor] the cleanup goroutine every implementation starts, and
    [LimiterLaws] what the two together promise. *)
From Stdlib Require Import ZArith Lia SpecFloat.
From S2P Require Import Prelude GoFloat FloatLaws Config.
Import FloatLaws.

(** ** The interface *)

(** The interface [Limiter] of the package. *)
Class Limiter (L : Type) := {
  Allow : Time -> string -> L -> L * bool;
  AllowN : Time -> string -> Z -> L -> L * bool
}.

(** The goroutine that a limiter's constructor starts: its work at one tick. *)
Class Janitor (L : Type) := { cleanup : Time -> L -> L }.

(** The laws; [agree key l1 l2] says that two limiters cannot be told apart by
    requests with this key. *)
Class LimiterLaws (L : Type) `{Limiter L, Janitor L} := {
  agree : string -> L -> L -> Prop;
  agree_equivalence key : Equivalence (agree key);
  Allow_one key now (l : L) : Allow now key l = AllowN now key 1 l;
  AllowN_agree key now n (l1 l2 : L) :
    agree key l1 l2 ->
    (AllowN now key n l1).2 = (AllowN now key n l2).2 /\
    agree key (AllowN now key n l1).1 (AllowN now key n l2).1;
  AllowN_other key key' now n (l : L) : key <> key' -> agree key' (AllowN now key n l).1 l;
  cleanup_agree key now (l1 l2 : L) :
    agree key l1 l2 -> agree key (cleanup now l1) (cleanup now l2)
}.
#[export] Existing Instance agree_equivalence.

(** ** Clients of the interface *)
Section Clients.
Context {L : Type} `{LimiterLaws L}.

Inductive call : Type :=
| CAllowN (now : Time) (key : string) (n : Z)
| CCleanup (now : Time).

Definition exec (l : L) (c : call) : L * option (string * bool) :=
  match c with
  | CAllowN now key n => let '(l', ok) := AllowN now key n l in (l', Some (key, ok))
  | CCleanup now => (cleanup now l, None)
  end.

(** The calls that concern a key, and the answers it gets. *)
Definition concerns (key : string) (c : call) : bool :=
  match c with CAllowN _ k _ => bool_decide (k = key) | CCleanup _ => true end.

Definition answers (key : string) (rs : list (option (string * bool))) : list bool :=
  omap (fun r => match r with
                 | Some (k, ok) => if decide (k = key) then Some ok else None
                 | None => None
                 end) rs.

Lemma answers_app key rs1 rs2 : answers key (rs1 ++ rs2) = answers key rs1 ++ answers key rs2.
Proof. apply omap_app. Qed.

Lemma run_agree key cs (l1 l2 : L) :
  agree key l1 l2 ->
  answers key (run exec l1 cs).2 = answers key (run exec l2 (filter (fun c => concerns key c) cs)).2.
Proof.
  revert l1 l2. induction cs as [|c cs IH]; intros l1 l2 Ha; [done|].
  rewrite filter_cons. destruct c as [now k n|now]; simpl.
  - destruct (decide (k = key)) as [->|Hne].
    + rewrite bool_decide_true by done. simpl.
      pose proof (AllowN_agree key now n l1 l2 Ha) as [Hok Ha'].
      destruct (AllowN now key n l1) as [l1' ok1], (AllowN now key n l2) as [l2' ok2].
      simpl in *. subst. specialize (IH _ _ Ha').
      destruct (run exec l1' cs), (run exec l2' _). simpl in *.
      by rewrite decide_True, IH by done.
    + rewrite bool_decide_false by done. simpl.
      pose proof (AllowN_other k key now n l1 Hne) as Ho.
      destruct (AllowN now k n l1) as [l1' ok1]. simpl in *.
      specialize (IH l1' l2). destruct (run exec l1' cs). simpl in *.
      rewrite decide_False by done. apply IH. by etransitivity.
  - specialize (IH _ _ (cleanup_agree key now l1 l2 Ha)).
    destruct (run exec (cleanup now l1) cs), (run exec (cleanup now l2) _). done.
Qed.
End Clients.

Module TokenBucket.

Record tokenBucket := mkBucket { tokens : F64.t; lastCheck : Time }.

Record TokenBucketLimiter := mkLimiter {
  rate : F64.t;
  burst : Z;
  buckets : gmap string tokenBucket;
  cleanupTick : Duration;
  stopped : bool
}.

Definition NewTokenBucketLimiter (rate : F64.t) (burst : Z) : TokenBucketLimiter :=
  mkLimiter rate burst ∅ (5 * Minute) false.

Definition with_buckets (bs : gmap string tokenBucket) (l : TokenBucketLimiter) : TokenBucketLimiter :=
  mkLimiter (rate l) (burst l) bs (cleanupTick l) (stopped l).

(** The bucket of a key, full when it is new. *)
Definition bucket_of (now : Time) (key : string) (l : TokenBucketLimiter) : tokenBucket :=
  match buckets l !! key with
  | Some b => b
  | None => mkBucket (F64.of_int (burst l)) now
  end.

(** The tokens of the time elapsed since the last check, up to the burst. *)
Definition refill (rate : F64.t) (burst : Z) (elapsed : Duration) (tokens : F64.t) : F64.t :=
  let tokens' := F64.add tokens (F64.mul (F64.Seconds elapsed) rate) in
  if F64.ltb (F64.of_int burst) tokens' then F64.of_int burst else tokens'.

Definition AllowN (now : Time) (key : string) (n : Z) (l : TokenBucketLimiter) :
    TokenBucketLimiter * bool :=
  let b := bucket_of now key l in
  let tokens1 := refill (rate l) (burst l) (Time_Sub now (lastCheck b)) (tokens b) in
  if F64.leb (F64.of_int n) tokens1
  then (with_buckets (<[key := mkBucket (F64.sub tokens1 (F64.of_int n)) now]> (buckets l)) l, true)
  else (with_buckets (<[key := mkBucket tokens1 now]> (buckets l)) l, false).

Definition Allow (now : Time) (key : string) (l : TokenBucketLimiter) : TokenBucketLimiter * bool :=
  AllowN now key 1 l.

(** A tick of the cleanup goroutine. *)
Definition cleanup (now : Time) (l : TokenBucketLimiter) : TokenBucketLimiter :=
  with_buckets (filter (fun kb => Time_Sub now (lastCheck kb.2) <= 10 * Minute) (buckets l)) l.

(** [Stop] closes the channel; closing it again panics. *)
Definition Stop (l : TokenBucketLimiter) : go TokenBucketLimiter :=
  if stopped l then Panic "close of closed channel"
  else Ret (mkLimiter (rate l) (burst l) (buckets l) (cleanupTick l) true).

#[global] Instance limiter : Limiter TokenBucketLimiter := { Allow := Allow; AllowN := AllowN }.
#[global] Instance janitor : Janitor TokenBucketLimiter := { cleanup := cleanup }.

Definition agree (key : string) (l1 l2 : TokenBucketLimiter) : Prop :=
  rate l1 = rate l2 /\ burst l1 = burst l2 /\ buckets l1 !! key = buckets l2 !! key.

Lemma bucket_AllowN_same key now n l1 l2 :
  agree key l1 l2 ->
  (AllowN now key n l1).2 = (AllowN now key n l2).2 /\
  agree key (AllowN now key n l1).1 (AllowN now key n l2).1.
Proof.
  intros (Hr & Hb & Hk). unfold agree, AllowN, bucket_of. rewrite Hr, Hb, Hk.
  destruct (F64.leb _ _); simpl; rewrite !lookup_insert_eq; done.
Qed.

#[global] Instance limiter_laws : LimiterLaws TokenBucketLimiter.
Proof.
  apply (Build_LimiterLaws _ _ _ agree).
  - intros key. split; [done|by intros l1 l2 (?&?&?)|].
    intros l1 l2 l3 (?&?&?) (?&?&?). split_and!; congruence.
  - done.
  - apply bucket_AllowN_same.
  - intros key key' now n l Hne. unfold agree. simpl. unfold AllowN.
    destruct (F64.leb _ _); simpl; by rewrite lookup_insert_ne.
  - intros key now l1 l2 (Hr & Hb & Hk). unfold agree. simpl. split_and!; [done|done|].
    apply option_eq. intros b. by rewrite !map_lookup_filter_Some, Hk.
Defined.

End TokenBucket.

Module SlidingWindow.

Record slidingWindow := mkWindow {
  prevCount : Z;
  currCount : Z;
  prevWindow : Time;
  currWindow : Time;
  win_windowSize : Duration
}.

Record SlidingWindowLimiter := mkLimiter {
  rate : Z;
  windowSize : Duration;
  windows : gmap string slidingWindow;
  cleanupTick : Duration;
  stopped : bool
}.

Definition NewSlidingWindowLimiter (requestsPerSecond windowSeconds : Z) : SlidingWindowLimiter :=
  mkLimiter (wrap64 (requestsPerSecond * windowSeconds)) (wrap64 (windowSeconds * Second)) ∅
            (5 * Minute) false.

Definition with_windows (ws : gmap string slidingWindow) (l : SlidingWindowLimiter) :
    SlidingWindowLimiter :=
  mkLimiter (rate l) (windowSize l) ws (cleanupTick l) (stopped l).

Definition window_of (now : Time) (key : string) (l : SlidingWindowLimiter) : slidingWindow :=
  match windows l !! key with
  | Some w => w
  | None => mkWindow 0 0 0 (Time_Truncate now (windowSize l)) (windowSize l)
  end.

(** The rotation of the windows. *)
Definition rotate (windowSize : Duration) (currWindowStart : Time) (w : slidingWindow) :
    slidingWindow :=
  if Time_After currWindowStart (currWindow w) then
    let timeDiff := Time_Sub currWindowStart (currWindow w) in
    let '(prev, curr) :=
      if wrap64 (2 * windowSize) <=? timeDiff then (0, 0)
      else if windowSize <=? timeDiff then (currCount w, 0)
      else (prevCount w, currCount w) in
    mkWindow prev curr (currWindow w) currWindowStart (win_windowSize w)
  else w.

(** The weighted count of the sliding window. *)
Definition weighted_count (windowSize elapsed : Duration) (w : slidingWindow) : F64.t :=
  let weight := F64.sub (F64.of_int 1) (F64.div (F64.of_int elapsed) (F64.of_int windowSize)) in
  F64.add (F64.mul (F64.of_int (prevCount w)) weight) (F64.of_int (currCount w)).

Definition AllowN (now : Time) (key : string) (n : Z) (l : SlidingWindowLimiter) :
    SlidingWindowLimiter * bool :=
  let currWindowStart := Time_Truncate now (windowSize l) in
  let w := rotate (windowSize l) currWindowStart (window_of now key l) in
  let weightedCount := weighted_count (windowSize l) (Time_Sub now currWindowStart) w in
  if F64.leb (F64.add weightedCount (F64.of_int n)) (F64.of_int (rate l))
  then (with_windows (<[key := mkWindow (prevCount w) (add64 (currCount w) n)
                                        (prevWindow w) (currWindow w) (win_windowSize w)]>
                            (windows l)) l, true)
  else (with_windows (<[key := w]> (windows l)) l, false).

Definition Allow (now : Time) (key : string) (l : SlidingWindowLimiter) :
    SlidingWindowLimiter * bool := AllowN now key 1 l.

Definition cleanup (now : Time) (l : SlidingWindowLimiter) : SlidingWindowLimiter :=
  with_windows (filter (fun kw => Time_Sub now (currWindow kw.2) <= 10 * Minute) (windows l)) l.

Definition Stop (l : SlidingWindowLimiter) : go SlidingWindowLimiter :=
  if stopped l then Panic "close of closed channel"
  else Ret (mkLimiter (rate l) (windowSize l) (windows l) (cleanupTick l) true).

#[global] Instance limiter : Limiter SlidingWindowLimiter := { Allow := Allow; AllowN := AllowN }.
#[global] Instance janitor : Janitor SlidingWindowLimiter := { cleanup := cleanup }.

Definition agree (key : string) (l1 l2 : SlidingWindowLimiter) : Prop :=
  rate l1 = rate l2 /\ windowSize l1 = windowSize l2 /\ windows l1 !! key = windows l2 !! key.

Lemma window_AllowN_same key now n l1 l2 :
  agree key l1 l2 ->
  (AllowN now key n l1).2 = (AllowN now key n l2).2 /\
  agree key (AllowN now key n l1).1 (AllowN now key n l2).1.
Proof.
  intros (Hr & Hb & Hk). unfold agree, AllowN, window_of. rewrite Hr, Hb, Hk.
  destruct (F64.leb _ _); simpl; rewrite !lookup_insert_eq; done.
Qed.

#[global] Instance limiter_laws : LimiterLaws SlidingWindowLimiter.
Proof.
  apply (Build_LimiterLaws _ _ _ agree).
  - intros key. split; [done|by intros l1 l2 (?&?&?)|].
    intros l1 l2 l3 (?&?&?) (?&?&?). split_and!; congruence.
  - done.
  - apply window_AllowN_same.
  - intros key key' now n l Hne. unfold agree. simpl. unfold AllowN.
    destruct (F64.leb _ _); simpl; by rewrite lookup_insert_ne.
  - intros key now l1 l2 (Hr & Hb & Hk). unfold agree. simpl. split_and!; [done|done|].
    apply option_eq. intros b. by rewrite !map_lookup_filter_Some, Hk.
Defined.

End SlidingWindow.

(** The limiter of the HTTP middleware: a token bucket per client address. *)
Module ProxyLimiter.

Record bucket := mkBucket { tokens : F64.t; lastCheck : Time }.

Record RateLimiter := mkLimiter {
  enabled : bool;
  rate : F64.t;
  burst : Z;
  buckets : gmap string bucket;
  cleanupTick : Duration
}.

Definition NewRateLimiter (cfg : Cfg.RateLimitConfig) : RateLimiter :=
  mkLimiter (Cfg.rl_Enabled cfg) (F64.of_int (Cfg.RequestsPerSecond cfg)) (Cfg.Burst cfg) ∅
            (5 * Minute).

Definition with_buckets (bs : gmap string bucket) (l : RateLimiter) : RateLimiter :=
  mkLimiter (enabled l) (rate l) (burst l) bs (cleanupTick l).

Definition bucket_of (now : Time) (key : string) (l : RateLimiter) : bucket :=
  match buckets l !! key with
  | Some b => b
  | None => mkBucket (F64.of_int (burst l)) now
  end.

Definition refill (rate : F64.t) (burst : Z) (elapsed : Duration) (tokens : F64.t) : F64.t :=
  let tokens' := F64.add tokens (F64.mul (F64.Seconds elapsed) rate) in
  if F64.ltb (F64.of_int burst) tokens' then F64.of_int burst else tokens'.

(** [b.tokens--] subtracts one. *)
Definition Allow (now : Time) (key : string) (l : RateLimiter) : RateLimiter * bool :=
  if enabled l then
    let b := bucket_of now key l in
    let tokens1 := refill (rate l) (burst l) (Time_Sub now (lastCheck b)) (tokens b) in
    if F64.leb (F64.of_int 1) tokens1
    then (with_buckets (<[key := mkBucket (F64.sub tokens1 (F64.of_int 1)) now]> (buckets l)) l, true)
    else (with_buckets (<[key := mkBucket tokens1 now]> (buckets l)) l, false)
  else (l, true).

Definition cleanup (now : Time) (l : RateLimiter) : RateLimiter :=
  with_buckets (filter (fun kb => Time_Sub now (lastCheck kb.2) <= 10 * Minute) (buckets l)) l.

End ProxyLimiter.

(** ** The package's front end *)
Module Multi.

(** A [Limiter] value points to a limiter object; [nil] is [None]. *)
Inductive object : Type :=
| OTokenBucket (l : TokenBucket.TokenBucketLimiter)
| OSlidingWindow (l : SlidingWindow.SlidingWindowLimiter).

Abbreviation Objects := (gmap nat object) (only parsing).

(** A method call on a non-nil [Limiter]. *)
Definition object_Allow (now : Time) (key : string) (o : object) : object * bool :=
  match o with
  | OTokenBucket l => let '(l', ok) := Allow now key l in (OTokenBucket l', ok)
  | OSlidingWindow l => let '(l', ok) := Allow now key l in (OSlidingWindow l', ok)
  end.

Inductive Strategy : Type :=
| StrategyTokenBucket
| StrategySlidingWindow
| StrategyOther (s : string).

Record Config := mkConfig {
  Enabled : bool;
  RequestsPerSecond : Z;
  Burst : Z;
  Strategy_ : Strategy;
  PerIP : bool
}.

Definition NewLimiter (cfg : Config) : option object :=
  if Enabled cfg then
    Some match Strategy_ cfg with
         | StrategySlidingWindow =>
             OSlidingWindow (SlidingWindow.NewSlidingWindowLimiter (RequestsPerSecond cfg) 1)
         | _ => OTokenBucket (TokenBucket.NewTokenBucketLimiter
                                (F64.of_int (RequestsPerSecond cfg)) (Burst cfg))
         end
  else None.

Record MultiLimiter := mkMulti {
  global : option nat;
  perChain : gmap string (option nat)
}.

Definition NewMultiLimiter (global : option nat) : MultiLimiter := mkMulti global ∅.

Definition SetChainLimiter (chain : string) (limiter : option nat) (m : MultiLimiter) : MultiLimiter :=
  mkMulti (global m) (<[chain := limiter]> (perChain m)).

(** [limiter.Allow(key)] through a [Limiter] value. *)
Definition call_Allow (now : Time) (key : string) (limiter : option nat) (os : Objects) :
    go (Objects * bool) :=
  match limiter ≫= fun l => pair l <$> os !! l with
  | Some (l, o) =>
      let '(o', ok) := object_Allow now key o in Ret (<[l := o']> os, ok)
  | None => Panic "invalid memory address or nil pointer dereference"
  end.

(** [MultiLimiter.Allow]: the global limiter first, then the chain's. *)
Definition Allow (now1 now2 : Time) (chain key : string) (m : MultiLimiter) (os : Objects) :
    go (Objects * bool) :=
  '(os1, ok1) ← match global m with
                | None => Ret (os, true)
                | Some l => call_Allow now1 key (Some l) os
                end;
  if (ok1 : bool) then
    match perChain m !! chain with
    | None => Ret (os1, true)
    | Some limiter => call_Allow now2 key limiter os1
    end
  else Ret (os1, false).

End Multi.

Module Guarantees.

(** ** Token buckets *)

Lemma seconds_good d : 0 <= d <= int64_max -> good (F64.Seconds d).
Proof.
  intros Hd. unfold F64.Seconds, Second. pose proof (U_pos 0 ltac:(lia)) as HU.
  rewrite Z.quot_div_nonneg, Z.rem_mod_nonneg by lia.
  set (q := d / 1000000000). set (r := d mod 1000000000).
  assert (0 <= q < 2 ^ 53 - 1) as Hq.
  { unfold q, int64_max in *. split; [apply Z.div_pos; lia|]. apply Z.div_lt_upper_bound; lia. }
  assert (0 <= r < 1000000000) as Hr by (apply Z.mod_pos_bound; lia).
  clearbody q r.
  destruct (of_int_exact q) as [Hgq Hvq]; [lia|].
  destruct (of_int_exact r) as [Hgr Hvr]; [lia|].
  destruct (of_int_exact 1000000000) as [Hg9 Hv9]; [lia|].
  destruct (div_rounds _ _ Hgr Hg9) as (_ & Hup & _); [lia|].
  destruct (Hup (1 * U 0)) as [Hgd Hvd]; [apply (repr_int 1); lia| |].
  { rewrite Hvr, Hv9, Z.mul_1_l.
    replace (U 0 * (1000000000 * U 0)) with (1000000000 * U 0 * U 0) by ring.
    do 2 (apply Z.mul_le_mono_nonneg_r; [lia|]). lia. }
  destruct (add_rounds _ _ Hgq Hgd) as (_ & Hup2 & _).
  apply (Hup2 ((q + 1) * U 0)); [apply repr_int; lia|lia].
Qed.

(** Whole seconds are exact. *)
Lemma seconds_whole s :
  0 <= s -> s * Second <= int64_max ->
  good (F64.Seconds (s * Second)) /\ val (F64.Seconds (s * Second)) = s * U 0.
Proof.
  intros Hs Hmax. unfold F64.Seconds, Second, int64_max in *. pose proof (U_pos 0 ltac:(lia)) as HU.
  rewrite Z.quot_div_nonneg, Z.rem_mod_nonneg, Z_mod_mult, Z.div_mul by lia.
  destruct (of_int_exact s) as [Hgs Hvs]; [lia|].
  destruct (of_int_exact 0) as [Hg0 Hv0]; [lia|].
  destruct (of_int_exact 1000000000) as [Hg9 Hv9]; [lia|].
  assert (0 < val (F64.of_int 1000000000)) as H9 by lia.
  destruct (rounds_value_div _ _ 0 _ H9 (div_rounds _ _ Hg0 Hg9 H9)) as [Hgd Hvd];
    [apply (repr_int 0); lia|lia|].
  pose proof (add_rounds _ _ Hgs Hgd) as Ha. rewrite Hvs, Hvd, Z.add_0_r in Ha.
  apply rounds_value; [done|]. apply repr_int. lia.
Qed.

Section Refill.
Context (rate : F64.t) (burst : Z) (tokens : F64.t) (elapsed : Duration).
Context (Hrate : good rate) (Hburst : 0 <= burst <= int64_max).
Context (Htokens : good tokens) (Hfull : val tokens <= val (F64.of_int burst)).
Context (Helapsed : 0 <= elapsed <= int64_max).

(** A refill never loses tokens and never exceeds the burst. *)
Lemma refill_bounds :
  good (TokenBucket.refill rate burst elapsed tokens) /\
  val tokens <= val (TokenBucket.refill rate burst elapsed tokens) <= val (F64.of_int burst).
Proof.
  pose proof (seconds_good elapsed Helapsed) as Hsec.
  pose proof (of_int_good burst Hburst) as Hb.
  destruct (mul_rounds _ _ Hsec Hrate) as ([Hm|Hm] & _).
  - destruct (add_rounds _ _ Htokens Hm) as ([Ha|Ha] & _ & Hdn); unfold TokenBucket.refill.
    + rewrite ltb_val by done. pose proof (val_nonneg _ Hm).
      specialize (Hdn (val tokens) (good_repr _ Htokens) ltac:(lia) Ha).
      case_match; zify_bool; split; done || lia.
    + rewrite ltb_infinite by done. split; [done|lia].
  - unfold TokenBucket.refill. rewrite ltb_infinite by auto using add_infinite. split; [done|lia].
Qed.

(** Enough whole seconds at a whole rate fill the bucket. *)
Lemma refill_full s r :
  elapsed = s * Second -> rate = F64.of_int r -> 0 <= s -> 0 <= r < 2 ^ 53 -> burst < 2 ^ 53 ->
  burst <= s * r -> val (TokenBucket.refill rate burst elapsed tokens) = burst * U 0.
Proof.
  intros -> -> Hs Hr Hb53 Hsr. pose proof (U_pos 0 ltac:(lia)) as HU.
  destruct (seconds_whole s Hs (proj2 Helapsed)) as [Hsec Hvsec].
  destruct (of_int_exact r Hr) as [Hgr Hvr].
  destruct (of_int_exact burst ltac:(lia)) as [Hgb Hvb].
  destruct (mul_rounds _ _ Hsec Hgr) as ([Hm|Hm] & _ & Hdn); unfold TokenBucket.refill.
  - specialize (Hdn (burst * U 0) (repr_int burst ltac:(lia))).
    rewrite Hvsec, Hvr in Hdn. specialize (Hdn ltac:(nia) Hm).
    destruct (add_rounds _ _ Htokens Hm) as ([Ha|Ha] & _ & Hdn2).
    + rewrite ltb_val by done. pose proof (val_nonneg _ Htokens).
      specialize (Hdn2 (burst * U 0) (repr_int burst ltac:(lia)) ltac:(lia) Ha).
      case_match; zify_bool; lia.
    + by rewrite ltb_infinite.
  - by rewrite ltb_infinite by auto using add_infinite.
Qed.

(** No time, no tokens. *)
Lemma refill_now : elapsed = 0 -> val (TokenBucket.refill rate burst elapsed tokens) = val tokens.
Proof.
  intros ->. destruct (seconds_whole 0) as [Hsec Hvsec]; [lia|done|]. change (0 * Second) with 0 in *.
  pose proof (U_pos 0 ltac:(lia)) as HU. unfold TokenBucket.refill.
  destruct (rounds_value_div _ _ 0 _ HU (mul_rounds _ _ Hsec Hrate)) as [Hm Hvm];
    [apply (repr_int 0); lia|rewrite Hvsec; lia|].
  pose proof (add_rounds _ _ Htokens Hm) as Ha. rewrite Hvm, Z.add_0_r in Ha.
  destruct (rounds_value _ _ Ha (good_repr _ Htokens)) as [Hga Hva].
  rewrite ltb_val by auto using of_int_good. rewrite Hva. by case_match; zify_bool; [lia|].
Qed.
End Refill.

(** A token bucket limiter whose clock stands at [now]. *)
Definition bucket_ok (burst : Z) (now : Time) (b : TokenBucket.tokenBucket) : Prop :=
  good (TokenBucket.tokens b) /\ val (TokenBucket.tokens b) <= val (F64.of_int burst) /\
  TokenBucket.lastCheck b <= now.

Definition tb_ok (now : Time) (l : TokenBucket.TokenBucketLimiter) : Prop :=
  good (TokenBucket.rate l) /\ 0 <= TokenBucket.burst l <= int64_max /\
  map_Forall (fun _ b => bucket_ok (TokenBucket.burst l) now b) (TokenBucket.buckets l).

(** Calls at times that never go back, for [n >= 0] requests. *)
Fixpoint ordered (now : Time) (cs : list call) : Prop :=
  match cs with
  | [] => True
  | CAllowN t _ n :: cs' => now <= t /\ 0 <= n <= int64_max /\ ordered t cs'
  | CCleanup t :: cs' => now <= t /\ ordered t cs'
  end.

Lemma elapsed_range now last : last <= now -> 0 <= Time_Sub now last <= int64_max.
Proof. unfold Time_Sub, int64_max, int64_min. lia. Qed.

Lemma bucket_of_ok now t key l :
  tb_ok now l -> now <= t -> bucket_ok (TokenBucket.burst l) t (TokenBucket.bucket_of t key l).
Proof.
  intros (Hr & Hb & Hall) Ht. unfold TokenBucket.bucket_of.
  destruct (TokenBucket.buckets l !! key) as [b|] eqn:E.
  - destruct (Hall _ _ E) as (? & ? & ?). split_and!; [done|done|lia].
  - split_and!; simpl; [by apply of_int_good|lia|lia].
Qed.

Lemma sub_bounds x n :
  good x -> 0 <= n <= int64_max -> val (F64.of_int n) <= val x ->
  good (F64.sub x (F64.of_int n)) /\ val (F64.sub x (F64.of_int n)) <= val x.
Proof.
  intros Hx Hn Hle. pose proof (of_int_good n Hn) as Hg.
  destruct (sub_rounds _ _ Hx Hg Hle) as (_ & Hup & _).
  apply Hup; [by apply good_repr|]. pose proof (val_nonneg _ Hg). lia.
Qed.

Lemma tb_AllowN_ok now t key n l :
  tb_ok now l -> now <= t -> 0 <= n <= int64_max -> tb_ok t (AllowN t key n l).1.
Proof.
  intros Hok Ht Hn. pose proof (bucket_of_ok now t key l Hok Ht) as (Hg & Hf & Hl).
  destruct Hok as (Hr & Hb & Hall). simpl. unfold TokenBucket.AllowN.
  set (b := TokenBucket.bucket_of t key l) in *.
  destruct (refill_bounds _ _ _ _ Hr Hb Hg Hf (elapsed_range _ _ Hl)) as [Hg1 [_ Hf1]].
  set (tokens1 := TokenBucket.refill _ _ _ _) in *.
  assert (map_Forall (fun _ b => bucket_ok (TokenBucket.burst l) t b) (TokenBucket.buckets l)) as Hall'.
  { eapply map_Forall_impl; [exact Hall|]. intros k b' (? & ? & ?). split_and!; [done|done|lia]. }
  rewrite leb_val by auto using of_int_good. destruct (Z.leb_spec (val (F64.of_int n)) (val tokens1));
    (split_and!; [done|apply Hb|apply Hb|]); simpl; (apply map_Forall_insert_2; [|done]).
  - destruct (sub_bounds tokens1 n Hg1 Hn) as [? ?]; [done|]. split_and!; simpl; [done|lia|lia].
  - split_and!; simpl; [done|lia|lia].
Qed.

Lemma tb_cleanup_ok now t l : tb_ok now l -> now <= t -> tb_ok t (cleanup t l).
Proof.
  intros (Hr & Hb & Hall) Ht. split_and!; [done|apply Hb|apply Hb|]. simpl.
  apply map_Forall_lookup. intros k b [Hk _]%map_lookup_filter_Some.
  destruct (Hall _ _ Hk) as (? & ? & ?). split_and!; [done|done|lia].
Qed.

(** The integer bucket that the floating-point one behaves like at one
    instant. *)
Fixpoint greedy (left : Z) (ns : list Z) : list bool :=
  match ns with
  | [] => []
  | n :: ns' => if n <=? left then true :: greedy (left - n) ns' else false :: greedy left ns'
  end.

Lemma burst_exact now key l k ns :
  good (TokenBucket.rate l) -> 0 <= TokenBucket.burst l < 2 ^ 53 ->
  TokenBucket.lastCheck (TokenBucket.bucket_of now key l) = now ->
  good (TokenBucket.tokens (TokenBucket.bucket_of now key l)) ->
  val (TokenBucket.tokens (TokenBucket.bucket_of now key l)) = k * U 0 ->
  0 <= k <= TokenBucket.burst l -> Forall (fun n => 0 <= n < 2 ^ 53) ns ->
  (run (fun l n => AllowN now key n l) l ns).2 = greedy k ns.
Proof.
  intros Hr Hb Hl Hg Hv Hk Hns. pose proof (U_pos 0 ltac:(lia)) as HU. revert l k Hr Hb Hl Hg Hv Hk.
  induction Hns as [|n ns Hn _ IH]; intros l k Hr Hb Hl Hg Hv Hk; [done|].
  cbn [run greedy]. destruct (AllowN now key n l) as [l' ok] eqn:E.
  simpl in E. unfold TokenBucket.AllowN in E. rewrite Hl in E.
  set (b := TokenBucket.bucket_of now key l) in *.
  destruct (of_int_exact (TokenBucket.burst l)) as [_ Hvb]; [lia|].
  assert (val (TokenBucket.tokens b) <= val (F64.of_int (TokenBucket.burst l))) as Hf
    by (rewrite Hvb, Hv; apply Z.mul_le_mono_nonneg_r; lia).
  assert (0 <= TokenBucket.burst l <= int64_max) as Hbm by (unfold int64_max; lia).
  assert (Time_Sub now now = 0) as H0 by (unfold Time_Sub, int64_min, int64_max; lia).
  pose proof (refill_now _ _ _ _ Hr Hbm Hg Hf (elapsed_range now now ltac:(lia)) H0) as Hrv.
  destruct (refill_bounds _ _ _ _ Hr Hbm Hg Hf (elapsed_range now now ltac:(lia))) as [Hrg _].
  set (tokens1 := TokenBucket.refill _ _ _ _) in *. rewrite Hv in Hrv.
  destruct (of_int_exact n) as [Hgn Hvn]; [lia|].
  rewrite leb_val, Hrv, Hvn in E by done.
  assert ((n * U 0 <=? k * U 0) = (n <=? k)) as Hcmp.
  { apply eq_iff_eq_true. rewrite !Z.leb_le. symmetry. by apply Z.mul_le_mono_pos_r. }
  rewrite Hcmp in E. destruct (Z.leb_spec n k); simplify_eq.
  - match goal with |- context [run _ ?l1 ns] => specialize (IH l1 (k - n)) end.
    destruct (rounds_value _ _ (sub_rounds tokens1 (F64.of_int n) Hrg Hgn ltac:(lia))) as [Hgs Hvs].
    { rewrite Hrv, Hvn, <- Z.mul_sub_distr_r. apply repr_int. lia. }
    simpl in IH. unfold TokenBucket.bucket_of in IH. simpl in IH. rewrite lookup_insert_eq in IH.
    specialize (IH Hr Hb eq_refl Hgs ltac:(simpl; lia) ltac:(lia)).
    destruct (run _ _ ns). simpl in *. by rewrite IH.
  - match goal with |- context [run _ ?l1 ns] => specialize (IH l1 k) end.
    simpl in IH. unfold TokenBucket.bucket_of in IH. simpl in IH. rewrite lookup_insert_eq in IH.
    specialize (IH Hr Hb eq_refl Hrg Hrv ltac:(lia)).
    destruct (run _ _ ns). simpl in *. by rewrite IH.
Qed.

(** ** Sliding windows *)

(** The limiter's numbers are small enough to be exact. *)
Definition sw_ok (l : SlidingWindow.SlidingWindowLimiter) : Prop :=
  0 < SlidingWindow.windowSize l < 2 ^ 52 /\ 0 <= SlidingWindow.rate l < 2 ^ 52.

Definition window_inv (l : SlidingWindow.SlidingWindowLimiter) (w : SlidingWindow.slidingWindow) : Prop :=
  0 <= SlidingWindow.prevCount w <= SlidingWindow.rate l /\
  0 <= SlidingWindow.currCount w <= SlidingWindow.rate l /\
  SlidingWindow.currWindow w mod SlidingWindow.windowSize l = 0.

Lemma Truncate_spec t d :
  0 < d -> Time_Truncate t d mod d = 0 /\ 0 <= t - Time_Truncate t d < d.
Proof.
  intros Hd. unfold Time_Truncate. rewrite (proj2 (Z.leb_gt d 0)) by lia.
  pose proof (Z.mod_pos_bound t d Hd). split; [|lia].
  apply Z.mod_divide; [lia|]. exists (t / d). pose proof (Z.div_mod t d). lia.
Qed.

(** Rotation brings the window to the current one and forgets counts of
    earlier ones. *)
Lemma rotate_spec l W w :
  sw_ok l -> window_inv l w -> W mod SlidingWindow.windowSize l = 0 ->
  SlidingWindow.currWindow w <= W ->
  let w' := SlidingWindow.rotate (SlidingWindow.windowSize l) W w in
  window_inv l w' /\ SlidingWindow.currWindow w' = W /\
  SlidingWindow.currCount w' =
    (if SlidingWindow.currWindow w =? W then SlidingWindow.currCount w else 0).
Proof.
  intros [Hs Hr] (Hp & Hc & Hm) HW Hle. unfold SlidingWindow.rotate, Time_After.
  destruct (Z.ltb_spec (SlidingWindow.currWindow w) W) as [Hlt|Hge].
  - assert (SlidingWindow.windowSize l <= W - SlidingWindow.currWindow w) as Hd.
    { apply Z.mod_divide in Hm as [a Ha]; [|lia]. apply Z.mod_divide in HW as [b Hb]; [|lia].
      assert (a < b) by (apply (Z.mul_lt_mono_pos_r (SlidingWindow.windowSize l)); lia).
      assert (1 * SlidingWindow.windowSize l <= (b - a) * SlidingWindow.windowSize l)
        by (apply Z.mul_le_mono_nonneg_r; lia). lia. }
    assert (SlidingWindow.windowSize l <= Time_Sub W (SlidingWindow.currWindow w)) as Hd'
      by (unfold Time_Sub, int64_max, int64_min; lia).
    rewrite (proj2 (Z.eqb_neq _ _)) by lia. rewrite (proj2 (Z.leb_le _ _) Hd').
    destruct (_ <=? _); unfold window_inv; simpl; split_and!; done || lia.
  - assert (SlidingWindow.currWindow w = W) as -> by lia. rewrite Z.eqb_refl.
    split_and!; try done; lia.
Qed.

(** The weighted count is at least the current one, and equals it when the
    previous window was empty. *)
Lemma weighted_count_spec l elapsed w :
  sw_ok l -> window_inv l w -> 0 <= elapsed < SlidingWindow.windowSize l ->
  let c := SlidingWindow.weighted_count (SlidingWindow.windowSize l) elapsed w in
  (good c /\ SlidingWindow.currCount w * U 0 <= val c \/ infinite c) /\
  (SlidingWindow.prevCount w = 0 -> good c /\ val c = SlidingWindow.currCount w * U 0).
Proof.
  intros [Hs Hr] (Hp & Hc & _) He. pose proof (U_pos 0 ltac:(lia)) as HU.
  unfold SlidingWindow.weighted_count.
  destruct (of_int_exact elapsed) as [Hge Hve]; [lia|].
  destruct (of_int_exact (SlidingWindow.windowSize l)) as [Hgs Hvs]; [lia|].
  destruct (of_int_exact 1) as [Hg1 Hv1]; [lia|].
  destruct (of_int_exact (SlidingWindow.prevCount w)) as [Hgp Hvp]; [lia|].
  destruct (of_int_exact (SlidingWindow.currCount w)) as [Hgc Hvc]; [lia|].
  destruct (div_rounds _ _ Hge Hgs) as (_ & Hup & _); [rewrite Hvs; lia|].
  destruct (Hup (1 * U 0)) as [Hgd Hvd]; [apply (repr_int 1); lia| |].
  { rewrite Hve, Hvs, Z.mul_1_l.
    replace (U 0 * (SlidingWindow.windowSize l * U 0))
      with (SlidingWindow.windowSize l * U 0 * U 0) by ring.
    do 2 (apply Z.mul_le_mono_nonneg_r; [lia|]). lia. }
  destruct (sub_rounds _ _ Hg1 Hgd) as (_ & Hup2 & _); [lia|].
  pose proof (val_nonneg _ Hgd) as Hd0.
  destruct (Hup2 (1 * U 0)) as [Hgw _]; [apply (repr_int 1); lia|lia|].
  set (weight := F64.sub _ _) in *. pose proof (mul_rounds _ _ Hgp Hgw) as Hm.
  split.
  - destruct Hm as ([Hgm|Him] & _).
    + destruct (add_rounds _ _ Hgm Hgc) as ([Hga|Hia] & _ & Hdn); [left|by right].
      split; [done|]. pose proof (val_nonneg _ Hgm). apply Hdn; [apply repr_int; lia|lia|done].
    + right. by apply add_infinite_l.
  - intros H0. rewrite H0 in *.
    destruct (rounds_value_div _ _ 0 _ HU Hm) as [Hgm Hvm]; [apply (repr_int 0); lia|lia|].
    pose proof (add_rounds _ _ Hgm Hgc) as Ha. rewrite Hvm, Hvc in Ha.
    apply rounds_value in Ha as [Hga Hva]; [by split|]. apply repr_int. lia.
Qed.

(** An admitted request keeps the current window within the limit; with an
    empty previous window exactly those that do are admitted. *)
Lemma window_admits l elapsed w n :
  sw_ok l -> window_inv l w -> 0 <= elapsed < SlidingWindow.windowSize l -> 0 <= n < 2 ^ 52 ->
  let ok := F64.leb (F64.add (SlidingWindow.weighted_count (SlidingWindow.windowSize l) elapsed w)
                             (F64.of_int n)) (F64.of_int (SlidingWindow.rate l)) in
  (ok = true -> SlidingWindow.currCount w + n <= SlidingWindow.rate l) /\
  (SlidingWindow.prevCount w = 0 -> SlidingWindow.currCount w + n <= SlidingWindow.rate l -> ok = true).
Proof.
  intros Hok Hinv He Hn. pose proof (weighted_count_spec l elapsed w Hok Hinv He) as [Hc H0].
  pose proof Hok as [Hs Hr]. pose proof Hinv as (Hp & Hcc & _). pose proof (U_pos 0 ltac:(lia)) as HU.
  destruct (of_int_exact n) as [Hgn Hvn]; [lia|].
  destruct (of_int_exact (SlidingWindow.rate l)) as [Hgr Hvr]; [lia|].
  set (c := SlidingWindow.weighted_count _ _ _) in *. split.
  - destruct Hc as [[Hgc Hvc]|Hic].
    + destruct (add_rounds _ _ Hgc Hgn) as ([Hga|Hia] & _ & Hdn); [|by rewrite leb_infinite].
      rewrite leb_val, Hvr by done. rewrite Z.leb_le. intros Hle.
      specialize (Hdn ((SlidingWindow.currCount w + n) * U 0)).
      assert ((SlidingWindow.currCount w + n) * U 0 <= SlidingWindow.rate l * U 0) as H.
      { etransitivity; [apply Hdn|exact Hle]; [apply repr_int; lia|lia|done]. }
      by apply Z.mul_le_mono_pos_r in H.
    + by rewrite leb_infinite by auto using add_infinite_l.
  - intros Hp0 Hle. destruct (H0 Hp0) as [Hgc Hvc].
    pose proof (add_rounds _ _ Hgc Hgn) as Ha. rewrite Hvc, Hvn, <- Z.mul_add_distr_r in Ha.
    apply rounds_value in Ha as [Hga Hva]; [|apply repr_int; lia].
    rewrite leb_val, Hva, Hvr by done. apply Z.leb_le, Z.mul_le_mono_nonneg_r; lia.
Qed.

(** The requests a key asks for, and those of them that are admitted. *)
Definition asked (key : string) (cs : list call) : list Z :=
  omap (fun c => match c with
                 | CAllowN _ k n => if decide (k = key) then Some n else None
                 | CCleanup _ => None
                 end) cs.

Fixpoint admitted (ns : list Z) (oks : list bool) : Z :=
  match ns, oks with
  | n :: ns', ok :: oks' => (if (ok : bool) then n else 0) + admitted ns' oks'
  | _, _ => 0
  end.

Section OneWindow.
Context (key : string) (W : Time).

(** The requests already counted in the window [W]. *)
Definition counted (l : SlidingWindow.SlidingWindowLimiter) : Z :=
  match SlidingWindow.windows l !! key with
  | Some w => if SlidingWindow.currWindow w =? W then SlidingWindow.currCount w else 0
  | None => 0
  end.

Definition key_ok (l : SlidingWindow.SlidingWindowLimiter) : Prop :=
  sw_ok l /\
  match SlidingWindow.windows l !! key with
  | Some w => window_inv l w /\ SlidingWindow.currWindow w <= W
  | None => True
  end.

(** No request was counted in the window before. *)
Definition fresh_before (l : SlidingWindow.SlidingWindowLimiter) : Prop :=
  match SlidingWindow.windows l !! key with
  | Some w => SlidingWindow.prevCount w = 0 /\ SlidingWindow.currWindow w = W
  | None => True
  end.

Lemma sw_step t n l l' ok :
  key_ok l -> Time_Truncate t (SlidingWindow.windowSize l) = W -> 0 <= n < 2 ^ 52 ->
  AllowN t key n l = (l', ok) ->
  key_ok l' /\ SlidingWindow.rate l' = SlidingWindow.rate l /\
  SlidingWindow.windowSize l' = SlidingWindow.windowSize l /\
  counted l' = counted l + (if ok then n else 0) /\
  (ok = true -> counted l + n <= SlidingWindow.rate l) /\
  (fresh_before l -> fresh_before l' /\ ok = (counted l + n <=? SlidingWindow.rate l)).
Proof.
  intros [Hsw Hkey] Ht Hn E. pose proof Hsw as [Hs Hr]. simpl in E.
  unfold SlidingWindow.AllowN in E. rewrite Ht in E.
  destruct (Truncate_spec t (SlidingWindow.windowSize l)) as [HW Hel]; [lia|]. rewrite Ht in *.
  set (w0 := SlidingWindow.window_of t key l) in *.
  assert (window_inv l w0 /\ SlidingWindow.currWindow w0 <= W /\
    counted l = (if SlidingWindow.currWindow w0 =? W then SlidingWindow.currCount w0 else 0) /\
    (fresh_before l -> SlidingWindow.prevCount w0 = 0 /\ SlidingWindow.currWindow w0 = W))
    as (Hinv & Hle & Hcnt & Hfresh).
  { unfold w0, SlidingWindow.window_of, counted, fresh_before.
    destruct (SlidingWindow.windows l !! key) as [w|]; [by destruct Hkey|].
    simpl. rewrite Ht, Z.eqb_refl. unfold window_inv. simpl. split_and!; done || lia. }
  destruct (rotate_spec l W w0 Hsw Hinv HW Hle) as (Hinv' & Hcw & Hcc).
  assert (fresh_before l -> SlidingWindow.prevCount
    (SlidingWindow.rotate (SlidingWindow.windowSize l) W w0) = 0) as Hfr'.
  { intros [? HcW]%Hfresh. unfold SlidingWindow.rotate, Time_After. rewrite HcW.
    by rewrite Z.ltb_irrefl. }
  set (w' := SlidingWindow.rotate _ _ _) in *. rewrite <- Hcnt in Hcc.
  assert (Time_Sub t W = t - W) as Hsub by (unfold Time_Sub, int64_min, int64_max; lia).
  rewrite Hsub in E.
  destruct (window_admits l (t - W) w' n Hsw Hinv' ltac:(lia) Hn) as [Hadm Hexact].
  destruct Hinv' as (Hp & Hc & Hm). unfold key_ok, counted, fresh_before, sw_ok, window_inv.
  destruct (F64.leb _ _); simplify_eq/=; rewrite lookup_insert_eq; simpl; rewrite Hcw, Z.eqb_refl.
  - specialize (Hadm eq_refl).
    unfold add64. rewrite wrap64_id by (unfold in_int64, int64_min, int64_max; lia).
    fold (counted l). split_and!; try done; try lia.
    intros Hf. split; [by auto|]. symmetry. apply Z.leb_le. lia.
  - fold (counted l). split_and!; try done; try lia.
    intros Hf. split; [by auto|]. destruct (Z.leb_spec (counted l + n) (SlidingWindow.rate l)); [|done].
    rewrite Hcc in Hexact. by apply Hexact; auto.
Qed.

(** Only the key's own window matters. *)
Lemma agree_window l l' :
  SlidingWindow.agree key l l' -> key_ok l' ->
  key_ok l /\ SlidingWindow.rate l = SlidingWindow.rate l' /\
  SlidingWindow.windowSize l = SlidingWindow.windowSize l' /\ counted l = counted l' /\
  (fresh_before l' -> fresh_before l).
Proof.
  intros (Hr & Hs & Hk). unfold key_ok, counted, fresh_before, sw_ok, window_inv.
  by rewrite Hr, Hs, Hk.
Qed.

(** A cleanup tick inside the window keeps it: it is not ten minutes old. *)
Lemma cleanup_window t l :
  key_ok l -> Time_Truncate t (SlidingWindow.windowSize l) = W ->
  SlidingWindow.windowSize l <= 10 * Minute ->
  key_ok (cleanup t l) /\ counted (cleanup t l) = counted l /\
  (fresh_before l -> fresh_before (cleanup t l)).
Proof.
  intros [Hsw Hkey] Ht Hs. destruct (Truncate_spec t (SlidingWindow.windowSize l)) as [_ Hel];
    [apply Hsw|]. rewrite Ht in Hel. unfold key_ok, counted, fresh_before. simpl.
  rewrite map_lookup_filter.
  destruct (SlidingWindow.windows l !! key) as [w|]; simpl; [|by split; [split|]].
  case_guard as Hg; simpl; [by split; [split|]|]. split; [by split|]. split; [|done].
  destruct (Z.eqb_spec (SlidingWindow.currWindow w) W) as [He|]; [|done].
  exfalso. apply Hg. simpl. rewrite He. unfold Time_Sub, Minute, Second, int64_max, int64_min in *. lia.
Qed.

(** The calls of one window: requests of the key for not too many units at a
    time, requests of other keys, and cleanup ticks. *)
Definition in_window (size : Duration) (c : call) : Prop :=
  match c with
  | CAllowN t k n => k = key -> Time_Truncate t size = W /\ 0 <= n < 2 ^ 52
  | CCleanup t => Time_Truncate t size = W
  end.

Lemma sw_exec c cs l :
  key_ok l -> counted l <= SlidingWindow.rate l -> SlidingWindow.windowSize l <= 10 * Minute ->
  in_window (SlidingWindow.windowSize l) c ->
  let '(l', r) := exec l c in
  key_ok l' /\ SlidingWindow.rate l' = SlidingWindow.rate l /\
  SlidingWindow.windowSize l' = SlidingWindow.windowSize l /\
  counted l' <= SlidingWindow.rate l /\
  (forall oks, counted l + admitted (asked key (c :: cs)) (answers key [r] ++ oks) =
     counted l' + admitted (asked key cs) oks) /\
  (fresh_before l -> fresh_before l' /\
     greedy (SlidingWindow.rate l - counted l) (asked key (c :: cs)) =
     answers key [r] ++ greedy (SlidingWindow.rate l - counted l') (asked key cs)).
Proof.
  intros Hok Hle Hs Hc. destruct c as [t k n|t]; cbn -[cleanup].
  - destruct (AllowN t k n l) as [l' ok] eqn:E. cbn in E. rewrite E. simpl.
    destruct (decide (k = key)) as [->|Hne]; simpl.
    + destruct (Hc eq_refl) as [Ht Hn].
      destruct (sw_step t n l l' ok Hok Ht Hn E) as (? & ? & ? & Hcnt & Hadm & Hfr).
      assert (counted l' <= SlidingWindow.rate l) as Hle'
        by (rewrite Hcnt; destruct ok; [by apply Hadm|lia]).
      fold (asked key cs).
      split_and!; try done; [intros oks; rewrite Hcnt; destruct ok; lia|].
      intros [? Hok']%Hfr. split; [done|]. rewrite Hcnt.
      assert ((n <=? SlidingWindow.rate l - counted l) = ok) as ->
        by (rewrite Hok'; apply eq_iff_eq_true; rewrite !Z.leb_le; lia).
      destruct ok; do 2 f_equal; lia.
    + pose proof (AllowN_other k key t n l Hne) as Ha. cbn in Ha. rewrite E in Ha.
      destruct (agree_window l' l Ha Hok) as (? & ? & ? & -> & ?). by split_and!; auto.
  - destruct (cleanup_window t l Hok Hc Hs) as (? & -> & ?). by split_and!; auto.
Qed.

Lemma sw_run l cs :
  key_ok l -> counted l <= SlidingWindow.rate l -> SlidingWindow.windowSize l <= 10 * Minute ->
  Forall (in_window (SlidingWindow.windowSize l)) cs ->
  counted l + admitted (asked key cs) (answers key (run exec l cs).2) <= SlidingWindow.rate l /\
  (fresh_before l ->
   answers key (run exec l cs).2 = greedy (SlidingWindow.rate l - counted l) (asked key cs)).
Proof.
  intros Hok Hle Hs Hcs. remember (SlidingWindow.windowSize l) as size eqn:Hsize.
  revert l Hok Hle Hsize. induction Hcs as [|c cs Hc _ IH]; intros l Hok Hle ->; [by split; simpl; [lia|]|].
  pose proof (sw_exec c cs l Hok Hle Hs Hc) as Hstep. cbn [run].
  destruct (exec l c) as [l1 r]. destruct Hstep as (Hok1 & Hr1 & Hs1 & Hc1 & Hadm & Hfr).
  destruct (IH l1 Hok1 ltac:(lia) (eq_sym Hs1)) as [IHs IHg]. destruct (run exec l1 cs) as [l2 rs].
  cbn [snd] in *. change (r :: rs) with ([r] ++ rs). rewrite answers_app. split.
  - rewrite Hadm. lia.
  - intros [Hf ->]%Hfr. by rewrite IHg, Hr1.
Qed.
End OneWindow.

(** ** The proxy's limiter *)

(** The proxy's limiter is a copy of the package's token bucket. *)
Definition as_token_bucket (l : ProxyLimiter.RateLimiter) : TokenBucket.TokenBucketLimiter :=
  TokenBucket.mkLimiter (ProxyLimiter.rate l) (ProxyLimiter.burst l)
    ((fun b => TokenBucket.mkBucket (ProxyLimiter.tokens b) (ProxyLimiter.lastCheck b)) <$>
       ProxyLimiter.buckets l)
    (ProxyLimiter.cleanupTick l) false.

Lemma as_token_bucket_of now key l :
  TokenBucket.bucket_of now key (as_token_bucket l) =
    let b := ProxyLimiter.bucket_of now key l in
    TokenBucket.mkBucket (ProxyLimiter.tokens b) (ProxyLimiter.lastCheck b).
Proof.
  unfold TokenBucket.bucket_of, ProxyLimiter.bucket_of. simpl. rewrite lookup_fmap.
  by destruct (ProxyLimiter.buckets l !! key).
Qed.

Lemma proxy_Allow now key l :
  ProxyLimiter.enabled l = true ->
  Allow now key (as_token_bucket l) =
    let '(l', ok) := ProxyLimiter.Allow now key l in (as_token_bucket l', ok).
Proof.
  intros He. unfold ProxyLimiter.Allow. rewrite He. simpl. unfold TokenBucket.Allow, TokenBucket.AllowN.
  rewrite as_token_bucket_of. simpl. change ProxyLimiter.refill with TokenBucket.refill.
  destruct (F64.leb _ _); unfold as_token_bucket, TokenBucket.with_buckets; simpl; by rewrite fmap_insert.
Qed.

Lemma proxy_cleanup now l :
  as_token_bucket (ProxyLimiter.cleanup now l) = cleanup now (as_token_bucket l).
Proof.
  unfold as_token_bucket, ProxyLimiter.cleanup. simpl. unfold TokenBucket.cleanup, TokenBucket.with_buckets.
  simpl. f_equal. apply map_eq. intros k.
  rewrite lookup_fmap, !map_lookup_filter, lookup_fmap.
  destruct (ProxyLimiter.buckets l !! k) as [b|]; simpl; [|done]. by case_guard.
Qed.

(** The proxy asks for one request at a time. *)
Definition proxy_exec (l : ProxyLimiter.RateLimiter) (c : call) :
    ProxyLimiter.RateLimiter * option (string * bool) :=
  match c with
  | CAllowN now key _ => let '(l', ok) := ProxyLimiter.Allow now key l in (l', Some (key, ok))
  | CCleanup now => (ProxyLimiter.cleanup now l, None)
  end.

Definition single (c : call) : call :=
  match c with CAllowN now key _ => CAllowN now key 1 | CCleanup now => CCleanup now end.

Lemma single_filter key (cs : list call) :
  filter (fun c => concerns key c) (single <$> cs) = single <$> filter (fun c => concerns key c) cs.
Proof.
  induction cs as [|c cs IH]; [done|]. rewrite fmap_cons, !filter_cons.
  destruct c as [now k n|now]; simpl; [|by rewrite IH].
  destruct (bool_decide (k = key)); simpl; by rewrite IH.
Qed.

Lemma asked_filter key cs : asked key (filter (fun c => concerns key c) cs) = asked key cs.
Proof.
  induction cs as [|c cs IH]; [done|]. rewrite filter_cons. destruct c as [now k n|now]; simpl; [|done].
  destruct (decide (k = key)) as [Hk|Hk].
  - rewrite bool_decide_true by done. simpl. by rewrite decide_True, IH by done.
  - by rewrite bool_decide_false.
Qed.

Lemma proxy_enabled c l : ProxyLimiter.enabled (proxy_exec l c).1 = ProxyLimiter.enabled l.
Proof.
  destruct c as [now k n|now]; [|done]. simpl. unfold ProxyLimiter.Allow.
  destruct (ProxyLimiter.enabled l) eqn:E; [|done]. by destruct (F64.leb _ _).
Qed.

Lemma proxy_run l cs :
  ProxyLimiter.enabled l = true ->
  (run proxy_exec l cs).2 = (run exec (as_token_bucket l) (single <$> cs)).2.
Proof.
  revert l. induction cs as [|c cs IH]; intros l He; [done|].
  pose proof (proxy_enabled c l) as He1. rewrite fmap_cons. cbn [run].
  assert (exec (as_token_bucket l) (single c) =
    (as_token_bucket (proxy_exec l c).1, (proxy_exec l c).2)) as ->.
  { destruct c as [now k n|now]; cbn -[cleanup Allow AllowN].
    - rewrite <- Allow_one, proxy_Allow by done. by destruct (ProxyLimiter.Allow now k l).
    - by rewrite proxy_cleanup. }
  destruct (proxy_exec l c) as [l1 r]. simpl in *. specialize (IH l1 (eq_trans He1 He)).
  destruct (run proxy_exec l1 cs), (run exec _ _). simpl in *. by rewrite IH.
Qed.

Lemma proxy_disabled key l cs :
  ProxyLimiter.enabled l = false ->
  answers key (run proxy_exec l cs).2 = (fun _ => true) <$> asked key (single <$> cs).
Proof.
  revert l. induction cs as [|c cs IH]; intros l He; [done|].
  pose proof (proxy_enabled c l) as He1. cbn [run]. rewrite fmap_cons.
  destruct (proxy_exec l c) as [l1 r] eqn:E. specialize (IH l1 (eq_trans He1 He)).
  destruct (run proxy_exec l1 cs). simpl in *. destruct c as [now k n|now]; simpl in *.
  - unfold ProxyLimiter.Allow in E. rewrite He in E. simplify_eq/=.
    destruct (decide (k = key)); simpl; by rewrite IH.
  - by simplify_eq/=.
Qed.

(** ** Properties *)

(** C5.  Token counts stay within their bucket: under any sequence of calls of
    any keys and cleanups, at times that never go back, every bucket of a
    token bucket limiter holds a finite number of tokens between 0 and the
    burst; floating-point rounding never pushes it out. *)
Theorem token_bucket_bounded rate burst now cs :
  good rate -> 0 <= burst <= int64_max -> ordered now cs ->
  map_Forall (fun _ b => good (TokenBucket.tokens b) /\
      0 <= val (TokenBucket.tokens b) <= val (F64.of_int burst))
    (TokenBucket.buckets (run exec (TokenBucket.NewTokenBucketLimiter rate burst) cs).1).
Proof.
  intros Hr Hb Hcs.
  assert (tb_ok now (TokenBucket.NewTokenBucketLimiter rate burst)) as Hok
    by (split_and!; [done|apply Hb|apply Hb|apply map_Forall_empty]).
  assert (exists t, tb_ok t (run exec (TokenBucket.NewTokenBucketLimiter rate burst) cs).1 /\
    TokenBucket.burst (run exec (TokenBucket.NewTokenBucketLimiter rate burst) cs).1 = burst)
    as (t & (_ & _ & Hall) & Hbr).
  { change burst with (TokenBucket.burst (TokenBucket.NewTokenBucketLimiter rate burst)) at 3.
    generalize dependent (TokenBucket.NewTokenBucketLimiter rate burst).
    revert now Hcs. induction cs as [|c cs IH]; intros now Hcs l Hok; [by exists now|].
    destruct c as [t key n|t]; cbn [run exec].
    - destruct Hcs as (Ht & Hn & Hcs). pose proof (tb_AllowN_ok now t key n l Hok Ht Hn) as Hok1.
      assert (TokenBucket.burst (AllowN t key n l).1 = TokenBucket.burst l) as Hb1
        by (simpl; unfold TokenBucket.AllowN; by case_match).
      destruct (AllowN t key n l) as [l1 ok].
      destruct (IH t Hcs l1 Hok1) as (t' & ? & ?). destruct (run exec l1 cs). exists t'.
      simpl in *. split; congruence.
    - destruct Hcs as (Ht & Hcs). pose proof (tb_cleanup_ok now t l Hok Ht) as Hok1.
      destruct (IH t Hcs (cleanup t l) Hok1) as (t' & ? & ?).
      destruct (run exec (cleanup t l) cs). by exists t'. }
  rewrite Hbr in Hall. eapply map_Forall_impl; [exact Hall|]. intros k b (Hg & Hv & _).
  split; [done|]. pose proof (val_nonneg _ Hg). lia.
Qed.

(** C19.  A burst is exact: at one instant, a key without a bucket gets exactly
    what an integer counter of [burst] tokens would give, whatever the rate:
    each call for [n] requests is admitted when [n] tokens are left, and then
    takes them. *)
Theorem token_bucket_burst now key l ns :
  good (TokenBucket.rate l) -> 0 <= TokenBucket.burst l < 2 ^ 53 ->
  TokenBucket.buckets l !! key = None -> Forall (fun n => 0 <= n < 2 ^ 53) ns ->
  (run (fun l n => AllowN now key n l) l ns).2 = greedy (TokenBucket.burst l) ns.
Proof.
  intros Hr Hb Hk Hns. destruct (of_int_exact (TokenBucket.burst l)) as [Hg Hv]; [done|].
  apply burst_exact; try done; try lia; unfold TokenBucket.bucket_of; by rewrite Hk.
Qed.

(** An idle key recovers: after [s] whole seconds in which [r] requests per
    second amount to at least the burst, a call for up to [burst] requests is
    admitted, whatever the key did before. *)
Theorem idle_key_recovers now t key l b s r n :
  tb_ok t l -> TokenBucket.buckets l !! key = Some b ->
  TokenBucket.rate l = F64.of_int r -> 0 <= r < 2 ^ 53 -> TokenBucket.burst l < 2 ^ 53 ->
  now = TokenBucket.lastCheck b + s * Second -> 0 <= s -> s * Second <= int64_max ->
  TokenBucket.burst l <= s * r -> 0 <= n <= TokenBucket.burst l ->
  (AllowN now key n l).2 = true.
Proof.
  intros (Hrate & Hb & Hall) Hk Hr Hr53 Hb53 -> Hs Hmax Hsr Hn.
  destruct (Hall _ _ Hk) as (Hg & Hf & _). simpl. unfold TokenBucket.AllowN, TokenBucket.bucket_of.
  rewrite Hk. replace (Time_Sub _ _) with (s * Second)
    by (unfold Time_Sub, Second, int64_min, int64_max in *; lia).
  assert (0 <= s * Second <= int64_max) as He by (unfold Second in *; lia).
  destruct (refill_bounds _ _ _ _ Hrate Hb Hg Hf He) as [Hgr _].
  pose proof (refill_full _ _ _ _ Hrate Hb Hg He s r eq_refl Hr Hs Hr53 Hb53 Hsr) as Hfull.
  destruct (of_int_exact n) as [Hgn Hvn]; [lia|].
  rewrite leb_val, Hfull, Hvn by done.
  rewrite (proj2 (Z.leb_le _ _)); [done|].
  apply Z.mul_le_mono_nonneg_r; [|lia]. pose proof (U_pos 0 ltac:(lia)). lia.
Qed.

(** C6.  A window is never exceeded: in a limiter whose windows are at most ten
    minutes long (the package's own configuration makes them one second), at
    most [rate] requests of a key are admitted within one window, counting
    those admitted before, whatever happened in the window before it, under
    any interleaving with requests of other keys and cleanup ticks.  Rates, window
    sizes and requests are below 2^52, where [float64] counts exactly. *)
Theorem sliding_window_limit key W l cs :
  key_ok key W l -> counted key W l <= SlidingWindow.rate l ->
  SlidingWindow.windowSize l <= 10 * Minute ->
  Forall (in_window key W (SlidingWindow.windowSize l)) cs ->
  counted key W l + admitted (asked key cs) (answers key (run exec l cs).2) <= SlidingWindow.rate l.
Proof. intros Hok Hle Hs Hcs. by apply sw_run. Qed.

(** A quiet window is exact: when the window before was empty, the
    requests of a window are admitted exactly as an integer counter of [rate]
    requests would. *)
Theorem sliding_window_exact key W l cs :
  sw_ok l -> SlidingWindow.windowSize l <= 10 * Minute -> SlidingWindow.windows l !! key = None ->
  Forall (in_window key W (SlidingWindow.windowSize l)) cs ->
  answers key (run exec l cs).2 = greedy (SlidingWindow.rate l) (asked key cs).
Proof.
  intros Hok Hs Hk Hcs. assert (counted key W l = 0) as H0 by (unfold counted; by rewrite Hk).
  assert (key_ok key W l) as Hkey by (unfold key_ok; by rewrite Hk).
  destruct (sw_run key W l cs Hkey) as [_ Hg]; [rewrite H0; apply Hok|done|done|].
  rewrite H0, Z.sub_0_r in Hg. apply Hg. unfold fresh_before. by rewrite Hk.
Qed.

(** Longer windows are not safe: the cleanup deletes a window that began more
    than ten minutes ago, with its count, while it is still the current one,
    and the key starts again from zero. *)
Theorem long_window_forgotten key W t l w :
  SlidingWindow.windows l !! key = Some w -> SlidingWindow.currWindow w = W ->
  Time_Truncate t (SlidingWindow.windowSize l) = W -> 10 * Minute < Time_Sub t W ->
  counted key W l = SlidingWindow.currCount w /\ counted key W (cleanup t l) = 0.
Proof.
  intros Hk HW Ht Hold. unfold counted. simpl. rewrite map_lookup_filter, Hk, HW, Z.eqb_refl. simpl.
  rewrite option_guard_False; [done|]. simpl. rewrite HW. lia.
Qed.

(** C18.  Keys do not disturb each other: the answers that a key gets from a
    token bucket limiter, from a sliding window limiter or from the proxy's
    limiter, under any interleaving of requests and cleanup ticks, are those it
    would get if the other keys never called. *)
Theorem keys_isolated key cs (tb : TokenBucket.TokenBucketLimiter)
    (sw : SlidingWindow.SlidingWindowLimiter) (pl : ProxyLimiter.RateLimiter) :
  let own := filter (fun c => concerns key c) cs in
  answers key (run exec tb cs).2 = answers key (run exec tb own).2 /\
  answers key (run exec sw cs).2 = answers key (run exec sw own).2 /\
  answers key (run proxy_exec pl cs).2 = answers key (run proxy_exec pl own).2.
Proof.
  split_and!; [by apply run_agree|by apply run_agree|].
  destruct (ProxyLimiter.enabled pl) eqn:E.
  - rewrite !proxy_run, <- single_filter by done. by apply run_agree.
  - by rewrite !proxy_disabled, <- single_filter, asked_filter by done.
Qed.

(** C34.  The proxy's own limiter is the package's token bucket for single
    requests: when enabled, every call and every cleanup does to its buckets
    what the package's limiter does to the same buckets, with the same answer;
    when disabled it admits everything and keeps no state. *)
Theorem proxy_limiter_is_token_bucket now key l l' ok :
  ProxyLimiter.Allow now key l = (l', ok) ->
  (if ProxyLimiter.enabled l
   then Allow now key (as_token_bucket l) = (as_token_bucket l', ok)
   else l' = l /\ ok = true) /\
  as_token_bucket (ProxyLimiter.cleanup now l) = cleanup now (as_token_bucket l).
Proof.
  intros Ha. split.
  - destruct (ProxyLimiter.enabled l) eqn:E; [|unfold ProxyLimiter.Allow in Ha; by rewrite E in Ha; simplify_eq].
    by rewrite proxy_Allow, Ha.
  - apply proxy_cleanup.
Qed.

(** A request passes a multi-limiter when the global limiter and the
    chain's limiter both admit it.  The global limiter is asked first: when it
    refuses, the chain's is not charged, but when the chain's refuses, the
    global one has been charged already. *)
Theorem multi_limiter_both now1 now2 chain key m os g og c oc :
  Multi.global m = Some g -> os !! g = Some og ->
  Multi.perChain m !! chain = Some (Some c) -> os !! c = Some oc -> g <> c ->
  let '(og', ok1) := Multi.object_Allow now1 key og in
  let '(oc', ok2) := Multi.object_Allow now2 key oc in
  Multi.Allow now1 now2 chain key m os =
    Ret (if ok1 then (<[c := oc']> (<[g := og']> os), ok2) else (<[g := og']> os, false)).
Proof.
  intros Hg Hog Hc Hoc Hne. unfold Multi.Allow, Multi.call_Allow. rewrite Hg, Hc. simpl.
  rewrite Hog. simpl. destruct (Multi.object_Allow now1 key og) as [og' ok1]. simpl.
  rewrite lookup_insert_ne, Hoc by done. simpl.
  destruct (Multi.object_Allow now2 key oc) as [oc' ok2]. by destruct ok1.
Qed.

(** A disabled chain limiter is a trap: [NewLimiter] answers [nil] for a
    disabled configuration, [SetChainLimiter] stores it, and the next request
    for that chain that the global limiter admits panics. *)
Theorem disabled_chain_limiter_panics now1 now2 chain key cfg m os :
  Multi.Enabled cfg = false -> Multi.global m = None ->
  Multi.NewLimiter cfg = None /\
  Multi.Allow now1 now2 chain key (Multi.SetChainLimiter chain None m) os =
    Panic "invalid memory address or nil pointer dereference".
Proof.
  intros Hcfg Hg. unfold Multi.NewLimiter. rewrite Hcfg. split; [done|].
  unfold Multi.Allow, Multi.SetChainLimiter. simpl. rewrite Hg. simpl. by rewrite lookup_insert_eq.
Qed.

(** ** Witnesses *)

(** Ten requests per second, bursts of five. *)
Definition sample_limiter : TokenBucket.TokenBucketLimiter :=
  TokenBucket.NewTokenBucketLimiter (F64.of_int 10) 5.

Definition sample_calls : list call :=
  [CAllowN 100 "a" 3; CAllowN 100 "b" 5; CAllowN (100 + Second) "a" 1; CCleanup (100 + Second)].

Lemma token_bucket_bounded_witness :
  map_Forall (fun _ b => good (TokenBucket.tokens b) /\
      0 <= val (TokenBucket.tokens b) <= val (F64.of_int 5))
    (TokenBucket.buckets (run exec sample_limiter sample_calls).1).
Proof.
  apply (token_bucket_bounded (F64.of_int 10) 5 100 sample_calls);
    [reflexivity|split; discriminate|].
  repeat (split; [discriminate|]); repeat split; discriminate.
Defined.

Lemma token_bucket_burst_witness :
  (run (fun l n => AllowN 100 "a" n l) sample_limiter [2; 4; 1; 2; 1]).2 =
    [true; false; true; true; false].
Proof.
  apply (token_bucket_burst 100 "a" sample_limiter [2; 4; 1; 2; 1]);
    [reflexivity|split; [discriminate|reflexivity]|reflexivity|].
  repeat (constructor; [split; [discriminate|reflexivity]|]). constructor.
Defined.

Definition drained : TokenBucket.TokenBucketLimiter := (AllowN 100 "a" 5 sample_limiter).1.

Lemma idle_key_recovers_witness : (AllowN (100 + 1 * Second) "a" 5 drained).2 = true.
Proof.
  apply (idle_key_recovers (100 + 1 * Second) 100 "a" drained
           (TokenBucket.mkBucket (F64.sub (F64.of_int 5) (F64.of_int 5)) 100) 1 10 5);
    try reflexivity; try discriminate; try (split; [discriminate|reflexivity || discriminate]).
  apply (tb_AllowN_ok 100 100 "a" 5 sample_limiter); [|discriminate|split; discriminate].
  split_and!; [reflexivity|discriminate|discriminate|apply map_Forall_empty].
Defined.

(** A hundred requests per window of one second; thirty counted in the last
    one. *)
Definition sample_windows : SlidingWindow.SlidingWindowLimiter :=
  SlidingWindow.with_windows
    {["a" := SlidingWindow.mkWindow 0 30 0 (7 * Second) Second]}
    (SlidingWindow.NewSlidingWindowLimiter 100 1).

Definition window_calls : list call :=
  [CAllowN (8 * Second + 1) "a" 60; CAllowN (8 * Second + 2) "b" 100; CCleanup (8 * Second + 3);
   CAllowN (8 * Second + 4) "a" 20; CAllowN (8 * Second + 999999999) "a" 40].

Lemma sliding_window_limit_witness :
  admitted (asked "a" window_calls) (answers "a" (run exec sample_windows window_calls).2) <= 100.
Proof.
  apply (sliding_window_limit "a" (8 * Second) sample_windows window_calls).
  - split; [repeat split; discriminate || reflexivity|].
    split; [repeat split; discriminate || reflexivity|discriminate].
  - discriminate.
  - discriminate.
  - repeat (constructor; [repeat split; discriminate || reflexivity|]). constructor.
Defined.

Lemma sliding_window_exact_witness :
  answers "b" (run exec sample_windows window_calls).2 = [true].
Proof.
  apply (sliding_window_exact "b" (8 * Second) sample_windows window_calls);
    [repeat split; discriminate || reflexivity|discriminate|reflexivity|].
  repeat (constructor; [repeat split; discriminate || reflexivity|]). constructor.
Defined.

(** Sixty requests per window of twenty minutes: after a cleanup in the twelfth
    minute the same window admits sixty more. *)
Definition long_windows : SlidingWindow.SlidingWindowLimiter :=
  SlidingWindow.with_windows {["a" := SlidingWindow.mkWindow 0 60 0 0 (20 * Minute)]}
    (SlidingWindow.mkLimiter 60 (20 * Minute) ∅ (5 * Minute) false).

Lemma long_window_forgotten_witness :
  counted "a" 0 (cleanup (12 * Minute) long_windows) = 0 /\
  (run exec long_windows
     [CAllowN Minute "a" 1; CCleanup (12 * Minute); CAllowN (12 * Minute) "a" 60]).2 =
    [Some ("a", false); None; Some ("a", true)].
Proof.
  split; [|reflexivity].
  apply (long_window_forgotten "a" 0 (12 * Minute) long_windows
    (SlidingWindow.mkWindow 0 60 0 0 (20 * Minute))); reflexivity.
Defined.

Lemma keys_isolated_witness :
  answers "a" (run exec sample_limiter sample_calls).2 =
    answers "a" (run exec sample_limiter
      [CAllowN 100 "a" 3; CAllowN (100 + Second) "a" 1; CCleanup (100 + Second)]).2.
Proof.
  apply (keys_isolated "a" sample_calls sample_limiter sample_windows
    (ProxyLimiter.NewRateLimiter (Cfg.mkRateLimit true 10 1 "" true))).
Defined.

Definition sample_proxy : ProxyLimiter.RateLimiter :=
  ProxyLimiter.NewRateLimiter (Cfg.mkRateLimit true 10 1 "" true).

Lemma proxy_limiter_is_token_bucket_witness :
  Allow 5 "10.0.0.1" (as_token_bucket sample_proxy) =
    (as_token_bucket (ProxyLimiter.Allow 5 "10.0.0.1" sample_proxy).1, true).
Proof.
  apply (proxy_limiter_is_token_bucket 5 "10.0.0.1" sample_proxy _ true). reflexivity.
Defined.

(** A global limiter that admits and a chain limiter that does not. *)
Lemma multi_limiter_both_witness :
  exists os', Multi.Allow 100 100 "ethereum" "a"
    (Multi.SetChainLimiter "ethereum" (Some 1%nat) (Multi.NewMultiLimiter (Some 0%nat)))
    {[0%nat := Multi.OTokenBucket sample_limiter; 1%nat := Multi.OTokenBucket drained]} =
    Ret (os', false).
Proof.
  eexists. etransitivity.
  - apply (multi_limiter_both 100 100 "ethereum" "a"
      (Multi.SetChainLimiter "ethereum" (Some 1%nat) (Multi.NewMultiLimiter (Some 0%nat)))
      {[0%nat := Multi.OTokenBucket sample_limiter; 1%nat := Multi.OTokenBucket drained]}
      0%nat (Multi.OTokenBucket sample_limiter) 1%nat (Multi.OTokenBucket drained));
      reflexivity || discriminate.
  - reflexivity.
Defined.

Lemma disabled_chain_limiter_panics_witness :
  Multi.Allow 1 2 "ethereum" "a"
    (Multi.SetChainLimiter "ethereum" None (Multi.NewMultiLimiter None)) ∅ =
    Panic "invalid memory address or nil pointer dereference".
Proof.
  apply (disabled_chain_limiter_panics 1 2 "ethereum" "a"
    (Multi.mkConfig false 0 0 Multi.StrategyTokenBucket false) (Multi.NewMultiLimiter None) ∅);
    reflexivity.
Defined.

End Guarantees.
