(* ===== verification/Sha256.v ===== *)
(** * SHA-256, as [crypto/sha256] computes it, and [encoding/hex]

    The cache derives its keys from SHA-256 digests.  This is the hash function
    of FIPS 180-4 on strings, executable; its constants are computed from the
    primes they stand for. *)
From Stdlib Require Import ZArith Lia Ascii.
From stdpp Require Import list_numbers.
From S2P Require Import Prelude.

Module Sha256.

Definition bytes_of (s : string) : list Z :=
  (fun c => Z.of_N (N_of_ascii c)) <$> String.list_ascii_of_string s.

(** ** Words of 32 bits *)

Definition w32 (z : Z) : Z := Z.land z (2 ^ 32 - 1).
Definition rotr (x n : Z) : Z := Z.lor (Z.shiftr x n) (w32 (Z.shiftl x (32 - n))).
Definition xor3 (a b c : Z) : Z := Z.lxor a (Z.lxor b c).
Definition not32 (x : Z) : Z := 2 ^ 32 - 1 - x.

Definition ch (x y z : Z) : Z := Z.lxor (Z.land x y) (Z.land (not32 x) z).
Definition maj (x y z : Z) : Z := xor3 (Z.land x y) (Z.land x z) (Z.land y z).
Definition big_sigma0 (x : Z) : Z := xor3 (rotr x 2) (rotr x 13) (rotr x 22).
Definition big_sigma1 (x : Z) : Z := xor3 (rotr x 6) (rotr x 11) (rotr x 25).
Definition small_sigma0 (x : Z) : Z := xor3 (rotr x 7) (rotr x 18) (Z.shiftr x 3).
Definition small_sigma1 (x : Z) : Z := xor3 (rotr x 17) (rotr x 19) (Z.shiftr x 10).

(** ** Constants: the first 32 fractional bits of roots of the first primes *)

Definition is_prime (p : Z) : bool :=
  forallb (fun d => negb (p mod d =? 0)) (seqZ 2 (Z.sqrt p - 1)).

Definition primes : list Z := List.filter is_prime (seqZ 2 310).

(** The integer cube root, from its highest bit down. *)
Fixpoint cube_root (bits : nat) (acc n : Z) : Z :=
  match bits with
  | O => acc
  | S bits' =>
      let acc' := acc + 2 ^ Z.of_nat bits' in
      cube_root bits' (if acc' ^ 3 <=? n then acc' else acc) n
  end.

Definition round_constants : list Z :=
  Eval vm_compute in (fun p => w32 (cube_root 36 0 (p * 2 ^ 96))) <$> primes.

Definition initial_state : list Z :=
  Eval vm_compute in (fun p => w32 (Z.sqrt (p * 2 ^ 64))) <$> take 8 primes.

(** ** Compression *)

(** The message schedule, latest word first. *)
Fixpoint schedule (n : nat) (ws : list Z) : list Z :=
  match n with
  | O => ws
  | S n' =>
      let at_ i := nth i ws 0 in
      schedule n' (w32 (small_sigma1 (at_ 1%nat) + at_ 6%nat + small_sigma0 (at_ 14%nat)
                        + at_ 15%nat) :: ws)
  end.

Definition state := list Z.

Definition round (st : state) (kw : Z * Z) : state :=
  match st with
  | [a; b; c; d; e; f; g; h] =>
      let t1 := h + big_sigma1 e + ch e f g + kw.1 + kw.2 in
      let t2 := big_sigma0 a + maj a b c in
      [w32 (t1 + t2); a; b; c; w32 (d + t1); e; f; g]
  | _ => st
  end.

Definition compress (st : state) (block : list Z) : state :=
  let ws := reverse (schedule 48 (reverse block)) in
  zip_with (fun a b => w32 (a + b)) st (foldl round st (zip round_constants ws)).

(** ** Padding and blocks *)

Definition be_bytes (n : nat) (z : Z) : list Z :=
  (fun i => Z.land (Z.shiftr z (8 * i)) 255) <$> reverse (seqZ 0 (Z.of_nat n)).

Definition pad (bs : list Z) : list Z :=
  let len := Z.of_nat (length bs) in
  bs ++ 128 :: replicate (Z.to_nat ((55 - len) mod 64)) 0 ++ be_bytes 8 (8 * len).

Fixpoint words (bs : list Z) : list Z :=
  match bs with
  | a :: b :: c :: d :: bs' => (((a * 256 + b) * 256 + c) * 256 + d) :: words bs'
  | _ => []
  end.

Fixpoint blocks (fuel : nat) (ws : list Z) : list (list Z) :=
  match fuel, ws with
  | S fuel', _ :: _ => take 16 ws :: blocks fuel' (drop 16 ws)
  | _, _ => []
  end.

(** [sha256.New], [Write] of every part in order, [Sum]: the digest's 32
    bytes.  As many blocks as words are more than enough. *)
Definition Sum (s : string) : list Z :=
  let ws := words (pad (bytes_of s)) in
  foldl compress initial_state (blocks (length ws) ws) ≫= be_bytes 4.

(** ** Hexadecimal *)

Definition hex_char (d : Z) : ascii :=
  ascii_of_N (Z.to_N (if d <? 10 then d + 48 else d + 87)).

(** [hex.EncodeToString]. *)
Definition EncodeToString (bs : list Z) : string :=
  String.string_of_list_ascii (bs ≫= fun b => [hex_char (b / 16); hex_char (b mod 16)]).

(** [s[:n]] of a string that is long enough. *)
Definition prefix (n : nat) (s : string) : string :=
  String.string_of_list_ascii (take n (String.list_ascii_of_string s)).

(** The test vectors of the standard. *)
Example sha256_abc :
  EncodeToString (Sum "abc") =
    "ba7816bf8f01cfea414140de5dae2223b00361a396177a9cb410ff61f20015ad"%string.
Proof. vm_compute. reflexivity. Qed.

Example sha256_two_blocks :
  EncodeToString (Sum "abcdbcdecdefdefgefghfghighijhijkijkljklmklmnlmnomnopnopq") =
    "248d6a61d20638b8e5c026930c3e6039a33ce45964ff2167f6ecedd419db06c1"%string.
Proof. vm_compute. reflexivity. Qed.

(** ** A digest has 32 bytes *)

Lemma round_length st kw : length (round st kw) = length st.
Proof. by destruct st as [|? [|? [|? [|? [|? [|? [|? [|? [|? ?]]]]]]]]]. Qed.

Lemma compress_length st block : length (compress st block) = length st.
Proof.
  unfold compress. rewrite length_zip_with.
  assert (forall kws st', length (foldl round st' kws) = length st') as ->; [|lia].
  intros kws. induction kws as [|kw kws IH]; intros st'; simpl; [done|].
  by rewrite IH, round_length.
Qed.

Lemma Sum_length s : length (Sum s) = 32%nat.
Proof.
  unfold Sum. set (bs := blocks _ _).
  assert (forall st, length (foldl compress st bs) = length st) as H.
  { induction bs as [|b bs IH]; intros st; simpl; [done|]. by rewrite IH, compress_length. }
  specialize (H initial_state). change (length initial_state) with 8%nat in H.
  destruct (foldl compress initial_state bs) as [|? [|? [|? [|? [|? [|? [|? [|? [|? ?]]]]]]]]];
    simpl in H; try lia. reflexivity.
Qed.

Lemma encode_length bs :
  length (String.list_ascii_of_string (EncodeToString bs)) = (2 * length bs)%nat.
Proof.
  unfold EncodeToString. rewrite String.list_ascii_of_string_of_list_ascii.
  induction bs as [|b bs IH]; [done|]. rewrite bind_cons, length_app, IH. simpl. lia.
Qed.

(** So the slices of its hexadecimal form never go out of range. *)
Lemma digest_prefix_length n s :
  (n <= 64)%nat -> length (String.list_ascii_of_string (prefix n (EncodeToString (Sum s)))) = n.
Proof.
  intros Hn. unfold prefix. rewrite String.list_ascii_of_string_of_list_ascii, length_take.
  rewrite encode_length, Sum_length. lia.
Qed.

End Sha256.
