(* ===== verification/Cache.v ===== *)
(** * The response cache: [internal/cache/cache.go]

    Keys are derived with SHA-256 from the chain, the method and the raw
    parameters.  [InMemory] is the cache of the proxy, [Redis] the one kept in a
    Redis server, whose client is an argument.  The in-memory map is not guarded
    by a lock; its operations are modelled one at a time. *)
From Stdlib Require Import ZArith Lia.
From S2P Require Import Prelude GoFloat Config Sha256.

(** The set that the constructors build from the configured methods. *)
Definition method_set (c : Cfg.CacheConfig) : gset string := list_to_set (Cfg.CacheableMethods c).

(** The input of the hash: three writes, one after the other. *)
Definition hashed (chain method params : string) : string := chain +:+ method +:+ params.

Module InMemory.

Record cacheEntry := mkEntry { value : string; expiresAt : Time }.

Record InMemoryCache := mkCache {
  data : gmap string cacheEntry;
  ttl : Duration;
  cacheableMethods : gset string;
  enabled : bool
}.

Definition NewInMemory (cacheCfg : Cfg.CacheConfig) : InMemoryCache :=
  mkCache ∅ (Cfg.TTL cacheCfg) (method_set cacheCfg) (Cfg.cache_Enabled cacheCfg).

Definition IsCacheable (method : string) (c : InMemoryCache) : bool :=
  if enabled c then bool_decide (method ∈ cacheableMethods c) else false.

Definition makeKey (chain method params : string) : string :=
  Sha256.prefix 32 (Sha256.EncodeToString (Sha256.Sum (hashed chain method params))).

Definition with_data (d : gmap string cacheEntry) (c : InMemoryCache) : InMemoryCache :=
  mkCache d (ttl c) (cacheableMethods c) (enabled c).

(** [Get] at the instant [now]: an entry that has expired is deleted. *)
Definition Get (now : Time) (chain method params : string) (c : InMemoryCache) :
    InMemoryCache * option string :=
  if enabled c then
    let key := makeKey chain method params in
    match data c !! key with
    | Some entry =>
        if Time_After now (expiresAt entry) then (with_data (delete key (data c)) c, None)
        else (c, Some (value entry))
    | None => (with_data (delete key (data c)) c, None)
    end
  else (c, None).

Definition Set_ (now : Time) (chain method params response : string) (c : InMemoryCache) :
    InMemoryCache :=
  if enabled c then
    with_data (<[makeKey chain method params := mkEntry response (Time_Add now (ttl c))]> (data c)) c
  else c.

Definition Enabled (c : InMemoryCache) : bool := enabled c.

(** ** The cache as its users see it *)

Inductive op : Type :=
| OpGet (now : Time) (chain method params : string)
| OpSet (now : Time) (chain method params response : string).

Definition exec (c : InMemoryCache) (o : op) : InMemoryCache * option string :=
  match o with
  | OpGet now chain method params => Get now chain method params c
  | OpSet now chain method params response => (Set_ now chain method params response c, None)
  end.

Definition time_of (o : op) : Time :=
  match o with OpGet now _ _ _ | OpSet now _ _ _ _ => now end.

(** The abstract cache: the history of operations, of which the last [Set]
    under a key counts until its time to live has passed. *)
Fixpoint last_set (key : string) (ops : list op) : option (string * Time) :=
  match ops with
  | [] => None
  | o :: ops' =>
      match last_set key ops' with
      | Some r => Some r
      | None =>
          match o with
          | OpSet now chain method params response =>
              if decide (makeKey chain method params = key) then Some (response, now) else None
          | OpGet _ _ _ _ => None
          end
      end
  end.

Definition answer (ttl : Duration) (key : string) (ops : list op) (now : Time) : option string :=
  match last_set key ops with
  | Some (response, set_at) => if set_at + ttl <? now then None else Some response
  | None => None
  end.

(** ** Lemmas *)

(** What a [Get] at [now] makes of an entry. *)
Definition observe (e : option cacheEntry) (now : Time) : option string :=
  match e with
  | Some entry => if expiresAt entry <? now then None else Some (value entry)
  | None => None
  end.

(** A hit: the entry is there, and stays. *)
Lemma Get_hit now chain method params c c' r :
  Get now chain method params c = (c', Some r) <->
  enabled c = true /\ c' = c /\
  exists entry, data c !! makeKey chain method params = Some entry /\ value entry = r /\ now <= expiresAt entry.
Proof.
  unfold Get, Time_After. destruct (enabled c); [|by split; [|intros [??]]].
  destruct (data c !! _) as [entry|]; [|by split; [|intros (_ & _ & ? & ? & _)]].
  destruct (Z.ltb_spec (expiresAt entry) now) as [H|H].
  - split; [done|]. intros (_ & _ & e' & [= <-] & _ & ?). lia.
  - split; [intros [= <- <-]; eauto 6|]. by intros (_ & -> & e' & [= <-] & -> & _).
Qed.

(** Operations that leave the entry of a key alone up to [expiry]: no [Set]
    under the key, and no [Get] that finds it expired. *)
Definition spares (key : string) (expiry : Time) (o : op) : Prop :=
  match o with
  | OpSet _ chain method params _ => makeKey chain method params <> key
  | OpGet now chain method params => makeKey chain method params = key -> now <= expiry
  end.

Lemma run_spares key entry c ops :
  data c !! key = Some entry -> Forall (spares key (expiresAt entry)) ops ->
  data (run exec c ops).1 !! key = Some entry.
Proof.
  intros Hk Hops. apply (run_invariant exec (fun c => data c !! key = Some entry)
    (spares key (expiresAt entry))); [|done|done].
  clear. intros c o Hk Ho. destruct o as [now chain method params|now chain method params response]; simpl in *.
  - unfold Get, Time_After. destruct (enabled c); [|done].
    destruct (decide (makeKey chain method params = key)) as [E|Hne].
    + specialize (Ho E). rewrite E, Hk. destruct (Z.ltb_spec (expiresAt entry) now); [lia|done].
    + destruct (data c !! makeKey _ _ _) as [e'|]; [destruct (_ <? _)|]; simpl; try done;
        by rewrite lookup_delete_ne.
  - unfold Set_. destruct (enabled c); [|done]. simpl. by rewrite lookup_insert_ne.
Qed.

Lemma Get_answer now chain method params c :
  (Get now chain method params c).2 =
    if enabled c then observe (data c !! makeKey chain method params) now else None.
Proof.
  unfold Get, Time_After. destruct (enabled c); [|done].
  destruct (data c !! _) as [entry|]; simpl; [|done]. by destruct (_ <? _).
Qed.

Lemma exec_keeps c o :
  ttl (exec c o).1 = ttl c /\ enabled (exec c o).1 = enabled c /\
  cacheableMethods (exec c o).1 = cacheableMethods c.
Proof. destruct o; simpl; unfold Get, Set_; repeat case_match; done. Qed.

Lemma run_keeps c ops :
  ttl (run exec c ops).1 = ttl c /\ enabled (run exec c ops).1 = enabled c /\
  cacheableMethods (run exec c ops).1 = cacheableMethods c.
Proof.
  revert c. induction ops as [|o ops IH]; intros c; [done|]. simpl.
  destruct (exec_keeps c o) as (Ht & He & Hm). destruct (exec c o) as [c1 r].
  destruct (IH c1) as (Ht1 & He1 & Hm1). destruct (run exec c1 ops). simpl in *.
  split_and!; congruence.
Qed.

Lemma run_cacheable c ops method :
  IsCacheable method (run exec c ops).1 = IsCacheable method c.
Proof. unfold IsCacheable. by destruct (run_keeps c ops) as (_ & -> & ->). Qed.

(** What one operation does to the entry of a key: a [Get] may drop it when it
    has expired, a [Set] under the key replaces it. *)
Lemma exec_entry c o key :
  enabled c = true ->
  data (exec c o).1 !! key =
    match o with
    | OpSet now chain method params response =>
        if decide (makeKey chain method params = key)
        then Some (mkEntry response (now + ttl c)) else data c !! key
    | OpGet now chain method params =>
        if decide (makeKey chain method params = key)
        then match data c !! key with
             | Some entry => if expiresAt entry <? now then None else Some entry
             | None => None
             end
        else data c !! key
    end.
Proof.
  intros He. destruct o as [now chain method params|now chain method params response]; simpl.
  - unfold Get, Time_After. rewrite He. destruct (decide _) as [<-|Hne].
    + destruct (data c !! makeKey chain method params) as [entry|] eqn:E; simpl.
      * destruct (_ <? _); simpl; [by rewrite lookup_delete_eq|done].
      * by rewrite lookup_delete_eq.
    + destruct (data c !! makeKey chain method params) as [entry|]; simpl.
      * destruct (_ <? _); simpl; [by rewrite lookup_delete_ne|done].
      * by rewrite lookup_delete_ne.
  - unfold Set_. rewrite He. simpl. destruct (decide _) as [<-|Hne].
    + by rewrite lookup_insert_eq.
    + by rewrite lookup_insert_ne.
Qed.

Lemma run_observe c ops key now :
  enabled c = true -> Forall (fun o => time_of o <= now) ops ->
  observe (data (run exec c ops).1 !! key) now =
    match last_set key ops with
    | Some (response, set_at) => if set_at + ttl c <? now then None else Some response
    | None => observe (data c !! key) now
    end.
Proof.
  intros He Hops. revert c He. induction Hops as [|o ops Ho _ IH]; intros c He; [done|].
  pose proof (exec_entry c o key He) as Hentry. destruct (exec_keeps c o) as (Ht & He1 & _).
  simpl. destruct (exec c o) as [c1 r]. simpl in *. rewrite He in He1. specialize (IH c1 He1).
  destruct (run exec c1 ops) as [c2 rs]. simpl in *. rewrite IH, Ht.
  destruct (last_set key ops) as [[response set_at]|]; [done|].
  rewrite Hentry. destruct o as [t chain method params|t chain method params response]; simpl in *.
  - destruct (decide _); [|done]. destruct (data c !! key) as [entry|]; [|done].
    destruct (Z.ltb_spec (expiresAt entry) t) as [Hlt|]; [|done]. simpl.
    by rewrite (proj2 (Z.ltb_lt _ _)) by lia.
  - by destruct (decide _).
Qed.

(** ** Properties *)

(** C3.  The cache is a map with a time to live: after any operations, at
    readings of the clock that are not in the future, an enabled cache answers
    a [Get] with the response of the last [Set] under the same key, exactly
    until the time to live has passed since then, and with nothing when there
    was none; a disabled cache never answers.  [Get]s, which delete what has
    expired, do not influence the answers. *)
Theorem cache_refines_history cfg ops now chain method params :
  Forall (fun o => time_of o <= now) ops ->
  (Get now chain method params (run exec (NewInMemory cfg) ops).1).2 =
    if Cfg.cache_Enabled cfg
    then answer (Cfg.TTL cfg) (makeKey chain method params) ops now
    else None.
Proof.
  intros Hops. rewrite Get_answer. destruct (run_keeps (NewInMemory cfg) ops) as (_ & -> & _). simpl.
  destruct (Cfg.cache_Enabled cfg) eqn:He; [|done].
  rewrite run_observe by done. unfold answer. simpl. rewrite lookup_empty.
  by destruct (last_set _ _) as [[]|].
Qed.

(** Cache keys are ambiguous: the key hashes chain, method and parameters
    written one after the other without separators, so a response stored for one
    chain is served for another whenever the three texts join up to the same
    one, as long as it lives. *)
Theorem cache_key_ambiguity chain1 method1 params1 chain2 method2 params2 response t now c :
  chain1 +:+ method1 +:+ params1 = chain2 +:+ method2 +:+ params2 ->
  enabled c = true -> now <= t + ttl c ->
  (Get now chain2 method2 params2 (Set_ t chain1 method1 params1 response c)).2 = Some response.
Proof.
  intros Heq He Hnow. rewrite Get_answer. unfold Set_. rewrite He. simpl. rewrite He.
  assert (makeKey chain2 method2 params2 = makeKey chain1 method1 params1) as ->
    by (unfold makeKey, hashed; by rewrite Heq).
  rewrite lookup_insert_eq. simpl. unfold Time_Add. by rewrite (proj2 (Z.ltb_ge _ _)) by lia.
Qed.

(** ** Witnesses *)

Definition sample_cfg : Cfg.CacheConfig :=
  Cfg.mkCache true (60 * Second) ["eth_chainId"; "net_version"]%string.

Definition sample_ops : list op :=
  [OpSet 0 "ethereum" "eth_chainId" "[]" "0x1"; OpGet (61 * Second) "ethereum" "eth_chainId" "[]";
   OpSet (62 * Second) "ethereum" "eth_chainId" "[]" "0x01"].

Lemma cache_refines_history_witness :
  (Get (122 * Second) "ethereum" "eth_chainId" "[]"
     (run exec (NewInMemory sample_cfg) sample_ops).1).2 = Some "0x01"%string.
Proof.
  rewrite (cache_refines_history sample_cfg sample_ops (122 * Second) "ethereum" "eth_chainId" "[]").
  - vm_compute. reflexivity.
  - repeat (constructor; [discriminate|]). constructor.
Defined.

Lemma cache_key_ambiguity_witness :
  (Get 5 "polygon" "x_chainId" "[]"
     (Set_ 0 "poly" "gonx_chainId" "[]" "0x1" (NewInMemory sample_cfg))).2 = Some "0x1"%string.
Proof.
  apply (cache_key_ambiguity "poly" "gonx_chainId" "[]" "polygon" "x_chainId" "[]" "0x1" 0 5);
    [reflexivity|reflexivity|discriminate].
Defined.

End InMemory.

(** ** The cache in a Redis server *)
Module Redis.
Section Client.

(** The go-redis client: a server of some state, the connection attempt
    ([redis.NewClient] and [Ping]), [Get], [Set] and [Close]. *)
Context {server : Type}.
Context (Ping : Cfg.RedisConfig -> server -> option error).
Context (client_Get : string -> server -> result string).
Context (client_Set : string -> string -> Duration -> server -> server * option error).
Context (client_Close : server -> server * option error).

Record Cache := mkCache {
  client : bool;
  ttl : Duration;
  cacheableMethods : gset string;
  enabled : bool
}.

(** [New]: a disabled cache has no client. *)
Definition New (cfg : Cfg.RedisConfig) (cacheCfg : Cfg.CacheConfig) (s : server) : result Cache :=
  if Cfg.cache_Enabled cacheCfg then
    match Ping cfg s with
    | Some err => Err (ErrWrap "failed to connect to redis" err)
    | None => Ok (mkCache true (Cfg.TTL cacheCfg) (method_set cacheCfg) true)
    end
  else Ok (mkCache false 0 ∅ false).

Definition IsCacheable (method : string) (c : Cache) : bool :=
  if enabled c then bool_decide (method ∈ cacheableMethods c) else false.

Definition makeKey (chain method params : string) : string :=
  "rpc:" +:+ chain +:+ ":" +:+ method +:+ ":" +:+
  Sha256.prefix 16 (Sha256.EncodeToString (Sha256.Sum (hashed chain method params))).

Definition Get (chain method params : string) (c : Cache) (s : server) : option string :=
  if enabled c then
    match client_Get (makeKey chain method params) s with
    | Ok val => Some val
    | Err _ => None
    end
  else None.

Definition Set_ (chain method params response : string) (c : Cache) (s : server) :
    server * option error :=
  if enabled c then client_Set (makeKey chain method params) response (ttl c) s
  else (s, None).

Definition Close (c : Cache) (s : server) : server * option error :=
  if client c then client_Close s else (s, None).

Definition Enabled (c : Cache) : bool := enabled c.

(** A server that keeps what it is given answers with the last response; a
    disabled cache never touches the server. *)
Lemma Get_Set chain method params response c s :
  (forall key val d s, (client_Set key val d s).2 = None ->
     client_Get key (client_Set key val d s).1 = Ok val) ->
  (Set_ chain method params response c s).2 = None ->
  Get chain method params c (Set_ chain method params response c s).1 =
    if enabled c then Some response else None.
Proof.
  intros Hserver. unfold Get, Set_. destruct (enabled c); [|done]. intros Hok.
  by rewrite Hserver.
Qed.
End Client.
End Redis.
