(* ===== verification/Metrics.v ===== *)
(** * Metrics: [internal/metrics/prometheus.go]

    The Prometheus library is outside the program: its vectors are descriptions,
    and a call of a [Record] function is the list of updates it makes.  The
    library panics when an update gives a vector another number of labels than
    it was declared with. *)
From Stdlib Require Import ZArith Lia.
From S2P Require Import Prelude GoFloat.

Module Metrics.

Inductive kind : Type := Counter | Gauge | Histogram (buckets : list F64.t).

Record vec := mkVec { kind_of : kind; Name : string; Help : string; Labels : list string }.

(** The decimal [n / d] as a [float64] constant. *)
Definition decimal (n d : Z) : F64.t := F64.div (F64.of_int n) (F64.of_int d).

Definition RequestsTotal : vec :=
  mkVec Counter "rpc_proxy_requests_total"
    "Total number of RPC requests" ["chain"; "method"].

Definition RequestDuration : vec :=
  mkVec (Histogram [decimal 1 1000; decimal 5 1000; decimal 1 100; decimal 25 1000; decimal 5 100; decimal 1 10; decimal 25 100; decimal 5 10; F64.of_int 1; decimal 25 10; F64.of_int 5; F64.of_int 10]) "rpc_proxy_request_duration_seconds"
    "Request duration in seconds" ["chain"; "method"; "status"].

Definition EndpointHealth : vec :=
  mkVec Gauge "rpc_proxy_endpoint_healthy"
    "Endpoint health status (1 = healthy, 0 = unhealthy)" ["chain"; "endpoint"].

Definition BlockHeight : vec :=
  mkVec Gauge "rpc_proxy_block_height"
    "Highest known block height per chain" ["chain"].

Definition EndpointBlockHeight : vec :=
  mkVec Gauge "rpc_proxy_endpoint_block_height"
    "Block height per endpoint" ["chain"; "endpoint"].

Definition EndpointLatency : vec :=
  mkVec Gauge "rpc_proxy_endpoint_latency_ms"
    "Endpoint latency in milliseconds" ["chain"; "endpoint"].

Definition CacheHits : vec :=
  mkVec Counter "rpc_proxy_cache_hits_total"
    "Total number of cache hits" ["chain"; "method"].

Definition CacheMisses : vec :=
  mkVec Counter "rpc_proxy_cache_misses_total"
    "Total number of cache misses" ["chain"; "method"].

Definition RateLimitRejects : vec :=
  mkVec Counter "rpc_proxy_rate_limit_rejects_total"
    "Total number of rate limit rejections" ["chain"].

Definition HealthyEndpoints : vec :=
  mkVec Gauge "rpc_proxy_healthy_endpoints"
    "Number of healthy endpoints per chain" ["chain"].

Definition TotalEndpoints : vec :=
  mkVec Gauge "rpc_proxy_total_endpoints"
    "Total number of endpoints per chain" ["chain"].

Definition ErrorsTotal : vec :=
  mkVec Counter "rpc_proxy_errors_total"
    "Total number of errors" ["chain"; "type"].

(** ** Updates *)

Inductive action : Type :=
| Inc
| SetTo (x : F64.t)
| Observe (x : F64.t).

(** [vec.WithLabelValues(labels...)] and what is done to the metric. *)
Record update := mkUpdate { target : vec; label_values : list string; what : action }.

Definition RecordRequest (chain method : string) : list update :=
  [mkUpdate RequestsTotal [chain; method] Inc].

Definition RecordRequestDuration (chain method status : string) (duration : F64.t) : list update :=
  [mkUpdate RequestDuration [chain; method; status] (Observe duration)].

Definition RecordEndpointHealth (chain endpoint : string) (healthy : bool) : list update :=
  [mkUpdate EndpointHealth [chain; endpoint] (SetTo (F64.of_int (if healthy then 1 else 0)))].

Definition RecordBlockHeight (chain : string) (height : Z) : list update :=
  [mkUpdate BlockHeight [chain] (SetTo (F64.of_int height))].

Definition RecordEndpointBlockHeight (chain endpoint : string) (height : Z) : list update :=
  [mkUpdate EndpointBlockHeight [chain; endpoint] (SetTo (F64.of_int height))].

Definition RecordEndpointLatency (chain endpoint : string) (latencyMs : F64.t) : list update :=
  [mkUpdate EndpointLatency [chain; endpoint] (SetTo latencyMs)].

Definition RecordCacheHit (chain method : string) : list update :=
  [mkUpdate CacheHits [chain; method] Inc].

Definition RecordCacheMiss (chain method : string) : list update :=
  [mkUpdate CacheMisses [chain; method] Inc].

Definition RecordRateLimitReject (chain : string) : list update :=
  [mkUpdate RateLimitRejects [chain] Inc].

Definition RecordHealthyEndpoints (chain : string) (count : Z) : list update :=
  [mkUpdate HealthyEndpoints [chain] (SetTo (F64.of_int count))].

Definition RecordTotalEndpoints (chain : string) (count : Z) : list update :=
  [mkUpdate TotalEndpoints [chain] (SetTo (F64.of_int count))].

Definition RecordError (chain errType : string) : list update :=
  [mkUpdate ErrorsTotal [chain; errType] Inc].

(** ** Well-formed updates *)

(** As many labels as declared, and an action of the vector's kind. *)
Definition fits (u : update) : bool :=
  Nat.eqb (length (label_values u)) (length (Labels (target u))) &&
  match kind_of (target u), what u with
  | Counter, Inc | Gauge, SetTo _ | Histogram _, Observe _ => true
  | _, _ => false
  end.

Definition all_fit (us : list update) : bool := forallb fits us.

Lemma all_fit_app us1 us2 : all_fit (us1 ++ us2) = all_fit us1 && all_fit us2.
Proof. apply forallb_app. Qed.

Lemma all_fit_concat (uss : list (list update)) :
  Forall (fun us => all_fit us = true) uss -> all_fit (concat uss) = true.
Proof.
  induction 1 as [|us uss H _ IH]; [done|]. simpl. by rewrite all_fit_app, H, IH.
Qed.

(** How often a counter with these labels was incremented. *)
Fixpoint count_incs (v : vec) (ls : list string) (us : list update) : Z :=
  match us with
  | [] => 0
  | u :: us' =>
      (if bool_decide (Name (target u) = Name v /\ label_values u = ls)
       then match what u with Inc => 1 | _ => 0 end else 0) + count_incs v ls us'
  end.

Lemma count_incs_app v ls us1 us2 :
  count_incs v ls (us1 ++ us2) = count_incs v ls us1 + count_incs v ls us2.
Proof. induction us1 as [|u us1 IH]; simpl; [done|]. rewrite IH. lia. Qed.

Lemma count_incs_nonneg v ls us : 0 <= count_incs v ls us.
Proof. induction us as [|u us IH]; simpl; [done|]. repeat case_match; lia. Qed.

End Metrics.
