(* ===== verification/Proxy.v ===== *)
(** * The HTTP proxy: [internal/proxy/handler.go] and
    [internal/proxy/middleware.go]

    A handler takes what Fiber gives it (the route's parameter, the body, the
    client's address) and the shared state of the program, and returns the new
    state and the response.  Bodies built with [c.JSON] are kept as the values
    they encode.  [encoding/json]'s decoding of a request is an argument. *)
From Stdlib Require Import ZArith Lia.
From S2P Require Import Prelude GoFloat Config CircuitBreaker Endpoint LoadBalancer Chain RateLimit Cache Metrics.

Module Proxy.

Record rpcRequest := mkRequest {
  JSONRPC : string;
  Method : string;
  Params : string;
  ID : json
}.

(** What a chain looks like in the health report and in the list of chains. *)
Record chain_health := mkChainHealth {
  ch_healthy : bool;
  ch_healthy_endpoints : Z;
  ch_total_endpoints : Z;
  ch_block_height : Z
}.

Record chain_info := mkChainInfo {
  ci_name : string;
  ci_chain_id : Z;
  ci_health : chain_health;
  ci_rpc_url : string
}.

Record endpoint_health := mkEndpointHealth {
  eh_url : string;
  eh_healthy : bool;
  eh_block_height : Z;
  eh_latency_ms : F64.t;
  eh_total_reqs : Z;
  eh_failed_reqs : Z
}.

(** The bodies of the responses. *)
Inductive body : Type :=
| BEmpty
| BRaw (bytes : string)
| BNotFound (chain : option string)
| BRPCError (code : Z) (message : string) (id : json)
| BHealth (status : string) (chains : gmap string chain_health)
| BChainHealth (chain : string) (chain_id : Z) (health : chain_health)
    (endpoints : list endpoint_health)
| BChains (chains : list chain_info)
| BInfo (fields : list (string * string)).

Record response := mkResponse {
  status : Z;
  headers : list (string * string);
  payload : body
}.

(** The state the handlers share. *)
Record state := mkState {
  store : Store;
  manager : Chain.Manager;
  cache : InMemory.InMemoryCache;
  updates : list Metrics.update
}.

Definition NewHandler (st : Store) (m : Chain.Manager) (c : InMemory.InMemoryCache) : state :=
  mkState st m c [].

Definition emit (us : list Metrics.update) (s : state) : state :=
  mkState (store s) (manager s) (cache s) (updates s ++ us).
Definition with_cache (c : InMemory.InMemoryCache) (s : state) : state :=
  mkState (store s) (manager s) c (updates s).
Definition with_chain (name : string) (w : Chain.World) (s : state) : state :=
  mkState w.1 (Chain.mkManager (<[name := w.2]> (Chain.chains (manager s)))) (cache s) (updates s).

(** ** Requests *)
Section HandleRPC.
Context (unmarshal : string -> result rpcRequest).

(** What a request meets: its clock readings, the attempts of
    [ForwardWithRetry], and what other requests do to the cache while it is
    forwarded. *)
Record env := mkEnv {
  start : Time;
  t_get : Time;
  t_set : Time;
  t_end : Time;
  attempts : nat -> Chain.attempt;
  others : list InMemory.op
}.

Definition duration (e : env) : F64.t := F64.Seconds (Since (t_end e) (start e)).

(** The cached answer, when the method is cacheable. *)
Definition lookup (e : env) (chainName : string) (req : rpcRequest) (s : state) :
    state * option string :=
  if InMemory.IsCacheable (Method req) (cache s) then
    let '(c, r) := InMemory.Get (t_get e) chainName (Method req) (Params req) (cache s) in
    match r with
    | Some cached => (with_cache c s, Some cached)
    | None => (emit (Metrics.RecordCacheMiss chainName (Method req)) (with_cache c s), None)
    end
  else (s, None).

(** From the cache miss on. *)
Definition forward (e : env) (chainName body : string) (req : rpcRequest) (ch : Chain.Chain)
    (s : state) : state * response :=
  let '(w, res, _) := Chain.ForwardWithRetry 2 (attempts e) (store s, ch) in
  let s1 := with_cache (run InMemory.exec (cache s) (others e)).1 (with_chain chainName w s) in
  match res with
  | Err err =>
      (emit (Metrics.RecordError chainName "forward_error" ++
             Metrics.RecordRequestDuration chainName (Method req) "error" (duration e)) s1,
       mkResponse 502 [] (BRPCError (-32603) ("Internal error: " +:+ Error err) (ID req)))
  | Ok resp =>
      let c :=
        if InMemory.IsCacheable (Method req) (cache s1)
        then InMemory.Set_ (t_set e) chainName (Method req) (Params req) resp (cache s1)
        else cache s1 in
      (emit (Metrics.RecordRequestDuration chainName (Method req) "success" (duration e))
            (with_cache c s1),
       mkResponse 200 [("X-Cache", "MISS"); ("Content-Type", "application/json")]%string (BRaw resp))
  end.

Definition HandleRPC (e : env) (chainName body : string) (s : state) : state * response :=
  match Chain.GetChain (manager s) chainName with
  | None => (s, mkResponse 404 [] (BNotFound (Some chainName)))
  | Some ch =>
      match unmarshal body with
      | Err _ =>
          (emit (Metrics.RecordError chainName "parse_error") s,
           mkResponse 400 [] (BRPCError (-32700) "Parse error" JNull))
      | Ok req =>
          let s1 := emit (Metrics.RecordRequest chainName (Method req)) s in
          match lookup e chainName req s1 with
          | (s2, Some cached) =>
              (emit (Metrics.RecordCacheHit chainName (Method req) ++
                     Metrics.RecordRequestDuration chainName (Method req) "cache_hit" (duration e)) s2,
               mkResponse 200 [("X-Cache", "HIT")]%string (BRaw cached))
          | (s2, None) => forward e chainName body req ch s2
          end
      end
  end.
End HandleRPC.

(** ** Reports *)

Definition chain_report (s : Chain.ChainStats) : chain_health :=
  mkChainHealth (0 <? Chain.StatsHealthyEndpoints s) (Chain.StatsHealthyEndpoints s)
                (Chain.StatsTotalEndpoints s) (Chain.StatsHighestBlock s).

(** The loop of [HandleHealth] over the statistics, in the order of the map. *)
Fixpoint health_loop (stats : gmap string Chain.ChainStats) (order : list string)
    (healthy : bool) (chains : gmap string chain_health) (us : list Metrics.update) :
    bool * gmap string chain_health * list Metrics.update :=
  match order with
  | [] => (healthy, chains, us)
  | name :: order' =>
      match stats !! name with
      | None => health_loop stats order' healthy chains us
      | Some st =>
          health_loop stats order'
            (if 0 <? Chain.StatsHealthyEndpoints st then healthy else false)
            (<[name := chain_report st]> chains)
            (us ++ Metrics.RecordHealthyEndpoints name (Chain.StatsHealthyEndpoints st) ++
                   Metrics.RecordTotalEndpoints name (Chain.StatsTotalEndpoints st) ++
                   Metrics.RecordBlockHeight name (Chain.StatsHighestBlock st))
      end
  end.

Definition HandleHealth (order : list string) (s : state) : state * response :=
  let stats := Chain.AllStats (store s) (manager s) in
  let '(healthy, chains, us) := health_loop stats order true ∅ [] in
  (emit us s,
   mkResponse (if healthy then 200 else 503) []
     (BHealth (if healthy then "healthy" else "degraded") chains)).

(** The loop of [HandleChainHealth] over the endpoints. *)
Definition endpoint_report (ep : EP.EndpointStats) : endpoint_health :=
  mkEndpointHealth (EP.StatsURL ep) (EP.Healthy ep) (EP.StatsBlockHeight ep) (EP.LatencyMs ep)
                   (EP.TotalReqs ep) (EP.FailedReqs ep).

Definition endpoint_updates (chainName : string) (ep : EP.EndpointStats) : list Metrics.update :=
  Metrics.RecordEndpointHealth chainName (EP.StatsURL ep) (EP.Healthy ep) ++
  Metrics.RecordEndpointBlockHeight chainName (EP.StatsURL ep) (EP.StatsBlockHeight ep) ++
  Metrics.RecordEndpointLatency chainName (EP.StatsURL ep) (EP.LatencyMs ep).

Definition HandleChainHealth (chainName : string) (s : state) : state * response :=
  match Chain.GetChain (manager s) chainName with
  | None => (s, mkResponse 404 [] (BNotFound None))
  | Some ch =>
      let stats := Chain.Stats (store s) ch in
      let healthy := 0 <? Chain.StatsHealthyEndpoints stats in
      (emit (Chain.StatsEndpoints stats ≫= endpoint_updates chainName) s,
       mkResponse (if healthy then 200 else 503) []
         (BChainHealth chainName (Chain.StatsChainID stats) (chain_report stats)
            (endpoint_report <$> Chain.StatsEndpoints stats)))
  end.

Definition HandleChains (order : list string) (s : state) : state * response :=
  let stats := Chain.AllStats (store s) (manager s) in
  (s, mkResponse 200 []
        (BChains (omap (fun name =>
           st ← stats !! name;
           Some (mkChainInfo name (Chain.StatsChainID st) (chain_report st) ("/" +:+ name)))
           order))).

(** ** Middleware *)

(** The state that the middlewares see: the program's, and the rate limiter. *)
Definition world : Type := state * ProxyLimiter.RateLimiter.

(** A handler responds, returns an error for Fiber's error handler, or panics;
    the latter two leave the headers set so far. *)
Inductive outcome : Type :=
| Returned (r : response)
| Errored (err : error) (headers : list (string * string))
| Panicked (msg : string) (headers : list (string * string)).

Definition handler : Type := world -> world * outcome.

(** A handler of [handler.go], which does not see the limiter. *)
Definition on_state (h : state -> state * response) : handler := fun w =>
  let '(s, r) := h w.1 in ((s, w.2), Returned r).

(** The rate limiter's middleware. *)
Definition RateLimit (now : Time) (ip chainName : string) (next : handler) : handler := fun w =>
  let '(s, rl) := w in
  if ProxyLimiter.enabled rl then
    let '(rl', ok) := ProxyLimiter.Allow now ip rl in
    if ok then next (s, rl')
    else
      let s' := if decide (chainName = "")%string then s
                else emit (Metrics.RecordRateLimitReject chainName) s in
      ((s', rl'), Returned (mkResponse 429 [] (BRPCError (-32005) "Rate limit exceeded" JNull)))
  else next w.

Definition cors_headers : list (string * string) :=
  [("Access-Control-Allow-Origin", "*"); ("Access-Control-Allow-Methods", "GET, POST, OPTIONS");
   ("Access-Control-Allow-Headers", "Content-Type, Authorization")]%string.

(** The headers of the response are those set before and those set inside. *)
Definition with_headers (hs : list (string * string)) (o : outcome) : outcome :=
  match o with
  | Returned r => Returned (mkResponse (status r) (hs ++ headers r) (payload r))
  | Errored err hs' => Errored err (hs ++ hs')
  | Panicked msg hs' => Panicked msg (hs ++ hs')
  end.

Definition CORSMiddleware (http_method : string) (next : handler) : handler := fun w =>
  if decide (http_method = "OPTIONS")%string
  then (w, Returned (mkResponse 204 cors_headers BEmpty))
  else let '(w', o) := next w in (w', with_headers cors_headers o).

(** The logging middleware only measures. *)
Definition LoggingMiddleware (next : handler) : handler := next.

(** A panic becomes a response; an error passes through. *)
Definition RecoveryMiddleware (chainName : string) (next : handler) : handler := fun w =>
  let '(w', o) := next w in
  match o with
  | Panicked _ hs =>
      ((if decide (chainName = "")%string then w'.1
        else emit (Metrics.RecordError chainName "panic") w'.1, w'.2),
       Returned (mkResponse 500 hs (BRPCError (-32603) "Internal error" JNull)))
  | _ => (w', o)
  end.

(** ** Lemmas *)

Section Requests.
Context (unmarshal : string -> result rpcRequest).

Definition miss_headers : list (string * string) :=
  [("X-Cache", "MISS"); ("Content-Type", "application/json")]%string.
Definition hit_headers : list (string * string) := [("X-Cache", "HIT")]%string.

Lemma lookup_cases e chainName req s :
  let cacheable := InMemory.IsCacheable (Method req) (cache s) in
  let ops := if cacheable
             then [InMemory.OpGet (t_get e) chainName (Method req) (Params req)] else [] in
  exists us, lookup e chainName req s =
      (emit us (with_cache (run InMemory.exec (cache s) ops).1 s),
       if cacheable
       then (InMemory.Get (t_get e) chainName (Method req) (Params req) (cache s)).2 else None) /\
    us = if cacheable
         then match (InMemory.Get (t_get e) chainName (Method req) (Params req) (cache s)).2 with
              | Some _ => [] | None => Metrics.RecordCacheMiss chainName (Method req) end
         else [].
Proof.
  unfold lookup. destruct (InMemory.IsCacheable _ _); simpl.
  - destruct (InMemory.Get _ _ _ _ _) as [c [cached|]]; simpl; eexists; (split; [|reflexivity]).
    + unfold emit, with_cache. simpl. by rewrite app_nil_r.
    + done.
  - exists []. split; [|done]. unfold emit, with_cache. simpl. destruct s. simpl. by rewrite app_nil_r.
Qed.

Lemma forward_cache e chainName body req ch s s' r :
  forward e chainName body req ch s = (s', r) ->
  let '(_, res, _) := Chain.ForwardWithRetry 2 (attempts e) (store s, ch) in
  match res with
  | Ok resp =>
      r = mkResponse 200 miss_headers (BRaw resp) /\
      cache s' = (run InMemory.exec (cache s)
        (others e ++ if InMemory.IsCacheable (Method req) (cache s)
                     then [InMemory.OpSet (t_set e) chainName (Method req) (Params req) resp] else [])).1
  | Err _ => status r = 502 /\ cache s' = (run InMemory.exec (cache s) (others e)).1
  end.
Proof.
  unfold forward. destruct (Chain.ForwardWithRetry _ _ _) as [[w [resp|err]] log]; intros [= <- <-]; simpl;
    (split; [done|]); [|done].
  rewrite InMemory.run_cacheable, run_app. destruct (InMemory.IsCacheable _ _); simpl;
    by destruct (run InMemory.exec (cache s) (others e)).
Qed.

Lemma forward_headers e chainName body req ch s s' r :
  forward e chainName body req ch s = (s', r) -> (false = true <-> headers r = hit_headers).
Proof.
  unfold forward. destruct (Chain.ForwardWithRetry _ _ _) as [[w res] log].
  destruct res as [resp|err]; intros [= <- <-]; done.
Qed.

(** An answer that was stored is found again while it lives. *)
Lemma forward_stores e chainName body req ch s s1 resp now ttl :
  InMemory.IsCacheable (Method req) (cache s) = true -> InMemory.ttl (cache s) = ttl ->
  now <= t_set e + ttl ->
  forward e chainName body req ch s = (s1, mkResponse 200 miss_headers (BRaw resp)) ->
  Chain.GetChain (manager s1) chainName <> None /\
  InMemory.IsCacheable (Method req) (cache s1) = true /\
  InMemory.Get now chainName (Method req) (Params req) (cache s1) = (cache s1, Some resp).
Proof.
  intros Hc <- Hnow. unfold forward. destruct (Chain.ForwardWithRetry _ _ _) as [[w res] log].
  destruct res as [resp'|err]; [|done]. simpl. rewrite InMemory.run_cacheable, Hc.
  set (c := (run InMemory.exec (cache s) (others e)).1). intros [= <- <-]. simpl.
  destruct (InMemory.run_keeps (cache s) (others e)) as (Ht & He & _). fold c in Ht, He.
  assert (InMemory.enabled c = true) as Hen.
  { rewrite He. unfold InMemory.IsCacheable in Hc. by destruct (InMemory.enabled _). }
  split_and!.
  - unfold Chain.GetChain. simpl. by rewrite lookup_insert_eq.
  - change (InMemory.Set_ (t_set e) chainName (Method req) (Params req) resp' c)
      with (InMemory.exec c (InMemory.OpSet (t_set e) chainName (Method req) (Params req) resp')).1.
    unfold InMemory.IsCacheable. rewrite Hen || idtac.
    destruct (InMemory.exec_keeps c
      (InMemory.OpSet (t_set e) chainName (Method req) (Params req) resp')) as (_ & -> & ->).
    change (InMemory.IsCacheable (Method req) c = true). unfold c. by rewrite InMemory.run_cacheable.
  - unfold InMemory.Set_, InMemory.Get. rewrite Hen. simpl. rewrite Hen, lookup_insert_eq.
    unfold Time_After, Time_Add. simpl. by rewrite (proj2 (Z.ltb_ge _ _)) by lia.
Qed.

(** The state after a request that a backend answered and that was cacheable. *)
Lemma answer_stored e chainName body req resp s s1 now :
  unmarshal body = Ok req -> InMemory.IsCacheable (Method req) (cache s) = true ->
  HandleRPC unmarshal e chainName body s = (s1, mkResponse 200 miss_headers (BRaw resp)) ->
  now <= t_set e + InMemory.ttl (cache s) ->
  Chain.GetChain (manager s1) chainName <> None /\
  InMemory.IsCacheable (Method req) (cache s1) = true /\
  InMemory.Get now chainName (Method req) (Params req) (cache s1) = (cache s1, Some resp).
Proof.
  intros Hu Hc H1 Hlive. revert H1. unfold HandleRPC.
  destruct (Chain.GetChain _ _) as [ch|]; [|done].
  rewrite Hu. set (s0 := emit _ s). destruct (lookup_cases e chainName req s0) as (us & -> & _).
  change (cache s0) with (cache s). rewrite Hc.
  destruct (InMemory.Get (t_get e) _ _ _ (cache s)).2 as [cached|]; [done|].
  apply (forward_stores _ _ _ _ _ _ _ _ _ (InMemory.ttl (cache s)));
    [exact (eq_trans (InMemory.run_cacheable _ _ _) Hc)| |done].
  apply (InMemory.run_keeps (cache s)
    [InMemory.OpGet (t_get e) chainName (Method req) (Params req)]).
Qed.

(** It is served under its key as long as it lives, after any operations that
    leave it alone. *)
Lemma answer_served e chainName body req resp s s1 ops s2 now :
  unmarshal body = Ok req -> InMemory.IsCacheable (Method req) (cache s) = true ->
  HandleRPC unmarshal e chainName body s = (s1, mkResponse 200 miss_headers (BRaw resp)) ->
  let expiry := t_set e + InMemory.ttl (cache s) in
  cache s2 = (run InMemory.exec (cache s1) ops).1 ->
  Forall (InMemory.spares (InMemory.makeKey chainName (Method req) (Params req)) expiry) ops ->
  now <= expiry ->
  InMemory.IsCacheable (Method req) (cache s2) = true /\
  InMemory.Get now chainName (Method req) (Params req) (cache s2) = (cache s2, Some resp).
Proof.
  intros Hu Hc H1 expiry Hs2 Hops Hlive.
  destruct (answer_stored e chainName body req resp s s1 expiry Hu Hc H1) as (_ & Hc1 & Hget); [done|].
  apply InMemory.Get_hit in Hget as (Hen & _ & entry & Hentry & Hval & Hexp). split.
  { rewrite Hs2, InMemory.run_cacheable. exact Hc1. }
  apply InMemory.Get_hit. rewrite Hs2. destruct (InMemory.run_keeps (cache s1) ops) as (_ & -> & _).
  split_and!; [done..|]. exists entry. split_and!; [|done|lia]. apply InMemory.run_spares; [done|].
  eapply Forall_impl; [exact Hops|]. intros [t ch m p|]; simpl; [|done]. intros H E. specialize (H E). lia.
Qed.

(** What a whole request emits, by how it ends. *)
Definition rpc_updates (e : env) (chainName : string) (req : rpcRequest) (cacheable hit : bool)
    (r : response) : list Metrics.update :=
  Metrics.RecordRequest chainName (Method req) ++
  (if hit then
     Metrics.RecordCacheHit chainName (Method req) ++
     Metrics.RecordRequestDuration chainName (Method req) "cache_hit" (duration e)
   else
     (if cacheable then Metrics.RecordCacheMiss chainName (Method req) else []) ++
     (if status r =? 200
      then Metrics.RecordRequestDuration chainName (Method req) "success" (duration e)
      else Metrics.RecordError chainName "forward_error" ++
           Metrics.RecordRequestDuration chainName (Method req) "error" (duration e))).

Lemma forward_updates e chainName body req ch s s' r :
  forward e chainName body req ch s = (s', r) ->
  updates s' = updates s ++
    (if status r =? 200
     then Metrics.RecordRequestDuration chainName (Method req) "success" (duration e)
     else Metrics.RecordError chainName "forward_error" ++
          Metrics.RecordRequestDuration chainName (Method req) "error" (duration e)) /\
  (status r = 200 \/ status r = 502).
Proof.
  unfold forward. destruct (Chain.ForwardWithRetry _ _ _) as [[w res] log].
  destruct res as [resp|err]; intros [= <- <-]; simpl; auto.
Qed.

Lemma rpc_updates_fit e chainName req cacheable hit r :
  Metrics.all_fit (rpc_updates e chainName req cacheable hit r) = true.
Proof. unfold rpc_updates. by destruct hit, cacheable, (status r =? 200). Qed.

(** ** Properties *)


(** C27.  The request counters add up: a request to an unknown chain is not
    counted at all, an unreadable one only as a parse error; any other is
    counted once under its method, once as a hit or a miss when its method is
    cacheable, once as an error when it fails, and its duration is observed
    once.  No update has a wrong number of labels or a wrong kind, so none of
    them makes the Prometheus library panic. *)
Theorem request_metrics e chainName body s s' r :
  HandleRPC unmarshal e chainName body s = (s', r) ->
  exists us, updates s' = updates s ++ us /\ Metrics.all_fit us = true /\
    match Chain.GetChain (manager s) chainName, unmarshal body with
    | None, _ => us = []
    | Some _, Err _ => us = Metrics.RecordError chainName "parse_error"
    | Some _, Ok req =>
        exists hit, us = rpc_updates e chainName req
                           (InMemory.IsCacheable (Method req) (cache s)) hit r /\
          (hit = true <-> headers r = hit_headers)
    end.
Proof.
  unfold HandleRPC. destruct (Chain.GetChain _ _) as [ch|];
    [|intros [= <- <-]; exists []; by rewrite app_nil_r].
  destruct (unmarshal body) as [req|]; [|intros [= <- <-]; by eexists].
  set (s1 := emit _ s). destruct (lookup_cases e chainName req s1) as (us & -> & Hus).
  change (cache s1) with (cache s) in *.
  destruct (InMemory.IsCacheable (Method req) (cache s)) eqn:Ec;
    [destruct (InMemory.Get _ _ _ _ _).2 as [cached|]|].
  - intros [= <- <-]. exists (rpc_updates e chainName req true true (mkResponse 200 hit_headers (BRaw cached))).
    subst us. split_and!; [|apply rpc_updates_fit|by exists true].
    simpl. by rewrite app_nil_r, <- app_assoc.
  - intros Hf. pose proof (forward_headers _ _ _ _ _ _ _ _ Hf) as Hh.
    destruct (forward_updates _ _ _ _ _ _ _ _ Hf) as [-> _].
    exists (rpc_updates e chainName req true false r). subst us.
    split_and!; [|apply rpc_updates_fit|by exists false]. simpl. by rewrite <- !app_assoc.
  - intros Hf. pose proof (forward_headers _ _ _ _ _ _ _ _ Hf) as Hh.
    destruct (forward_updates _ _ _ _ _ _ _ _ Hf) as [-> _].
    exists (rpc_updates e chainName req false false r). subst us.
    split_and!; [|apply rpc_updates_fit|by exists false]. simpl. by rewrite app_nil_r, <- !app_assoc.
Qed.

(** C26.  Cached answers ignore the request's id: after a request with a
    cacheable method that a backend answered, and while its entry's time to live
    has not passed, any request for the same chain, method and parameters, with
    whatever id, gets the same bytes back without a backend being asked; this
    holds after any further use of the cache in which nobody sets the same key
    and nobody reads it after the time to live.  Such a hit has no content
    type. *)
Theorem cached_answer_ignores_id e1 e2 chainName body1 body2 req1 req2 resp s s1 ops s2 :
  unmarshal body1 = Ok req1 -> unmarshal body2 = Ok req2 ->
  Method req1 = Method req2 -> Params req1 = Params req2 ->
  InMemory.IsCacheable (Method req1) (cache s) = true ->
  HandleRPC unmarshal e1 chainName body1 s = (s1, mkResponse 200 miss_headers (BRaw resp)) ->
  let expiry := t_set e1 + InMemory.ttl (cache s) in
  Chain.GetChain (manager s2) chainName <> None ->
  cache s2 = (run InMemory.exec (cache s1) ops).1 ->
  Forall (InMemory.spares (InMemory.makeKey chainName (Method req1) (Params req1)) expiry) ops ->
  t_get e2 <= expiry ->
  exists us, HandleRPC unmarshal e2 chainName body2 s2 =
    (emit us s2, mkResponse 200 hit_headers (BRaw resp)).
Proof.
  intros Hu1 Hu2 Hm Hp Hc H1 expiry Hch Hs2 Hops Hlive.
  destruct (answer_served _ _ _ _ _ _ _ _ _ (t_get e2) Hu1 Hc H1 Hs2 Hops Hlive) as [Hc2 Hget2].
  unfold HandleRPC. destruct (Chain.GetChain (manager s2) chainName) as [ch|]; [|done].
  rewrite Hu2. unfold lookup. simpl. rewrite <- Hm, <- Hp, Hc2, Hget2.
  eexists (_ ++ _). unfold emit, with_cache. simpl. by rewrite <- app_assoc.
Qed.

End Requests.

(** ** Reports *)

Lemma health_loop_spec stats order h chains us :
  NoDup order -> (forall name, name ∈ order -> is_Some (stats !! name)) ->
  exists us',
    health_loop stats order h chains us =
      (h && forallb (fun name => 0 <? default 0 (Chain.StatsHealthyEndpoints <$> stats !! name)) order,
       filter (fun kv => kv.1 ∈ order) (chain_report <$> stats) ∪ chains, us ++ us') /\
    Metrics.all_fit us' = true.
Proof.
  intros Hnd. revert h chains us. induction Hnd as [|name order Hname Hnd IH]; intros h chains us Hall.
  - exists []. simpl. rewrite andb_true_r, app_nil_r. split; [|done]. do 2 f_equal.
    apply map_eq. intros k. rewrite lookup_union, map_lookup_filter.
    destruct ((chain_report <$> stats) !! k); simpl; [|by destruct (chains !! k)].
    by destruct (chains !! k).
  - destruct (Hall name (list_elem_of_here _ _)) as [st Hst]. cbn [health_loop forallb].
    rewrite Hst. simpl.
    match goal with |- context [health_loop _ _ ?h1 ?c1 (us ++ ?u1)] =>
      destruct (IH h1 c1 (us ++ u1)) as (us' & -> & Hfit); [|exists (u1 ++ us')] end.
    { intros k Hk. apply Hall. by right. }
    rewrite <- app_assoc. split; [|by rewrite Metrics.all_fit_app, Hfit].
    do 2 f_equal.
    + destruct (0 <? _); [done|]. by rewrite andb_false_r.
    + apply map_eq. intros k. rewrite !lookup_union, !map_lookup_filter, !lookup_fmap.
      destruct (decide (k = name)) as [->|Hne].
      * rewrite Hst, lookup_insert_eq. simpl. case_guard as H1; [done|].
        case_guard as H2; [by destruct (chains !! name)|by destruct H2; left].
      * rewrite lookup_insert_ne by done. destruct (stats !! k) as [st'|]; simpl; [|done].
        f_equal. case_guard as H1; case_guard as H2; try done; exfalso.
        -- by destruct H2; right.
        -- by apply elem_of_cons in H2 as [?|?].
Qed.

(** The health report tells the truth in whatever order Go visits the
    chains: it lists exactly the manager's chains, each with its own figures,
    and its status is 200 exactly when every chain has a healthy endpoint; only
    metrics change, and their updates are well formed. *)
Theorem health_report order s s' r :
  Chain.map_order (manager s) order -> HandleHealth order s = (s', r) ->
  (status r = 200 <-> forall name c, Chain.GetChain (manager s) name = Some c ->
                        0 < Chain.HealthyEndpoints (store s) c) /\
  payload r = BHealth (if status r =? 200 then "healthy" else "degraded")
                (chain_report <$> Chain.AllStats (store s) (manager s)) /\
  exists us, s' = emit us s /\ Metrics.all_fit us = true.
Proof.
  intros Horder. unfold HandleHealth. set (stats := Chain.AllStats _ _).
  assert (NoDup order) as Hnd by (rewrite Horder; apply NoDup_fst_map_to_list).
  assert (forall name, name ∈ order <-> is_Some (Chain.chains (manager s) !! name)) as Hin.
  { intros name. rewrite Horder, list_elem_of_fmap. split.
    - intros ([n c] & -> & H). apply elem_of_map_to_list in H. by exists c.
    - intros [c H]. exists (name, c). split; [done|]. by apply elem_of_map_to_list. }
  assert (forall name, stats !! name = Chain.Stats (store s) <$> Chain.chains (manager s) !! name)
    as Hstats by (intros name; apply lookup_fmap).
  destruct (health_loop_spec stats order true ∅ [] Hnd) as (us & -> & Hfit).
  { intros name [c Hc]%Hin. rewrite Hstats, Hc. by eexists. }
  rewrite (right_id_L ∅ (∪)), map_filter_id.
  2: { intros k x Hk. simpl. apply Hin. rewrite lookup_fmap, Hstats in Hk.
       destruct (Chain.chains (manager s) !! k); [by eexists|done]. }
  intros [= <- <-]. simpl. split_and!; [|by destruct (forallb _ _)|by exists us].
  transitivity (forallb (fun name => 0 <? default 0 (Chain.StatsHealthyEndpoints <$> stats !! name))
                  order = true); [by destruct (forallb _ _)|].
  rewrite forallb_forall. unfold Chain.GetChain. split.
  - intros H name c Hc. specialize (H name). rewrite <- list_elem_of_In, Hin, Hstats, Hc in H.
    simpl in H. apply Z.ltb_lt, H. by eexists.
  - intros H name Hn. rewrite <- list_elem_of_In, Hin in Hn. destruct Hn as [c Hc].
    rewrite Hstats, Hc. simpl. apply Z.ltb_lt. by apply (H name).
Qed.

(** ** Witnesses *)

Definition sample_unmarshal (body : string) : result rpcRequest :=
  if decide (body = "oops")%string then Err (ErrNew "invalid character")
  else Ok (mkRequest "2.0" "eth_chainId" "[]" (JString body)).

Definition sample_state : state :=
  let '(st, m) := Chain.NewManager Chain.sample_configs ∅ in
  NewHandler st m (InMemory.NewInMemory InMemory.sample_cfg).

Definition answering : Chain.attempt :=
  Chain.mkAttempt id id id id id (fun _ => EP.Responded 200 "0x1" Millisecond)
    (EP.mkClocks 1 2 2) None.

Definition sample_env (t : Time) : env :=
  mkEnv t (t + 1) (t + 2) (t + 3) (fun _ => answering) [].

Definition after_first : state * response :=
  HandleRPC sample_unmarshal (sample_env 0) "ethereum" "first" sample_state.


Lemma request_metrics_witness :
  exists us, updates after_first.1 = updates sample_state ++ us /\ Metrics.all_fit us = true.
Proof.
  destruct after_first as [s' r] eqn:E.
  destruct (request_metrics sample_unmarshal (sample_env 0) "ethereum" "first" sample_state s' r E)
    as (us & Hus & Hfit & _).
  exists us. split; [exact Hus|exact Hfit].
Defined.

(** The second request has another id and is answered from the cache, after a
    third one has read it. *)
Lemma cached_answer_ignores_id_witness :
  (HandleRPC sample_unmarshal (sample_env 1000) "ethereum" "second" after_first.1).2 =
    mkResponse 200 hit_headers (BRaw "0x1").
Proof.
  set (req1 := mkRequest "2.0" "eth_chainId" "[]" (JString "first")).
  set (ops := [InMemory.OpGet 500 "ethereum" "eth_chainId" "[]"]).
  assert (Forall (InMemory.spares (InMemory.makeKey "ethereum" (Method req1) (Params req1))
    (t_set (sample_env 0) + InMemory.ttl (cache sample_state))) ops) as Hops
    by (constructor; [intros _; vm_compute; discriminate|constructor]).
  assert (cache after_first.1 = (run InMemory.exec (cache after_first.1) ops).1) as Hs2
    by (vm_compute; reflexivity).
  assert (Chain.GetChain (manager after_first.1) "ethereum" <> None) as Hch by (vm_compute; discriminate).
  destruct (cached_answer_ignores_id sample_unmarshal (sample_env 0) (sample_env 1000) "ethereum"
    "first" "second" req1 (mkRequest "2.0" "eth_chainId" "[]" (JString "second")) "0x1" sample_state
    after_first.1 ops after_first.1
    eq_refl eq_refl eq_refl eq_refl ltac:(vm_compute; reflexivity) ltac:(vm_compute; reflexivity)
    Hch Hs2 Hops ltac:(vm_compute; discriminate)) as [us H].
  rewrite H. reflexivity.
Defined.

Lemma health_report_witness :
  status (HandleHealth (map_to_list (Chain.chains (manager sample_state))).*1 sample_state).2 = 200.
Proof.
  destruct (HandleHealth _ sample_state) as [s' r] eqn:E.
  apply (health_report (map_to_list (Chain.chains (manager sample_state))).*1 sample_state s' r
           (Permutation_refl _) E).
  intros name c Hc.
  destruct (decide (name = "ethereum"%string)) as [->|H1];
    [vm_compute in Hc; injection Hc as <-; vm_compute; reflexivity|].
  destruct (decide (name = "polygon"%string)) as [->|H2];
    [vm_compute in Hc; injection Hc as <-; vm_compute; reflexivity|].
  unfold Chain.GetChain, sample_state, Chain.NewManager, Chain.NewManagerWithOptions in Hc.
  simpl in Hc. by rewrite !lookup_insert_ne, lookup_empty in Hc by congruence.
Defined.

End Proxy.
