(* ===== verification/Grpc.v ===== *)
(** * The gRPC services: [internal/grpc/rpc_service.go] and
    [internal/grpc/health_service.go]

    The services share the manager and the cache with the HTTP handlers, and
    record no metrics.  The messages are those of the generated package; the
    gRPC library's status errors are a code and a message.  [encoding/json]'s
    functions are arguments. *)
From Stdlib Require Import ZArith Lia.
From S2P Require Import Prelude GoFloat Config CircuitBreaker Endpoint LoadBalancer Chain RateLimit Cache Metrics Proxy.

Module Grpc.

(** ** Messages and errors *)

Inductive code : Type := NotFound | InvalidArgument | Internal | Unavailable.

(** [status.Errorf]. *)
Record status_error := mkStatus { st_code : code; st_message : string }.

Record RPCRequest := mkRequest {
  req_Chain : string;
  req_Jsonrpc : string;
  req_Method : string;
  req_Params : string;
  req_Id : Z
}.

Record RPCError := mkError { err_Code : Z; err_Message : string; err_Data : string }.

Record RPCResponse := mkResponse {
  Jsonrpc : string;
  Result : string;
  RError : option RPCError;
  Id : Z;
  Cached : bool
}.

Definition answer : Type := RPCResponse + status_error.

(** The struct that [parseResponse] decodes. *)
Record jsonResp := mkJsonResp {
  jr_JSONRPC : string;
  jr_Result : string;
  jr_Error : option RPCError;
  jr_ID : Z
}.

(** ** The RPC service *)
Section Service.
Context (unmarshal_params : string -> result json).
Context (marshal : json -> result string).
Context (unmarshal_resp : string -> result jsonResp).

Definition parseResponse (data : string) (cached : bool) : answer :=
  match unmarshal_resp data with
  | Err err => inr (mkStatus Internal ("failed to parse response: " +:+ Error err))
  | Ok j =>
      inl match jr_Error j with
          | Some e => mkResponse (jr_JSONRPC j) "" (Some e) (jr_ID j) cached
          | None => mkResponse (jr_JSONRPC j) (jr_Result j) None (jr_ID j) cached
          end
  end.

(** The request body, a map whose keys [json.Marshal] sorts; [None] for
    parameters that are no JSON. *)
Definition request_fields (req : RPCRequest) : result (list (string * json)) :=
  let base := [("id", JInt (req_Id req)); ("jsonrpc", JString (req_Jsonrpc req));
               ("method", JString (req_Method req))]%string in
  if decide (req_Params req = "")%string then Ok base
  else match unmarshal_params (req_Params req) with
       | Err err => Err err
       | Ok params => Ok (base ++ [("params"%string, params)])
       end.

(** The cached response, when the method is cacheable. *)
Definition lookup (e : Proxy.env) (req : RPCRequest) (s : Proxy.state) :
    Proxy.state * option string :=
  if InMemory.IsCacheable (req_Method req) (Proxy.cache s) then
    let '(c, r) := InMemory.Get (Proxy.t_get e) (req_Chain req) (req_Method req) (req_Params req)
                                (Proxy.cache s) in
    (Proxy.with_cache c s, r)
  else (s, None).

Definition forward (e : Proxy.env) (req : RPCRequest) (ch : Chain.Chain)
    (fields : list (string * json)) (s : Proxy.state) : Proxy.state * answer :=
  match marshal (JObject fields) with
  | Err err => (s, inr (mkStatus Internal ("failed to marshal request: " +:+ Error err)))
  | Ok _ =>
      let '(w, res, _) := Chain.ForwardWithRetry 2 (Proxy.attempts e) (Proxy.store s, ch) in
      let s1 := Proxy.with_cache (run InMemory.exec (Proxy.cache s) (Proxy.others e)).1
                                 (Proxy.with_chain (req_Chain req) w s) in
      match res with
      | Err err => (s1, inr (mkStatus Unavailable ("backend error: " +:+ Error err)))
      | Ok resp =>
          (if InMemory.IsCacheable (req_Method req) (Proxy.cache s1)
           then Proxy.with_cache
                  (InMemory.Set_ (Proxy.t_set e) (req_Chain req) (req_Method req) (req_Params req)
                                 resp (Proxy.cache s1)) s1
           else s1,
           parseResponse resp false)
      end
  end.

Definition Call (e : Proxy.env) (req : RPCRequest) (s : Proxy.state) : Proxy.state * answer :=
  match Chain.GetChain (Proxy.manager s) (req_Chain req) with
  | None => (s, inr (mkStatus NotFound ("chain not found: " +:+ req_Chain req)))
  | Some ch =>
      match request_fields req with
      | Err err => (s, inr (mkStatus InvalidArgument ("invalid params: " +:+ Error err)))
      | Ok fields =>
          match lookup e req s with
          | (s1, Some cached) => (s1, parseResponse cached true)
          | (s1, None) => forward e req ch fields s1
          end
      end
  end.

(** What [BatchCall] makes of the result of a call. *)
Definition batch_response (r : RPCRequest) (a : answer) : RPCResponse :=
  match a with
  | inr st => mkResponse "2.0" "" (Some (mkError (-32603) (st_message st) "")) (req_Id r) false
  | inl resp => resp
  end.

(** The loop of [BatchCall]; each call meets its own environment. *)
Fixpoint BatchCall (envs : nat -> Proxy.env) (i : nat) (reqs : list RPCRequest) (s : Proxy.state) :
    Proxy.state * list RPCResponse :=
  match reqs with
  | [] => (s, [])
  | r :: reqs' =>
      let '(s1, a) := Call (envs i) r s in
      let '(s2, resps) := BatchCall envs (S i) reqs' s1 in
      (s2, batch_response r a :: resps)
  end.

(** What [StreamCalls] makes of the result of a call. *)
Definition stream_response (req : RPCRequest) (a : answer) : RPCResponse :=
  match a with
  | inr st => mkResponse "2.0" "" (Some (mkError (-32603) (st_message st) "")) (req_Id req) false
  | inl resp => resp
  end.

(** A stream: what [Recv] returns, and whether [Send] fails. *)
Inductive received : Type :=
| REOF
| RError_ (err : error)
| RRequest (req : RPCRequest).

(** [StreamCalls] on what is received, with the responses it sends; [None] at
    the end is a stream that is still open when the list ends. *)
Fixpoint StreamCalls (envs : nat -> Proxy.env) (send : nat -> option error) (i : nat)
    (inputs : list received) (s : Proxy.state) :
    Proxy.state * list RPCResponse * option (option error) :=
  match inputs with
  | [] => (s, [], None)
  | REOF :: _ => (s, [], Some None)
  | RError_ err :: _ => (s, [], Some (Some err))
  | RRequest req :: inputs' =>
      let '(s1, a) := Call (envs i) req s in
      let resp := stream_response req a in
      match send i with
      | Some err => (s1, [], Some (Some err))
      | None =>
          let '(s2, resps, r) := StreamCalls envs send (S i) inputs' s1 in
          (s2, resp :: resps, r)
      end
  end.
End Service.

(** ** The health service *)

Inductive overall : Type := HEALTHY | DEGRADED | UNHEALTHY.

Record ChainStatus := mkChainStatus {
  cs_Healthy : bool;
  cs_HealthyEndpoints : Z;
  cs_TotalEndpoints : Z;
  cs_BlockHeight : Z
}.

Definition chain_status (st : Chain.ChainStats) : ChainStatus :=
  mkChainStatus (0 <? Chain.StatsHealthyEndpoints st) (wrap32 (Chain.StatsHealthyEndpoints st))
                (wrap32 (Chain.StatsTotalEndpoints st)) (Chain.StatsHighestBlock st).

Fixpoint check_loop (stats : gmap string Chain.ChainStats) (order : list string)
    (overallHealthy : bool) (chains : gmap string ChainStatus) : bool * gmap string ChainStatus :=
  match order with
  | [] => (overallHealthy, chains)
  | name :: order' =>
      match stats !! name with
      | None => check_loop stats order' overallHealthy chains
      | Some st =>
          check_loop stats order'
            (if 0 <? Chain.StatsHealthyEndpoints st then overallHealthy else false)
            (<[name := chain_status st]> chains)
      end
  end.

Definition Check_ (order : list string) (s : Proxy.state) : overall * gmap string ChainStatus :=
  let stats := Chain.AllStats (Proxy.store s) (Proxy.manager s) in
  let '(overallHealthy, chains) := check_loop stats order true ∅ in
  ((if decide (stats = ∅) then UNHEALTHY else if overallHealthy then HEALTHY else DEGRADED), chains).

Record EndpointStatus := mkEndpointStatus {
  es_Url : string;
  es_Healthy : bool;
  es_BlockHeight : Z;
  es_LatencyMs : F64.t;
  es_TotalRequests : Z;
  es_FailedRequests : Z
}.

Record ChainHealthResponse := mkChainHealthResponse {
  chr_Chain : string;
  chr_ChainId : Z;
  chr_Healthy : bool;
  chr_HighestBlock : Z;
  chr_Endpoints : list EndpointStatus
}.

Definition CheckChain (chain : string) (s : Proxy.state) : ChainHealthResponse + status_error :=
  match Chain.GetChain (Proxy.manager s) chain with
  | None => inr (mkStatus NotFound ("chain not found: " +:+ chain))
  | Some ch =>
      let stats := Chain.Stats (Proxy.store s) ch in
      inl (mkChainHealthResponse chain (wrap32 (Chain.StatsChainID stats))
             (0 <? Chain.StatsHealthyEndpoints stats) (Chain.StatsHighestBlock stats)
             ((fun ep => mkEndpointStatus (EP.StatsURL ep) (EP.Healthy ep) (EP.StatsBlockHeight ep)
                           (EP.LatencyMs ep) (EP.TotalReqs ep) (EP.FailedReqs ep)) <$>
                Chain.StatsEndpoints stats))
  end.

Record ChainInfo := mkChainInfo { ci_Name : string; ci_ChainId : Z; ci_Status : ChainStatus }.

Definition ListChains (order : list string) (s : Proxy.state) : list ChainInfo :=
  let stats := Chain.AllStats (Proxy.store s) (Proxy.manager s) in
  omap (fun name => st ← stats !! name;
                    Some (mkChainInfo name (wrap32 (Chain.StatsChainID st)) (chain_status st))) order.

(** ** Lemmas *)

Lemma check_loop_healthy stats order h chains :
  (forall name, name ∈ order -> is_Some (stats !! name)) ->
  (check_loop stats order h chains).1 =
    h && forallb (fun name => 0 <? default 0 (Chain.StatsHealthyEndpoints <$> stats !! name)) order.
Proof.
  revert h chains. induction order as [|name order IH]; intros h chains Hall; simpl.
  { by rewrite andb_true_r. }
  destruct (Hall name (list_elem_of_here _ _)) as [st Hst]. rewrite Hst. simpl.
  rewrite IH by (intros k Hk; apply Hall; by right).
  destruct (0 <? _); [done|]. by rewrite andb_false_r.
Qed.

Section Calls.
Context (unmarshal_params : string -> result json).
Context (marshal : json -> result string).
Context (unmarshal_resp : string -> result jsonResp).
Abbreviation Call := (Call unmarshal_params marshal unmarshal_resp).
Abbreviation BatchCall := (BatchCall unmarshal_params marshal unmarshal_resp).
Abbreviation StreamCalls := (StreamCalls unmarshal_params marshal unmarshal_resp).

(** ** Properties *)

(** A batch answers everything: it returns one response per request, in
    order, each being what [Call] gives in the state that the requests before it
    left; a failed call becomes an error response with the request's id and
    does not stop the ones after it. *)
Theorem batch_answers_all envs reqs s :
  length (BatchCall envs 0 reqs s).2 = length reqs /\
  (forall k req, reqs !! k = Some req ->
     (BatchCall envs 0 reqs s).2 !! k =
       Some (batch_response req (Call (envs k) req (BatchCall envs 0 (take k reqs) s).1).2)).
Proof.
  assert (forall i s, length (BatchCall envs i reqs s).2 = length reqs /\
    (forall k req, reqs !! k = Some req -> (BatchCall envs i reqs s).2 !! k =
       Some (batch_response req (Call (envs (i + k)%nat) req (BatchCall envs i (take k reqs) s).1).2)))
    as H; [|apply (H 0%nat s)].
  clear s. induction reqs as [|r reqs IH]; intros i s; [done|]. simpl.
  destruct (Call (envs i) r s) as [s1 a] eqn:E.
  destruct (IH (S i) s1) as [Hlen Hat].
  destruct (BatchCall envs (S i) reqs s1) as [s2 resps] eqn:Eb. simpl in *. split; [by rewrite Hlen|].
  intros [|k] req Hk; simpl in *.
  - simplify_eq. by rewrite Nat.add_0_r, E.
  - rewrite E. rewrite (Hat k req Hk), <- Nat.add_succ_comm.
    simpl. by destruct (Grpc.BatchCall _ _ _ envs (S i) (take k reqs) s1).
Qed.

(** C33.  A stream is a batch: a stream of requests that ends properly and whose
    sends succeed sends exactly the responses of the batch of its requests and
    leaves the same state. *)
Theorem stream_is_batch envs send reqs s :
  (forall i, send i = None) ->
  StreamCalls envs send 0 ((RRequest <$> reqs) ++ [REOF]) s =
    (let '(s', resps) := BatchCall envs 0 reqs s in (s', resps, Some None)).
Proof.
  intros Hsend. generalize 0%nat as i. revert s.
  induction reqs as [|r reqs IH]; intros s i; [done|]. simpl.
  destruct (Call (envs i) r s) as [s1 a]. rewrite Hsend. change (list_fmap ?A ?B) with (fmap (A:=A) (B:=B) (M:=list)).
  rewrite IH. change (stream_response r a) with (batch_response r a).
  by destruct (BatchCall envs (S i) reqs s1).
Qed.

End Calls.

(** The health services of both protocols agree on the chains, whatever the
    map order, except on a program without chains: HTTP calls it healthy, gRPC
    unhealthy. *)
Theorem health_services_agree order s :
  Chain.map_order (Proxy.manager s) order ->
  (Check_ order s).1 =
    if decide (Chain.chains (Proxy.manager s) = ∅) then UNHEALTHY
    else if Proxy.status (Proxy.HandleHealth order s).2 =? 200 then HEALTHY else DEGRADED.
Proof.
  intros Horder. unfold Check_, Proxy.HandleHealth. set (stats := Chain.AllStats _ _).
  assert (NoDup order) as Hnd by (rewrite Horder; apply NoDup_fst_map_to_list).
  assert (forall name, name ∈ order -> is_Some (stats !! name)) as Hin.
  { intros name. rewrite Horder, list_elem_of_fmap. intros ([n c] & -> & H).
    apply elem_of_map_to_list in H. subst stats. unfold Chain.AllStats. cbn [fst]. rewrite lookup_fmap, H.
    by eexists. }
  pose proof (check_loop_healthy stats order true ∅ Hin) as Hcheck.
  destruct (check_loop stats order true ∅) as [h1 c1].
  destruct (Proxy.health_loop_spec stats order true ∅ [] Hnd Hin) as (us & -> & _).
  simpl in *. rewrite Hcheck. subst stats. unfold Chain.AllStats.
  destruct (decide (Chain.chains (Proxy.manager s) = ∅)) as [He|He].
  - rewrite decide_True; [done|]. by rewrite He, fmap_empty.
  - rewrite decide_False by (by rewrite fmap_empty_iff). by destruct (forallb _ _).
Qed.

(** ** Witnesses *)

Definition sample_params (_ : string) : result json := Ok (JArray []).
Definition sample_marshal (_ : json) : result string := Ok "{}"%string.
Definition sample_resp (data : string) : result jsonResp :=
  if decide (data = "0x1")%string then Ok (mkJsonResp "2.0" data None 7)
  else Err (ErrNew "unexpected end of JSON input").

Definition sample_req (chain : string) : RPCRequest := mkRequest chain "2.0" "eth_chainId" "[]" 9.

Lemma stream_is_batch_witness :
  StreamCalls sample_params sample_marshal sample_resp (fun _ => Proxy.sample_env 0)
    (fun _ => None) 0 [RRequest (sample_req "ethereum"); RRequest (sample_req "solana"); REOF]
    Proxy.sample_state =
  (let '(s', resps) := BatchCall sample_params sample_marshal sample_resp
     (fun _ => Proxy.sample_env 0) 0 [sample_req "ethereum"; sample_req "solana"]
     Proxy.sample_state in (s', resps, Some None)).
Proof.
  apply (stream_is_batch sample_params sample_marshal sample_resp (fun _ => Proxy.sample_env 0)
    (fun _ => None) [sample_req "ethereum"; sample_req "solana"] Proxy.sample_state).
  reflexivity.
Defined.

Lemma batch_answers_all_witness :
  length (BatchCall sample_params sample_marshal sample_resp (fun _ => Proxy.sample_env 0) 0
    [sample_req "ethereum"; sample_req "solana"] Proxy.sample_state).2 = 2%nat /\
  (BatchCall sample_params sample_marshal sample_resp (fun _ => Proxy.sample_env 0) 0
    [sample_req "ethereum"; sample_req "solana"] Proxy.sample_state).2 !! 1%nat =
    Some (mkResponse "2.0" "" (Some (mkError (-32603) "chain not found: solana" "")) 9 false).
Proof.
  destruct (batch_answers_all sample_params sample_marshal sample_resp (fun _ => Proxy.sample_env 0)
    [sample_req "ethereum"; sample_req "solana"] Proxy.sample_state) as [H1 H2].
  split; [exact H1|]. rewrite (H2 1%nat (sample_req "solana") eq_refl). vm_compute. reflexivity.
Defined.


Lemma health_services_agree_witness :
  (Check_ [] (Proxy.NewHandler ∅ (Chain.mkManager ∅) (InMemory.NewInMemory InMemory.sample_cfg))).1
    = UNHEALTHY.
Proof. rewrite health_services_agree; [reflexivity|apply Permutation_refl]. Defined.

End Grpc.
