(* ===== verification/Pool.v ===== *)
(** * The WebSocket connection pool: [internal/websocket/pool.go]

    Pooled connections are shared through pointers: a client keeps the pointer
    it got, and [Put] and [Remove] act through it whether or not the pool still
    lists it.  The [heap] holds the pointed-to connections.  Every method holds
    [p.mu], dialling included, so a run is a sequence of whole operations.  The
    WebSocket dialler is outside the program: a call of it returns a socket or
    an error. *)
From Stdlib Require Import ZArith Lia.
From S2P Require Import Prelude.

(** [httpToWS] of [internal/websocket/handler.go]. *)
Definition httpToWS (url : string) : string :=
  if decide ((7 < String.length url)%nat /\ String.substring 0 7 url = "http://"%string)
  then "ws://" +:+ String.substring 7 (String.length url - 7) url
  else if decide ((8 < String.length url)%nat /\ String.substring 0 8 url = "https://"%string)
  then "wss://" +:+ String.substring 8 (String.length url - 8) url
  else url.

Module Pool.

Record PoolConfig := mkConfig {
  MaxConnections : Z;
  IdleTimeout : Duration;
  HealthCheckInterval : Duration;
  WaitTimeout : Duration;
  MaxLifetime : Duration
}.

Definition DefaultPoolConfig : PoolConfig :=
  mkConfig 10 (5 * Minute) (30 * Second) (10 * Second) (30 * Minute).

(** [Conn] names a socket of the WebSocket library. *)
Record PooledConnection := mkPooled {
  Conn : nat;
  URL : string;
  CreatedAt : Time;
  LastUsedAt : Time;
  InUse : bool
}.

#[global] Instance pooled_inhabited : Inhabited PooledConnection :=
  populate (mkPooled 0 "" 0 0 false).

Definition ErrPoolClosed : error := ErrNew "connection pool is closed".
Definition ErrPoolExhausted : error := ErrNew "connection pool exhausted".

(** The pool, the objects it allocated and the sockets that were closed. *)
Record ConnectionPool := mkPool {
  url : string;
  config : PoolConfig;
  connections : list nat;
  closed : bool;
  heap : gmap nat PooledConnection;
  shut : gset nat
}.

Definition with_connections (ls : list nat) (p : ConnectionPool) : ConnectionPool :=
  mkPool (url p) (config p) ls (closed p) (heap p) (shut p).
Definition with_heap (h : gmap nat PooledConnection) (p : ConnectionPool) : ConnectionPool :=
  mkPool (url p) (config p) (connections p) (closed p) h (shut p).
Definition with_closed (p : ConnectionPool) : ConnectionPool :=
  mkPool (url p) (config p) (connections p) true (heap p) (shut p).
(** [conn.Conn.Close()] through a pointer to a pooled connection. *)
Definition shut_conn (l : nat) (p : ConnectionPool) : ConnectionPool :=
  mkPool (url p) (config p) (connections p) (closed p) (heap p) ({[Conn (heap p !!! l)]} ∪ shut p).

(** [make] panics on a negative capacity. *)
Definition NewConnectionPool (u : string) (c : PoolConfig) : go ConnectionPool :=
  if MaxConnections c <? 0 then Panic "makeslice: cap out of range"
  else Ret (mkPool u c [] false ∅ ∅).

(** The clock readings of [isHealthy] are one per test. *)
Definition isHealthy (c : PoolConfig) (now_idle now_life : Time) (conn : PooledConnection) : bool :=
  if IdleTimeout c <? Since now_idle (LastUsedAt conn) then false
  else if (0 <? MaxLifetime c) && (MaxLifetime c <? Since now_life (CreatedAt conn)) then false
  else true.

(** What one [Get] reads: the clock for each pooled connection, the clock of
    the hand-over or creation, and the dialler. *)
Record get_env := mkGetEnv {
  now_idle : nat -> Time;
  now_life : nat -> Time;
  now_use : Time;
  dial : string -> result nat
}.

(** The loop of [Get] over the connections. *)
Fixpoint find_idle (e : get_env) (c : PoolConfig) (h : gmap nat PooledConnection) (ls : list nat) :
    option nat :=
  match ls with
  | [] => None
  | l :: ls' =>
      let conn := h !!! l in
      if negb (InUse conn) && isHealthy c (now_idle e l) (now_life e l) conn then Some l
      else find_idle e c h ls'
  end.

Definition createConnection (e : get_env) (p : ConnectionPool) : result PooledConnection :=
  match dial e (httpToWS (url p)) with
  | Err err => Err err
  | Ok conn => Ok (mkPooled conn (url p) (now_use e) (now_use e) true)
  end.

Definition lend (now : Time) (conn : PooledConnection) : PooledConnection :=
  mkPooled (Conn conn) (URL conn) (CreatedAt conn) now true.

Definition Get (e : get_env) (p : ConnectionPool) : ConnectionPool * result nat :=
  if closed p then (p, Err ErrPoolClosed)
  else match find_idle e (config p) (heap p) (connections p) with
  | Some l => (with_heap (<[l := lend (now_use e) (heap p !!! l)]> (heap p)) p, Ok l)
  | None =>
      if Z.of_nat (length (connections p)) <? MaxConnections (config p) then
        match createConnection e p with
        | Err err => (p, Err err)
        | Ok conn =>
            let l := fresh (dom (heap p)) in
            (with_connections (connections p ++ [l]) (with_heap (<[l := conn]> (heap p)) p), Ok l)
        end
      else (p, Err ErrPoolExhausted)
  end.

Definition Put (now : Time) (l : nat) (p : ConnectionPool) : ConnectionPool :=
  let conn := heap p !!! l in
  with_heap (<[l := mkPooled (Conn conn) (URL conn) (CreatedAt conn) now false]> (heap p)) p.

(** The loop of [Remove]: the list without the first occurrence of [l]. *)
Fixpoint remove_first (l : nat) (ls : list nat) : option (list nat) :=
  match ls with
  | [] => None
  | c :: ls' => if decide (c = l) then Some ls' else (fun r => c :: r) <$> remove_first l ls'
  end.

Definition Remove (l : nat) (p : ConnectionPool) : ConnectionPool :=
  match remove_first l (connections p) with
  | None => p
  | Some ls => with_connections ls (shut_conn l p)
  end.

(** [close(p.done)] panics when the channel is closed already. *)
Definition Close (p : ConnectionPool) : ConnectionPool * go unit :=
  if closed p then (p, Panic "close of closed channel")
  else (with_connections [] (foldl (fun p' l => shut_conn l p') (with_closed p) (connections p)),
        Ret tt).

(** The loop of [cleanup]: the connections that stay, the others being closed. *)
Fixpoint sweep (now : Time) (ls : list nat) (p : ConnectionPool) : ConnectionPool * list nat :=
  match ls with
  | [] => (p, [])
  | l :: ls' =>
      let conn := heap p !!! l in
      if InUse conn then let '(p', alive) := sweep now ls' p in (p', l :: alive)
      else if IdleTimeout (config p) <? Time_Sub now (LastUsedAt conn)
      then sweep now ls' (shut_conn l p)
      else let '(p', alive) := sweep now ls' p in (p', l :: alive)
  end.

Definition cleanup (now : Time) (p : ConnectionPool) : ConnectionPool :=
  if closed p then p
  else let '(p', alive) := sweep now (connections p) p in with_connections alive p'.

Record PoolStats := mkStats {
  StatsURL : string;
  TotalConnections : Z;
  ActiveConnections : Z;
  IdleConnections : Z
}.

Fixpoint count_stats (h : gmap nat PooledConnection) (ls : list nat) (s : PoolStats) : PoolStats :=
  match ls with
  | [] => s
  | l :: ls' =>
      count_stats h ls'
        (if InUse (h !!! l)
         then mkStats (StatsURL s) (TotalConnections s) (ActiveConnections s + 1) (IdleConnections s)
         else mkStats (StatsURL s) (TotalConnections s) (ActiveConnections s) (IdleConnections s + 1))
  end.

Definition Stats (p : ConnectionPool) : PoolStats :=
  count_stats (heap p) (connections p)
    (mkStats (url p) (Z.of_nat (length (connections p))) 0 0).

(** ** Operations and waiting *)

Inductive op : Type :=
| OpGet (e : get_env)
| OpPut (now : Time) (l : nat)
| OpRemove (l : nat)
| OpClose
| OpCleanup (now : Time).

(** What the caller of an operation sees. *)
Inductive reply : Type :=
| Lent (l : nat)
| Refused (err : error)
| Done
| Crashed.

Definition exec (p : ConnectionPool) (o : op) : ConnectionPool * reply :=
  match o with
  | OpGet e => let '(p', r) := Get e p in
               (p', match r with Ok l => Lent l | Err err => Refused err end)
  | OpPut now l => (Put now l p, Done)
  | OpRemove l => (Remove l p, Done)
  | OpClose => let '(p', r) := Close p in
               (p', match r with Ret _ => Done | Panic _ => Crashed end)
  | OpCleanup now => (cleanup now p, Done)
  end.

(** [healthCheck]: its ticker panics on an interval that is not positive;
    otherwise it cleans up at every tick until the pool is closed. *)
Definition healthCheck (ticks : list Time) (p : ConnectionPool) : go ConnectionPool :=
  if HealthCheckInterval (config p) <=? 0 then Panic "non-positive interval for NewTicker"
  else Ret (run exec p (OpCleanup <$> ticks)).1.

(** What the [select] of [GetWithWait] receives, after some operations of
    other goroutines. *)
Inductive wake : Type :=
| CtxDone (err : error)
| TimedOut
| Tick (e : get_env).

(** The loop of [GetWithWait]; [None] while it still waits. *)
Fixpoint wait (events : list (list op * wake)) (p : ConnectionPool) :
    ConnectionPool * option (result nat) :=
  match events with
  | [] => (p, None)
  | (others, w) :: events' =>
      let p1 := (run exec p others).1 in
      match w with
      | CtxDone err => (p1, Some (Err err))
      | TimedOut => (p1, Some (Err ErrPoolExhausted))
      | Tick e =>
          let '(p2, r) := Get e p1 in
          if decide (r = Err ErrPoolExhausted) then wait events' p2 else (p2, Some r)
      end
  end.

Definition GetWithWait (e : get_env) (events : list (list op * wake)) (p : ConnectionPool) :
    ConnectionPool * option (result nat) :=
  let '(p1, r) := Get e p in
  if decide (r = Err ErrPoolExhausted) then wait events p1 else (p1, Some r).

(** How long it waits before [TimedOut] can be received. *)
Definition wait_timeout (c : PoolConfig) : Duration :=
  if WaitTimeout c =? 0 then 10 * Second else WaitTimeout c.

(** ** Leases: what a pool promises *)

(** The pool's members, the connections that clients hold, and whether the pool
    was closed. *)
Record lease_state := mkLease { members : gset nat; leased : gset nat; ended : bool }.

(** A connection is lent to one client at a time, at most [cap] are kept, and
    only connections that nobody holds are dropped. *)
Inductive lease_step (cap : Z) : lease_state -> op * reply -> lease_state -> Prop :=
| lease_again M L e l :
    l ∈ M -> l ∉ L ->
    lease_step cap (mkLease M L false) (OpGet e, Lent l) (mkLease M ({[l]} ∪ L) false)
| lease_new M L e l s :
    l ∉ M -> l ∉ L -> Z.of_nat (size M) < cap -> (exists u, dial e u = Ok s) ->
    lease_step cap (mkLease M L false) (OpGet e, Lent l) (mkLease ({[l]} ∪ M) ({[l]} ∪ L) false)
| lease_no_dial M L e err :
    Z.of_nat (size M) < cap -> (exists u, dial e u = Err err) ->
    lease_step cap (mkLease M L false) (OpGet e, Refused err) (mkLease M L false)
| lease_full M L e :
    cap <= Z.of_nat (size M) ->
    lease_step cap (mkLease M L false) (OpGet e, Refused ErrPoolExhausted) (mkLease M L false)
| lease_ended M L e :
    lease_step cap (mkLease M L true) (OpGet e, Refused ErrPoolClosed) (mkLease M L true)
| lease_put M L b now l :
    l ∈ L -> lease_step cap (mkLease M L b) (OpPut now l, Done) (mkLease M (L ∖ {[l]}) b)
| lease_remove M L b l :
    l ∈ L ->
    lease_step cap (mkLease M L b) (OpRemove l, Done) (mkLease (M ∖ {[l]}) (L ∖ {[l]}) b)
| lease_clean M L b X now :
    X ⊆ M -> X ## L -> lease_step cap (mkLease M L b) (OpCleanup now, Done) (mkLease (M ∖ X) L b)
| lease_close M L :
    lease_step cap (mkLease M L false) (OpClose, Done) (mkLease ∅ L true)
| lease_close_again M L :
    lease_step cap (mkLease M L true) (OpClose, Crashed) (mkLease M L true).

(** A run of the pool with the connections its clients hold: they give back
    only what they hold, and the dialler never returns a socket twice. *)
Definition may (L : gset nat) (o : op) : Prop :=
  match o with OpPut _ l | OpRemove l => l ∈ L | _ => True end.

Definition holds (L : gset nat) (o : op) (r : reply) : gset nat :=
  match o, r with
  | OpGet _, Lent l => {[l]} ∪ L
  | OpPut _ l, _ | OpRemove l, _ => L ∖ {[l]}
  | _, _ => L
  end.

Definition new_socket (p : ConnectionPool) (o : op) : Prop :=
  match o with
  | OpGet e => forall u s, dial e u = Ok s -> forall l c, heap p !! l = Some c -> Conn c <> s
  | _ => True
  end.

Inductive step : ConnectionPool * gset nat -> op * reply -> ConnectionPool * gset nat -> Prop :=
| step_op p L o p' r :
    exec p o = (p', r) -> may L o -> new_socket p o ->
    step (p, L) (o, r) (p', holds L o r).

Definition init (c : PoolConfig) (s : ConnectionPool * gset nat) : Prop :=
  exists u, NewConnectionPool u c = Ret s.1 /\ s.2 = ∅.

Definition abs (s : ConnectionPool * gset nat) : lease_state :=
  mkLease (list_to_set (connections s.1)) s.2 (closed s.1).

(** The invariant: the sockets of the pooled connections are open, all others
    are closed; a pooled connection is marked exactly when a client holds it. *)
Record wf (c : PoolConfig) (p : ConnectionPool) (L : gset nat) : Prop := mkWf {
  wf_config : config p = c;
  wf_nodup : NoDup (connections p);
  wf_heap l : l ∈ connections p \/ l ∈ L -> is_Some (heap p !! l);
  wf_size : Z.of_nat (length (connections p)) <= MaxConnections c;
  wf_closed : closed p = true -> connections p = [];
  wf_sockets l1 l2 c1 c2 :
    heap p !! l1 = Some c1 -> heap p !! l2 = Some c2 -> Conn c1 = Conn c2 -> l1 = l2;
  wf_open l c1 : heap p !! l = Some c1 -> (Conn c1 ∈ shut p <-> l ∉ connections p);
  wf_shut s : s ∈ shut p -> exists l c1, heap p !! l = Some c1 /\ Conn c1 = s;
  wf_marks l : l ∈ connections p -> (InUse (heap p !!! l) = true <-> l ∈ L)
}.

(** ** Lemmas *)

Lemma find_idle_spec e c h ls :
  match find_idle e c h ls with
  | Some l => l ∈ ls /\ InUse (h !!! l) = false /\
              isHealthy c (now_idle e l) (now_life e l) (h !!! l) = true
  | None => forall l, l ∈ ls -> InUse (h !!! l) = true \/
              isHealthy c (now_idle e l) (now_life e l) (h !!! l) = false
  end.
Proof.
  induction ls as [|l ls IH]; simpl; [by intros l ?%elem_of_nil|].
  destruct (InUse (h !!! l)) eqn:Eu, (isHealthy _ _ _ (h !!! l)) eqn:Eh; simpl;
    try (split_and!; [apply list_elem_of_here|done..]);
    (destruct (find_idle _ _ _ ls) as [k|];
      [destruct IH as [? ?]; split; [by apply list_elem_of_further|done]|];
     intros k [->|Hk]%elem_of_cons; [rewrite ?Eu, ?Eh; auto|by apply IH]).
Qed.

Lemma remove_first_spec l ls :
  NoDup ls ->
  match remove_first l ls with
  | Some ls' => l ∈ ls /\ NoDup ls' /\ (length ls' <= length ls)%nat /\
                forall k, k ∈ ls' <-> k ∈ ls /\ k <> l
  | None => l ∉ ls
  end.
Proof.
  induction 1 as [|c ls Hc Hnd IH]; simpl; [by apply not_elem_of_nil|].
  case_decide as E; subst.
  - split_and!; [apply list_elem_of_here|done|lia|]. intros k. rewrite elem_of_cons.
    naive_solver.
  - destruct (remove_first l ls) as [ls'|]; simpl.
    + destruct IH as (Hl & Hnd' & Hlen & Hk).
      split_and!; [by apply list_elem_of_further| |lia|].
      * apply NoDup_cons; split; [|done]. rewrite Hk. tauto.
      * intros k. rewrite !elem_of_cons, Hk. naive_solver.
    + rewrite not_elem_of_cons. naive_solver.
Qed.

(** Closing the sockets of some connections changes nothing else. *)
Definition only_shuts (p p' : ConnectionPool) (P : nat -> Prop) : Prop :=
  url p' = url p /\ config p' = config p /\ connections p' = connections p /\
  closed p' = closed p /\ heap p' = heap p /\
  (forall s, s ∈ shut p' <-> s ∈ shut p \/ exists l, P l /\ s = Conn (heap p !!! l)).

Lemma shut_conn_spec l p : only_shuts p (shut_conn l p) (fun k => k = l).
Proof.
  split_and!; [done..|]. intros s. simpl. rewrite elem_of_union, elem_of_singleton. naive_solver.
Qed.

Lemma only_shuts_trans p p1 p2 P Q :
  only_shuts p p1 P -> only_shuts p1 p2 Q -> only_shuts p p2 (fun l => P l \/ Q l).
Proof.
  intros (?&?&?&?&Hh&Hs1) (?&?&?&?&?&Hs2). split_and!; [congruence..|].
  intros s. rewrite Hs2, Hs1, Hh. naive_solver.
Qed.

Lemma only_shuts_ext p p' P Q :
  (forall l, P l <-> Q l) -> only_shuts p p' P -> only_shuts p p' Q.
Proof.
  intros HPQ (?&?&?&?&?&Hs). split_and!; try done. intros s. rewrite Hs. naive_solver.
Qed.

Lemma shut_all_spec ls p :
  only_shuts p (foldl (fun p' l => shut_conn l p') p ls) (fun l => l ∈ ls).
Proof.
  revert p. induction ls as [|l ls IH]; intros p; simpl.
  - split_and!; [done..|]. set_solver.
  - eapply only_shuts_ext; [|eapply only_shuts_trans; [apply shut_conn_spec|apply IH]].
    intros k. simpl. rewrite elem_of_cons. naive_solver.
Qed.

(** What [cleanup] keeps. *)
Definition stays (now : Time) (p : ConnectionPool) (l : nat) : bool :=
  InUse (heap p !!! l) || negb (IdleTimeout (config p) <? Time_Sub now (LastUsedAt (heap p !!! l))).

Lemma sweep_spec now ls p :
  (sweep now ls p).2 = List.filter (stays now p) ls /\
  only_shuts p (sweep now ls p).1 (fun l => l ∈ ls /\ stays now p l = false).
Proof.
  revert p. induction ls as [|l ls IH]; intros p; simpl.
  { split; [done|]. split_and!; [done..|]. set_solver. }
  assert (forall b, stays now p l = b ->
    (if b then let '(p', alive) := sweep now ls p in (p', l :: alive)
     else sweep now ls (shut_conn l p)).2 = (if b then l :: List.filter (stays now p) ls else List.filter (stays now p) ls) /\
    only_shuts p (if b then let '(p', alive) := sweep now ls p in (p', l :: alive)
     else sweep now ls (shut_conn l p)).1 (fun k => k ∈ l :: ls /\ stays now p k = false)) as H.
  { intros [] Hb.
    - specialize (IH p). destruct (sweep now ls p) as [p' alive]. simpl in *.
      destruct IH as [-> IH]. split; [done|]. eapply only_shuts_ext; [|exact IH].
      intros k. simpl. rewrite elem_of_cons.
      split; [intros [? ?]; auto|]. intros [[->|?] ?]; [congruence|auto].
    - destruct (IH (shut_conn l p)) as [-> IH']. split; [done|].
      eapply only_shuts_ext; [|eapply only_shuts_trans; [apply shut_conn_spec|exact IH']].
      intros k. simpl. rewrite elem_of_cons. change (stays now (shut_conn l p) k) with (stays now p k).
      split; [intros [->|[? ?]]; auto|]. intros [[->|?] ?]; auto. }
  unfold stays in H at 1. destruct (InUse (heap p !!! l)) eqn:Eu; simpl in H.
  - specialize (H true eq_refl). unfold stays at 1. rewrite Eu. exact H.
  - destruct (IdleTimeout (config p) <? _) eqn:Ei; simpl in H.
    + specialize (H false eq_refl). unfold stays at 1. rewrite Eu, Ei. exact H.
    + specialize (H true eq_refl). unfold stays at 1. rewrite Eu, Ei. exact H.
Qed.

(** Marking one connection and changing who holds it. *)
Lemma wf_mark c p L L' l c0 c1 :
  wf c p L -> heap p !! l = Some c0 -> Conn c1 = Conn c0 ->
  (forall k, k <> l -> (k ∈ L' <-> k ∈ L)) -> (l ∈ connections p -> (InUse c1 = true <-> l ∈ L')) ->
  wf c (with_heap (<[l := c1]> (heap p)) p) L'.
Proof.
  intros [Hc Hnd Hh Hsz Hcl Hs Ho Hsh Hm] Hl Hconn HL Hmark.
  assert (forall k ck, (<[l:=c1]> (heap p)) !! k = Some ck ->
    exists ck', heap p !! k = Some ck' /\ Conn ck' = Conn ck) as Hback.
  { intros k ck. rewrite lookup_insert_Some. intros [[<- <-]|[_ ?]]; eauto. }
  split; simpl; try done.
  - intros k Hk. destruct (decide (k = l)) as [->|Hne]; [by rewrite lookup_insert_eq|].
    rewrite lookup_insert_ne by done. apply Hh. rewrite <- HL by done. done.
  - intros l1 l2 c3 c4 (c3' & H3 & E3)%Hback (c4' & H4 & E4)%Hback Heq.
    eapply Hs; eauto. congruence.
  - intros k ck (ck' & Hk & <-)%Hback. by apply Ho.
  - intros s (k & ck & Hk & <-)%Hsh. destruct (decide (k = l)) as [->|Hne].
    + exists l, c1. rewrite lookup_insert_eq. split; [done|congruence].
    + exists k, ck. by rewrite lookup_insert_ne.
  - intros k Hk. destruct (decide (k = l)) as [->|Hne].
    + rewrite lookup_total_insert_eq. auto.
    + rewrite lookup_total_insert_ne, HL by done. auto.
Qed.

(** Dropping some connections and closing their sockets. *)
Lemma wf_drop c p p' L L' ls (P : nat -> Prop) :
  wf c p L -> only_shuts p p' P ->
  NoDup ls -> (length ls <= length (connections p))%nat ->
  (forall k, P k -> k ∈ connections p) ->
  (forall k, k ∈ ls -> k ∈ connections p) ->
  (forall k, k ∉ ls <-> k ∉ connections p \/ P k) ->
  (forall k, k ∈ ls -> (k ∈ L' <-> k ∈ L)) -> L' ⊆ L ->
  wf c (with_connections ls p') L'.
Proof.
  intros [Hc Hnd Hh Hsz Hcl Hs Ho Hsh Hm] (Eu & Ec & El & Eb & Eh & Es) Hls Hlen HP Hin Hout HL HLL.
  split; simpl.
  - congruence.
  - done.
  - rewrite Eh. intros k [Hk|Hk]; apply Hh; [left; by apply Hin|right; by apply HLL].
  - lia.
  - rewrite Eb. intros Hb. apply Hcl in Hb. rewrite Hb in Hlen. destruct ls; [done|]. simpl in Hlen. lia.
  - rewrite Eh. done.
  - rewrite Eh. intros k ck Hk. rewrite Es, Hout, (Ho k ck Hk).
    split; (intros [?|Hr]; [by left|right]).
    + destruct Hr as (l & Hl & E). destruct (Hh l (or_introl (HP l Hl))) as [cl Hcl'].
      rewrite (lookup_total_correct _ _ _ Hcl') in E. by rewrite (Hs k l ck cl Hk Hcl' E).
    + exists k. by rewrite (lookup_total_correct _ _ _ Hk).
  - intros s [Hr|(l & Hl & ->)]%Es; rewrite Eh; [by apply Hsh|].
    destruct (Hh l (or_introl (HP l Hl))) as [cl Hcl'].
    exists l, cl. by rewrite (lookup_total_correct _ _ _ Hcl').
  - intros k Hk. rewrite Eh, HL by done. by apply Hm, Hin.
Qed.

Lemma wf_create c p L e s :
  wf c p L -> closed p = false -> Z.of_nat (length (connections p)) < MaxConnections c ->
  (forall l c1, heap p !! l = Some c1 -> Conn c1 <> s) ->
  let l := fresh (dom (heap p)) in
  wf c (with_connections (connections p ++ [l])
          (with_heap (<[l := mkPooled s (url p) (now_use e) (now_use e) true]> (heap p)) p)) ({[l]} ∪ L) /\
  (l ∉ connections p) /\ (l ∉ L).
Proof.
  intros [Hc Hnd Hh Hsz Hcl Hs Ho Hsh Hm] Hopen Hroom Hnew l.
  assert (heap p !! l = None) as Hl by (apply not_elem_of_dom, is_fresh).
  assert (forall k, k ∈ connections p \/ k ∈ L -> k <> l) as Hne.
  { intros k Hk ->. apply Hh in Hk as [? Hk]. congruence. }
  split; [|split; intros Hk; by apply (Hne l); auto].
  split; simpl; try done.
  - apply NoDup_app. split_and!; [done| |apply NoDup_singleton].
    intros k Hk Hk'%list_elem_of_singleton. by apply (Hne k); auto.
  - intros k Hk. destruct (decide (k = l)) as [->|Hkl]; [by rewrite lookup_insert_eq|].
    rewrite lookup_insert_ne by done. apply Hh. set_solver.
  - rewrite length_app. simpl. lia.
  - congruence.
  - intros l1 l2 c1 c2 [[<- <-]|[? H1]]%lookup_insert_Some [[<- <-]|[? H2]]%lookup_insert_Some E;
      simpl in *; [done|by apply Hnew in H2; congruence|by apply Hnew in H1; congruence|eauto].
  - intros k ck [[<- <-]|[? Hk]]%lookup_insert_Some; simpl.
    + split; [|set_solver]. intros (k & ck & Hk & E)%Hsh. by apply Hnew in Hk.
    + rewrite (Ho k ck Hk). set_solver.
  - intros s' (k & ck & Hk & <-)%Hsh. exists k, ck. split; [|done].
    rewrite lookup_insert_ne; [done|]. congruence.
  - intros k [Hk|Hk%list_elem_of_singleton]%elem_of_app; [|subst k].
    + rewrite lookup_total_insert_ne by (apply not_eq_sym, Hne; auto). rewrite (Hm k Hk).
      pose proof (Hne k (or_introl Hk)). set_solver.
    + rewrite lookup_total_insert_eq. set_solver.
Qed.

Lemma only_shuts_refl p : only_shuts p p (fun _ => False).
Proof. split_and!; try done. naive_solver. Qed.

Lemma members_size (ls : list nat) :
  NoDup ls -> Z.of_nat (size (list_to_set ls : gset nat)) = Z.of_nat (length ls).
Proof. intros H. by rewrite size_list_to_set. Qed.

Lemma Get_sim c p L e p' r :
  wf c p L -> new_socket p (OpGet e) -> Get e p = (p', r) ->
  let r' := match r with Ok l => Lent l | Err err => Refused err end in
  wf c p' (holds L (OpGet e) r') /\
  lease_step (MaxConnections c) (abs (p, L)) (OpGet e, r') (abs (p', holds L (OpGet e) r')).
Proof.
  intros Hwf Hnew. unfold Get, abs. simpl.
  destruct (closed p) eqn:Eb; [intros [= <- <-]; rewrite Eb; split; [done|constructor]|].
  pose proof (find_idle_spec e (config p) (heap p) (connections p)) as Hf.
  destruct (find_idle _ _ _ _) as [l|] eqn:Ef.
  - destruct Hf as (Hl & Hu & _). intros [= <- <-]. simpl. rewrite Eb.
    assert (l ∉ L) as HlL by (rewrite <- (wf_marks _ _ _ Hwf l Hl), Hu; done).
    destruct (wf_heap _ _ _ Hwf l (or_introl Hl)) as [c0 Hc0]. split.
    + eapply wf_mark; [done|done| |set_solver|set_solver].
      by rewrite (lookup_total_correct _ _ _ Hc0).
    + apply lease_again; [by apply elem_of_list_to_set|done].
  - rewrite (wf_config _ _ _ Hwf). pose proof (members_size _ (wf_nodup _ _ _ Hwf)) as Hsz.
    unfold createConnection.
    destruct (Z.ltb_spec (Z.of_nat (length (connections p))) (MaxConnections c)) as [Hlt|Hge].
    + destruct (dial e (httpToWS (url p))) as [s|err] eqn:Ed; intros [= <- <-]; simpl; rewrite Eb.
      * destruct (wf_create c p L e s Hwf Eb Hlt (Hnew _ _ Ed)) as (Hwf' & Hl1 & Hl2).
        split; [done|]. rewrite list_to_set_app_L. simpl. rewrite union_empty_r_L, union_comm_L.
        eapply lease_new; [by rewrite elem_of_list_to_set|done|by rewrite Hsz|eauto].
      * split; [done|]. apply lease_no_dial; [by rewrite Hsz|eauto].
    + intros [= <- <-]. simpl. rewrite Eb. split; [done|]. apply lease_full. lia.
Qed.

Lemma Put_sim c p L now l :
  wf c p L -> l ∈ L ->
  wf c (Put now l p) (L ∖ {[l]}) /\
  lease_step (MaxConnections c) (abs (p, L)) (OpPut now l, Done) (abs (Put now l p, L ∖ {[l]})).
Proof.
  intros Hwf Hl. destruct (wf_heap _ _ _ Hwf l (or_intror Hl)) as [c0 Hc0]. split.
  - eapply wf_mark; [done|done| |set_solver|simpl; set_solver].
    by rewrite (lookup_total_correct _ _ _ Hc0).
  - unfold abs. simpl. by apply lease_put.
Qed.

Lemma Remove_sim c p L l :
  wf c p L -> l ∈ L ->
  wf c (Remove l p) (L ∖ {[l]}) /\
  lease_step (MaxConnections c) (abs (p, L)) (OpRemove l, Done) (abs (Remove l p, L ∖ {[l]})).
Proof.
  intros Hwf Hl. unfold Remove. pose proof (remove_first_spec l _ (wf_nodup _ _ _ Hwf)) as Hr.
  destruct (remove_first l (connections p)) as [ls|]; simpl.
  - destruct Hr as (Hin & Hnd & Hlen & Hls). split.
    + eapply wf_drop; [done|apply shut_conn_spec|done|done| | | | |set_solver].
      * by intros k ->.
      * intros k Hk. by apply Hls.
      * intros k. rewrite Hls. destruct (decide (k ∈ connections p)), (decide (k = l)); naive_solver.
      * intros k [_ Hk]%Hls. set_solver.
    + unfold abs. simpl.
      replace (list_to_set ls) with ((list_to_set (connections p) : gset nat) ∖ {[l]}).
      * by apply lease_remove.
      * apply set_eq. intros k. rewrite elem_of_difference, !elem_of_list_to_set, Hls. set_solver.
  - split.
    + pose proof (wf_drop c p p L (L ∖ {[l]}) (connections p) (fun _ => False) Hwf
        (only_shuts_refl p) (wf_nodup _ _ _ Hwf)) as H.
      assert (with_connections (connections p) p = p) as Hp by by destruct p.
      rewrite Hp in H. apply H; [done|done|done|naive_solver| |set_solver].
      intros k Hk. assert (k <> l) by naive_solver. set_solver.
    + unfold abs. simpl.
      replace (list_to_set (connections p) : gset nat) with ((list_to_set (connections p) : gset nat) ∖ {[l]}) at 2.
      * by apply lease_remove.
      * apply difference_disjoint_L. apply disjoint_singleton_r. by rewrite elem_of_list_to_set.
Qed.

Lemma filter_length {A} (f : A -> bool) (ls : list A) : (length (List.filter f ls) <= length ls)%nat.
Proof. induction ls as [|a ls IH]; simpl; [lia|]. destruct (f a); simpl; lia. Qed.

Lemma cleanup_sim c p L now :
  wf c p L ->
  wf c (cleanup now p) L /\
  lease_step (MaxConnections c) (abs (p, L)) (OpCleanup now, Done) (abs (cleanup now p, L)).
Proof.
  intros Hwf. unfold cleanup, abs. simpl. destruct (closed p) eqn:Eb; simpl.
  { rewrite Eb. split; [done|].
    replace (list_to_set (connections p) : gset nat) with ((list_to_set (connections p) : gset nat) ∖ ∅) at 2
      by apply difference_empty_L.
    apply lease_clean; set_solver. }
  destruct (sweep_spec now (connections p) p) as [Ha Hs].
  destruct (sweep now (connections p) p) as [p' alive]. simpl in *. subst alive.
  assert (forall k, k ∈ List.filter (stays now p) (connections p) <->
            k ∈ connections p /\ stays now p k = true) as Hk.
  { intros k. rewrite !list_elem_of_In. apply filter_In. }
  assert (forall k, k ∈ connections p -> stays now p k = false -> k ∉ L) as Hidle.
  { intros k Hin Hst. rewrite <- (wf_marks _ _ _ Hwf k Hin).
    unfold stays in Hst. apply orb_false_iff in Hst as [-> _]. done. }
  split.
  - eapply wf_drop; [done|exact Hs| |apply filter_length|naive_solver| | |done|done].
    + apply NoDup_ListNoDup, List.NoDup_filter, NoDup_ListNoDup, (wf_nodup _ _ _ Hwf).
    + intros k. rewrite Hk. tauto.
    + intros k. rewrite Hk. destruct (stays now p k), (decide (k ∈ connections p)); naive_solver.
  - destruct Hs as (_ & _ & _ & Ecl & _). rewrite Ecl, Eb.
    replace (list_to_set (List.filter (stays now p) (connections p)) : gset nat)
      with ((list_to_set (connections p) : gset nat) ∖
            filter (fun k => stays now p k = false) (list_to_set (connections p) : gset nat)).
    + apply lease_clean.
      * intros k. rewrite elem_of_filter. tauto.
      * intros k. rewrite elem_of_filter, elem_of_list_to_set. naive_solver.
    + apply set_eq. intros k. rewrite elem_of_difference, elem_of_filter, !elem_of_list_to_set, Hk.
      destruct (stays now p k); naive_solver.
Qed.

Lemma Close_sim c p L p' r :
  wf c p L -> Close p = (p', r) ->
  let r' := match r with Ret _ => Done | Panic _ => Crashed end in
  wf c p' L /\ lease_step (MaxConnections c) (abs (p, L)) (OpClose, r') (abs (p', L)).
Proof.
  intros Hwf. unfold Close, abs. destruct (closed p) eqn:Eb; intros [= <- <-]; simpl.
  { rewrite Eb. split; [done|]. constructor. }
  destruct (shut_all_spec (connections p) (with_closed p)) as (E1 & E2 & E3 & E4 & E5 & Es).
  simpl in *. rewrite Eb, E4. split; [|constructor].
  set (p1 := foldl _ _ _) in *.
  assert (only_shuts p (mkPool (url p1) (config p1) (connections p1) false (heap p1) (shut p1))
            (fun l => l ∈ connections p)) as Hs by by split_and!.
  pose proof (wf_drop c p _ L L [] _ Hwf Hs) as H.
  destruct H as [H1 H2 H3 H4 H5 H6 H7 H8 H9]; [constructor|simpl; lia|done|set_solver| |done|done|].
  { intros k. split; [|set_solver]. destruct (decide (k ∈ connections p)); auto. }
  by split.
Qed.

(** Every step of the pool is a step of the lease specification. *)
Lemma step_sim c s lab s' :
  wf c s.1 s.2 -> step s lab s' ->
  wf c s'.1 s'.2 /\ lease_step (MaxConnections c) (abs s) lab (abs s').
Proof.
  intros Hwf Hs. destruct Hs as [p L o p' r He Hm Hn]. simpl in Hwf.
  destruct o as [e|now l|l| |now]; simpl in He.
  - destruct (Get e p) as [p1 r1] eqn:Eg. simplify_eq. by eapply Get_sim.
  - simplify_eq. by apply Put_sim.
  - simplify_eq. by apply Remove_sim.
  - destruct (Close p) as [p1 r1] eqn:Ec. simplify_eq. by eapply Close_sim.
  - simplify_eq. by apply cleanup_sim.
Qed.

Lemma init_wf c s : init c s -> wf c s.1 s.2 /\ abs s = mkLease ∅ ∅ false.
Proof.
  intros (u & Hn & HL). unfold NewConnectionPool in Hn.
  destruct (Z.ltb_spec (MaxConnections c) 0); [done|]. destruct s as [p L]. simpl in *. simplify_eq.
  split; [|done]. split; simpl; try done; try set_solver; try (intros; by simplify_map_eq).
  - constructor.
Qed.

Lemma step_preserves c s s0 labs :
  wf c s0.1 s0.2 -> steps step s0 labs s ->
  wf c s.1 s.2 /\ steps (lease_step (MaxConnections c)) (abs s0) labs (abs s).
Proof.
  intros Hwf Hs. induction Hs as [s|s lab s1 labs s2 H1 _ IH]; [split; [done|constructor]|].
  destruct (step_sim c s lab s1 Hwf H1) as [Hwf1 Hl]. destruct (IH Hwf1) as [Hwf2 Hls].
  split; [done|]. by econstructor.
Qed.

(** A pool whose connections are all idle but past their lifetime. *)
Definition expired (p : ConnectionPool) (t : Time) : Prop :=
  closed p = false /\ Z.of_nat (length (connections p)) = MaxConnections (config p) /\
  0 < MaxLifetime (config p) < int64_max /\ in_int64 (MaxLifetime (config p)) /\
  forall l, l ∈ connections p -> InUse (heap p !!! l) = false /\
    MaxLifetime (config p) < t - CreatedAt (heap p !!! l).

(** The operations between two instants that take no connection back. *)
Definition between (t1 t2 : Time) (o : op) : Prop :=
  match o with
  | OpGet e => forall l, t1 <= now_life e l
  | OpCleanup now => now <= t2
  | _ => False
  end.

Definition starved (o : op) : reply :=
  match o with OpGet _ => Refused ErrPoolExhausted | _ => Done end.

Lemma find_idle_none e c h ls :
  (forall l, l ∈ ls -> InUse (h !!! l) = true \/
     isHealthy c (now_idle e l) (now_life e l) (h !!! l) = false) ->
  find_idle e c h ls = None.
Proof.
  intros H. pose proof (find_idle_spec e c h ls) as Hf. destruct (find_idle _ _ _ _) as [l|]; [|done].
  destruct Hf as (Hl & Hu & Hh). destruct (H l Hl); congruence.
Qed.

Lemma sweep_all now ls p :
  (forall l, l ∈ ls -> stays now p l = true) -> sweep now ls p = (p, ls).
Proof.
  induction ls as [|l ls IH]; intros H; simpl; [done|].
  rewrite IH by (intros k Hk; apply H; by apply list_elem_of_further).
  specialize (H l (list_elem_of_here _ _)). unfold stays in H.
  destruct (InUse _); [done|]. simpl in H. by destruct (IdleTimeout (config p) <? _).
Qed.

Lemma expired_step p t1 t2 o :
  expired p t1 -> between t1 t2 o ->
  in_int64 (IdleTimeout (config p)) -> IdleTimeout (config p) < int64_max ->
  (forall l, l ∈ connections p -> t2 - LastUsedAt (heap p !!! l) <= IdleTimeout (config p)) ->
  exec p o = (p, starved o).
Proof.
  intros (Hb & Hlen & Hml & Hmi & Hex) Ho Hit Him Hlast. destruct o as [e|now l|l| |now]; try done; simpl in *.
  - unfold Get. rewrite Hb, find_idle_none.
    + rewrite Hlen, Z.ltb_irrefl. done.
    + intros l Hl. right. destruct (Hex l Hl) as [_ Hlife]. specialize (Ho l). unfold isHealthy.
      destruct (IdleTimeout (config p) <? _); [done|].
      rewrite (proj2 (Z.ltb_lt 0 (MaxLifetime (config p)))) by lia. simpl.
      rewrite (proj2 (Z.ltb_lt _ _)); [done|]. apply Since_gt; [done|lia..].
  - unfold cleanup. rewrite Hb, sweep_all; [by destruct p|].
    intros l Hl. unfold stays. destruct (Hex l Hl) as [-> _]. simpl.
    apply negb_true_iff, Z.ltb_ge, Z.nlt_ge. intros H.
    apply (Since_gt now (LastUsedAt (heap p !!! l))) in H; [|done..].
    specialize (Hlast l Hl). lia.
Qed.

Lemma count_stats_idle h ls s :
  (forall l, l ∈ ls -> InUse (h !!! l) = false) ->
  ActiveConnections (count_stats h ls s) = ActiveConnections s.
Proof.
  revert s. induction ls as [|l ls IH]; intros s H; simpl; [done|].
  rewrite IH by (intros k Hk; apply H; by apply list_elem_of_further).
  by rewrite (H l (list_elem_of_here _ _)).
Qed.

(** ** Properties *)

(** C10. A run of the pool is a run of the lease specification, whatever the
    order of its clients' and its cleaner's operations, as long as clients give
    back only what they hold and the dialler returns new sockets: a connection is
    lent to one client at a time, at most [MaxConnections] are kept, dropped
    connections are held by nobody or given up by their holder, and an open
    socket always belongs to a pooled connection. *)
Theorem pool_refines_leases c s0 labs p L :
  init c s0 -> steps step s0 labs (p, L) ->
  steps (lease_step (MaxConnections c)) (mkLease ∅ ∅ false) labs
        (mkLease (list_to_set (connections p)) L (closed p)) /\
  Z.of_nat (length (connections p)) <= MaxConnections c /\
  (forall l conn, heap p !! l = Some conn -> Conn conn ∉ shut p -> l ∈ connections p) /\
  (forall l, l ∈ connections p -> (InUse (heap p !!! l) = true <-> l ∈ L)).
Proof.
  intros Hi Hs. destruct (init_wf c s0 Hi) as [Hwf Ha].
  destruct (step_preserves c (p, L) s0 labs Hwf Hs) as [Hwf' Hl]. rewrite Ha in Hl.
  split_and!; [done|apply Hwf'| |apply Hwf'].
  intros l conn Hl' Hopen. destruct (decide (l ∈ connections p)) as [|Hn]; [done|].
  by apply (wf_open _ _ _ Hwf' _ _ Hl') in Hn.
Qed.

(** A full pool of connections past their lifetime serves nobody: until
    their idle timeout has passed, every [Get] is answered with
    [ErrPoolExhausted] and no cleanup drops one of them, although the statistics
    count no connection as active. *)
Theorem expired_pool_starves p t1 t2 ops :
  expired p t1 -> Forall (between t1 t2) ops ->
  in_int64 (IdleTimeout (config p)) -> IdleTimeout (config p) < int64_max ->
  (forall l, l ∈ connections p -> t2 - LastUsedAt (heap p !!! l) <= IdleTimeout (config p)) ->
  run exec p ops = (p, starved <$> ops) /\ ActiveConnections (Stats p) = 0.
Proof.
  intros Hex Hops Hi Him Hlast. split.
  - induction Hops as [|o ops Ho _ IH]; simpl; [done|].
    by rewrite (expired_step p t1 t2 o), IH.
  - unfold Stats. rewrite count_stats_idle; [done|]. intros l Hl. by apply Hex.
Qed.

Lemma wait_result events p p' r :
  wait events p = (p', Some r) -> r = Err ErrPoolExhausted -> exists others, (others, TimedOut) ∈ events \/
    (others, CtxDone ErrPoolExhausted) ∈ events.
Proof.
  revert p. induction events as [|[others w] events IH]; intros p; simpl; [done|].
  destruct w as [err| |e].
  - intros [= _ <-] [= ->]. exists others. right. apply list_elem_of_here.
  - intros _ _. exists others. left. apply list_elem_of_here.
  - destruct (Get e _) as [p2 r2]. case_decide; [|intros; simplify_eq].
    intros Hw Hr. destruct (IH _ Hw Hr) as [o' Ho']. exists o'. rewrite !elem_of_cons. tauto.
Qed.

(** [GetWithWait] returns: with a connection or the dialler's error as soon
    as a [Get] is not refused for exhaustion, at the latest when its timer or
    its context ends the wait; and it answers [ErrPoolExhausted] only then. *)
Theorem wait_ends e events p :
  (exists ev, ev ∈ events /\ ~ (exists e', ev.2 = Tick e')) ->
  exists p' r, GetWithWait e events p = (p', Some r) /\
    (r = Err ErrPoolExhausted -> exists others, (others, TimedOut) ∈ events \/
       (others, CtxDone ErrPoolExhausted) ∈ events).
Proof.
  intros (ev & Hin & Hev). unfold GetWithWait. destruct (Get e p) as [p1 r1].
  case_decide as E; [clear E|by exists p1, r1].
  assert (exists p' r, wait events p1 = (p', Some r)) as (p' & r & Hw); [|eauto 6 using wait_result].
  revert p1. induction Hin as [[o w] events|[o w] [o' w'] events Hin IH]; intros p1; simpl.
  - destruct w as [err| |e']; [eauto..|]. exfalso. by apply Hev; exists e'.
  - destruct w' as [err| |e']; [eauto..|]. destruct (Get e' _) as [p2 r2]. case_decide; eauto.
Qed.

(** ** Witnesses *)

Definition sample_config : PoolConfig := mkConfig 1 (5 * Minute) Second 0 (30 * Minute).
Definition sample_env (t : Time) (r : result nat) : get_env :=
  mkGetEnv (fun _ => t) (fun _ => t) t (fun u => if decide (u = "ws://node"%string) then r else Err (ErrNew "bad address")).
Definition new_pool : ConnectionPool := mkPool "http://node" sample_config [] false ∅ ∅.
Definition full_pool : ConnectionPool := (Get (sample_env 0 (Ok 7%nat)) new_pool).1.

Lemma pool_refines_leases_witness :
  Z.of_nat (length (connections full_pool)) <= 1 /\ exists l, l ∈ connections full_pool.
Proof.
  pose proof (pool_refines_leases sample_config (new_pool, ∅)
    [(OpGet (sample_env 0 (Ok 7%nat)), Lent 0)] full_pool ({[0%nat]} ∪ ∅)) as H.
  destruct H as (_ & Hsz & _).
  - exists "http://node"%string. split; reflexivity.
  - eapply steps_cons; [|apply steps_nil].
    refine (step_op new_pool ∅ (OpGet (sample_env 0 (Ok 7%nat))) full_pool (Lent 0) _ I _); [reflexivity|].
    intros u s _ l c Hl. discriminate Hl.
  - split; [exact Hsz|]. exists 0%nat. apply list_elem_of_here.
Defined.

Definition returned_pool : ConnectionPool := Put (29 * Minute) 0 full_pool.

Lemma expired_pool_starves_witness :
  (run exec returned_pool [OpGet (sample_env (31 * Minute) (Ok 8%nat)); OpCleanup (33 * Minute)]).2 =
    [Refused ErrPoolExhausted; Done].
Proof.
  rewrite (proj1 (expired_pool_starves returned_pool (31 * Minute) (34 * Minute)
    [OpGet (sample_env (31 * Minute) (Ok 8%nat)); OpCleanup (33 * Minute)]
    ltac:(repeat apply conj; [reflexivity|reflexivity|reflexivity|reflexivity|
            vm_compute; discriminate|vm_compute; discriminate|
            intros l [->|[]%elem_of_nil]%elem_of_cons; split; reflexivity])
    ltac:(repeat apply Forall_cons_2; [intros l; vm_compute; discriminate|
            vm_compute; discriminate|apply Forall_nil_2])
    ltac:(vm_compute; split; discriminate)
    ltac:(reflexivity)
    ltac:(intros l [->|[]%elem_of_nil]%elem_of_cons; vm_compute; discriminate))).
  reflexivity.
Defined.

Lemma wait_ends_witness :
  exists p' r, GetWithWait (sample_env 0 (Ok 9%nat)) [([], Tick (sample_env 1 (Ok 9%nat))); ([], TimedOut)] full_pool
    = (p', Some r).
Proof.
  destruct (wait_ends (sample_env 0 (Ok 9%nat)) [([], Tick (sample_env 1 (Ok 9%nat))); ([], TimedOut)] full_pool)
    as (p' & r & H & _).
  - exists ([], TimedOut). split; [apply list_elem_of_further, list_elem_of_here|]. intros [e' He]. discriminate He.
  - exists p', r. exact H.
Defined.

End Pool.
