(* ===== verification/WebSocket.v ===== *)
(** * The WebSocket proxy: [internal/websocket/handler.go]

    A session runs two goroutines, the pump from the client and the pump from
    the backend, that share [s.backendConn] without a lock.  Each has a program
    counter; every read or write of the shared field is a step of its own, and
    a dial is one between them, so the interleavings are those of the program
    (only the first connection, which is made before the second goroutine
    exists, is one step).  A method call on a [nil]
    connection panics: in the client's pump the deferred [Close] still runs, in
    the backend's pump it ends the program.  The WebSocket library is outside
    the program: what a dial, a read or a write comes to is chosen by the step.
    [log] is a history of what happened, for the statements. *)
From Stdlib Require Import ZArith Lia.
From S2P Require Import Prelude GoFloat Endpoint LoadBalancer Chain Metrics Pool.

Module WS.

Record Config := mkConfig {
  Enabled : bool;
  PingInterval : Duration;
  PongTimeout : Duration;
  WriteTimeout : Duration;
  MaxMessageSize : Z;
  ReconnectBackoff : Duration;
  MaxReconnects : Z
}.

Definition DefaultConfig : Config :=
  mkConfig true (30 * Second) (10 * Second) (10 * Second) (512 * 1024) (1 * Second) 5.

Record rpcRequest := mkRequest {
  JSONRPC : string;
  Method : string;
  Params : string;
  ID : json
}.

Record rpcError := mkError { Code : Z; Message : string }.

Record rpcResponse := mkResponse {
  res_JSONRPC : string;
  Result : option string;
  Error : option rpcError;
  res_ID : json
}.

(** The loop of [connectToBackend] over the statistics of the endpoints. *)
Fixpoint connectToBackend (dial : string -> result nat) (eps : list EP.EndpointStats) : result nat :=
  match eps with
  | [] => Err (ErrNew "no healthy WebSocket endpoints available")
  | ep :: eps' =>
      if EP.Healthy ep then
        match dial (httpToWS (EP.StatsURL ep)) with
        | Err _ => connectToBackend dial eps'
        | Ok conn => Ok conn
        end
      else connectToBackend dial eps'
  end.

(** The client's pump, then the deferred [Close]. *)
Inductive client_pc : Type :=
| CStart
| CTop
| CCheck (m : string) (req : rpcRequest)
| CDial (m : string) (req : rpcRequest)
| CAssign (m : string) (req : rpcRequest) (b : nat)
| CDeadline (m : string) (req : rpcRequest)
| CWrite (m : string) (req : rpcRequest)
| CCloseBad (m : string) (req : rpcRequest)
| CClear (m : string) (req : rpcRequest)
| CReconnect (m : string) (req : rpcRequest)
| CReassign (m : string) (req : rpcRequest) (b : nat)
| CRewrite (m : string) (req : rpcRequest)
| CReject (m : option string) (id : json) (code : Z) (text : string)
| KDone
| KClient
| KCheck
| KBackend
| KEnd.

(** The backend's pump. *)
Inductive backend_pc : Type :=
| BIdle
| BTop
| BCheck
| BLoad
| BReading (b : nat)
| BCloseBad
| BClear
| BRetry (i : Z)
| BAssign (b : nat)
| BAfter
| BDeliver (m : string)
| BExit.

Inductive event : Type :=
| Dialled (b : nat)
| Received (m : string)
| Recorded (us : list Metrics.update)
| Forwarded (b : nat) (m : string)
| Rejected (m : option string) (frame : option string)
| Failed (b : nat)
| ReadFrom (b : nat) (m : string)
| Delivered (m : string)
| Undelivered (m : string).

Record Session := mkSession {
  chainName : string;
  config : Config;
  backendConn : option nat;
  readDeadline : Time;
  done : bool;
  clientOpen : bool;
  live : gset nat;
  panicked : bool;
  crashed : bool;
  log : list event
}.

Definition with_backendConn (b : option nat) (s : Session) : Session :=
  mkSession (chainName s) (config s) b (readDeadline s) (done s) (clientOpen s) (live s)
            (panicked s) (crashed s) (log s).
Definition with_readDeadline (t : Time) (s : Session) : Session :=
  mkSession (chainName s) (config s) (backendConn s) t (done s) (clientOpen s) (live s)
            (panicked s) (crashed s) (log s).
Definition with_done (s : Session) : Session :=
  mkSession (chainName s) (config s) (backendConn s) (readDeadline s) true (clientOpen s) (live s)
            (panicked s) (crashed s) (log s).
Definition with_client_closed (s : Session) : Session :=
  mkSession (chainName s) (config s) (backendConn s) (readDeadline s) (done s) false (live s)
            (panicked s) (crashed s) (log s).
Definition with_live (l : gset nat) (s : Session) : Session :=
  mkSession (chainName s) (config s) (backendConn s) (readDeadline s) (done s) (clientOpen s) l
            (panicked s) (crashed s) (log s).
Definition with_panic (s : Session) : Session :=
  mkSession (chainName s) (config s) (backendConn s) (readDeadline s) (done s) (clientOpen s) (live s)
            true (crashed s) (log s).
Definition with_crash (s : Session) : Session :=
  mkSession (chainName s) (config s) (backendConn s) (readDeadline s) (done s) (clientOpen s) (live s)
            (panicked s) true (log s).
Definition logged (evs : list event) (s : Session) : Session :=
  mkSession (chainName s) (config s) (backendConn s) (readDeadline s) (done s) (clientOpen s) (live s)
            (panicked s) (crashed s) (log s ++ evs).

(** A dial that succeeded: the connection is open. *)
Definition dialled (b : nat) (s : Session) : Session :=
  logged [Dialled b] (with_live ({[b]} ∪ live s) s).

(** [s.backendConn = conn]. *)
Definition assign (b : nat) (s : Session) : Session := with_backendConn (Some b) s.

(** [Close] of a backend's connection. *)
Definition hang_up (b : nat) (s : Session) : Session := with_live (live s ∖ {[b]}) s.

Definition new_session (chain : string) (c : Config) : Session :=
  mkSession chain c None 0 false true ∅ false false [].

(** What the outside decides at a step: where dials lead and which endpoints
    are healthy by then, what arrives and when, and whether a write succeeds. *)
Inductive choice : Type :=
| Go
| Connect (dial : string -> result nat) (eps : list EP.EndpointStats) (now : Time)
| Text (now : Time) (m : string)
| Other (now : Time)
| Pong (now : Time)
| Gone
| WriteOk
| WriteFails.

Section Session.
Context (marshal : rpcResponse -> result string).
Context (unmarshal : string -> result rpcRequest).

(** [sendError]: the frame it writes, if the response can be encoded. *)
Definition sendError (id : json) (code : Z) (message : string) : option string :=
  match marshal (mkResponse "2.0" None (Some (mkError code message)) id) with
  | Ok data => Some data
  | Err _ => None
  end.

(** A message can be read: not after the read deadline, nor above the limit. *)
Definition readable (now : Time) (s : Session) : bool := now <=? readDeadline s.
Definition small_enough (m : string) (s : Session) : bool :=
  (MaxMessageSize (config s) <=? 0) || (Z.of_nat (String.length m) <=? MaxMessageSize (config s)).

(** [Run] up to the start of the pumps; the flag starts the backend's.  No
    other goroutine has the session yet. *)
Definition Run (ch : choice) (s : Session) : option (Session * client_pc * bool) :=
  match ch with
  | Connect dial eps now =>
      match connectToBackend dial eps with
      | Err _ => Some (s, CReject None JNull (-32603) "Failed to connect to backend", false)
      | Ok b =>
          Some (with_readDeadline (Time_Add now (PongTimeout (config s))) (assign b (dialled b s)), CTop, true)
      end
  | _ => None
  end.

(** The top of the loop of [forwardFromClient]: [done] is looked at, then a
    message is read; pongs are handled while it waits. *)
Definition read_client (ch : choice) (s : Session) : option (Session * client_pc) :=
  if done s then match ch with Go => Some (s, KDone) | _ => None end
  else match ch with
  | Gone => Some (s, KDone)
  | Pong now =>
      if readable now s
      then Some (with_readDeadline (Time_Add now (PongTimeout (config s))) s, CTop) else None
  | Other now => if readable now s then Some (s, CTop) else None
  | Text now m =>
      if readable now s && small_enough m s then
        match unmarshal m with
        | Err _ => Some (logged [Received m] s, CReject (Some m) JNull (-32700) "Parse error")
        | Ok req =>
            Some (logged [Received m; Recorded (Metrics.RecordRequest (chainName s) (Method req))] s,
                  CCheck m req)
        end
      else None
  | _ => None
  end.

(** The rest of the loop: the message [m] goes to the backend. *)
Definition to_backend (ch : choice) (s : Session) (pc : client_pc) : option (Session * client_pc) :=
  match pc, ch with
  | CCheck m req, Go =>
      if backendConn s is Some _ then Some (s, CDeadline m req) else Some (s, CDial m req)
  | CDial m req, Connect dial eps _ =>
      match connectToBackend dial eps with
      | Err _ => Some (s, CReject (Some m) (ID req) (-32603) "Backend unavailable")
      | Ok b => Some (dialled b s, CAssign m req b)
      end
  | CAssign m req b, Go => Some (assign b s, CDeadline m req)
  | CDeadline m req, Go =>
      if backendConn s is Some _ then Some (s, CWrite m req) else Some (with_panic s, KDone)
  | CWrite m req, _ =>
      match backendConn s, ch with
      | None, Go => Some (with_panic s, KDone)
      | Some b, WriteOk =>
          if decide (b ∈ live s) then Some (logged [Forwarded b m] s, CTop) else None
      | Some b, WriteFails => Some (logged [Failed b] s, CCloseBad m req)
      | _, _ => None
      end
  | CCloseBad m req, Go =>
      match backendConn s with
      | None => Some (with_panic s, KDone)
      | Some b => Some (hang_up b s, CClear m req)
      end
  | CClear m req, Go => Some (with_backendConn None s, CReconnect m req)
  | CReconnect m req, Connect dial eps _ =>
      match connectToBackend dial eps with
      | Err _ => Some (s, CReject (Some m) (ID req) (-32603) "Backend connection lost")
      | Ok b => Some (dialled b s, CReassign m req b)
      end
  | CReassign m req b, Go => Some (assign b s, CRewrite m req)
  | CRewrite m req, _ =>
      match backendConn s, ch with
      | None, Go => Some (with_panic s, KDone)
      | Some b, WriteOk =>
          if decide (b ∈ live s) then Some (logged [Forwarded b m] s, CTop) else None
      | Some b, WriteFails =>
          Some (logged [Failed b] s, CReject (Some m) (ID req) (-32603) "Failed to send to backend")
      | _, _ => None
      end
  | CReject m id code text, Go =>
      Some (logged [Rejected m (sendError id code text)] s, if m is Some _ then CTop else KDone)
  | _, _ => None
  end.

(** [Close], which [Run] defers. *)
Definition Close (ch : choice) (s : Session) (pc : client_pc) : option (Session * client_pc) :=
  match pc, ch with
  | KDone, Go => Some (with_done s, KClient)
  | KClient, Go => Some (with_client_closed s, KCheck)
  | KCheck, Go => Some (s, if backendConn s is Some _ then KBackend else KEnd)
  | KBackend, Go =>
      match backendConn s with
      | None => Some (with_panic s, KEnd)
      | Some b => Some (hang_up b s, KEnd)
      end
  | _, _ => None
  end.

(** One step of the goroutine of [Run]: its start, the client's pump
    [forwardFromClient], and the deferred [Close]. *)
Definition client_step (ch : choice) (s : Session) (pc : client_pc) :
    option (Session * client_pc * bool) :=
  match pc with
  | CStart => Run ch s
  | CTop => '(s', pc') ← read_client ch s; Some (s', pc', false)
  | KDone | KClient | KCheck | KBackend | KEnd =>
      '(s', pc') ← Close ch s pc; Some (s', pc', false)
  | _ => '(s', pc') ← to_backend ch s pc; Some (s', pc', false)
  end.

(** One step of the backend's pump. *)
Definition backend_step (ch : choice) (s : Session) (pc : backend_pc) :
    option (Session * backend_pc) :=
  match pc, ch with
  | BTop, Go => Some (s, if done s then BExit else BCheck)
  | BCheck, Go => Some (s, if backendConn s is Some _ then BLoad else BTop)
  | BLoad, Go =>
      match backendConn s with
      | None => Some (with_crash s, BExit)
      | Some b => Some (s, BReading b)
      end
  | BReading b, Text _ m =>
      if decide (b ∈ live s) then Some (logged [ReadFrom b m] s, BDeliver m) else None
  | BReading b, Other _ => if decide (b ∈ live s) then Some (s, BTop) else None
  | BReading b, Gone => Some (logged [Failed b] s, BCloseBad)
  | BCloseBad, Go =>
      match backendConn s with
      | None => Some (with_crash s, BExit)
      | Some b => Some (hang_up b s, BClear)
      end
  | BClear, Go => Some (with_backendConn None s, BRetry 0)
  | BRetry i, Go => if i <? MaxReconnects (config s) then None else Some (s, BAfter)
  | BRetry i, Connect dial eps _ =>
      if i <? MaxReconnects (config s) then
        match connectToBackend dial eps with
        | Err _ => Some (s, BRetry (i + 1))
        | Ok b => Some (dialled b s, BAssign b)
        end
      else None
  | BAssign b, Go => Some (assign b s, BAfter)
  | BAfter, Go => Some (s, if backendConn s is Some _ then BTop else BExit)
  | BDeliver m, WriteOk =>
      if clientOpen s then Some (logged [Delivered m] s, BTop) else None
  | BDeliver m, WriteFails => Some (logged [Undelivered m] s, BExit)
  | _, _ => None
  end.

(** The session: both pumps. *)
Record world := mkWorld { session : Session; client : client_pc; backend : backend_pc }.

Inductive actor : Type := Client | Backend.

Definition step (w : world) (a : actor * choice) : option world :=
  let '(mkWorld s c b) := w in
  if crashed s then None
  else match a.1 with
  | Client =>
      '(s', c', start) ← client_step a.2 s c;
      Some (mkWorld s' c' (if start : bool then BTop else b))
  | Backend => '(s', b') ← backend_step a.2 s b; Some (mkWorld s' c b')
  end.


Abbreviation exec := (execute step).

(** [HandleWebSocket]: the chain is looked up, then the connection upgraded. *)
Inductive handled : Type :=
| ChainNotFound
| UpgradeFailed
| Running (w : world).

Definition HandleWebSocket (m : Chain.Manager) (upgraded : bool) (c : Config) (chain : string) : handled :=
  match Chain.GetChain m chain with
  | None => ChainNotFound
  | Some _ => if upgraded then Running (mkWorld (new_session chain c) CStart BIdle) else UpgradeFailed
  end.

(** [StartPinger], which no code starts: the pings it writes, and whether it
    has ended. *)
Inductive pinger_event : Type :=
| PCtxDone
| PDone
| PTick (written : bool).

Fixpoint StartPinger (events : list pinger_event) : nat * bool :=
  match events with
  | [] => (0%nat, false)
  | PTick true :: events' => let '(n, e) := StartPinger events' in (S n, e)
  | _ :: _ => (0%nat, true)
  end.

(** ** What the log says *)

(** The text messages read from the client, and those of them whose fate is
    decided: forwarded to a backend or rejected. *)
Definition received (l : list event) : list string :=
  omap (fun ev => match ev with Received m => Some m | _ => None end) l.
Definition settled (l : list event) : list string :=
  omap (fun ev => match ev with Forwarded _ m | Rejected (Some m) _ => Some m | _ => None end) l.

(** The messages read from backends, and those of them the client got. *)
Definition answers (l : list event) : list string :=
  omap (fun ev => match ev with ReadFrom _ m => Some m | _ => None end) l.
Definition delivered (l : list event) : list string :=
  omap (fun ev => match ev with Delivered m => Some m | _ => None end) l.

(** The message that a pump is at. *)
Definition pending (pc : client_pc) : list string :=
  match pc with
  | CCheck m _ | CDial m _ | CAssign m _ _ | CDeadline m _ | CWrite m _ | CCloseBad m _ | CClear m _
  | CReconnect m _ | CReassign m _ _ | CRewrite m _ | CReject (Some m) _ _ _ => [m]
  | _ => []
  end.

Definition closing (pc : client_pc) : bool :=
  match pc with KDone | KClient | KCheck | KBackend | KEnd => true | _ => false end.

Definition pending_answer (pc : backend_pc) : list string :=
  match pc with BDeliver m => [m] | _ => [] end.

(** The connections dialled to backends. *)
Definition dials (l : list event) : list nat :=
  omap (fun ev => match ev with Dialled b => Some b | _ => None end) l.

Definition failed (l : list event) : Prop := exists b, Failed b ∈ l.

(** ** Lemmas *)

(** The cases of a step. *)
Ltac step_cases H :=
  unfold client_step, Run, read_client, to_backend, Close, backend_step in H; simpl in H;
  repeat match type of H with
  | context [match ?x with _ => _ end] => destruct x eqn:?; simplify_eq/=
  end; simplify_eq/=.

(** A step of either pump, with what it leaves alone. *)
Lemma step_inv w a w' :
  step w a = Some w' ->
  crashed (session w) = false /\
  ((exists start, client_step a.2 (session w) (client w) = Some (session w', client w', start) /\
      backend w' = (if start : bool then BTop else backend w)) \/
   (backend_step a.2 (session w) (backend w) = Some (session w', backend w') /\ client w' = client w)).
Proof.
  destruct w as [s c b], a as [[] ch]; simpl; destruct (crashed s); [done| |done|]; intros H.
  - split; [done|left]. destruct (client_step ch s c) as [[[s' c'] start]|]; simplify_eq/=. eauto.
  - split; [done|right]. destruct (backend_step ch s b) as [[s' b']|]; simplify_eq/=. auto.
Qed.

(** The messages from the client: those received are those settled, then the
    one that is being handled, or was when the pump panicked. *)
Definition accounted (w : world) : Prop :=
  exists lost, received (log (session w)) = settled (log (session w)) ++ pending (client w) ++ lost /\
    (length lost <= 1)%nat /\
    (panicked (session w) = false -> lost = []) /\
    (panicked (session w) = true -> closing (client w) = true).

Ltac log_norm :=
  unfold received, settled, answers, delivered in *; simpl in *;
  rewrite ?omap_app, ?app_nil_r in *; simpl in *; rewrite ?app_nil_r, <- ?app_assoc in *; simpl in *.

Lemma client_step_accounted ch s pc s' pc' start b b' :
  client_step ch s pc = Some (s', pc', start) ->
  accounted (mkWorld s pc b) -> accounted (mkWorld s' pc' b').
Proof.
  intros Hs (lost & Hr & Hlen & Hp & Hc). simpl in *.
  assert (closing pc = false -> panicked s = false /\ lost = []) as Hopen.
  { intros Hf. assert (panicked s = false) by (destruct (panicked s); [rewrite Hc in Hf|]; done). auto. }
  destruct pc as [| | | | | | | | | | | |[m|] id code text| | | | |]; step_cases Hs; unfold accounted; simpl;
    try (destruct (Hopen eq_refl) as [Hp0 ->]); log_norm;
    first [ exists lost; by rewrite ?Hr
          | exists lost; case_match; by rewrite ?Hr
          | exists []; rewrite ?Hr; log_norm; split_and!; [done|lia|done|congruence]
          | eexists [_]; rewrite ?Hr; log_norm; split_and!; [done|simpl; lia|done|done]
          | idtac ].
Qed.

(** The answers: those read from backends are those the client got, then the one
    that is being written, or could not be. *)
Definition answered (w : world) : Prop :=
  exists lost, answers (log (session w)) = delivered (log (session w)) ++ pending_answer (backend w) ++ lost /\
    (length lost <= 1)%nat /\ (lost <> [] -> backend w = BExit).

Lemma client_step_quiet ch s pc s' pc' start :
  client_step ch s pc = Some (s', pc', start) ->
  answers (log s') = answers (log s) /\ delivered (log s') = delivered (log s) /\
  (start = true -> pc = CStart).
Proof. intros Hs. destruct pc; step_cases Hs; log_norm; split_and!; done. Qed.

Lemma client_start ch s pc s' pc' :
  client_step ch s pc = Some (s', pc', true) -> pc = CStart.
Proof. intros Hs. by apply client_step_quiet in Hs as (_ & _ & Hs); apply Hs. Qed.

Lemma client_step_leaves_start ch s pc s' pc' start :
  client_step ch s pc = Some (s', pc', start) -> pc' <> CStart.
Proof. intros Hs. destruct pc as [| | | | | | | | | | | |[m|]| | | | |]; step_cases Hs; try done; by case_match. Qed.

Lemma backend_step_answered ch s pc s' pc' c c' :
  backend_step ch s pc = Some (s', pc') ->
  answered (mkWorld s c pc) -> answered (mkWorld s' c' pc').
Proof.
  intros Hs (lost & Hr & Hlen & Hp). simpl in *.
  assert (pc <> BExit -> lost = []) as Hopen by (intros Hf; destruct lost; [done|]; by destruct Hf; apply Hp).
  destruct pc; step_cases Hs; unfold answered; simpl;
    (rewrite Hopen in * by done); log_norm;
    first [ exists []; try destruct (done s'); try destruct (backendConn s'); log_norm; rewrite ?Hr; log_norm;
            (split_and!; [done|lia|by intros []])
          | eexists [_]; rewrite ?Hr; log_norm; split_and!; [done|simpl; lia|done] ].
Qed.

Lemma backend_step_quiet ch s pc s' pc' :
  backend_step ch s pc = Some (s', pc') ->
  received (log s') = received (log s) /\ settled (log s') = settled (log s) /\
  panicked s' = panicked s /\ done s' = done s /\ clientOpen s' = clientOpen s /\
  readDeadline s' = readDeadline s /\ config s' = config s.
Proof. intros Hs. destruct pc; step_cases Hs; log_norm; split_and!; done. Qed.

(** The client's pump has not started, or the backend's has. *)
Definition started (w : world) : Prop :=
  (client w = CStart -> backend w = BIdle).

Lemma step_messages w a w1 :
  accounted w /\ answered w /\ started w -> step w a = Some w1 ->
  accounted w1 /\ answered w1 /\ started w1.
Proof.
  intros (Ha & Hb & Hst) (_ & H)%step_inv. destruct w as [s c b], w1 as [s1 c1 b1]. simpl in H.
  destruct H as [(start & Hs & ->)|[Hs ->]].
  - split_and!; [by eapply client_step_accounted| |].
    + destruct (client_step_quiet _ _ _ _ _ _ Hs) as (H1 & H2 & H3).
      destruct Hb as (lost & Hr & Hlen & Hp). exists lost. simpl in *. rewrite H1, H2, Hr.
      destruct start; [|done]. unfold started in Hst. simpl in Hst. rewrite (Hst (H3 eq_refl)) in *.
      split_and!; [done..|]. intros Hl. by apply Hp in Hl.
    + intros Hc. by apply client_step_leaves_start in Hs.
  - split_and!; [|by eapply backend_step_answered|].
    + destruct (backend_step_quiet _ _ _ _ _ Hs) as (H1 & H2 & H3 & _).
      unfold accounted in *. simpl in *. by rewrite H1, H2, H3.
    + intros Hc. simpl in Hc. specialize (Hst Hc). simpl in Hst. subst b. destruct a.2; done.
Qed.

(** *** Sessions whose backend never fails *)

(** Where the client's pump can be without and with a backend. *)
Definition unattached (pc : client_pc) : bool :=
  match pc with CStart | CReject None _ _ _ | KDone | KClient | KCheck | KEnd => true | _ => false end.
Definition serving (pc : client_pc) : bool :=
  match pc with
  | CTop | CCheck _ _ | CDeadline _ _ | CWrite _ _ | CReject (Some _) _ _ _
  | KDone | KClient | KCheck | KBackend | KEnd => true
  | _ => false
  end.
Definition ended (pc : client_pc) : bool := match pc with KEnd => true | _ => false end.
Definition pumping (b : nat) (pc : backend_pc) : bool :=
  match pc with
  | BTop | BCheck | BLoad | BDeliver _ | BExit => true
  | BReading b' => bool_decide (b' = b)
  | _ => false
  end.

Definition steady (w : world) : Prop :=
  failed (log (session w)) \/
  (panicked (session w) = false /\ crashed (session w) = false /\
   match backendConn (session w) with
   | None => dials (log (session w)) = [] /\
               live (session w) = ∅ /\ backend w = BIdle /\ unattached (client w) = true
   | Some b => dials (log (session w)) = [b] /\
               live (session w) = (if ended (client w) then ∅ else {[b]}) /\
               pumping b (backend w) = true /\ serving (client w) = true
   end).

Lemma failed_app l1 l2 : failed l1 -> failed (l1 ++ l2).
Proof. intros [b Hb]. exists b. apply elem_of_app. auto. Qed.

Lemma dials_app l1 l2 : dials (l1 ++ l2) = dials l1 ++ dials l2.
Proof. apply omap_app. Qed.

Lemma failed_last l b : failed (l ++ [Failed b]).
Proof. exists b. apply elem_of_app. right. apply list_elem_of_here. Qed.

Lemma client_step_failed ch s pc s' pc' start :
  client_step ch s pc = Some (s', pc', start) -> failed (log s) -> failed (log s').
Proof. intros Hs Hf. destruct pc; step_cases Hs; auto using failed_app. Qed.

Lemma backend_step_failed ch s pc s' pc' :
  backend_step ch s pc = Some (s', pc') -> failed (log s) -> failed (log s').
Proof. intros Hs Hf. destruct pc; step_cases Hs; auto using failed_app. Qed.

Lemma client_step_steady ch s pc s' pc' start b :
  client_step ch s pc = Some (s', pc', start) ->
  steady (mkWorld s pc b) -> steady (mkWorld s' pc' (if start : bool then BTop else b)).
Proof.
  intros Hs [Hf|(Hp & Hc & Hb)]; [left; by eapply client_step_failed|]. simpl in *.
  destruct (backendConn s) as [b0|] eqn:Eb; destruct Hb as (Hdl & Hl & Hpc & Hcl);
    destruct pc as [| | | | | | | | | | | |[m|] id code text| | | | |]; try discriminate Hcl;
    unfold client_step, Run, read_client, to_backend, Close in Hs; simpl in Hs; rewrite ?Eb in Hs; step_cases Hs;
    first [ left; apply failed_last
          | right; simpl in *; rewrite ?Eb; simpl; rewrite ?dials_app, ?Hdl, ?Hl; simpl; split_and!; try done; set_solver ].
Qed.

Lemma backend_step_steady ch s pc s' pc' c :
  backend_step ch s pc = Some (s', pc') ->
  steady (mkWorld s c pc) -> steady (mkWorld s' c pc').
Proof.
  intros Hs [Hf|(Hp & Hc & Hb)]; [left; by eapply backend_step_failed|]. simpl in *.
  destruct (backendConn s) as [b0|] eqn:Eb; destruct Hb as (Hdl & Hl & Hpc & Hcl);
    destruct pc; try discriminate Hpc;
    unfold client_step, Run, read_client, to_backend, Close in Hs; simpl in Hs; rewrite ?Eb in Hs; step_cases Hs;
    first [ left; apply failed_last
          | right; try destruct (done s'); simpl; rewrite ?Eb; simpl; rewrite ?dials_app, ?Hdl; simpl;
            rewrite ?bool_decide_true by done; by split_and! ].
Qed.

Lemma step_steady w a w1 : steady w -> step w a = Some w1 -> steady w1.
Proof.
  intros Hw (_ & H)%step_inv. destruct w as [s c b], w1 as [s1 c1 b1]. simpl in H.
  destruct H as [(start & Hs & ->)|[Hs ->]].
  - by eapply client_step_steady.
  - by eapply backend_step_steady.
Qed.

(** *** The end of a session *)

(** The dials of a schedule lead somewhere. *)
Definition reaches (a : actor * choice) : Prop :=
  match a.2 with Connect dial eps _ => exists b, connectToBackend dial eps = Ok b | _ => True end.

(** The session is closed, its backend's pump not yet. *)
Definition winding_down (w : world) : Prop :=
  client w = KEnd /\ done (session w) = true /\ crashed (session w) = false /\
  0 < MaxReconnects (config (session w)) /\
  match backend w with
  | BReading b => (b ∉ live (session w)) /\ is_Some (backendConn (session w))
  | BCloseBad => is_Some (backendConn (session w))
  | BClear => True
  | BRetry i => i = 0
  | BAssign b => b ∈ live (session w)
  | BAfter => exists b, backendConn (session w) = Some b /\ b ∈ live (session w)
  | BTop | BExit => exists b, b ∈ live (session w)
  | _ => False
  end.

Lemma winding_step w a w1 :
  winding_down w -> reaches a -> step w a = Some w1 -> winding_down w1.
Proof.
  intros (Hc & Hd & Hcr & Hm & Hb) Ha Hs. destruct w as [s c b]. simpl in *. subst c.
  rewrite Hcr in Hs. destruct a as [[] ch]; simpl in *; [by destruct ch|].
  destruct (backend_step ch s b) as [[s' b']|] eqn:E; simplify_eq/=.
  unfold winding_down. simpl. unfold reaches in Ha. simpl in Ha.
  destruct b as [| | | |b| | |i|b| |m|]; try done; destruct ch as [|dial eps now|now m|now|now| | |]; simpl in E; try done.
  - rewrite Hd in E. by simplify_eq.
  - destruct Hb as [Hb _]. by rewrite decide_False in E.
  - destruct Hb as [Hb _]. by rewrite decide_False in E.
  - destruct Hb as [_ Hb]. by simplify_eq/=.
  - destruct Hb as [b Hb]. rewrite Hb in E. by simplify_eq/=.
  - by simplify_eq/=.
  - subst i. by rewrite (proj2 (Z.ltb_lt 0 _)) in E.
  - subst i. rewrite (proj2 (Z.ltb_lt 0 _)) in E by done. destruct Ha as [b Ha]. rewrite Ha in E.
    simplify_eq/=. split_and!; [done..|]. set_solver.
  - simplify_eq/=. split_and!; [done..|]. by exists b.
  - destruct Hb as (b & Hb & Hl). rewrite Hb in E. simplify_eq/=. split_and!; [done..|]. by exists b.
Qed.

Lemma winding_exec w sched w' :
  winding_down w -> Forall reaches sched -> exec w sched = Some w' -> winding_down w'.
Proof.
  revert w. induction sched as [|a sched IH]; intros w Hw Hr He; simpl in He; [congruence|].
  apply Forall_cons in Hr as [Ha Hr]. destruct (step w a) as [w1|] eqn:E; simpl in He; [|done].
  eauto using winding_step.
Qed.

(** *** The read deadline *)

Definition is_pong (a : actor * choice) : Prop := exists now, a.2 = Pong now.

Lemma step_deadline w a w1 :
  client w <> CStart -> ~ is_pong a -> step w a = Some w1 ->
  client w1 <> CStart /\ readDeadline (session w1) = readDeadline (session w) /\
  (forall now m, a = (Client, Text now m) -> now <= readDeadline (session w)).
Proof.
  intros Hc Hp Hs. destruct w as [s c b]. simpl in *. destruct (crashed s); [done|].
  destruct a as [[] ch]; simpl in Hs.
  - destruct (client_step ch s c) as [[[s' c'] start]|] eqn:E; simplify_eq/=.
    split; [by eapply client_step_leaves_start|].
    destruct ch; try (by exfalso; apply Hp; eexists);
      (split; [destruct c; step_cases E; done|]); intros now' m' Ha; simplify_eq.
    destruct c; step_cases E;
      repeat match goal with H : (_ && _)%bool = true |- _ => apply andb_true_iff in H as [? ?] end;
      unfold readable in *; zify_bool; lia.
  - destruct (backend_step ch s b) as [[s' b']|] eqn:E; simplify_eq/=.
    destruct (backend_step_quiet _ _ _ _ _ E) as (_ & _ & _ & _ & _ & Hr & _). by split_and!.
Qed.

Lemma exec_deadline w sched w' now m :
  client w <> CStart -> Forall (fun a => ~ is_pong a) sched -> exec w sched = Some w' ->
  (Client, Text now m) ∈ sched -> now <= readDeadline (session w).
Proof.
  revert w. induction sched as [|a sched IH]; intros w Hc Hp He Hin; [by apply elem_of_nil in Hin|].
  apply Forall_cons in Hp as [Ha Hp]. simpl in He.
  destruct (step w a) as [w1|] eqn:E; simpl in He; [|done].
  destruct (step_deadline w a w1 Hc Ha E) as (Hc1 & Hr & Ht).
  apply elem_of_cons in Hin as [<-|Hin]; [by eapply Ht|]. rewrite <- Hr. by eapply IH.
Qed.

(** ** Properties *)

(** C16. Every request gets one fate, in the order of arrival, whatever the two
    pumps and the backends do: the text messages read from the client are those
    forwarded to a backend or rejected with an error, once each and in order,
    followed by the one being handled; only a panic of the client's pump loses
    one, the last. *)
Theorem requests_accounted chain c sched w :
  exec (mkWorld (new_session chain c) CStart BIdle) sched = Some w ->
  exists lost, received (log (session w)) = settled (log (session w)) ++ pending (client w) ++ lost /\
    (length lost <= 1)%nat /\
    (panicked (session w) = false -> lost = []) /\
    (lost <> [] -> closing (client w) = true).
Proof.
  intros He. apply (execute_invariant _ (fun w => accounted w /\ answered w /\ started w)) in He.
  - destruct He as ((lost & Hr & Hlen & Hp & Hc) & _). exists lost. split_and!; [done..|].
    intros Hl. apply Hc. destruct (panicked (session w)); [done|]. by destruct Hl; apply Hp.
  - apply step_messages.
  - split_and!; [exists []|exists []|done]; split_and!; simpl; auto with lia; done.
Qed.

(** C22. The client gets the backends' text messages in the order in which they
    were read, each once and nothing else but errors; at most the last one read
    is missing: it is being written, or the client could not be reached. *)
Theorem answers_in_order chain c sched w :
  exec (mkWorld (new_session chain c) CStart BIdle) sched = Some w ->
  exists rest, answers (log (session w)) = delivered (log (session w)) ++ rest /\
    (length rest <= 1)%nat /\
    (rest <> [] -> backend w = BExit \/ exists m, backend w = BDeliver m /\ rest = [m]).
Proof.
  intros He. apply (execute_invariant _ (fun w => accounted w /\ answered w /\ started w)) in He.
  - destruct He as (_ & (lost & Hr & Hlen & Hp) & _). exists (pending_answer (backend w) ++ lost).
    assert (backend w <> BExit -> lost = []) as Hopen.
    { intros Hf. destruct lost; [done|]. by destruct Hf; apply Hp. }
    destruct (backend w) eqn:Eb; simpl in *; try (rewrite Hopen in * by done; simpl in *);
      split_and!; try done; try lia; intros _; eauto.
  - apply step_messages.
  - split_and!; [exists []|exists []|done]; split_and!; simpl; auto with lia; done.
Qed.

(** C21. As long as no read from or write to a backend fails, neither pump ever
    panics; at most one connection is ever dialled, it is the session's from then
    on, and it is the only one that can be open; and when the client's pump has
    ended no connection is left open. *)
Theorem steady_session_safe chain c sched w :
  exec (mkWorld (new_session chain c) CStart BIdle) sched = Some w ->
  ~ failed (log (session w)) ->
  panicked (session w) = false /\ crashed (session w) = false /\
  dials (log (session w)) = (if backendConn (session w) is Some b then [b] else []) /\
  (forall b, b ∈ live (session w) -> backendConn (session w) = Some b) /\
  (client w = KEnd -> live (session w) = ∅).
Proof.
  intros He Hf. apply (execute_invariant _ steady) in He; [|by apply step_steady|by right].
  destruct He as [?|(Hp & Hc & Hb)]; [done|]. split_and!; [done..| | |].
  - destruct (backendConn (session w)); apply Hb.
  - intros b Hl. destruct (backendConn (session w)) as [b0|]; destruct Hb as (_ & Hb & _).
    + rewrite Hb in Hl. destruct (ended (client w)); set_solver.
    + set_solver.
  - intros Hk. destruct (backendConn (session w)) as [b0|]; destruct Hb as (_ & Hb & _); [|done].
    by rewrite Hk in Hb.
Qed.

(** C23. A closed session reconnects: [Close] ends the read of the backend's pump,
    which dials again before it looks at [done]. When its dials succeed, every
    way in which the pump ends leaves a connection open, and no step is left
    that would close it. *)
Theorem closed_session_leaks w b sched w' :
  client w = KEnd -> done (session w) = true -> crashed (session w) = false ->
  backend w = BReading b -> is_Some (backendConn (session w)) -> b ∉ live (session w) ->
  0 < MaxReconnects (config (session w)) ->
  Forall reaches sched -> exec w sched = Some w' -> backend w' = BExit ->
  (exists b', b' ∈ live (session w')) /\ forall a, step w' a = None.
Proof.
  intros Hc Hd Hcr Hb Hs Hl Hm Hr He Hx.
  destruct (winding_exec w sched w') as (Hc' & _ & _ & _ & Hb'); [|done..|].
  { unfold winding_down. by rewrite Hb. }
  rewrite Hx in Hb'. split; [done|]. intros [who ch]. destruct w' as [s' c' b']. simpl in *. subst.
  destruct (crashed s'); [done|]. by destruct who, ch.
Qed.

(** When both pumps notice the loss of the connection, the one that hangs up
    second calls a method of [nil]: the backend's pump crashes the program, the
    client's pump panics. *)
Theorem lost_backend_crashes s m req b :
  crashed s = false -> backendConn s = Some b ->
  (exists w, exec (mkWorld s (CCloseBad m req) BCloseBad) [(Client, Go); (Client, Go); (Backend, Go)] = Some w /\
     crashed (session w) = true) /\
  (exists w, exec (mkWorld s (CCloseBad m req) BCloseBad) [(Backend, Go); (Backend, Go); (Client, Go)] = Some w /\
     panicked (session w) = true).
Proof. intros Hc Hb. destruct s. simpl in *. subst. split; eexists; split; reflexivity. Qed.

(** When both pumps reconnect, each dials and then assigns: the connection
    assigned first stays open and nobody has it any more. *)
Theorem both_redial s m req b1 b2 dial1 dial2 eps1 eps2 t1 t2 :
  crashed s = false -> 0 < MaxReconnects (config s) -> b1 <> b2 ->
  connectToBackend dial1 eps1 = Ok b1 -> connectToBackend dial2 eps2 = Ok b2 ->
  exists w, exec (mkWorld s (CReconnect m req) (BRetry 0))
      [(Client, Connect dial1 eps1 t1); (Backend, Connect dial2 eps2 t2); (Client, Go); (Backend, Go)] = Some w /\
    backendConn (session w) = Some b2 /\ b1 ∈ live (session w) /\ client w = CRewrite m req /\ backend w = BAfter.
Proof.
  intros Hc Hm Hne H1 H2. destruct s. simpl in *. subst. rewrite H1. simpl.
  rewrite (proj2 (Z.ltb_lt 0 _) Hm), H2. simpl. eexists. split; [reflexivity|]. simpl. split_and!; try done. set_solver.
Qed.

(** Only pongs extend the read deadline, and nothing sends pings: without an
    unsolicited pong, no message of the client is read after the first
    [PongTimeout] of the session. *)
Theorem silent_session_expires chain c dial eps t0 b sched w now m :
  connectToBackend dial eps = Ok b ->
  exec (mkWorld (new_session chain c) CStart BIdle) ((Client, Connect dial eps t0) :: sched) = Some w ->
  Forall (fun a => ~ is_pong a) sched ->
  (Client, Text now m) ∈ sched -> now <= t0 + PongTimeout c.
Proof.
  intros Hd He Hp Hin. simpl in He. rewrite Hd in He. simpl in He.
  by eapply (exec_deadline _ _ _ now m) in He.
Qed.

End Session.

Abbreviation exec marshal unmarshal := (execute (step marshal unmarshal)).

(** ** Witnesses *)

Definition sample_marshal (r : rpcResponse) : result string :=
  Ok match Error r with Some e => Message e | None => "" end.
Definition sample_unmarshal (m : string) : result rpcRequest :=
  if decide (m = "?"%string) then Err (ErrNew "invalid character")
  else Ok (mkRequest "2.0" m "" (JInt 1)).
Definition up_endpoint : EP.EndpointStats := EP.Stats (EP.NewEndpoint "http://node" 1 0).
Definition dial_to (b : nat) : choice := Connect (fun _ => Ok b) [up_endpoint] 0.

(** A session with two requests, one of them malformed, and an answer. *)
Definition opening : list (actor * choice) :=
  [(Client, dial_to 1); (Client, Text 1 "eth_call"); (Client, Go); (Client, Go); (Client, WriteOk);
   (Client, Text 2 "?"); (Client, Go); (Backend, Go); (Backend, Go); (Backend, Go)].
Definition answering : list (actor * choice) := [(Backend, Text 3 "0x1"); (Backend, WriteOk)].
Definition closing_down : list (actor * choice) :=
  [(Client, Gone); (Client, Go); (Client, Go); (Client, Go); (Client, Go)].

Definition start : world := mkWorld (new_session "eth" DefaultConfig) CStart BIdle.
Definition run_from (sched : list (actor * choice)) : world :=
  default start (exec sample_marshal sample_unmarshal start sched).

Lemma requests_accounted_witness :
  received (log (session (run_from (opening ++ answering)))) = ["eth_call"; "?"]%string /\
  exists lost, ["eth_call"; "?"]%string = settled (log (session (run_from (opening ++ answering)))) ++ lost.
Proof.
  split; [vm_compute; reflexivity|].
  destruct (requests_accounted sample_marshal sample_unmarshal "eth" DefaultConfig (opening ++ answering)
    (run_from (opening ++ answering)) ltac:(vm_compute; reflexivity)) as (lost & H & _).
  exists lost. exact H.
Defined.

Lemma answers_in_order_witness :
  exists rest, ["0x1"]%string = delivered (log (session (run_from (opening ++ answering)))) ++ rest.
Proof.
  destruct (answers_in_order sample_marshal sample_unmarshal "eth" DefaultConfig (opening ++ answering)
    (run_from (opening ++ answering)) ltac:(vm_compute; reflexivity)) as (rest & H & _).
  exists rest. exact H.
Defined.

Lemma steady_session_safe_witness :
  live (session (run_from (opening ++ answering ++ closing_down))) = ∅ /\
  dials (log (session (run_from (opening ++ answering ++ closing_down)))) = [1%nat].
Proof.
  destruct (steady_session_safe sample_marshal sample_unmarshal "eth" DefaultConfig (opening ++ answering ++ closing_down)
    (run_from (opening ++ answering ++ closing_down)) ltac:(vm_compute; reflexivity)) as (_ & _ & Hd & _ & H).
  - intros [b Hb]. revert Hb. vm_compute. intros Hb.
    repeat (apply elem_of_cons in Hb as [Hb|Hb]; [discriminate Hb|]). by apply elem_of_nil in Hb.
  - split; [apply H; vm_compute; reflexivity|]. etransitivity; [exact Hd|]. vm_compute. reflexivity.
Defined.

Definition closed_world : world := run_from (opening ++ closing_down).
Definition redial : list (actor * choice) :=
  [(Backend, Gone); (Backend, Go); (Backend, Go); (Backend, dial_to 2); (Backend, Go); (Backend, Go);
   (Backend, Go)].

Lemma closed_session_leaks_witness :
  exists b', b' ∈ live (session (run_from (opening ++ closing_down ++ redial))).
Proof.
  refine (proj1 (closed_session_leaks sample_marshal sample_unmarshal closed_world 1 redial
    (run_from (opening ++ closing_down ++ redial)) _ _ _ _ _ _ _ _ _ _)).
  - vm_compute. reflexivity.
  - vm_compute. reflexivity.
  - vm_compute. reflexivity.
  - vm_compute. reflexivity.
  - exists 1%nat. vm_compute. reflexivity.
  - apply (bool_decide_eq_true_1 _). vm_compute. reflexivity.
  - vm_compute. reflexivity.
  - repeat apply Forall_cons_2; try apply Forall_nil_2; try exact I. exists 2%nat. reflexivity.
  - vm_compute. reflexivity.
  - vm_compute. reflexivity.
Defined.

(** The backend goes away while a request is on its way to it. *)
Definition both_notice : world :=
  run_from (opening ++ [(Client, Text 4 "eth_call"); (Client, Go); (Client, Go);
                        (Client, WriteFails); (Backend, Gone)]).

Lemma lost_backend_crashes_witness :
  client both_notice = CCloseBad "eth_call" (mkRequest "2.0" "eth_call" "" (JInt 1)) /\
  backend both_notice = BCloseBad /\
  exists w, exec sample_marshal sample_unmarshal
    (mkWorld (session both_notice) (CCloseBad "eth_call" (mkRequest "2.0" "eth_call" "" (JInt 1))) BCloseBad)
    [(Client, Go); (Client, Go); (Backend, Go)] = Some w /\ crashed (session w) = true.
Proof.
  split; [vm_compute; reflexivity|]. split; [vm_compute; reflexivity|].
  refine (proj1 (lost_backend_crashes sample_marshal sample_unmarshal (session both_notice) "eth_call"
    (mkRequest "2.0" "eth_call" "" (JInt 1)) 1 _ _)).
  - vm_compute. reflexivity.
  - vm_compute. reflexivity.
Defined.

Lemma silent_session_expires_witness : 2 <= 0 + 10 * Second.
Proof.
  refine (silent_session_expires sample_marshal sample_unmarshal "eth" DefaultConfig
    (fun _ => Ok 1%nat) [up_endpoint] 0 1 (tail opening) (run_from opening) 2 "?" _ _ _ _).
  - reflexivity.
  - vm_compute. reflexivity.
  - repeat apply Forall_cons_2; try apply Forall_nil_2; intros [now Hn]; discriminate Hn.
  - simpl. repeat first [apply list_elem_of_here | apply list_elem_of_further].
Defined.

End WS.
