(* ===== verification/Watcher.v ===== *)
(** * Reloading the configuration: [internal/config/watcher.go]

    The watcher's goroutine turns file events into a debounce timer; the timer
    and [ForceReload] start reloads, which may overlap: each loads the file,
    swaps the configuration under the lock and then notifies the callbacks
    without it.  A reload is a job with a program counter; a step is what one
    goroutine does between two points where others can act.  fsnotify and the
    file system are outside the program.  [swaps] and [calls] are histories, for
    the statements. *)
From Stdlib Require Import ZArith Lia Ascii.
From S2P Require Import Prelude Config.

(** ** [path/filepath] on slash-separated paths *)
Module Filepath.

Definition slash : ascii := "/"%char.

Fixpoint drop_slashes (s : list ascii) : list ascii :=
  match s with
  | c :: s' => if ascii_dec c slash then drop_slashes s' else s
  | [] => []
  end.

(** The bytes before the first slash, and the rest after it if there is one. *)
Fixpoint upto_slash (s : list ascii) : list ascii :=
  match s with
  | c :: s' => if ascii_dec c slash then [] else c :: upto_slash s'
  | [] => []
  end.

Definition Base (path : string) : string :=
  if decide (path = ""%string) then "."
  else match drop_slashes (reverse (String.list_ascii_of_string path)) with
       | [] => "/"
       | r => String.string_of_list_ascii (reverse (upto_slash r))
       end.

(** The elements of a path between its slashes. *)
Fixpoint elements (s cur : list ascii) : list string :=
  match s with
  | [] => [String.string_of_list_ascii (reverse cur)]
  | c :: s' =>
      if ascii_dec c slash then String.string_of_list_ascii (reverse cur) :: elements s' []
      else elements s' (c :: cur)
  end.

(** The stack of kept elements, the last first. *)
Fixpoint resolve (rooted : bool) (es : list string) (out : list string) : list string :=
  match es with
  | [] => out
  | e :: es' =>
      resolve rooted es'
        (if decide (e = ""%string \/ e = "."%string) then out
         else if decide (e = ".."%string) then
           match out with
           | [] => if rooted then [] else [".."%string]
           | top :: out' => if decide (top = ".."%string) then ".."%string :: out else out'
           end
         else e :: out)
  end.

Definition Clean (path : string) : string :=
  let s := String.list_ascii_of_string path in
  let rooted := bool_decide (head s = Some slash) in
  let body := String.concat "/" (reverse (resolve rooted (elements s []) [])) in
  if rooted then "/" +:+ body else if decide (body = ""%string) then "." else body.

(** The path up to its last slash. *)
Definition Dir (path : string) : string :=
  let r := reverse (String.list_ascii_of_string path) in
  Clean (String.string_of_list_ascii (reverse (drop (length (upto_slash r)) r))).

End Filepath.

Module Watcher.

(** A callback is a function value, named by a number. *)
Record Watcher := mkWatcher {
  configPath : string;
  config : Cfg.Config;
  callbacks : list nat;
  debounce : Duration;
  stopCh_closed : bool
}.

(** [NewWatcher]: [fsnotify.NewWatcher] and its [Add] may fail. *)
Definition NewWatcher (new : option error) (add : string -> option error) (path : string)
    (initial : Cfg.Config) : result Watcher :=
  match new with
  | Some err => Err err
  | None =>
      match add (Filepath.Dir path) with
      | Some err => Err err
      | None => Ok (mkWatcher path initial [] (500 * Millisecond) false)
      end
  end.

Definition OnReload (cb : nat) (w : Watcher) : Watcher :=
  mkWatcher (configPath w) (config w) (callbacks w ++ [cb]) (debounce w) (stopCh_closed w).

Definition Config (w : Watcher) : Cfg.Config := config w.

Definition with_config (c : Cfg.Config) (w : Watcher) : Watcher :=
  mkWatcher (configPath w) c (callbacks w) (debounce w) (stopCh_closed w).
Definition with_stopped (w : Watcher) : Watcher :=
  mkWatcher (configPath w) (config w) (callbacks w) (debounce w) true.

(** A run of [reload] or [ForceReload], and what it returns. *)
Inductive job : Type :=
| Loading
| Swapping (new : Cfg.Config)
| Notifying (old new : Cfg.Config) (todo : list nat)
| Ended (err : option error).

Record state := mkState {
  watcher : Watcher;
  watching : bool;
  timer : option Time;
  jobs : list job;
  crashed : bool;
  swaps : list (Cfg.Config * Cfg.Config);
  calls : list (nat * Cfg.Config * Cfg.Config)
}.

Definition with_watcher (w : Watcher) (s : state) : state :=
  mkState w (watching s) (timer s) (jobs s) (crashed s) (swaps s) (calls s).
Definition with_timer (t : option Time) (s : state) : state :=
  mkState (watcher s) (watching s) t (jobs s) (crashed s) (swaps s) (calls s).
Definition with_jobs (js : list job) (s : state) : state :=
  mkState (watcher s) (watching s) (timer s) js (crashed s) (swaps s) (calls s).
Definition unwatched (s : state) : state :=
  mkState (watcher s) false (timer s) (jobs s) (crashed s) (swaps s) (calls s).
Definition with_crash (s : state) : state :=
  mkState (watcher s) (watching s) (timer s) (jobs s) true (swaps s) (calls s).
Definition with_swap (old new : Cfg.Config) (s : state) : state :=
  mkState (watcher s) (watching s) (timer s) (jobs s) (crashed s) (swaps s ++ [(old, new)]) (calls s).
Definition with_call (cb : nat) (old new : Cfg.Config) (s : state) : state :=
  mkState (watcher s) (watching s) (timer s) (jobs s) (crashed s) (swaps s) (calls s ++ [(cb, old, new)]).

(** [Start]. *)
Definition started (w : Watcher) : state := mkState w true None [] false [] [].

(** fsnotify's bits: create 1, write 2, remove 4, rename 8, chmod 16. *)
Definition relevant (w : Watcher) (name : string) (op : Z) : bool :=
  bool_decide (Filepath.Base name = Filepath.Base (configPath w)) && negb (Z.land op (Z.lor 2 1) =? 0).

(** What happens next: a file event, an error or the end of the watcher's
    channels; the timer; a step of a reload, with what the file holds or what
    the callback returns; a call of a method. *)
Inductive move : Type :=
| FsEvent (now : Time) (name : string) (op : Z)
| FsError
| FsClosed
| SeeStop
| Fire (now : Time)
| Load (i : nat) (file : result string)
| Swap (i : nat)
| Notify (i : nat) (err : option error)
| Force
| Register (cb : nat)
| Stop.

Section Watch.
Context (unmarshal : string -> result Cfg.Config).

(** A reload's job [i] makes the step [m]. *)
Definition job_step (i : nat) (j : job) (m : move) (s : state) : option state :=
  match j, m with
  | Loading, Load _ file =>
      match Cfg.Load unmarshal file with
      | Panic _ => Some (with_crash s)
      | Ret (Err err) => Some (with_jobs (<[i := Ended (Some err)]> (jobs s)) s)
      | Ret (Ok new) => Some (with_jobs (<[i := Swapping new]> (jobs s)) s)
      end
  | Swapping new, Swap _ =>
      let w := watcher s in
      Some (with_swap (config w) new
             (with_jobs (<[i := Notifying (config w) new (callbacks w)]> (jobs s))
               (with_watcher (with_config new w) s)))
  | Notifying old new (cb :: todo), Notify _ _ =>
      Some (with_call cb old new (with_jobs (<[i := Notifying old new todo]> (jobs s)) s))
  | Notifying old new [], Notify _ _ => Some (with_jobs (<[i := Ended None]> (jobs s)) s)
  | _, _ => None
  end.

(** The loop of [watch]: one receive of its [select].  [Stop] closes the
    channel of events as well as [stopCh]. *)
Definition watch (m : move) (s : state) : option state :=
  if watching s then
    match m with
    | FsEvent now name op =>
        Some (if relevant (watcher s) name op
              then with_timer (Some (Time_Add now (debounce (watcher s)))) s else s)
    | FsError => Some s
    | FsClosed => if stopCh_closed (watcher s) then Some (unwatched s) else None
    | SeeStop => if stopCh_closed (watcher s) then Some (unwatched (with_timer None s)) else None
    | _ => None
    end
  else None.

(** The timer's function, in a goroutine of its own. *)
Definition fire (now : Time) (s : state) : option state :=
  match timer s with
  | Some d => if d <=? now then Some (with_timer None (with_jobs (jobs s ++ [Loading]) s)) else None
  | None => None
  end.

(** [Stop]: closing [stopCh] again panics. *)
Definition stop (s : state) : state :=
  if stopCh_closed (watcher s) then with_crash s else with_watcher (with_stopped (watcher s)) s.

Definition step (s : state) (m : move) : option state :=
  if crashed s then None
  else match m with
  | FsEvent _ _ _ | FsError | FsClosed | SeeStop => watch m s
  | Fire now => fire now s
  | Load i _ | Swap i | Notify i _ => j ← jobs s !! i; job_step i j m s
  | Force => Some (with_jobs (jobs s ++ [Loading]) s)
  | Register cb => Some (with_watcher (OnReload cb (watcher s)) s)
  | Stop => Some (stop s)
  end.


Abbreviation exec := (execute step).

(** [ForceReload] with no other goroutine in between: what it returns, and the
    calls of the callbacks it makes. *)
Definition ForceReload (file : result string) (w : Watcher) :
    go (Watcher * option error * list (nat * Cfg.Config * Cfg.Config)) :=
  r ← Cfg.Load unmarshal file;
  Ret match r with
      | Err err => (w, Some err, [])
      | Ok new => (with_config new w, None, (fun cb => (cb, config w, new)) <$> callbacks w)
      end.

(** ** What the histories say *)

(** Each swap starts from the configuration that the one before it left. *)
Fixpoint chained (c : Cfg.Config) (l : list (Cfg.Config * Cfg.Config)) (c' : Cfg.Config) : Prop :=
  match l with
  | [] => c = c'
  | (old, new) :: l' => old = c /\ chained new l' c'
  end.

(** The relevant file events of a run, and the timer's expiries. *)
Definition is_relevant (w : Watcher) (m : move) : bool :=
  match m with FsEvent _ name op => relevant w name op | _ => false end.
Definition is_fire (m : move) : bool := match m with Fire _ => true | _ => false end.

(** Moves that leave the timer alone. *)
Definition inert (w : Watcher) (m : move) : Prop :=
  match m with
  | FsEvent _ name op => relevant w name op = false
  | Fire _ | SeeStop | FsClosed => False
  | _ => True
  end.

(** File events are not earlier than [t]. *)
Definition not_before (t : Time) (m : move) : Prop :=
  match m with FsEvent t' _ _ => t <= t' | _ => True end.

(** ** Lemmas *)

(** A step changes neither the path nor the delay. *)
Definition same_file (w w' : Watcher) : Prop :=
  configPath w' = configPath w /\ debounce w' = debounce w.

Ltac step_cases H :=
  repeat match type of H with
  | context [match ?x with _ => _ end] => destruct x eqn:?; simplify_eq/=
  end; simplify_eq/=.

(** What a move does to the timer. *)
Lemma step_timer s m s1 :
  step s m = Some s1 ->
  same_file (watcher s) (watcher s1) /\
  match m with
  | FsEvent now name op =>
      timer s1 = if relevant (watcher s) name op then Some (now + debounce (watcher s)) else timer s
  | SeeStop => timer s1 = None
  | Fire now => exists d, timer s = Some d /\ d <= now /\ timer s1 = None
  | _ => timer s1 = timer s
  end.
Proof.
  unfold step, watch, fire, stop. destruct (crashed s); [done|]. intros Hs.
  destruct m as [now name op| | | |now|i file|i|i err| |cb|].
  1: step_cases Hs; by destruct (relevant (watcher s) name op).
  1-4, 8-10: step_cases Hs; zify_bool; (split; [by split|]); eauto.
  all: destruct (jobs s !! i) as [j|]; simpl in Hs; [|done]; unfold job_step in Hs;
    step_cases Hs; by repeat split.
Qed.

Lemma relevant_same w w' name op : same_file w w' -> relevant w' name op = relevant w name op.
Proof. intros [H _]. unfold relevant. by rewrite H. Qed.

Lemma same_file_trans w w1 w2 : same_file w w1 -> same_file w1 w2 -> same_file w w2.
Proof. intros [? ?] [? ?]. split; congruence. Qed.

Lemma exec_same s ms s' : exec s ms = Some s' -> same_file (watcher s) (watcher s').
Proof.
  intros He. apply (execute_invariant _ (fun s' => same_file (watcher s) (watcher s'))) in He; [done| |done].
  intros s1 m s2 H1 [H2 _]%step_timer. by eapply same_file_trans.
Qed.

(** The timer is not set to expire before the delay after [t] has passed. *)
Definition quiet_until (t : Time) (s : state) : Prop :=
  forall d, timer s = Some d -> t + debounce (watcher s) <= d.

Lemma step_quiet t s m s1 :
  not_before t m -> quiet_until t s -> step s m = Some s1 -> quiet_until t s1.
Proof.
  intros Hm Hq Hs. destruct (step_timer _ _ _ Hs) as [[_ Hd] Ht]. unfold quiet_until. rewrite Hd.
  intros d Hd1. destruct m; simpl in *;
    try (apply Hq; congruence).
  - rewrite Ht in Hd1. case_match; [|by apply Hq]. simplify_eq. lia.
  - destruct Ht as (d' & _ & _ & Ht). congruence.
Qed.

Lemma exec_quiet t s ms s' :
  Forall (not_before t) ms -> quiet_until t s -> exec s ms = Some s' -> quiet_until t s'.
Proof.
  intros Hms. revert s. induction Hms as [|m ms Hm _ IH]; intros s Hq He; simpl in He; [by simplify_eq|].
  destruct (step s m) as [s1|] eqn:E; simpl in He; [|done]. eauto using step_quiet.
Qed.

Definition count {A} (f : A -> bool) (l : list A) : nat := length (List.filter f l).

Lemma exec_count s ms s' :
  exec s ms = Some s' ->
  (count is_fire ms + (if timer s' is Some _ then 1 else 0) <=
   count (is_relevant (watcher s)) ms + (if timer s is Some _ then 1 else 0))%nat.
Proof.
  unfold count. revert s. induction ms as [|m ms IH]; intros s He; simpl in He; [simplify_eq; simpl; lia|].
  destruct (step s m) as [s1|] eqn:E; simpl in He; [|done]. specialize (IH s1 He).
  destruct (step_timer _ _ _ E) as [Hf Ht].
  assert (forall l, List.filter (is_relevant (watcher s1)) l = List.filter (is_relevant (watcher s)) l) as Hr.
  { intros l. apply filter_ext. intros []; simpl; try done. by apply relevant_same. }
  rewrite Hr in IH. destruct m; simpl in *; try (rewrite Ht in IH; lia).
  - rewrite Ht in IH. destruct (relevant (watcher s) name op); simpl; destruct (timer s); lia.
  - destruct Ht as (d & Hd & _ & Ht). rewrite Ht in IH. rewrite Hd. lia.
Qed.

Lemma exec_inert s ms s' :
  Forall (inert (watcher s)) ms -> exec s ms = Some s' -> timer s' = timer s.
Proof.
  revert s. induction ms as [|m ms IH]; intros s Hi He; simpl in He; [congruence|].
  apply Forall_cons in Hi as [Hm Hi].
  destruct (step s m) as [s1|] eqn:E; simpl in He; [|done].
  destruct (step_timer _ _ _ E) as [Hf Ht]. rewrite (IH s1); [|clear IH|done].
  - destruct m; simpl in *; try done. by rewrite Hm in Ht.
  - eapply Forall_impl; [exact Hi|]. intros []; simpl; try done. by rewrite (relevant_same _ _ _ _ Hf).
Qed.

(** The configurations follow each other, and callbacks hear of swaps. *)
Definition consistent (c : Cfg.Config) (s : state) : Prop :=
  chained c (swaps s) (config (watcher s)) /\
  (forall cb old new, (cb, old, new) ∈ calls s -> (old, new) ∈ swaps s) /\
  (forall old new todo, Notifying old new todo ∈ jobs s -> (old, new) ∈ swaps s).

Lemma chained_app c l c1 new : chained c l c1 -> chained c (l ++ [(c1, new)]) new.
Proof.
  revert c. induction l as [|[o n] l IH]; intros c; simpl; [by intros ->|].
  intros [? ?]. auto.
Qed.

Lemma elem_of_insert_job (js : list job) i j k : k ∈ <[i := j]> js -> k = j \/ k ∈ js.
Proof.
  intros (n & Hn)%list_elem_of_lookup_1. rewrite list_lookup_insert_Some in Hn.
  destruct Hn as [(_ & <- & _)|[_ Hn]]; [by left|]. right. by eapply list_elem_of_lookup_2.
Qed.

Lemma job_step_consistent c i j m s s1 :
  jobs s !! i = Some j -> job_step i j m s = Some s1 -> consistent c s -> consistent c s1.
Proof.
  intros Hj Hs (Hc & Hcalls & Hjobs). unfold job_step in Hs.
  assert (j ∈ jobs s) as Hin by by eapply list_elem_of_lookup_2.
  step_cases Hs; unfold consistent; simpl; try done.
  - split_and!; [done..|]. intros old new todo [?|?]%elem_of_insert_job; [done|eauto].
  - split_and!; [done..|]. intros old new todo [?|?]%elem_of_insert_job; [done|eauto].
  - split_and!; [by apply chained_app| |].
    + intros cb old new' Hcall. apply elem_of_app. left. eauto.
    + intros old new' todo [?|?]%elem_of_insert_job; apply elem_of_app; [right|left; eauto].
      simplify_eq. apply list_elem_of_here.
  - split_and!; [done..|]. intros old' new' todo' [?|?]%elem_of_insert_job; [done|eauto].
  - split_and!; [done| |].
    + intros cb old' new' [?|Hn%list_elem_of_singleton]%elem_of_app; [eauto|]. simplify_eq. eauto.
    + intros old' new' todo' [?|?]%elem_of_insert_job; [simplify_eq; eauto|eauto].
Qed.

Lemma step_consistent c s m s1 : consistent c s -> step s m = Some s1 -> consistent c s1.
Proof.
  intros Hc Hs. unfold step, watch, fire, stop in Hs. destruct (crashed s); [done|].
  assert (forall js, consistent c s -> consistent c (with_jobs (js ++ [Loading]) s) <-> 
     forall old new todo, Notifying old new todo ∈ js -> (old, new) ∈ swaps s) as Hnew.
  { intros js (H1 & H2 & H3). unfold consistent. simpl. split.
    - intros (_ & _ & H) old new todo Ht. eapply H. apply elem_of_app. eauto.
    - intros H. split_and!; [done..|]. intros old new todo [?|Hn%list_elem_of_singleton]%elem_of_app; [eauto|done]. }
  destruct m as [now name op| | | |now|i file|i|i err| |cb|].
  6-8: destruct (jobs s !! i) as [j|] eqn:Ej; simpl in Hs; [|done]; by eapply job_step_consistent.
  all: step_cases Hs; try (by case_match); try exact Hc.
  - apply Hnew; [exact Hc|]. apply Hc.
  - apply Hnew; [exact Hc|]. apply Hc.
Qed.

Lemma step_load s i file :
  crashed s = false -> jobs s !! i = Some Loading ->
  step s (Load i file) = job_step i Loading (Load i file) s.
Proof. intros Hc Hj. unfold step. by rewrite Hc, Hj. Qed.

Lemma step_swap s i new :
  crashed s = false -> jobs s !! i = Some (Swapping new) ->
  step s (Swap i) = job_step i (Swapping new) (Swap i) s.
Proof. intros Hc Hj. unfold step. by rewrite Hc, Hj. Qed.

(** A list of calls is made by one job, uninterrupted. *)
Lemma notify_all s i old new todo :
  crashed s = false -> jobs s !! i = Some (Notifying old new todo) ->
  exec s (replicate (S (length todo)) (Notify i None)) =
    Some (mkState (watcher s) (watching s) (timer s) (<[i := Ended None]> (jobs s)) false
            (swaps s) (calls s ++ ((fun cb => (cb, old, new)) <$> todo))).
Proof.
  revert s. induction todo as [|cb todo IH]; intros s Hc Hj.
  - simpl. unfold step. rewrite Hc, Hj. simpl. destruct s. simpl in *. subst. by rewrite app_nil_r.
  - change (exec s (Notify i None :: replicate (S (length todo)) (Notify i None)) = 
      Some (mkState (watcher s) (watching s) (timer s) (<[i := Ended None]> (jobs s)) false
            (swaps s) (calls s ++ (cb, old, new) :: ((fun cb => (cb, old, new)) <$> todo)))).
    assert (step s (Notify i None) = Some (with_call cb old new
      (with_jobs (<[i := Notifying old new todo]> (jobs s)) s))) as Hs
      by (unfold step; by rewrite Hc, Hj).
    cbn [exec]. rewrite Hs. cbn [mbind option_bind]. rewrite IH; [|done|].
    + simpl. by rewrite list_insert_insert_eq, <- app_assoc.
    + apply list_lookup_insert_eq. by eapply lookup_lt_Some.
Qed.

(** ** Properties *)

(** C35. Reloads are debounced: the timer starts at most one reload per relevant
    file event, and none before the delay has passed since the last relevant
    event the watcher handled. *)
Theorem reloads_debounced w ms s :
  exec (started w) ms = Some s ->
  (count is_fire ms <= count (is_relevant w) ms)%nat /\
  forall ms1 t name op ms2 now ms3,
    ms = ms1 ++ FsEvent t name op :: ms2 ++ Fire now :: ms3 ->
    relevant w name op = true -> Forall (not_before t) ms2 -> t + debounce w <= now.
Proof.
  intros He. split.
  - pose proof (exec_count _ _ _ He) as H. simpl in H. lia.
  - intros ms1 t name op ms2 now ms3 -> Hr Hms2.
    rewrite execute_app in He. destruct (exec (started w) ms1) as [s1|] eqn:E1; [|done].
    simpl in He. destruct (step s1 _) as [s2|] eqn:E2; [|done]. simpl in He.
    rewrite execute_app in He. destruct (exec s2 ms2) as [s3|] eqn:E3; [|done]. simpl in He.
    destruct (step s3 (Fire now)) as [s4|] eqn:E4; [|done].
    apply exec_same in E1. simpl in E1. pose proof (step_timer _ _ _ E2) as [H12 Ht]. simpl in Ht.
    rewrite (relevant_same _ _ _ _ E1), Hr in Ht.
    assert (quiet_until t s2) as Hq.
    { intros d Hd. rewrite Ht in Hd. simplify_eq. by rewrite (proj2 H12). }
    pose proof (exec_quiet _ _ _ _ Hms2 Hq E3) as Hq3.
    apply exec_same in E3. destruct (step_timer _ _ _ E4) as (_ & d & Hd & Hle & _).
    specialize (Hq3 d Hd). rewrite (proj2 E3), (proj2 H12), (proj2 E1) in Hq3. lia.
Qed.

(** A relevant event is not forgotten: while the watcher runs and no further
    relevant event arrives, the timer stays set and starts a reload as soon as
    the delay has passed, whatever other reloads do. *)
Theorem change_is_reloaded s t name op s1 ms s2 now :
  relevant (watcher s) name op = true ->
  step s (FsEvent t name op) = Some s1 -> exec s1 ms = Some s2 ->
  Forall (inert (watcher s1)) ms -> crashed s2 = false ->
  t + debounce (watcher s) <= now ->
  exists s3, step s2 (Fire now) = Some s3 /\ jobs s3 = jobs s2 ++ [Loading].
Proof.
  intros Hr Hs He Hi Hc Hnow. apply exec_inert in He; [|done].
  destruct (step_timer _ _ _ Hs) as [_ Ht]. simpl in Ht. rewrite Hr in Ht.
  unfold step, fire. rewrite Hc, He, Ht. unfold Time_Add in *.
  rewrite (proj2 (Z.leb_le _ _)) by done. eauto.
Qed.

(** C36. However reloads overlap, the configurations that [Config] returns form
    one history: every reload replaces the current one, and every callback is
    called with a pair of configurations that followed each other. *)
Theorem one_history w ms s :
  exec (started w) ms = Some s ->
  chained (config w) (swaps s) (Config (watcher s)) /\
  forall cb old new, (cb, old, new) ∈ calls s -> (old, new) ∈ swaps s.
Proof.
  intros He. apply (execute_invariant _ (consistent (config w))) in He.
  - destruct He as (H1 & H2 & _). done.
  - by apply step_consistent.
  - split_and!; simpl; [done|set_solver..].
Qed.

(** C37. Uninterrupted, the steps of a reload are [ForceReload]: on a file that
    does not load, the configuration stays and no callback is called; otherwise
    the configuration is the new one, and the callbacks are called in the order
    of their registration with the old and the new one. *)
Theorem force_reload_refines s file w' err cs :
  crashed s = false ->
  ForceReload file (watcher s) = Ret (w', err, cs) ->
  exists ms s', exec s (Force :: Load (length (jobs s)) file :: ms) = Some s' /\
    watcher s' = w' /\ jobs s' = jobs s ++ [Ended err] /\ calls s' = calls s ++ cs /\
    (err <> None -> ms = [] /\ w' = watcher s /\ cs = []).
Proof.
  intros Hc Hf. unfold ForceReload in Hf.
  set (i := length (jobs s)). set (s1 := with_jobs (jobs s ++ [Loading]) s).
  assert (forall ms, exec s (Force :: ms) = exec s1 ms) as H1
    by (intros ms; apply execute_cons; unfold step; by rewrite Hc).
  assert (jobs s1 !! i = Some Loading) as Hl by (simpl; by rewrite lookup_app_r, Nat.sub_diag).
  assert (forall j, <[i := j]> (jobs s1) = jobs s ++ [j]) as Hins
    by (intros j; simpl; unfold i; by rewrite insert_app_r_alt, Nat.sub_diag).
  pose proof (step_load s1 i file Hc Hl) as H2. unfold job_step in H2.
  destruct (Cfg.Load unmarshal file) as [[new|e]|] eqn:El; simpl in Hf; simplify_eq.
  - rewrite Hins in H2. set (s2 := with_jobs _ _) in H2.
    exists (Swap i :: replicate (S (length (callbacks (watcher s)))) (Notify i None)).
    assert (forall j, (jobs s ++ [j]) !! i = Some j) as Hlast
      by (intros j; unfold i; by rewrite lookup_app_r, Nat.sub_diag).
    assert (forall j k, <[i := k]> (jobs s ++ [j]) = jobs s ++ [k]) as Hins2
      by (intros j k; unfold i; by rewrite insert_app_r_alt, Nat.sub_diag).
    pose proof (step_swap s2 i new Hc (Hlast _)) as H3. unfold job_step in H3. simpl in H3.
    rewrite Hins2 in H3.
    rewrite H1, (execute_cons _ _ _ _ _ H2), (execute_cons _ _ _ _ _ H3).
    rewrite (notify_all _ i (config (watcher s)) new (callbacks (watcher s))); [|done|apply Hlast].
    eexists. split; [reflexivity|]. simpl. by rewrite Hins2.
  - exists []. rewrite Hins in H2. rewrite H1, (execute_cons _ _ _ _ _ H2). simpl.
    eexists. split; [reflexivity|]. simpl. by rewrite app_nil_r.
Qed.

(** Overlapping reloads can leave a callback with an outdated
    configuration: the notifications of the earlier one may come last. *)
Theorem stale_notification w cb f1 f2 c1 c2 :
  callbacks w = [cb] ->
  Cfg.Load unmarshal f1 = Ret (Ok c1) -> Cfg.Load unmarshal f2 = Ret (Ok c2) ->
  exists s, exec (started w) [Force; Force; Load 0 f1; Load 1 f2; Swap 0; Swap 1;
                              Notify 1 None; Notify 0 None] = Some s /\
    Config (watcher s) = c2 /\ last (calls s) = Some (cb, config w, c1).
Proof.
  intros Hcb H1 H2. eexists. split; [|split].
  - do 8 (erewrite execute_cons; [|unfold step; simpl; rewrite ?H1, ?H2, ?Hcb; reflexivity]). reflexivity.
  - reflexivity.
  - reflexivity.
Qed.

(** [Stop] does not always stop: the closed channel of events, which [Stop]
    causes too, ends the watcher's goroutine without stopping the timer, and the
    file is reloaded afterwards; only the branch of [stopCh] stops it. *)
Theorem reload_after_stop w t name op now :
  stopCh_closed w = false -> relevant w name op = true -> t + debounce w <= now ->
  (exists s, exec (started w) [FsEvent t name op; Stop; FsClosed; Fire now] = Some s /\
     watching s = false /\ jobs s = [Loading]) /\
  exec (started w) [FsEvent t name op; Stop; SeeStop; Fire now] = None.
Proof.
  intros Hst Hr Hnow. apply Z.leb_le in Hnow. split.
  - eexists. split; [|split].
    + do 4 (erewrite execute_cons; [|unfold step, watch, fire, stop, Time_Add; simpl; rewrite ?Hst, ?Hr; simpl;
        rewrite ?Hnow; reflexivity]). reflexivity.
    + reflexivity.
    + reflexivity.
  - do 3 (erewrite execute_cons; [|unfold step, watch, fire, stop, Time_Add; simpl; rewrite ?Hst, ?Hr; reflexivity]).
    reflexivity.
Qed.

End Watch.

Abbreviation exec unmarshal := (execute (step unmarshal)).

(** ** Witnesses *)

Definition raw_config (port : Z) : Cfg.Config :=
  Cfg.mkConfig (Cfg.mkServer port 0 0 (Cfg.mkTLS false "" "" (Cfg.mkClientTLS false false "" "" "")))
    (Cfg.mkGRPC false 0 (Cfg.mkTLS false "" "" (Cfg.mkClientTLS false false "" "" "")))
    (Cfg.mkRedis "" "" 0) (Cfg.mkMetrics false 0) (Cfg.mkRateLimit false 0 0 "" false)
    (Cfg.mkCache false 0 []) ∅.
Definition sample_unmarshal (data : string) : result Cfg.Config :=
  if decide (data = "?"%string) then Err (ErrNew "yaml: invalid")
  else Ok (raw_config (Z.of_nat (String.length data))).

Definition sample : Watcher :=
  mkWatcher "configs/config.yaml" (raw_config 1) [7%nat] (500 * Millisecond) false.
Definition change (t : Time) : move := FsEvent t "configs/config.yaml" 2.
Definition run_from (ms : list move) : state :=
  default (started sample) (exec sample_unmarshal (started sample) ms).

(** Two writes in quick succession, one reload. *)
Definition burst : list move :=
  [change 0; change (300 * Millisecond); FsError; Fire (800 * Millisecond)].

Lemma reloads_debounced_witness : 300 * Millisecond + 500 * Millisecond <= 800 * Millisecond.
Proof.
  refine (proj2 (reloads_debounced sample_unmarshal sample burst (run_from burst) _)
    [change 0] (300 * Millisecond) "configs/config.yaml"%string 2 [FsError] (800 * Millisecond) [] _ _ _).
  - vm_compute. reflexivity.
  - reflexivity.
  - vm_compute. reflexivity.
  - apply Forall_cons_2; [exact I|apply Forall_nil_2].
Defined.

Lemma change_is_reloaded_witness :
  exists s3, step sample_unmarshal (run_from [change 0; Force]) (Fire Second) = Some s3 /\
    jobs s3 = [Loading; Loading].
Proof.
  refine (change_is_reloaded sample_unmarshal (started sample) 0 "configs/config.yaml"%string 2
    (run_from [change 0]) [Force] (run_from [change 0; Force]) Second _ _ _ _ _ _).
  - vm_compute. reflexivity.
  - vm_compute. reflexivity.
  - vm_compute. reflexivity.
  - apply Forall_cons_2; [exact I|apply Forall_nil_2].
  - vm_compute. reflexivity.
  - vm_compute. discriminate.
Defined.

Definition two_reloads : list move :=
  [Force; Force; Load 0 (Ok "ab"%string); Load 1 (Ok "abc"%string); Swap 0; Swap 1; Notify 1 None; Notify 0 None].

Lemma one_history_witness :
  chained (raw_config 1) (swaps (run_from two_reloads)) (Config (watcher (run_from two_reloads))).
Proof.
  refine (proj1 (one_history sample_unmarshal sample two_reloads (run_from two_reloads) _)).
  vm_compute. reflexivity.
Defined.

Lemma force_reload_refines_witness :
  exists ms s', exec sample_unmarshal (started sample) (Force :: Load 0 (Ok "?"%string) :: ms) = Some s' /\
    watcher s' = sample.
Proof.
  destruct (force_reload_refines sample_unmarshal (started sample) (Ok "?"%string) sample
    (Some (ErrNew "yaml: invalid")) [] eq_refl ltac:(vm_compute; reflexivity)) as (ms & s' & H1 & H2 & _).
  exists ms, s'. split; [exact H1|exact H2].
Defined.

Definition loaded (data : string) : Cfg.Config :=
  match Cfg.Load sample_unmarshal (Ok data) with Ret (Ok c) => c | _ => raw_config 0 end.

Lemma stale_notification_witness :
  exists s, exec sample_unmarshal (started sample) two_reloads = Some s /\
    Config (watcher s) = loaded "abc" /\ last (calls s) = Some (7%nat, raw_config 1, loaded "ab").
Proof.
  refine (stale_notification sample_unmarshal sample 7%nat (Ok "ab"%string) (Ok "abc"%string)
    (loaded "ab") (loaded "abc") _ _ _).
  - reflexivity.
  - vm_compute. reflexivity.
  - vm_compute. reflexivity.
Defined.

Lemma reload_after_stop_witness :
  exec sample_unmarshal (started sample) [change 0; Stop; SeeStop; Fire Second] = None.
Proof.
  refine (proj2 (reload_after_stop sample_unmarshal sample 0 "configs/config.yaml"%string 2 Second _ _ _)).
  - reflexivity.
  - vm_compute. reflexivity.
  - vm_compute. discriminate.
Defined.

End Watcher.
