(* ===== verification/Server.v ===== *)
(** * The gRPC server: [internal/grpc/server.go] and
    [internal/grpc/interceptors.go]

    Certificates, listeners and the gRPC library are outside the program: what
    their functions return are arguments.  A server is what the code tells the
    library. *)
From Stdlib Require Import ZArith Lia.
From stdpp Require Import pretty.
From S2P Require Import Prelude Config Chain Cache Proxy Grpc.

Module GrpcServer.

(** The options given to [grpc.NewServer]. *)
Inductive server_option : Type :=
| Creds (creds : nat)
| UnaryInterceptor
| StreamInterceptor.

Inductive service : Type :=
| RPCService
| HealthService
| StandardHealth (serving : bool).

Record Server := mkServer {
  config : Cfg.GRPCConfig;
  options : list server_option;
  services : list service;
  listener : option nat;
  serving : bool;
  stopped : bool
}.

(** [credentials.NewServerTLSFromFile] is [load]. *)
Definition NewServer (load : string -> string -> result nat) (cfg : Cfg.GRPCConfig) : result Server :=
  let interceptors := [UnaryInterceptor; StreamInterceptor] in
  let new opts := mkServer cfg (opts ++ interceptors) [] None false false in
  if Cfg.tls_Enabled (Cfg.grpc_TLS cfg) then
    match load (Cfg.CertFile (Cfg.grpc_TLS cfg)) (Cfg.KeyFile (Cfg.grpc_TLS cfg)) with
    | Err err => Err (ErrWrap "failed to load TLS credentials" err)
    | Ok creds => Ok (new [Creds creds])
    end
  else Ok (new []).

(** [net.Listen] is [listen]; serving is a goroutine of its own. *)
Definition Start (listen : string -> result nat) (s : Server) : Server * option error :=
  match listen (":" +:+ pretty (Cfg.grpc_Port (config s))) with
  | Err err => (s, Some (ErrWrap "failed to listen" err))
  | Ok l =>
      (mkServer (config s) (options s) (services s ++ [RPCService; HealthService; StandardHealth true])
                (Some l) true (stopped s), None)
  end.

Definition Stop (s : Server) : Server :=
  mkServer (config s) (options s) (services s) (listener s) false true.

(** The interceptors time the handler, log the call and hand on what it
    returns. *)
Record call_log := mkLog { FullMethod : string; stream : bool; failed : option string; took : Duration }.

Definition loggingUnaryInterceptor {W A : Type} (t_start t_end : Time) (FullMethod : string)
    (err_of : A -> option string) (handler : W -> W * A) (w : W) : W * A * call_log :=
  let '(w', r) := handler w in
  (w', r, mkLog FullMethod false (err_of r) (Since t_end t_start)).

Definition loggingStreamInterceptor {W A : Type} (t_start t_end : Time) (FullMethod : string)
    (err_of : A -> option string) (handler : W -> W * A) (w : W) : W * A * call_log :=
  let '(w', r) := handler w in
  (w', r, mkLog FullMethod true (err_of r) (Since t_end t_start)).

End GrpcServer.
