(* ===== verification/App.v ===== *)
(** * The program: [cmd/proxy/main.go], and starting and stopping the chains

    [boot] is [main] up to the signal handler, on what the outside returns to
    it; [serve] is the Fiber application it registers, on the library's matcher
    of paths and its compression middleware, which are arguments; [main_step] is
    what the servers and the signals do to the running program, and [shutdown]
    what follows a signal.  Requests that the HTTP library refuses before it
    calls the application (a body over the limit, a malformed request) do not
    reach [serve]. *)
From Stdlib Require Import ZArith Lia.
From stdpp Require Import pretty.
From S2P Require Import Prelude GoFloat Config TLSClient CircuitBreaker Endpoint LoadBalancer Chain BlockNumber Health RateLimit Cache Metrics Proxy Grpc Server.

Module App.

(** ** The application *)

(** A request, with what its handler meets. *)
Record request := mkRequest {
  method : string;
  path : string;
  body : string;
  ip : string;
  t_limit : Time;
  env : Proxy.env;
  order : list string
}.

(** A registered handler: [Use] (and the group's) for every method and every
    path that starts with the pattern, otherwise for some methods and the whole
    path.  It gets the value of [:chain] and what [c.Next()] runs. *)
Record route := mkRoute {
  methods : option (list string);
  pattern : string;
  run : string -> Proxy.handler -> Proxy.handler
}.

Definition Use (p : string) (h : string -> Proxy.handler -> Proxy.handler) : route := mkRoute None p h.
Definition Get (p : string) (h : string -> Proxy.handler) : route :=
  mkRoute (Some ["GET"; "HEAD"]%string) p (fun chain _ => h chain).
Definition Post (p : string) (h : string -> Proxy.handler) : route :=
  mkRoute (Some ["POST"]%string) p (fun chain _ => h chain).

Section Fiber.
(** The matcher: whether a pattern matches a path, or the start of it, and what
    [:chain] is. *)
Context (matches : bool -> string -> string -> option string).
Context (compress : Proxy.handler -> Proxy.handler).
Context (unmarshal : string -> result Proxy.rpcRequest).

(** The value of [:chain] if the route takes the request. *)
Definition takes (rq : request) (r : route) : option string :=
  match methods r with
  | None => matches true (pattern r) (path rq)
  | Some ms => if bool_decide (method rq ∈ ms) then matches false (pattern r) (path rq) else None
  end.

(** The routes are tried in the order of their registration; a request that
    none answers is an error. *)
Fixpoint dispatch (rq : request) (rs : list route) : Proxy.handler :=
  match rs with
  | [] => fun w => (w, Proxy.Errored (ErrNew ("Cannot " +:+ method rq +:+ " " +:+ path rq)) [])
  | r :: rs' =>
      match takes rq r with
      | Some chain => run r chain (dispatch rq rs')
      | None => dispatch rq rs'
      end
  end.

(** The value of [:chain] in the last route that runs, which a handler that
    resumes after it sees. *)
Fixpoint last_param (rq : request) (rs : list route) (last : string) : string :=
  match rs with
  | [] => last
  | r :: rs' =>
      match takes rq r with
      | Some chain => if methods r is Some _ then chain else last_param rq rs' chain
      | None => last_param rq rs' last
      end
  end.

Definition info : Proxy.response :=
  Proxy.mkResponse 200 [] (Proxy.BInfo
    [("name", "multichain-rpc-proxy"); ("version", "1.0.0");
     ("docs", "https://github.com/bimakw/multichain-rpc-proxy")]%string).

(** The handlers of the routes; each may respond, return an error or panic. *)
Record handlers := mkHandlers {
  h_info : Proxy.handler;
  h_health : Proxy.handler;
  h_chain_health : string -> Proxy.handler;
  h_chains : Proxy.handler;
  h_rpc : string -> Proxy.handler
}.

(** Those that the program registers. *)
Definition proxy_handlers (rq : request) : handlers :=
  mkHandlers
    (Proxy.on_state (fun s => (s, info)))
    (Proxy.on_state (Proxy.HandleHealth (order rq)))
    (fun chain => Proxy.on_state (Proxy.HandleChainHealth chain))
    (Proxy.on_state (Proxy.HandleChains (order rq)))
    (fun chain => Proxy.on_state (Proxy.HandleRPC unmarshal (env rq) chain (body rq))).

(** The routes after the middlewares. *)
Definition endpoints (hs : handlers) (rq : request) : list route :=
  [ Get "/" (fun _ => h_info hs);
    Get "/health" (fun _ => h_health hs);
    Get "/health/:chain" (h_chain_health hs);
    Get "/chains" (fun _ => h_chains hs);
    Use "/:chain" (Proxy.RateLimit (t_limit rq) (ip rq));
    Post "/:chain/" (h_rpc hs) ].

(** The three middlewares in front of the routes [rs]. *)
Definition routes (rq : request) (rs : list route) : list route :=
  Use "/" (fun _ => Proxy.RecoveryMiddleware (last_param rq rs "")) ::
  Use "/" (fun _ => Proxy.CORSMiddleware (method rq)) ::
  Use "/" (fun _ => compress) ::
  rs.

(** The application's [ErrorHandler]. *)
Definition internal_error (hs : list (string * string)) : Proxy.response :=
  Proxy.mkResponse 500 hs (Proxy.BRPCError (-32603) "Internal error" JNull).

(** A request to an application with the routes [rs]: what it does, and its
    response; [None] is a panic that leaves the application. *)
Definition respond (rs : list route) (rq : request) (w : Proxy.world) :
    Proxy.world * option Proxy.response :=
  let '(w', o) := dispatch rq (routes rq rs) w in
  (w', match o with
       | Proxy.Returned r => Some r
       | Proxy.Errored _ hs => Some (internal_error hs)
       | Proxy.Panicked _ _ => None
       end).

Definition serve_with (hs : handlers) (rq : request) : Proxy.world -> Proxy.world * option Proxy.response :=
  respond (endpoints hs rq) rq.

(** The program's application. *)
Definition serve (rq : request) : Proxy.world -> Proxy.world * option Proxy.response :=
  serve_with (proxy_handlers rq) rq.
End Fiber.

(** ** Starting and stopping the chains *)

(** The health checkers of a manager's chains, by the chain's name. *)
Abbreviation Loops := (gmap string Health.Loop) (only parsing).

Definition new_loops (m : Chain.Manager) : Loops :=
  (fun ch => Health.new_loop (Chain.cfg (Chain.healthChecker ch))) <$> Chain.chains m.

(** [Manager.Start]: [Chain.Start] for every chain. *)
Definition Start (ls : Loops) : Loops :=
  (fun l => default l (Health.next l Health.EvStart)) <$> ls.

(** [Manager.Stop]: [Chain.Stop] for every chain, in the order of the map, each
    a call of [cancel] and a wait. *)
Definition Stop (order : list string) : list (string * Health.event) :=
  order ≫= fun name => [(name, Health.EvCancel); (name, Health.EvStopped)].

(** One event of one chain; a crashed health checker has ended the program. *)
Inductive loops_step (ls : Loops) : string * Health.event -> Loops -> Prop :=
| loops_event name e l l' :
    map_Forall (fun _ l => Health.crashed l = false) ls ->
    ls !! name = Some l -> Health.loop_step l e l' ->
    loops_step ls (name, e) (<[name := l']> ls).

(** ** Boot *)

(** How the HTTP server listens. *)
Inductive listening : Type :=
| ListenPlain (addr : string)
| ListenTLS (addr certFile keyFile : string).

(** The Fiber application: its configuration, and how it will listen. *)
Record http_server := mkHTTP {
  http_ReadTimeout : Duration;
  http_WriteTimeout : Duration;
  BodyLimit : Z;
  http_listen : listening
}.

Record program := mkProgram {
  cfg : Cfg.Config;
  tls : option ClientTLS.tls_config;
  world : Proxy.world;
  loops : Loops;
  metrics : option string;
  grpc : option GrpcServer.Server;
  http : http_server
}.

(** The configured chains in the order in which Go visits their map. *)
Definition visited (c : Cfg.Config) (visit : list string) : list (string * Cfg.ChainConfig) :=
  omap (fun name => ch ← Cfg.Chains c !! name; pair name <$> ch) visit.

Section Boot.
Context (unmarshal : string -> result Cfg.Config).
Context (ReadFile : string -> result string).
Context (AppendCertsFromPEM : string -> option nat).
Context (LoadX509KeyPair : string -> string -> result nat).
Context (ServerCreds : string -> string -> result nat).
Context (Listen : string -> result nat).

(** The gRPC server, when it is enabled. *)
Definition boot_grpc (c : Cfg.Config) : result (option GrpcServer.Server) :=
  if Cfg.grpc_Enabled (Cfg.GRPC c) then
    match GrpcServer.NewServer ServerCreds (Cfg.GRPC c) with
    | Err err => Err (ErrWrap "Failed to create gRPC server" err)
    | Ok srv =>
        match GrpcServer.Start Listen srv with
        | (_, Some err) => Err (ErrWrap "Failed to start gRPC server" err)
        | (srv', None) => Ok (Some srv')
        end
    end
  else Ok None.

(** The metrics server, when it is enabled: the address it listens on. *)
Definition boot_metrics (c : Cfg.Config) : option string :=
  if Cfg.metrics_Enabled (Cfg.Metrics c) then Some (":" +:+ pretty (Cfg.metrics_Port (Cfg.Metrics c)))
  else None.

Definition boot_http (c : Cfg.Config) : http_server :=
  let s := Cfg.Server c in
  let addr := (":" +:+ pretty (Cfg.Port s))%string in
  mkHTTP (Cfg.ReadTimeout s) (Cfg.WriteTimeout s) (10 * 1024 * 1024)
    (if Cfg.tls_Enabled (Cfg.TLS s) then ListenTLS addr (Cfg.CertFile (Cfg.TLS s)) (Cfg.KeyFile (Cfg.TLS s))
     else ListenPlain addr).

Definition boot_tls (c : Cfg.Config) : result (option ClientTLS.tls_config) :=
  let ctls := Cfg.ClientTLS (Cfg.TLS (Cfg.Server c)) in
  if Cfg.ctls_Enabled ctls then
    match ClientTLS.NewClientTLSConfig ReadFile AppendCertsFromPEM LoadX509KeyPair ctls with
    | Err err => Err (ErrWrap "Failed to create client TLS config" err)
    | Ok t => Ok t
    end
  else Ok None.

(** [main] up to the signal handler; an error is a call of [log.Fatalf]. *)
Definition boot (file : result string) (visit : list string) : go (result program) :=
  r ← Cfg.Load unmarshal file;
  Ret match r with
  | Err err => Err (ErrWrap "Failed to load config" err)
  | Ok c =>
      match boot_tls c with
      | Err err => Err err
      | Ok t =>
          let '(st, m) := Chain.NewManagerWithOptions (visited c visit) t ∅ in
          let ls := Start (new_loops m) in
          let s := Proxy.NewHandler st m (InMemory.NewInMemory (Cfg.Cache c)) in
          let rl := ProxyLimiter.NewRateLimiter (Cfg.RateLimit c) in
          match boot_grpc c with
          | Err err => Err err
          | Ok g => Ok (mkProgram c t (s, rl) ls (boot_metrics c) g (boot_http c))
          end
      end
  end.
End Boot.

(** ** Shutdown *)

(** After a signal: the HTTP server, the gRPC server, the chains. *)
Inductive action : Type :=
| ShutdownHTTP
| StopGRPC
| ChainEvent (name : string) (e : Health.event).

Definition shutdown (order : list string) (p : program) : list action :=
  ShutdownHTTP :: (if grpc p is Some _ then [StopGRPC] else []) ++
  ((fun ne => ChainEvent ne.1 ne.2) <$> Stop order).

(** The main goroutine after boot.  The HTTP server's goroutine ends the program
    when [Listen] fails; the metrics server's only logs. *)
Inductive status : Type :=
| Running
| ShuttingDown (todo : list action)
| Stopped
| Fatal (err : error).

Inductive event : Type :=
| HTTPReturned (err : option error)
| MetricsFailed (err : error)
| Signal
| Done.

Definition main_step (order : list string) (p : program) (s : status) (e : event) : option status :=
  match s with
  | Stopped | Fatal _ => None
  | Running | ShuttingDown _ =>
      match e with
      | HTTPReturned (Some err) => Some (Fatal (ErrWrap "Server error" err))
      | HTTPReturned None => Some s
      | MetricsFailed _ => if metrics p is Some _ then Some s else None
      | Signal => if s is Running then Some (ShuttingDown (shutdown order p)) else Some s
      | Done =>
          match s with
          | ShuttingDown (_ :: todo) => Some (ShuttingDown todo)
          | ShuttingDown [] => Some Stopped
          | _ => None
          end
      end
  end.

(** ** Lemmas *)

(** The compression middleware hands on what the handler did: it only adds
    headers and encodes the body on the wire. *)
Definition same_outcome (o o' : Proxy.outcome) : Prop :=
  match o, o' with
  | Proxy.Returned r, Proxy.Returned r' =>
      Proxy.status r' = Proxy.status r /\ Proxy.payload r' = Proxy.payload r /\
      Proxy.headers r ⊆ Proxy.headers r'
  | Proxy.Errored err hs, Proxy.Errored err' hs' => err' = err /\ hs ⊆ hs'
  | Proxy.Panicked msg hs, Proxy.Panicked msg' hs' => msg' = msg /\ hs ⊆ hs'
  | _, _ => False
  end.

Definition transparent (compress : Proxy.handler -> Proxy.handler) : Prop :=
  forall h w, (compress h w).1 = (h w).1 /\ same_outcome (h w).2 (compress h w).2.

Section Pipeline.
Context (matches : bool -> string -> string -> option string).
Context (compress : Proxy.handler -> Proxy.handler).
Context (match_all : forall p, matches true "/" p = Some ""%string).
Context (compress_ok : transparent compress).

Abbreviation respond := (respond matches compress).
Abbreviation serve_with := (serve_with matches compress).

(** The three middlewares around every request. *)
Lemma dispatch_routes rq rs :
  dispatch matches rq (routes matches compress rq rs) =
  Proxy.RecoveryMiddleware (last_param matches rq rs "")
    (Proxy.CORSMiddleware (method rq) (compress (dispatch matches rq rs))).
Proof.
  unfold routes. cbn [dispatch]. unfold takes at 1. cbn [methods Use pattern]. rewrite match_all.
  unfold takes at 1. cbn [methods Use pattern]. rewrite match_all.
  unfold takes at 1. cbn [methods Use pattern]. rewrite match_all. reflexivity.
Qed.

(** What a recovered panic leaves: one more error of the chain, if the request
    names one. *)
Definition recovered (chain : string) (w : Proxy.world) : Proxy.world :=
  (if decide (chain = ""%string) then w.1 else Proxy.emit (Metrics.RecordError chain "panic") w.1, w.2).

(** What the client gets for the outcome of the routes, from the world [w1]
    they leave. *)
Definition answered (chain : string) (w1 w' : Proxy.world) (o : Proxy.outcome) (resp : Proxy.response) : Prop :=
  match o with
  | Proxy.Returned r1 =>
      w' = w1 /\ Proxy.status resp = Proxy.status r1 /\ Proxy.payload resp = Proxy.payload r1 /\
      Proxy.headers r1 ⊆ Proxy.headers resp
  | Proxy.Errored _ _ => w' = w1 /\ exists hs, resp = internal_error hs
  | Proxy.Panicked _ _ => w' = recovered chain w1 /\ exists hs, resp = internal_error hs
  end.

Lemma respond_inner rq rs w w' r :
  method rq <> "OPTIONS"%string -> respond rs rq w = (w', r) ->
  exists resp, r = Some resp /\ Proxy.cors_headers ⊆ Proxy.headers resp /\
  answered (last_param matches rq rs "") (dispatch matches rq rs w).1 w' (dispatch matches rq rs w).2 resp.
Proof.
  intros Hm. unfold App.respond. rewrite dispatch_routes. unfold Proxy.RecoveryMiddleware, Proxy.CORSMiddleware.
  rewrite decide_False by done. destruct (compress_ok (dispatch matches rq rs) w) as [Hw Ho].
  destruct (compress (dispatch matches rq rs) w) as [w2 o2]. destruct (dispatch matches rq rs w) as [w1 o1].
  simpl in *. subst w2.
  destruct o1 as [r1|err1 hs1|msg1 hs1], o2 as [r2|err2 hs2|msg2 hs2]; try done; simpl; intros [= <- <-].
  - destruct Ho as (H1 & H2 & H3). eexists. split; [done|]. simpl. split; [set_solver|].
    split_and!; [done..|]. set_solver.
  - eexists. split; [done|]. simpl. split; [set_solver|]. split; [done|]. by eexists.
  - eexists. split; [done|]. simpl. split; [set_solver|]. split; [done|]. by eexists.
Qed.

(** A request to an RPC path runs the limiter and then the RPC handler. *)
Lemma dispatch_rpc hs rq name :
  method rq = "POST"%string ->
  matches true "/:chain" (path rq) = Some name -> matches false "/:chain/" (path rq) = Some name ->
  dispatch matches rq (endpoints hs rq) = Proxy.RateLimit (t_limit rq) (ip rq) name (h_rpc hs name) /\
  last_param matches rq (endpoints hs rq) "" = name.
Proof.
  intros Hm Hg Hp. unfold endpoints. cbn [dispatch last_param]. unfold takes. cbn [methods Get Post Use pattern].
  rewrite !Hm, !bool_decide_false by (rewrite !elem_of_cons, elem_of_nil; naive_solver).
  rewrite Hg, bool_decide_true by set_solver. by rewrite Hp.
Qed.

(** The limiter's middleware in terms of [Allow]. *)
Lemma RateLimit_Allow now ip name h w :
  Proxy.RateLimit now ip name h w =
    let '(rl, ok) := ProxyLimiter.Allow now ip w.2 in
    if ok then h (w.1, rl)
    else ((if decide (name = ""%string) then w.1
           else Proxy.emit (Metrics.RecordRateLimitReject name) w.1, rl),
          Proxy.Returned (Proxy.mkResponse 429 [] (Proxy.BRPCError (-32005) "Rate limit exceeded" JNull))).
Proof.
  destruct w as [s rl]. unfold Proxy.RateLimit. simpl. destruct (ProxyLimiter.enabled rl) eqn:E; [done|].
  unfold ProxyLimiter.Allow. by rewrite E.
Qed.

(** ** Properties *)

(** C25. No request that reaches the application goes unanswered, whatever
    routes are registered and even if their handlers panic: a preflight is
    answered with 204 and touches nothing; otherwise the response is that of
    the handler, or a 500 when it returns an error or panics, and a panic
    records one error of kind "panic" for the chain of the request, if it names
    one; every response carries the CORS headers; and a request for which no
    route is registered gets a 500 and changes nothing. *)
Theorem always_answered rs rq w w' r :
  respond rs rq w = (w', r) ->
  exists resp, r = Some resp /\ Proxy.cors_headers ⊆ Proxy.headers resp /\
  (if decide (method rq = "OPTIONS"%string)
   then w' = w /\ resp = Proxy.mkResponse 204 Proxy.cors_headers Proxy.BEmpty
   else answered (last_param matches rq rs "") (dispatch matches rq rs w).1 w'
          (dispatch matches rq rs w).2 resp /\
        (Forall (fun rt => takes matches rq rt = None) rs -> w' = w /\ exists hs, resp = internal_error hs)).
Proof.
  intros Hs. destruct (decide (method rq = "OPTIONS"%string)) as [Hm|Hm].
  - unfold App.respond in Hs. rewrite dispatch_routes in Hs.
    unfold Proxy.RecoveryMiddleware, Proxy.CORSMiddleware in Hs. rewrite decide_True in Hs by done.
    simplify_eq. eexists. by split_and!.
  - destruct (respond_inner _ _ _ _ _ Hm Hs) as (resp & -> & Hh & Hi).
    exists resp. split_and!; try done. intros Hnone.
    assert (dispatch matches rq rs =
      fun w => (w, Proxy.Errored (ErrNew ("Cannot " +:+ method rq +:+ " " +:+ path rq)) [])) as E.
    { clear Hi Hs. induction Hnone as [|rt rs Hrt _ IH]; simpl; [done|]. by rewrite Hrt. }
    by rewrite E in Hi.
Qed.

Context (unmarshal : string -> result Proxy.rpcRequest).
Abbreviation serve := (serve matches compress unmarshal).


(** The health report is outside the rate limiter: it is answered from the
    state of the chains for any client, and spends no token. *)
Theorem health_not_limited rq w w' r :
  method rq = "GET"%string ->
  matches false "/" (path rq) = None -> matches false "/health" (path rq) = Some ""%string ->
  serve rq w = (w', r) ->
  let '(s, report) := Proxy.HandleHealth (order rq) w.1 in
  w' = (s, w.2) /\
  exists resp, r = Some resp /\ Proxy.status resp = Proxy.status report /\
    Proxy.payload resp = Proxy.payload report.
Proof.
  intros Hm H1 H2 Hs. destruct (respond_inner rq _ w w' r ltac:(by rewrite Hm) Hs) as (resp & -> & _ & Hi).
  assert (dispatch matches rq (endpoints (proxy_handlers unmarshal rq) rq) w =
    Proxy.on_state (Proxy.HandleHealth (order rq)) w) as Hin.
  { unfold endpoints. cbn [dispatch]. unfold takes. cbn [methods Get Post Use pattern].
    rewrite !Hm, !bool_decide_true by set_solver. by rewrite H1, H2. }
  rewrite Hin in Hi. unfold Proxy.on_state in Hi.
  destruct (Proxy.HandleHealth _ w.1) as [s report]. simpl in Hi.
  destruct Hi as (-> & Hst & Hp & _). split; [done|]. by exists resp.
Qed.
End Pipeline.

(** *** The health checkers *)

(** The events of one chain. *)
Definition events_of (name : string) (ls : list (string * Health.event)) : list Health.event :=
  omap (fun ne => if decide (ne.1 = name) then Some ne.2 else None) ls.

Lemma loops_project ls es ls' name l :
  steps loops_step ls es ls' -> ls !! name = Some l ->
  exists l', ls' !! name = Some l' /\ steps Health.loop_step l (events_of name es) l'.
Proof.
  intros Hs. revert l. induction Hs as [ls|ls [n e] ls1 es ls2 H1 _ IH]; intros l Hl.
  { exists l. split; [done|constructor]. }
  inversion H1 as [name' e' l0 l1 Hcr Hl0 Hstep]; subst. unfold events_of. simpl.
  destruct (decide (n = name)) as [->|Hne].
  - simplify_eq. destruct (IH l1) as (l' & Hl' & Hs'); [by rewrite lookup_insert_eq|].
    exists l'. split; [done|]. econstructor; eauto.
  - destruct (IH l) as (l' & Hl' & Hs'); [by rewrite lookup_insert_ne|]. by exists l'.
Qed.

Lemma events_of_elem name e ls : e ∈ events_of name ls <-> (name, e) ∈ ls.
Proof.
  unfold events_of. rewrite list_elem_of_omap. split.
  - intros ([n e'] & Hin & He). simpl in He. case_decide; simplify_eq/=. done.
  - intros Hin. exists (name, e). simpl. by rewrite decide_True.
Qed.

Lemma started_lookup m name l :
  Start (new_loops m) !! name = Some l ->
  exists ch, Chain.chains m !! name = Some ch /\
    l = Health.mkLoop (Cfg.Interval (Chain.cfg (Chain.healthChecker ch))) false false 1 0 1 0.
Proof.
  unfold Start, new_loops. rewrite !lookup_fmap.
  destruct (Chain.chains m !! name) as [ch|]; simpl; [|done]. intros [= <-]. by exists ch.
Qed.

(** C24. [Manager.Stop] returns only when health checking is over: in whatever
    way the chains' health checkers interleave with the calls of [Stop], when it
    has returned no goroutine of any of them is left, and none has crashed. *)
Theorem shutdown_quiesces m es order ls :
  steps loops_step (Start (new_loops m)) es ls ->
  (forall name, (name, Health.EvStart) ∉ es) ->
  Stop order `sublist_of` es -> (forall name, is_Some (Chain.chains m !! name) -> name ∈ order) ->
  map_Forall (fun _ l => Health.crashed l = false /\ Health.starting l = 0 /\ Health.looping l = 0) ls.
Proof.
  intros Hs Hno Hstop Hall name l Hl.
  assert (is_Some (Start (new_loops m) !! name)) as [l0 Hl0].
  { clear Hno Hstop. induction Hs as [ls|ls [n e] ls1 es ls2 H1 _ IH]; [by exists l|].
    apply IH in Hl. inversion H1 as [n' e' l1 l1' Hcr Hl1 Hstep]; subst.
    destruct (decide (n = name)) as [->|Hne]; [by exists l1|]. by rewrite lookup_insert_ne in Hl. }
  destruct (loops_project _ _ _ _ _ Hs Hl0) as (l' & Hl' & Hs'). rewrite Hl in Hl'. simplify_eq.
  apply started_lookup in Hl0 as (ch & Hch & ->).
  assert (Health.loop_inv (Health.mkLoop (Cfg.Interval (Chain.cfg (Chain.healthChecker ch))) false false 1 0 1 0))
    as Hi by (unfold Health.loop_inv; simpl; lia).
  destruct (Health.stopped_steps _ _ _ Hs' Hi) as [Hc Hw].
  - rewrite events_of_elem. apply Hno.
  - apply events_of_elem. eapply elem_of_sublist; [|exact Hstop]. unfold Stop.
    apply list_elem_of_bind. exists name. split; [|by apply Hall; exists ch].
    apply list_elem_of_further, list_elem_of_here.
  - pose proof (steps_invariant Health.loop_step Health.loop_inv Health.loop_inv_step _ _ _ Hs' Hi)
      as (H1 & H2 & H3). specialize (H3 Hc). split_and!; [done|lia..].
Qed.

(** *** Boot *)

Lemma visited_keys c visit :
  NoDup visit -> NoDup (visited c visit).*1 /\ forall name ch, (name, ch) ∈ visited c visit <->
    name ∈ visit /\ Cfg.Chains c !! name = Some (Some ch).
Proof.
  intros Hnd. unfold visited.
  assert (forall name ch, (name, ch) ∈ omap (fun name => ch ← Cfg.Chains c !! name; pair name <$> ch) visit <->
    name ∈ visit /\ Cfg.Chains c !! name = Some (Some ch)) as Hin.
  { intros name ch. rewrite list_elem_of_omap. split.
    - intros (n & Hn & He). destruct (Cfg.Chains c !! n) as [[ch'|]|] eqn:E; simplify_eq/=. done.
    - intros [Hn He]. exists name. by rewrite He. }
  split; [|exact Hin]. clear Hin.
  induction Hnd as [|n visit Hn Hnd IH]; simpl; [constructor|].
  destruct (Cfg.Chains c !! n) as [[ch|]|]; simpl; try done.
  apply NoDup_cons. split; [|done]. rewrite list_elem_of_fmap. intros ([n' c'] & -> & Hin).
  apply list_elem_of_omap in Hin as (n2 & Hn2 & He).
  destruct (Cfg.Chains c !! n2) as [[ch'|]|]; simplify_eq/=. done.
Qed.

(** What [NewServer] and [Start] told the gRPC library. *)
Definition grpc_as_configured (sc : string -> string -> result nat) (listen : string -> result nat)
    (g : Cfg.GRPCConfig) (srv : GrpcServer.Server) : Prop :=
  GrpcServer.config srv = g /\ GrpcServer.serving srv = true /\
  (exists l, listen (":" +:+ pretty (Cfg.grpc_Port g)) = Ok l /\ GrpcServer.listener srv = Some l) /\
  GrpcServer.services srv =
    [GrpcServer.RPCService; GrpcServer.HealthService; GrpcServer.StandardHealth true] /\
  (if Cfg.tls_Enabled (Cfg.grpc_TLS g)
   then exists creds, sc (Cfg.CertFile (Cfg.grpc_TLS g)) (Cfg.KeyFile (Cfg.grpc_TLS g)) = Ok creds /\
     GrpcServer.options srv = [GrpcServer.Creds creds; GrpcServer.UnaryInterceptor; GrpcServer.StreamInterceptor]
   else GrpcServer.options srv = [GrpcServer.UnaryInterceptor; GrpcServer.StreamInterceptor]).

Lemma boot_grpc_spec sc listen c g :
  boot_grpc sc listen c = Ok g ->
  match g with
  | Some srv => Cfg.grpc_Enabled (Cfg.GRPC c) = true /\ grpc_as_configured sc listen (Cfg.GRPC c) srv
  | None => Cfg.grpc_Enabled (Cfg.GRPC c) = false
  end.
Proof.
  unfold boot_grpc, GrpcServer.NewServer, grpc_as_configured. destruct (Cfg.grpc_Enabled _); [|by intros [= <-]].
  destruct (Cfg.tls_Enabled _); [destruct (sc _ _) as [creds|]; [|done]|];
    unfold GrpcServer.Start; simpl; destruct (listen _) as [l|] eqn:El; intros [= <-]; simpl;
    split_and!; eauto.
Qed.

Lemma boot_tls_spec rf ap lp c t :
  boot_tls rf ap lp c = Ok t ->
  let ctls := Cfg.ClientTLS (Cfg.TLS (Cfg.Server c)) in
  if Cfg.ctls_Enabled ctls
  then is_Some t /\ ClientTLS.NewClientTLSConfig rf ap lp ctls = Ok t
  else t = None.
Proof.
  unfold boot_tls. destruct (Cfg.ctls_Enabled _) eqn:E; [|by intros [= <-]].
  destruct (ClientTLS.NewClientTLSConfig _ _ _ _) as [t'|] eqn:Et; intros [= <-]. split; [|done].
  unfold ClientTLS.NewClientTLSConfig in Et. rewrite E in Et.
  repeat case_match; simplify_eq. by eexists.
Qed.

(** The chains of a manager, and their health checkers, built from the
    configuration. *)
Lemma boot_chains c visit t st m :
  NoDup visit -> (forall name, name ∈ visit <-> is_Some (Cfg.Chains c !! name)) ->
  Chain.NewManagerWithOptions (visited c visit) t ∅ = (st, m) ->
  forall name, match Cfg.Chains c !! name with
     | Some (Some ch) => exists k, Chain.GetChain m name = Some k /\ Chain.as_configured name ch t st k /\
         Start (new_loops m) !! name = Some (Health.mkLoop (Cfg.Interval (Cfg.HealthCheck ch)) false false 1 0 1 0)
     | _ => Chain.GetChain m name = None /\ Start (new_loops m) !! name = None
     end.
Proof.
  intros Hnd Hvis Em name. unfold Chain.NewManagerWithOptions in Em.
  destruct (Chain.new_chains _ _ _ _) as [st1 m1] eqn:En. simplify_eq.
  destruct (visited_keys c visit Hnd) as [Hnd' Hin].
  pose proof (Chain.separate_new_chains _ _ _ _ _ _ En) as [_ Hdom].
  { split; [intros n ch|intros n1 n2 c1 c2]; by rewrite lookup_empty. }
  destruct (Chain.new_chains_configured _ _ _ _ _ _ En Hnd') as [Hnew _].
  assert (forall n, is_Some (m1 !! n) -> exists ch, Cfg.Chains c !! n = Some (Some ch)) as Hback.
  { intros n Hn. apply elem_of_dom in Hn. rewrite Hdom, dom_empty_L in Hn.
    rewrite elem_of_union, elem_of_list_to_set, list_elem_of_fmap in Hn.
    destruct Hn as [?|([n' ch] & -> & Hn)]; [set_solver|]. apply Hin in Hn as [_ ?]. by exists ch. }
  unfold Start, new_loops, Chain.GetChain. rewrite !lookup_fmap. simpl.
  destruct (Cfg.Chains c !! name) as [[ch|]|] eqn:E.
  - assert ((name, ch) ∈ visited c visit) as Hv by (apply Hin; split; [apply Hvis|]; by eauto).
    destruct (Hnew _ _ Hv) as (k & Hk & Hconf). exists k. split_and!; [done..|].
    destruct Hconf as (_ & _ & _ & _ & _ & _ & Hh & _). rewrite Hk. simpl. by rewrite Hh.
  - assert (m1 !! name = None) as ->; [|done].
    apply eq_None_not_Some. intros Hk. destruct (Hback _ Hk). congruence.
  - assert (m1 !! name = None) as ->; [|done].
    apply eq_None_not_Some. intros Hk. destruct (Hback _ Hk). congruence.
Qed.


(** How many actions of the shutdown have been done. *)
Definition is_done (e : event) : bool := match e with Done => true | _ => false end.

Definition dones (es : list event) : nat := length (filter is_done es).

Lemma dones_snoc es e : dones (es ++ [e]) = (dones es + if is_done e then 1 else 0)%nat.
Proof. unfold dones. rewrite filter_app, length_app. by destruct e. Qed.

(** The running program ends by [log.Fatalf] only when the HTTP server could
    not listen; otherwise a signal makes it shut down, and it ends after all of
    [shutdown] has been done, in its order.  A failed metrics server never
    stops it. *)
Theorem main_ends order p es s :
  execute (main_step order p) Running es = Some s ->
  match s with
  | Running => ~ (Signal ∈ es) /\ dones es = 0%nat
  | ShuttingDown todo => Signal ∈ es /\ exists did, shutdown order p = did ++ todo /\ length did = dones es
  | Stopped => Signal ∈ es /\ dones es = S (length (shutdown order p))
  | Fatal err => exists e, HTTPReturned (Some e) ∈ es /\ err = ErrWrap "Server error" e
  end.
Proof.
  revert s. induction es as [|e es IH] using rev_ind; intros s He; simpl in He; [simplify_eq; set_solver|].
  rewrite execute_app in He. destruct (execute _ Running es) as [s1|]; [|done].
  cbn [mbind option_bind execute] in He. apply bind_Some in He as (s' & He & [= ->]).
  specialize (IH s1 eq_refl). rewrite dones_snoc.
  destruct s1 as [|todo| |err].
  - destruct IH as [IH Hd], e as [[err|]|err| |]; simpl in He; [| |destruct (metrics p)| |]; simplify_eq/=.
    + exists err. split; [set_solver|done].
    + split; [set_solver|]. lia.
    + split; [set_solver|]. lia.
    + split; [set_solver|]. exists []. split; [done|]. simpl. lia.
  - destruct IH as (IH & did & Hdid & Hn), e as [[err|]|err| |]; cbn [main_step] in He;
      [| |destruct (metrics p); [|done]| |]; simplify_eq; cbn [is_done].
    + exists err. split; [set_solver|done].
    + split; [set_solver|]. exists did. split; [done|]. lia.
    + split; [set_solver|]. exists did. split; [done|]. lia.
    + split; [set_solver|]. exists did. split; [done|]. lia.
    + destruct todo as [|a todo]; simplify_eq; (split; [set_solver|]).
      * rewrite Hdid, app_nil_r. lia.
      * exists (did ++ [a]). rewrite <- app_assoc, length_app. simpl. split; [done|]. lia.
  - done.
  - done.
Qed.

(** ** Witnesses *)

(** A matcher for the paths of the examples. *)
Definition sample_matches (prefix : bool) (p path : string) : option string :=
  if prefix then
    if decide (p = "/"%string) then Some ""%string
    else if decide (path = "/ethereum"%string) then Some "ethereum"%string else None
  else if decide (p = "/:chain/"%string /\ path = "/ethereum"%string) then Some "ethereum"%string
  else if decide (p = path) then Some ""%string else None.

Lemma transparent_id : transparent (fun h => h).
Proof. intros h w. split; [done|]. by destruct (h w).2. Qed.

Definition sample_request (m p : string) : request :=
  mkRequest m p "{}" "10.0.0.1" 5 (Proxy.sample_env 0) ["ethereum"; "polygon"]%string.

Definition sample_world : Proxy.world :=
  (Proxy.sample_state, ProxyLimiter.NewRateLimiter (Cfg.mkRateLimit true 1 1 "" true)).

Abbreviation sample_serve := (serve sample_matches (fun h => h) Proxy.sample_unmarshal).

(** Handlers of which the one for RPC requests panics. *)
Definition panicking : handlers :=
  mkHandlers (fun w => (w, Proxy.Errored (ErrNew "") [])) (fun w => (w, Proxy.Errored (ErrNew "") []))
    (fun _ w => (w, Proxy.Errored (ErrNew "") [])) (fun w => (w, Proxy.Errored (ErrNew "") []))
    (fun _ w => (w, Proxy.Panicked "index out of range" [])).

Definition sample_post : request := sample_request "POST" "/ethereum".

Definition panicking_run : Proxy.world * option Proxy.response :=
  serve_with sample_matches (fun h => h) panicking sample_post sample_world.


Lemma always_answered_witness :
  (exists resp, (sample_serve (sample_request "OPTIONS" "/ethereum") sample_world).2 = Some resp /\
     resp = Proxy.mkResponse 204 Proxy.cors_headers Proxy.BEmpty) /\
  (exists resp hs, (sample_serve (sample_request "POST" "/nowhere") sample_world).2 = Some resp /\
     resp = internal_error hs) /\
  (exists resp hs, panicking_run.2 = Some resp /\ resp = internal_error hs /\
     Proxy.updates panicking_run.1.1 = Metrics.RecordError "ethereum" "panic").
Proof.
  split; [|split].
  - destruct (always_answered sample_matches (fun h => h) (fun _ => eq_refl) transparent_id
      (endpoints (proxy_handlers Proxy.sample_unmarshal (sample_request "OPTIONS" "/ethereum"))
         (sample_request "OPTIONS" "/ethereum"))
      (sample_request "OPTIONS" "/ethereum") sample_world _ _ (surjective_pairing _)) as (resp & H1 & _ & H2).
    exists resp. split; [exact H1|]. rewrite decide_True in H2 by reflexivity. exact (proj2 H2).
  - destruct (always_answered sample_matches (fun h => h) (fun _ => eq_refl) transparent_id
      (endpoints (proxy_handlers Proxy.sample_unmarshal (sample_request "POST" "/nowhere"))
         (sample_request "POST" "/nowhere"))
      (sample_request "POST" "/nowhere") sample_world _ _ (surjective_pairing _)) as (resp & H1 & _ & H2).
    rewrite decide_False in H2 by exact (bool_decide_eq_false_1 ("POST" = "OPTIONS")%string eq_refl).
    destruct H2 as [_ H2]. destruct H2 as (_ & hs & H3).
    { repeat apply Forall_cons_2; try apply Forall_nil_2; vm_compute; reflexivity. }
    exists resp, hs. split; [exact H1|exact H3].
  - destruct (always_answered sample_matches (fun h => h) (fun _ => eq_refl) transparent_id
      (endpoints panicking sample_post) sample_post sample_world _ _ (surjective_pairing _)) as (resp & H1 & _ & H2).
    rewrite decide_False in H2 by exact (bool_decide_eq_false_1 ("POST" = "OPTIONS")%string eq_refl).
    destruct H2 as [(_ & hs & H3) _]. exists resp, hs.
    split; [exact H1|]. split; [exact H3|]. vm_compute. reflexivity.
Defined.

Lemma health_not_limited_witness :
  exists resp, (sample_serve (sample_request "GET" "/health") sample_world).2 = Some resp /\
    Proxy.status resp = 200.
Proof.
  pose proof (health_not_limited sample_matches (fun h => h) (fun _ => eq_refl) transparent_id Proxy.sample_unmarshal
    (sample_request "GET" "/health") sample_world
    (sample_serve (sample_request "GET" "/health") sample_world).1
    (sample_serve (sample_request "GET" "/health") sample_world).2
    eq_refl eq_refl eq_refl (surjective_pairing _)) as H.
  vm_compute in H. destruct H as (_ & resp & H1 & H2 & _).
  exists resp. split; [vm_compute; exact H1|exact H2].
Defined.

Definition sample_loops : Loops := Start (new_loops (Proxy.manager Proxy.sample_state)).

(** Both chains stop, one of them during a round. *)
Definition sample_stop : list (string * Health.event) :=
  [("ethereum", Health.EvFirstRound); ("polygon", Health.EvFirstRound);
   ("ethereum", Health.EvCancel); ("ethereum", Health.EvTick); ("ethereum", Health.EvExit);
   ("ethereum", Health.EvStopped); ("polygon", Health.EvCancel); ("polygon", Health.EvExit);
   ("polygon", Health.EvStopped)]%string.

(** The loops after some events, as a function. *)
Definition next_loops (ls : Loops) (ne : string * Health.event) : option Loops :=
  if decide (map_Forall (fun _ l => Health.crashed l = false) ls) then
    l ← ls !! ne.1; l' ← Health.next l ne.2; Some (<[ne.1 := l']> ls)
  else None.

Lemma run_loops_steps ls es ls' : execute next_loops ls es = Some ls' -> steps loops_step ls es ls'.
Proof.
  revert ls. induction es as [|[n e] es IH]; intros ls He; simpl in He; [simplify_eq; constructor|].
  unfold next_loops in He. simpl in He. case_decide; simpl in He; [|done].
  destruct (ls !! n) as [l|] eqn:El; simpl in He; [|done].
  destruct (Health.next l e) as [l'|] eqn:En; simpl in He; [|done].
  econstructor; [by econstructor|by apply IH].
Qed.

Lemma shutdown_quiesces_witness :
  exists ls, execute next_loops sample_loops sample_stop = Some ls /\
    map_Forall (fun _ l => Health.crashed l = false /\ Health.starting l = 0 /\ Health.looping l = 0) ls.
Proof.
  destruct (execute next_loops sample_loops sample_stop) as [ls|] eqn:E; [|vm_compute in E; discriminate E].
  exists ls. split; [reflexivity|].
  refine (shutdown_quiesces (Proxy.manager Proxy.sample_state) sample_stop ["ethereum"; "polygon"]%string ls
    (run_loops_steps _ _ _ E) _ _ _).
  - intros name Hin. unfold sample_stop in Hin.
    repeat (apply elem_of_cons in Hin as [Hin|Hin]; [discriminate Hin|]). by apply elem_of_nil in Hin.
  - unfold sample_stop, Stop. simpl. repeat first [apply sublist_nil | apply sublist_skip | apply sublist_cons].
  - intros name [c Hc].
    destruct (decide (name = "ethereum"%string)) as [->|H1]; [apply list_elem_of_here|].
    destruct (decide (name = "polygon"%string)) as [->|H2]; [apply list_elem_of_further, list_elem_of_here|].
    exfalso. apply elem_of_dom_2 in Hc. revert Hc.
    replace (dom (Chain.chains (Proxy.manager Proxy.sample_state))) with ({["ethereum"; "polygon"]}%string : gset string)
      by (vm_compute; reflexivity).
    intros [Hn%elem_of_singleton|Hn%elem_of_singleton]%elem_of_union; [exact (H1 Hn)|exact (H2 Hn)].
Defined.

(** A configuration with TLS towards the backends, a limiter and gRPC. *)
Definition tls_config : Cfg.Config :=
  let c := Cfg.sample in
  let s := Cfg.Server c in
  Cfg.mkConfig
    (Cfg.mkServer (Cfg.Port s) (Cfg.ReadTimeout s) (Cfg.WriteTimeout s)
       (Cfg.mkTLS false "" "" ClientTLS.sample_cfg))
    (Cfg.mkGRPC true 0 (Cfg.grpc_TLS (Cfg.GRPC c))) (Cfg.Redis c) (Cfg.Metrics c) (Cfg.RateLimit c)
    (Cfg.Cache c) (Cfg.Chains c).

Definition boot_sample (c : Cfg.Config) : go (result program) :=
  boot (fun _ => Ok c) (fun _ => Ok "pem"%string) (fun _ => Some 1%nat) (fun _ _ => Ok 2%nat) (fun _ _ => Ok 0%nat)
    (fun _ => Ok 0%nat) (Ok ""%string) ["ethereum"%string].


(** The HTTP server stops cleanly and the chains are stopped after it. *)
Lemma main_ends_witness :
  exists p, boot_sample tls_config = Ret (Ok p) /\
    dones [Signal; HTTPReturned None; Done; Done; Done; Done; Done] = S (length (shutdown ["ethereum"%string] p)).
Proof.
  destruct (boot_sample tls_config) as [[p|]|] eqn:E; [|vm_compute in E; discriminate E..].
  exists p. split; [reflexivity|].
  apply (main_ends ["ethereum"%string] p
    [Signal; HTTPReturned None; Done; Done; Done; Done; Done] Stopped).
  vm_compute in E. injection E as <-. vm_compute. reflexivity.
Defined.

End App.
